(** * phosphor-di: a shallow embedding of [src/index.ts]

    The container keeps a registry (a JavaScript [Map] keyed by token
    identity) of resolvers.  Registration validates the candidate factory
    with a depth-first cycle search; resolution walks the registry and
    builds a graph of promises whose callbacks run later, one microtask at
    a time.  Promises, their reactions and the microtask queue are modelled
    explicitly, the callbacks of [index.ts] are defunctionalised into
    [Handler]. *)

From stdpp Require Import gmap strings list.

Set Warnings "-register-all".

(** ** Data model *)

(** [enum Lifetime]. *)
Inductive Lifetime := Singleton | Transient.

(** [class Token<T>]: an object, compared by reference.  [tok_addr] is the
    reference, [name] the read-only diagnostic string. *)
Record Token := { tok_addr : positive; name : string }.

(** The [===] of two tokens. *)
Definition token_eqb (a b : Token) : bool :=
  bool_decide (tok_addr a = tok_addr b).

(** JavaScript values, as far as the container passes them around. *)
Inductive Value :=
  | VUndefined
  | VNull
  | VNum (z : Z)
  | VStr (s : string)
  | VObj (a : nat)
  | VError (msg : string)
  | VArr (vs : list Value)
  | VPromise (p : nat).

(** What a call of a factory's [create] does: return a value, throw, or
    return a promise of its own that is settled from outside later. *)
Inductive CreateResult :=
  | CReturn (v : Value)
  | CThrow (e : Value)
  | CAsync.

(** [interface IFactory<T>].  [fid] is the identity of the factory object;
    [lifetime] is optional; [create] receives, besides the arguments, the
    serial number of the invocation (it may allocate, or behave differently
    from call to call). *)
Record IFactory := {
  fid : positive;
  lifetime : option Lifetime;
  requires : list Token;
  create : nat -> list Value -> CreateResult;
}.

(** [class TransientResolver] and [class SingletonResolver], with their
    private fields. *)
Inductive IResolver :=
  | TransientResolver (_factory : IFactory)
  | SingletonResolver (_factory : IFactory) (_value : Value)
                      (_resolved : bool) (_promise : option nat).

(** The [factory] getter of both classes. *)
Definition factory (r : IResolver) : IFactory :=
  match r with
  | TransientResolver f => f
  | SingletonResolver f _ _ _ => f
  end.

(** [type Registry = Map<Token, IResolver>], keyed by token identity. *)
Abbreviation Registry := (gmap positive IResolver).

(** The callbacks the module hands to [then], defunctionalised.
    [owner] in [HCreate] is bookkeeping: the registry key of the resolver
    that started the resolution, [None] for a factory resolved directly. *)
Inductive Handler :=
  | HCreate (owner : option positive) (f : IFactory)
  | HSingleton (key : positive)
  | HAllElement (all : nat) (index : nat)
  | HAdopt (target : nat).

(** A reaction registered by [then]: the callback and the derived promise. *)
Record Reaction := { handler : Handler; derived : nat }.

Inductive Settlement :=
  | Fulfill (v : Value)
  | Reject (e : Value).

Inductive PromiseState :=
  | Pending (reactions : list Reaction)
  | Settled (s : Settlement).

(** Who may settle the promise: a [then] or the module itself ([Plain]),
    the caller's code ([External], a promise returned by [create]), or the
    element functions of a [Promise.all] ([All], with the promises it
    joins, its array of values and its count of remaining elements). *)
Inductive PromiseKind :=
  | Plain
  | External
  | All (elements : list Value) (values : list Value) (remaining : nat).

Record PromiseCell := { pstate : PromiseState; pkind : PromiseKind }.

Inductive Job :=
  | JReaction (r : Reaction) (arg : Settlement)
  | JThenable (target : nat) (thenable : nat).

(** What the outside can observe ([console.error], calls of [create]) and
    bookkeeping events used to count resolution attempts. *)
Inductive Event :=
  | EConsoleError (msg : string)
  | ECreate (owner : option positive) (f : positive) (via : nat)
            (serial : nat) (args : list Value)
  | EAttempt (owner : option positive) (f : positive) (via : nat)
             (deps : list Value)
  | EDepFail (owner : option positive) (f : positive) (via : nat)
  | ESingletonDone (key : positive) (ok : bool).

(** One container together with the promise heap and the microtask queue
    of the runtime it lives in. *)
Record State := {
  registry : Registry;
  promises : list PromiseCell;
  queue : list Job;
  serial : nat;
  log : list Event;
}.

(** [new Container()] in a fresh runtime. *)
Definition initial : State :=
  {| registry := ∅; promises := []; queue := []; serial := 0; log := [] |}.

Definition set_registry (r : Registry) (st : State) : State :=
  {| registry := r; promises := promises st; queue := queue st;
     serial := serial st; log := log st |}.
Definition set_promises (h : list PromiseCell) (st : State) : State :=
  {| registry := registry st; promises := h; queue := queue st;
     serial := serial st; log := log st |}.
Definition set_queue (q : list Job) (st : State) : State :=
  {| registry := registry st; promises := promises st; queue := q;
     serial := serial st; log := log st |}.
Definition set_serial (n : nat) (st : State) : State :=
  {| registry := registry st; promises := promises st; queue := queue st;
     serial := n; log := log st |}.
Definition emit (e : Event) (st : State) : State :=
  {| registry := registry st; promises := promises st; queue := queue st;
     serial := serial st; log := log st ++ [e] |}.

(** ** Registration *)

(** [Container.isRegistered]. *)
Definition isRegistered (token : Token) (st : State) : bool :=
  bool_decide (is_Some (registry st !! tok_addr token)).

(** [createRegistry]. *)
Definition createRegistry : Registry := ∅.

(** [logRegisterError]. *)
Definition registerErrorMessage (token : Token) : string :=
  "Token '" +:+ name token +:+ "' is already registered.".

(** [Array.prototype.join]. *)
Fixpoint join (sep : string) (l : list string) : string :=
  match l with
  | [] => ""
  | [s] => s
  | s :: rest => s +:+ sep +:+ join sep rest
  end.

(** [logCycleError]. *)
Definition cycleErrorMessage (token : Token) (cycle : list Token) : string :=
  let path := join " -> " (map (fun t => "'" +:+ name t +:+ "'") cycle) in
  "Cycle detected: '" +:+ name token +:+ "' -> " +:+ path +:+ ".".

(** [createResolver]. *)
Definition createResolver (f : IFactory) : IResolver :=
  match lifetime f with
  | Some Transient => TransientResolver f
  | _ => SingletonResolver f VNull false None
  end.

(** The inner function [visit] of [findCycle].  [trace] is the array the
    closure shares: [push] appends, [pop] removes the last element.  The
    [for] loop is [visit_loop]; [fuel] bounds the depth of the recursion
    (the JavaScript call stack), [None] is a recursion that does not
    return. *)
Section findCycle.
Variable registry0 : Registry.
Variable token : Token.

Section loop.
Variable visit_rec : list Token -> list Token -> option (bool * list Token).

Fixpoint visit_loop (reqs : list Token) (trace : list Token)
    : option (bool * list Token) :=
    match reqs with
    | [] => Some (false, trace)
    | other :: rest =>
        let trace := trace ++ [other] in
        if token_eqb other token then Some (true, trace)
        else
          match registry0 !! tok_addr other with
          | Some resolver =>
              match visit_rec (requires (factory resolver)) trace with
              | None => None
              | Some (true, trace) => Some (true, trace)
              | Some (false, trace) => visit_loop rest (removelast trace)
              end
          | None => visit_loop rest (removelast trace)
          end
    end.
End loop.

Fixpoint visit (fuel : nat) (reqs : list Token) (trace : list Token)
  : option (bool * list Token) :=
  match fuel with
  | 0 => None
  | S k => visit_loop (visit k) reqs trace
  end.

(** [findCycle]: [let trace = []; visit(factory); return trace;]. *)
Definition findCycle (fuel : nat) (f : IFactory) : option (list Token) :=
  match visit fuel (requires f) [] with
  | Some (_, trace) => Some trace
  | None => None
  end.
End findCycle.

(** [Container.register]. *)
Definition register (fuel : nat) (token : Token) (f : IFactory) (st : State)
  : option State :=
  if bool_decide (is_Some (registry st !! tok_addr token)) then
    Some (emit (EConsoleError (registerErrorMessage token)) st)
  else
    match findCycle (registry st) token fuel f with
    | None => None
    | Some cycle =>
        if bool_decide (0 < length cycle) then
          Some (emit (EConsoleError (cycleErrorMessage token cycle)) st)
        else
          Some (set_registry
                  (<[tok_addr token := createResolver f]> (registry st)) st)
    end.

(** ** Paths of [requires] edges *)

(** A path is named by the index chosen in each [requires] array on the
    way.  [walk] follows the indices from [reqs]: it moves on through
    registered tokens only, and succeeds when the last index selects a token
    identical to [token], no token before it being [token]. *)
Fixpoint walk (reg : Registry) (token : Token) (reqs : list Token)
  (path : list nat) : option (list Token) :=
  match path with
  | [] => None
  | i :: rest =>
      match reqs !! i with
      | None => None
      | Some other =>
          if token_eqb other token then
            match rest with [] => Some [other] | _ => None end
          else
            match reg !! tok_addr other with
            | Some resolver =>
                cons other <$> walk reg token (requires (factory resolver)) rest
            | None => None
            end
      end
  end.

(** The same paths, as sequences of tokens. *)
Inductive cycle_path (reg : Registry) (token : Token)
  : list Token -> list Token -> Prop :=
  | cycle_here reqs other :
      other ∈ reqs -> token_eqb other token = true ->
      cycle_path reg token reqs [other]
  | cycle_step reqs other resolver p :
      other ∈ reqs -> token_eqb other token = false ->
      reg !! tok_addr other = Some resolver ->
      cycle_path reg token (requires (factory resolver)) p ->
      cycle_path reg token reqs (other :: p).

(** The order in which a depth-first traversal meets the paths. *)
Fixpoint lex_leb (a b : list nat) : bool :=
  match a, b with
  | [], _ => true
  | _ :: _, [] => false
  | i :: a', j :: b' => (i <? j) || ((i =? j) && lex_leb a' b')
  end.

(** [trace] is what a depth-first search for [token] from [reqs] reports:
    nothing when no path leads to [token], the first path otherwise. *)
Definition first_cycle (reg : Registry) (token : Token) (reqs : list Token)
  (trace : list Token) : Prop :=
  match trace with
  | [] => forall path, walk reg token reqs path = None
  | _ => exists path, walk reg token reqs path = Some trace /\
           forall path' trace', walk reg token reqs path' = Some trace' ->
                                lex_leb path path' = true
  end.

(** A token from which every chain of [requires] edges through registered
    tokens ends. *)
Inductive grounded (reg : Registry) : positive -> Prop :=
  | grounded_unregistered a : reg !! a = None -> grounded reg a
  | grounded_registered a resolver :
      reg !! a = Some resolver ->
      (forall t, t ∈ requires (factory resolver) ->
                 grounded reg (tok_addr t)) ->
      grounded reg a.

Definition acyclic (reg : Registry) : Prop := forall a, grounded reg a.

(** ** The runtime: state, promises and microtasks *)

(** Computations over the state.  [None] stands for a call that does not
    return (the recursion bound [fuel] of [resolveToken] and [findCycle]
    is exhausted); nothing in the module throws synchronously. *)
Definition M (A : Type) : Type := State -> option (A * State).

Definition ret {A} (a : A) : M A := fun st => Some (a, st).

Definition bind {A B} (m : M A) (k : A -> M B) : M B :=
  fun st => match m st with
            | Some (a, st') => k a st'
            | None => None
            end.

Definition diverge {A} : M A := fun _ => None.

Definition modify (f : State -> State) : M unit := fun st => Some (tt, f st).

Notation "'let*' x := c1 'in' c2" := (bind c1 (fun x => c2))
  (at level 10, x name, c1 at level 100, c2 at level 200).

(** [Array.prototype.map] with an effectful callback. *)
Fixpoint mapM {A B} (f : A -> M B) (l : list A) : M (list B) :=
  match l with
  | [] => ret []
  | a :: rest =>
      let* b := f a in
      let* bs := mapM f rest in
      ret (b :: bs)
  end.

(** A new promise object. *)
Definition alloc (c : PromiseCell) : M nat :=
  fun st => Some (length (promises st), set_promises (promises st ++ [c]) st).

Definition enqueue (j : Job) : M unit :=
  modify (fun st => set_queue (queue st ++ [j]) st).

(** Fulfil or reject a pending promise: its reactions become microtasks.
    A settled promise stays as it is. *)
Definition settle (p : nat) (s : Settlement) : M unit :=
  fun st =>
    match promises st !! p with
    | Some {| pstate := Pending rs; pkind := k |} =>
        Some (tt, set_queue (queue st ++ map (fun r => JReaction r s) rs)
                    (set_promises
                       (<[p := {| pstate := Settled s; pkind := k |}]>
                          (promises st)) st))
    | _ => Some (tt, st)
    end.

(** The resolve function of promise [p]: a promise as argument is adopted
    by a later microtask, anything else fulfils [p]. *)
Definition resolvePromise (p : nat) (x : Value) : M unit :=
  match x with
  | VPromise q =>
      if decide (q = p)
      then settle p (Reject (VError "TypeError: Chaining cycle detected for promise"))
      else enqueue (JThenable p q)
  | _ => settle p (Fulfill x)
  end.

(** The second half of [then]: the reaction waits in [p], or is queued at
    once when [p] is settled. *)
Definition attach (p : nat) (r : Reaction) : M unit :=
  fun st =>
    match promises st !! p with
    | Some {| pstate := Pending rs; pkind := k |} =>
        Some (tt, set_promises
                    (<[p := {| pstate := Pending (rs ++ [r]); pkind := k |}]>
                       (promises st)) st)
    | Some {| pstate := Settled s; pkind := _ |} => enqueue (JReaction r s) st
    | None => Some (tt, st)
    end.

(** [p.then(h)]: the derived promise is created first. *)
Definition then_ (p : nat) (h : Handler) : M nat :=
  let* d := alloc {| pstate := Pending []; pkind := Plain |} in
  let* _ := attach p {| handler := h; derived := d |} in
  ret d.

(** [Promise.resolve(x)]. *)
Definition Promise_resolve (x : Value) : M nat :=
  match x with
  | VPromise p => ret p
  | _ => alloc {| pstate := Settled (Fulfill x); pkind := Plain |}
  end.

(** [Promise.reject(e)]. *)
Definition Promise_reject (e : Value) : M nat :=
  alloc {| pstate := Settled (Reject e); pkind := Plain |}.

(** The loop of [Promise.all] over its elements. *)
Fixpoint all_loop (R : nat) (i : nat) (xs : list Value) : M unit :=
  match xs with
  | [] => ret tt
  | x :: rest =>
      let* q := Promise_resolve x in
      let* _ := then_ q (HAllElement R i) in
      all_loop R (S i) rest
  end.

(** [Promise.all(xs)].  No callback runs during the loop, so the array of
    values and the count of remaining elements are set up at once. *)
Definition Promise_all (xs : list Value) : M nat :=
  let* R := alloc {| pstate := Pending [];
                     pkind := All xs (replicate (length xs) VUndefined)
                                  (length xs) |} in
  let* _ := all_loop R 0 xs in
  let* _ := if bool_decide (length xs = 0)
            then settle R (Fulfill (VArr [])) else ret tt in
  ret R.

(** The resolve-element function number [i] of the [Promise.all] [R]. *)
Definition allElement (R i : nat) (v : Value) : M unit :=
  fun st =>
    match promises st !! R with
    | Some {| pstate := ps; pkind := All els vals rem |} =>
        let vals' := <[i := v]> vals in
        let st' := set_promises
                     (<[R := {| pstate := ps; pkind := All els vals' (rem - 1) |}]>
                        (promises st)) st in
        if bool_decide (rem - 1 = 0) then resolvePromise R (VArr vals') st'
        else Some (tt, st')
    | _ => Some (tt, st)
    end.

(** The argument list [Function.prototype.apply] builds. *)
Definition apply_args (v : Value) : option (list Value) :=
  match v with
  | VArr vs => Some vs
  | VUndefined | VNull => Some []
  | _ => None
  end.

(** The next serial number for a call of [create]. *)
Definition next_serial : M nat :=
  fun st => Some (serial st, set_serial (S (serial st)) st).

(** [factory.create.apply(factory, dependencies)] inside the callback of
    [resolveFactory]; [d] is the promise the callback settles. *)
Definition callCreate (owner : option positive) (f : IFactory) (d : nat)
  (deps : list Value) : M unit :=
  let* n := next_serial in
  let* _ := modify (emit (ECreate owner (fid f) d n deps)) in
  match create f n deps with
  | CReturn v => resolvePromise d v
  | CThrow e => settle d (Reject e)
  | CAsync =>
      let* p := alloc {| pstate := Pending []; pkind := External |} in
      resolvePromise d (VPromise p)
  end.

(** The assignments of the two callbacks of [SingletonResolver.resolve],
    and of [resolve] itself, to the fields of the resolver. *)
Definition on_fulfilled (v : Value) (r : IResolver) : IResolver :=
  match r with
  | SingletonResolver f _ _ _ => SingletonResolver f v true None
  | TransientResolver f => TransientResolver f
  end.

Definition on_rejected (r : IResolver) : IResolver :=
  match r with
  | SingletonResolver f v b _ => SingletonResolver f v b None
  | TransientResolver f => TransientResolver f
  end.

Definition set_promise (d : nat) (r : IResolver) : IResolver :=
  match r with
  | SingletonResolver f v b _ => SingletonResolver f v b (Some d)
  | TransientResolver f => TransientResolver f
  end.

Definition update_resolver (key : positive) (g : IResolver -> IResolver)
  : M unit :=
  modify (fun st => set_registry (alter g key (registry st)) st).

Definition singletonFulfilled (key : positive) (v : Value) : M unit :=
  let* _ := update_resolver key (on_fulfilled v) in
  modify (emit (ESingletonDone key true)).

Definition singletonRejected (key : positive) : M unit :=
  let* _ := update_resolver key on_rejected in
  modify (emit (ESingletonDone key false)).

Definition applyTypeError : Value :=
  VError "TypeError: CreateListFromArrayLike called on non-object".

(** One reaction job: call the handler, settle the derived promise. *)
Definition runReaction (r : Reaction) (s : Settlement) : M unit :=
  let d := derived r in
  match handler r, s with
  | HCreate owner f, Fulfill v =>
      match apply_args v with
      | Some deps => callCreate owner f d deps
      | None =>
          let* _ := modify (emit (EDepFail owner (fid f) d)) in
          settle d (Reject applyTypeError)
      end
  | HCreate owner f, Reject e =>
      let* _ := modify (emit (EDepFail owner (fid f) d)) in
      settle d (Reject e)
  | HSingleton key, Fulfill v =>
      let* _ := singletonFulfilled key v in resolvePromise d v
  | HSingleton key, Reject e =>
      let* _ := singletonRejected key in settle d (Reject e)
  | HAllElement R i, Fulfill v =>
      let* _ := allElement R i v in resolvePromise d VUndefined
  | HAllElement R i, Reject e =>
      let* _ := settle R (Reject e) in resolvePromise d VUndefined
  | HAdopt t, Fulfill v =>
      let* _ := resolvePromise t v in resolvePromise d VUndefined
  | HAdopt t, Reject e =>
      let* _ := settle t (Reject e) in resolvePromise d VUndefined
  end.

Definition runJob (j : Job) : M unit :=
  match j with
  | JReaction r s => runReaction r s
  | JThenable t q => let* _ := then_ q (HAdopt t) in ret tt
  end.

(** Run the first microtask of the queue, if there is one. *)
Definition tick : M unit :=
  fun st =>
    match queue st with
    | [] => Some (tt, st)
    | j :: q => runJob j (set_queue q st)
    end.

(** ** Resolution *)

(** [rejectUnregistered]. *)
Definition unregisteredMessage (token : Token) : string :=
  "Unregistered token: '" +:+ name token +:+ "'.".

Definition rejectUnregistered (token : Token) : M nat :=
  Promise_reject (VError (unregisteredMessage token)).

(** The second statement of [resolveFactory]:
    [Promise.all(promises).then(dependencies => factory.create.apply(...))]. *)
Definition createWhenResolved (owner : option positive) (f : IFactory)
  (deps : list Value) : M nat :=
  let* R := Promise_all deps in
  let* d := then_ R (HCreate owner f) in
  let* _ := modify (emit (EAttempt owner (fid f) d deps)) in
  ret d.

Section resolve.
Variable resolveToken_rec : Token -> M Value.

(** [resolveFactory], with the [resolveToken] it calls as a parameter. *)
Definition resolveFactory_with (owner : option positive) (f : IFactory) : M nat :=
  let* deps := mapM resolveToken_rec (requires f) in
  createWhenResolved owner f deps.

(** [TransientResolver.resolve] and [SingletonResolver.resolve]; [key] is
    the registry key under which the resolver ([this]) is stored. *)
Definition resolver_resolve_with (key : positive) (r : IResolver) : M Value :=
  match r with
  | TransientResolver f =>
      let* d := resolveFactory_with (Some key) f in ret (VPromise d)
  | SingletonResolver f value resolved promise =>
      if resolved then ret value
      else
        match promise with
        | Some p => ret (VPromise p)
        | None =>
            let* x := resolveFactory_with (Some key) f in
            let* d := then_ x (HSingleton key) in
            let* _ := update_resolver key (set_promise d) in
            ret (VPromise d)
        end
  end.
End resolve.

(** [resolveToken]; [fuel] bounds the depth of the mutual recursion with
    [resolveFactory] and the resolvers. *)
Fixpoint resolveToken (fuel : nat) (token : Token) : M Value :=
  match fuel with
  | 0 => diverge
  | S k =>
      fun st =>
        match registry st !! tok_addr token with
        | Some resolver =>
            resolver_resolve_with (resolveToken k) (tok_addr token) resolver st
        | None => (let* p := rejectUnregistered token in ret (VPromise p)) st
        end
  end.

(** [resolveFactory]. *)
Definition resolveFactory (fuel : nat) (owner : option positive) (f : IFactory)
  : M nat :=
  resolveFactory_with (resolveToken fuel) owner f.

(** [Container.resolve]: [value instanceof Token] is the left injection. *)
Definition Container_resolve (fuel : nat) (value : Token + IFactory) : M nat :=
  let* result := match value with
                 | inl token => resolveToken fuel token
                 | inr f => let* d := resolveFactory fuel None f in
                            ret (VPromise d)
                 end in
  Promise_resolve result.

(** ** The container in its environment *)

(** What can happen next: a call of a container method, the next
    microtask, or the caller's code settling a promise that one of its
    [create] functions returned. *)
Inductive Action :=
  | CallRegister (token : Token) (f : IFactory)
  | CallResolve (value : Token + IFactory)
  | Microtask
  | SettleExternal (p : nat) (s : Settlement).

(** The caller's code resolves or rejects a promise of its own.  A promise
    that was resolved with another promise and still waits for it may be
    settled here once more, which JavaScript would ignore: the caller is
    given more freedom than it has, so what holds of every reachable state
    holds of every state of the program. *)
Definition settleExternal (p : nat) (s : Settlement) : M unit :=
  fun st =>
    match promises st !! p with
    | Some {| pstate := _; pkind := External |} =>
        match s with
        | Fulfill v => resolvePromise p v st
        | Reject e => settle p (Reject e) st
        end
    | _ => Some (tt, st)
    end.

Definition step (fuel : nat) (a : Action) (st : State) : option State :=
  match a with
  | CallRegister token f => register fuel token f st
  | CallResolve value => snd <$> Container_resolve fuel value st
  | Microtask => snd <$> tick st
  | SettleExternal p s => snd <$> settleExternal p s st
  end.

(** The states a container and its runtime can be in. *)
Inductive reachable : State -> Prop :=
  | reachable_initial : reachable initial
  | reachable_step st fuel a st' :
      reachable st -> step fuel a st = Some st' -> reachable st'.

(** Run a list of actions. *)
Fixpoint run (fuel : nat) (acts : list Action) (st : State) : option State :=
  match acts with
  | [] => Some st
  | a :: rest =>
      match step fuel a st with
      | Some st' => run fuel rest st'
      | None => None
      end
  end.

(** ** Counting reactions and events *)

Fixpoint count {A} (P : A -> bool) (l : list A) : nat :=
  match l with
  | [] => 0
  | x :: rest => (if P x then 1 else 0) + count P rest
  end.

Definition cell_reactions (c : PromiseCell) : list Reaction :=
  match pstate c with
  | Pending rs => rs
  | Settled _ => []
  end.

Definition job_reactions (j : Job) : list Reaction :=
  match j with
  | JReaction r _ => [r]
  | JThenable _ _ => []
  end.

(** The reactions that have been registered and have not run yet: those
    waiting in pending promises and those in the microtask queue. *)
Definition outstanding (st : State) : list Reaction :=
  concat (map cell_reactions (promises st)) ++
  concat (map job_reactions (queue st)).

(** A selection of resolution attempts, by owner, factory and the promise
    that [resolveFactory] returned. *)
Definition Selector : Type := option positive -> positive -> nat -> bool.

Definition pending_create (sel : Selector) (r : Reaction) : bool :=
  match handler r with
  | HCreate o f => sel o (fid f) (derived r)
  | _ => false
  end.

Definition attempted (sel : Selector) (e : Event) : bool :=
  match e with EAttempt o f d _ => sel o f d | _ => false end.

Definition created (sel : Selector) (e : Event) : bool :=
  match e with ECreate o f d _ _ => sel o f d | _ => false end.

Definition skipped (sel : Selector) (e : Event) : bool :=
  match e with EDepFail o f d => sel o f d | _ => false end.

Definition selected_event (sel : Selector) (e : Event) : bool :=
  attempted sel e || created sel e || skipped sel e.

(** The attempts that a resolver started, and those of a factory resolved
    directly. *)
Definition owned (key : positive) : Selector :=
  fun o _ _ => bool_decide (o = Some key).

Definition adhoc (f : positive) : Selector :=
  fun o g _ => bool_decide (o = None) && bool_decide (g = f).

(** The reactions and events of the singleton resolver stored under [key]. *)
Definition singleton_of (key : positive) (r : Reaction) : bool :=
  match handler r with
  | HSingleton k => bool_decide (k = key)
  | _ => false
  end.

Definition done_of (key : positive) (ok : bool) (e : Event) : bool :=
  match e with
  | ESingletonDone k b => bool_decide (k = key) && bool_decide (b = ok)
  | _ => false
  end.

(** The three states of a singleton resolver. *)
Inductive SingletonState :=
  | Unresolved
  | InFlight (p : nat)
  | Resolved (v : Value).

Definition singleton_state (r : IResolver) : option SingletonState :=
  match r with
  | TransientResolver _ => None
  | SingletonResolver _ v true _ => Some (Resolved v)
  | SingletonResolver _ _ false (Some p) => Some (InFlight p)
  | SingletonResolver _ _ false None => Some Unresolved
  end.

(** What identifies a binding: the factory and the class of the resolver. *)
Definition binding (r : IResolver) : IFactory * bool :=
  match r with
  | TransientResolver f => (f, true)
  | SingletonResolver f _ _ _ => (f, false)
  end.

(** The events of the singleton resolver stored under [key]: the outcomes
    of its attempts, and the attempts themselves. *)
Definition outcome_event (key : positive) (e : Event) : bool :=
  done_of key true e || done_of key false e.

Definition resolver_event (key : positive) (e : Event) : bool :=
  outcome_event key e || attempted (owned key) e.

(** The reaction of the singleton resolver [key] that settles promise [d]. *)
Definition waiting_on (key : positive) (d : nat) (r : Reaction) : bool :=
  singleton_of key r && bool_decide (derived r = d).

(** [b] can be reached from [a] along [requires] edges through registered
    tokens. *)
Inductive reaches (reg : Registry) : positive -> positive -> Prop :=
  | reaches_here a : reaches reg a a
  | reaches_step a resolver t b :
      reg !! a = Some resolver -> t ∈ requires (factory resolver) ->
      reaches reg (tok_addr t) b -> reaches reg a b.

(** What the singleton resolver under [key] guarantees in every state:
    one outstanding reaction exactly while a creation is in flight, which
    settles the promise the resolver holds; a resolved resolver holds no
    promise; one successful attempt exactly when resolved; and every attempt
    has ended in success or failure, or is the one in flight. *)
Definition in_flight (r : IResolver) : nat :=
  match r with
  | SingletonResolver _ _ _ (Some _) => 1
  | _ => 0
  end.

Definition is_resolved (r : IResolver) : nat :=
  match r with
  | SingletonResolver _ _ true _ => 1
  | _ => 0
  end.

Definition single_inv (key : positive) (st : State) : Prop :=
  match registry st !! key with
  | Some (SingletonResolver f v resolved promise as r) =>
      count (singleton_of key) (outstanding st) = in_flight r /\
      (forall d, promise = Some d ->
                 count (waiting_on key d) (outstanding st) = 1) /\
      (resolved = true -> promise = None) /\
      count (done_of key true) (log st) = is_resolved r /\
      count (attempted (owned key)) (log st) =
        count (done_of key true) (log st) +
        count (done_of key false) (log st) + in_flight r
  | Some (TransientResolver _) =>
      count (singleton_of key) (outstanding st) = 0 /\
      count (outcome_event key) (log st) = 0
  | None =>
      count (singleton_of key) (outstanding st) = 0 /\
      count (resolver_event key) (log st) = 0
  end.

(** The invariant of a container. *)
Definition container_inv (st : State) : Prop :=
  acyclic (registry st) /\ forall key, single_inv key st.


(** The resolver under [key] is as before, or has started a creation
    whose promise is new. *)
Definition unchanged_or_started (key : positive) (st st' : State) : Prop :=
  registry st' !! key = registry st !! key \/
  exists f v d,
    registry st !! key = Some (SingletonResolver f v false None) /\
    registry st' !! key = Some (SingletonResolver f v false (Some d)) /\
    length (promises st) <= d.


(** ** The values behind the dependencies *)

(** What a dependency collected by [resolveFactory] has come to: a value
    that is not a promise is there at once, a promise once it is settled. *)
Definition settlement (st : State) (x : Value) : option Settlement :=
  match x with
  | VPromise q =>
      match promises st !! q with
      | Some {| pstate := Settled s; pkind := _ |} => Some s
      | _ => None
      end
  | _ => Some (Fulfill x)
  end.

(** The dependency [x] has resolved to the value [v]. *)
Definition resolved_to (st : State) (x v : Value) : Prop :=
  settlement st x = Some (Fulfill v).

(** The attempts whose [resolveFactory] returned the promise [d]. *)
Definition via (d : nat) : Selector := fun _ _ d' => bool_decide (d' = d).


(** ** Notions used to state the properties *)

(** What a visitor of the cycle search must guarantee to its caller. *)
Definition visitor_ok (reg : Registry) (token : Token)
  (V : list Token -> list Token -> option (bool * list Token)) : Prop :=
  forall reqs tr b tr', V reqs tr = Some (b, tr') ->
    if b then exists p, tr' = tr ++ p /\ p <> [] /\ first_cycle reg token reqs p
    else tr' = tr /\ forall path, walk reg token reqs path = None.

(** The selected attempts that have called [create] or were given up. *)
Definition settled_attempts (sel : Selector) (st : State) : nat :=
  count (created sel) (log st) + count (skipped sel) (log st).

(** The selected attempts that are finished or still waiting are exactly
    those that were started. *)
Definition accounted (sel : Selector) (st : State) : Prop :=
  settled_attempts sel st + count (pending_create sel) (outstanding st) =
  count (attempted sel) (log st).

Definition keeps (sel : Selector) (st st' : State) : Prop :=
  settled_attempts sel st' + count (pending_create sel) (outstanding st') +
  count (attempted sel) (log st) =
  settled_attempts sel st + count (pending_create sel) (outstanding st) +
  count (attempted sel) (log st').

(** The assignments a resolver makes to its own fields. *)
Inductive resolver_update : (IResolver -> IResolver) -> Prop :=
  | update_fulfilled v : resolver_update (on_fulfilled v)
  | update_rejected : resolver_update on_rejected
  | update_promise d : resolver_update (set_promise d).

Definition fresh_cell (c : PromiseCell) : Prop :=
  match pstate c with Pending rs => rs = [] | Settled _ => True end.

Definition job_ok (okR : Reaction -> Prop) (j : Job) : Prop :=
  match j with
  | JReaction r _ => okR r
  | JThenable _ _ => True
  end.

Definition react (h : Handler) (d : nat) : Reaction :=
  {| handler := h; derived := d |}.

(** A relation between states that every elementary change of the state
    respects, as long as the reactions, events and registry keys involved
    are among the permitted ones. *)
Record Frame (R : State -> State -> Prop) (okR : Reaction -> Prop)
  (okE : Event -> Prop) (okK : positive -> Prop) : Prop := {
  fr_refl : forall st, R st st;
  fr_trans : forall a b c, R a b -> R b c -> R a c;
  fr_alloc : forall st c, fresh_cell c ->
    R st (set_promises (promises st ++ [c]) st);
  fr_thenable : forall st t q, R st (set_queue (queue st ++ [JThenable t q]) st);
  fr_settle : forall st p rs k s,
    promises st !! p = Some {| pstate := Pending rs; pkind := k |} ->
    R st (set_queue (queue st ++ map (fun r => JReaction r s) rs)
            (set_promises (<[p := {| pstate := Settled s; pkind := k |}]>
                             (promises st)) st));
  fr_attach_pending : forall st p rs k r, okR r ->
    promises st !! p = Some {| pstate := Pending rs; pkind := k |} ->
    R st (set_promises (<[p := {| pstate := Pending (rs ++ [r]); pkind := k |}]>
                          (promises st)) st);
  fr_attach_settled : forall st p s k r, okR r ->
    promises st !! p = Some {| pstate := Settled s; pkind := k |} ->
    R st (set_queue (queue st ++ [JReaction r s]) st);
  fr_kind : forall st p ps els vals rem vals' rem',
    promises st !! p = Some {| pstate := ps; pkind := All els vals rem |} ->
    R st (set_promises (<[p := {| pstate := ps; pkind := All els vals' rem' |}]>
                          (promises st)) st);
  fr_emit : forall st e, okE e -> R st (emit e st);
  fr_serial : forall st, R st (set_serial (S (serial st)) st);
  fr_update : forall st key g, okK key -> resolver_update g ->
    R st (set_registry (alter g key (registry st)) st);
  fr_dequeue : forall st j q, queue st = j :: q -> job_ok okR j ->
    R st (set_queue q st);
  fr_all : forall p i d, okR (react (HAllElement p i) d);
  fr_adopt : forall t d, okR (react (HAdopt t) d);
  fr_create : forall owner f d n deps, okR (react (HCreate owner f) d) ->
    okE (ECreate owner (fid f) d n deps);
  fr_depfail : forall owner f d, okR (react (HCreate owner f) d) ->
    okE (EDepFail owner (fid f) d);
  fr_key : forall key d, okR (react (HSingleton key) d) -> okK key;
  fr_done : forall key d b, okR (react (HSingleton key) d) ->
    okE (ESingletonDone key b);
}.

Arguments fr_refl {_ _ _ _} _.
Arguments fr_trans {_ _ _ _} _.
Arguments fr_alloc {_ _ _ _} _.
Arguments fr_thenable {_ _ _ _} _.
Arguments fr_settle {_ _ _ _} _.
Arguments fr_attach_pending {_ _ _ _} _.
Arguments fr_attach_settled {_ _ _ _} _.
Arguments fr_kind {_ _ _ _} _.
Arguments fr_emit {_ _ _ _} _.
Arguments fr_serial {_ _ _ _} _.
Arguments fr_update {_ _ _ _} _.
Arguments fr_all {_ _ _ _} _.
Arguments fr_dequeue {_ _ _ _} _.
Arguments fr_adopt {_ _ _ _} _.
Arguments fr_create {_ _ _ _} _.
Arguments fr_depfail {_ _ _ _} _.
Arguments fr_key {_ _ _ _} _.
Arguments fr_done {_ _ _ _} _.

Definition rel (R : State -> State -> Prop) {A} (m : M A) : Prop :=
  forall st a st', m st = Some (a, st') -> R st st'.

(** Resolution never changes which factory a token is bound to. *)
Definition same_factories (st st' : State) : Prop :=
  forall a, binding <$> registry st' !! a = binding <$> registry st !! a.

(** The state without its log. *)
Definition erase (st : State) : State :=
  {| registry := registry st; promises := promises st; queue := queue st;
     serial := serial st; log := [] |}.

Definition observe {A} (r : option (A * State)) : option (A * State) :=
  prod_map id erase <$> r.

(** A computation whose result and effect do not depend on the log. *)
Definition log_blind {A} (m : M A) : Prop :=
  forall st, observe (m st) = observe (m (erase st)).

Definition neutral (HP : Reaction -> bool) (EP : Event -> bool)
  (st st' : State) : Prop :=
  (forall P, (forall r, P r = true -> HP r = true) ->
     count P (outstanding st') = count P (outstanding st)) /\
  (forall P, (forall e, P e = true -> EP e = true) ->
     count P (log st') = count P (log st)).

(** The resolver stored under [key] is left alone. *)
Definition same_resolver (key : positive) (st st' : State) : Prop :=
  registry st' !! key = registry st !! key.

(** Promises are never removed, and a settled promise keeps its state. *)
Definition heap_grows (st st' : State) : Prop :=
  length (promises st) <= length (promises st') /\
  forall p c, promises st !! p = Some c ->
    exists c', promises st' !! p = Some c' /\
      forall s, pstate c = Settled s -> pstate c' = Settled s.

(** Changes that touch neither the log nor the registry. *)
Definition quiet (st st' : State) : Prop :=
  log st' = log st /\ registry st' = registry st.

Definition plumbing (r : Reaction) : Prop :=
  match handler r with
  | HAllElement _ _ | HAdopt _ => True
  | _ => False
  end.

(** Nothing that concerns the resolver under [key] changes: its fields,
    its outstanding reactions, the events [EP] selects; and the bindings of
    the registry stay. *)
Definition apart (EP : Event -> bool) (key : positive) (st st' : State) : Prop :=
  (neutral (singleton_of key) EP st st' /\ same_resolver key st st') /\
  same_factories st st'.

(** What [single_inv] reads of a state. *)
Record same_view (key : positive) (st st' : State) : Prop := {
  sv_resolver : registry st' !! key = registry st !! key;
  sv_singleton : count (singleton_of key) (outstanding st') =
                 count (singleton_of key) (outstanding st);
  sv_waiting : forall d, count (waiting_on key d) (outstanding st') =
                         count (waiting_on key d) (outstanding st);
  sv_done : forall b, count (done_of key b) (log st') =
                      count (done_of key b) (log st);
  sv_outcome : count (outcome_event key) (log st') =
               count (outcome_event key) (log st);
}.

(** Preservation of the invariant, as a relation between states. *)
Definition keeps_inv (st st' : State) : Prop :=
  container_inv st -> container_inv st'.

Definition total {A} (m : M A) : Prop := forall st, is_Some (m st).

(** A computation that returns in every state with the bindings of [reg]. *)
Definition returns_in (reg : Registry) {A} (m : M A) : Prop :=
  forall st, (forall k, binding <$> registry st !! k = binding <$> reg !! k) ->
             is_Some (m st).

Definition resolve_moves (st st' : State) : Prop :=
  container_inv st ->
  container_inv st' /\ heap_grows st st' /\
  forall key, unchanged_or_started key st st'.

(** Promises are never removed; a settled promise keeps its state, a
    promise its kind and a [Promise.all] its elements; the log only
    grows. *)
Definition same_elements (k k' : PromiseKind) : Prop :=
  match k with
  | All els _ _ => exists vals rem, k' = All els vals rem
  | _ => k' = k
  end.

Definition extends (st st' : State) : Prop :=
  (forall p c, promises st !! p = Some c ->
     exists c', promises st' !! p = Some c' /\
       (forall s, pstate c = Settled s -> pstate c' = Settled s) /\
       same_elements (pkind c) (pkind c')) /\
  exists l, log st' = log st ++ l.

Definition settled_as (c : PromiseCell) : option Settlement :=
  match pstate c with
  | Settled s => Some s
  | Pending _ => None
  end.

Definition is_all (k : PromiseKind) : bool :=
  match k with
  | All _ _ _ => true
  | _ => false
  end.

(** A promise that only its own [then] or the caller settles. *)
Definition target_ok (st : State) (t : nat) : Prop :=
  exists c, promises st !! t = Some c /\ is_all (pkind c) = false.

(** [R] is a [Promise.all] over [els]. *)
Definition all_of (st : State) (R : nat) (els : list Value) : Prop :=
  exists c vals rem, promises st !! R = Some c /\ pkind c = All els vals rem.

(** The resolve-element functions of [R] that have not run yet. *)
Definition elements_of (R : nat) (r : Reaction) : bool :=
  match handler r with
  | HAllElement R' _ => bool_decide (R' = R)
  | _ => false
  end.

Definition element_of (R i : nat) (r : Reaction) : bool :=
  match handler r with
  | HAllElement R' i' => bool_decide (R' = R) && bool_decide (i' = i)
  | _ => false
  end.

(** The invariant of a [Promise.all]: an element whose function has run is
    settled, and its value is in the array at its index; the count of
    remaining elements covers the functions still to run; the
    [Promise.all] is fulfilled with its array when none remains, and
    rejected with the error of an element. *)
Definition all_ok (st : State) (R : nat) (c : PromiseCell) : Prop :=
  match pkind c with
  | All els vals rem =>
      length vals = length els /\
      count (elements_of R) (outstanding st) <= rem /\
      (forall i x, els !! i = Some x ->
         count (element_of R i) (outstanding st) = 0 ->
         exists s, settlement st x = Some s /\
           match s with
           | Fulfill v => vals !! i = Some v
           | Reject _ => exists e, settled_as c = Some (Reject e)
           end) /\
      match settled_as c with
      | None => True
      | Some (Fulfill w) =>
          w = VArr vals /\ count (elements_of R) (outstanding st) = 0
      | Some (Reject e) => exists x, x ∈ els /\ settlement st x = Some (Reject e)
      end
  | _ => True
  end.

(** A reaction that waits in the pending promise [q]. *)
Definition waiting_ok (st : State) (q : nat) (r : Reaction) : Prop :=
  target_ok st (derived r) /\
  match handler r with
  | HCreate o f =>
      exists els, all_of st q els /\
        EAttempt o (fid f) (derived r) els ∈ log st
  | HAllElement R i =>
      exists els, all_of st R els /\ els !! i = Some (VPromise q)
  | HAdopt t => target_ok st t
  | HSingleton _ => True
  end.

(** A reaction in the queue, with the settlement it was queued for. *)
Definition queued_ok (st : State) (r : Reaction) (s : Settlement) : Prop :=
  target_ok st (derived r) /\
  match handler r with
  | HCreate o f =>
      exists R c els vals rem,
        promises st !! R = Some c /\ settled_as c = Some s /\
        pkind c = All els vals rem /\
        EAttempt o (fid f) (derived r) els ∈ log st
  | HAllElement R i =>
      exists els x, all_of st R els /\ els !! i = Some x /\
        settlement st x = Some s
  | HAdopt t => target_ok st t
  | HSingleton _ => True
  end.

(** No promise is fulfilled with a promise. *)
Definition settlement_ok (s : Settlement) : Prop :=
  match s with
  | Fulfill (VPromise _) => False
  | _ => True
  end.

Definition job_okk (st : State) (j : Job) : Prop :=
  match j with
  | JReaction r s => queued_ok st r s /\ settlement_ok s
  | JThenable t _ => target_ok st t
  end.

(** The promises that attempts were started with. *)
Definition attempt_via (e : Event) : option nat :=
  match e with
  | EAttempt _ _ d _ => Some d
  | _ => None
  end.

(** A call of [create] has received the values of the dependencies of its
    attempt; an attempt was given up for the error of a dependency. *)
Definition event_ok (st : State) (e : Event) : Prop :=
  match e with
  | ECreate o g d _ args =>
      exists deps, EAttempt o g d deps ∈ log st /\
        Forall2 (resolved_to st) deps args
  | EDepFail o g d =>
      exists deps x err, EAttempt o g d deps ∈ log st /\ x ∈ deps /\
        settlement st x = Some (Reject err)
  | _ => True
  end.

Definition log_ok (st : State) : Prop :=
  NoDup (omap attempt_via (log st)) /\
  (forall d, d ∈ omap attempt_via (log st) -> d < length (promises st)) /\
  Forall (event_ok st) (log st).

(** The invariant of the promises of the module; the [Promise.all] [ex],
    if any, is under construction. *)
Definition promise_inv (ex : option nat) (st : State) : Prop :=
  (forall q c, promises st !! q = Some c ->
     (ex <> Some q -> all_ok st q c) /\
     (forall rs, pstate c = Pending rs -> Forall (waiting_ok st q) rs) /\
     (forall s, settled_as c = Some s -> settlement_ok s)) /\
  Forall (job_okk st) (queue st) /\
  log_ok st.

(** The resolve-element functions of [q] still to run are the same. *)
Definition counts_same (q : nat) (st st' : State) : Prop :=
  forall P, (forall r, P r = true -> elements_of q r = true) ->
            count P (outstanding st') = count P (outstanding st).

(** A value that holds no promise that is yet to be made. *)
Definition valid_below (n : nat) (x : Value) : Prop :=
  match x with
  | VPromise q => q < n
  | _ => True
  end.

(** The value a singleton resolver holds is no promise, and the promise it
    holds exists. *)
Definition resolver_fine (st : State) (r : IResolver) : Prop :=
  match r with
  | SingletonResolver _ v _ p =>
      valid_below 0 v /\ forall d, p = Some d -> d < length (promises st)
  | TransientResolver _ => True
  end.

Definition registry_ok (st : State) : Prop :=
  forall key r, registry st !! key = Some r -> resolver_fine st r.

Definition deps_inv (st : State) : Prop :=
  promise_inv None st /\ registry_ok st.

(** A promise made by [then] is settled by the reaction it was derived
    for, or by the adoption of a promise that this reaction returned.
    [owners st t] counts the reactions and jobs that will settle [t]. *)
Definition derives (t : nat) (r : Reaction) : bool := bool_decide (derived r = t).

Definition adopts (t : nat) (r : Reaction) : bool :=
  match handler r with
  | HAdopt t' => bool_decide (t' = t)
  | _ => false
  end.

Definition thenable (t : nat) (j : Job) : bool :=
  match j with
  | JThenable t' _ => bool_decide (t' = t)
  | JReaction _ _ => false
  end.

Definition owners (st : State) (t : nat) : nat :=
  count (derives t) (outstanding st) + count (adopts t) (outstanding st) +
  count (thenable t) (queue st).

(** What a reaction, and a job, will settle. *)
Definition targets (t : nat) (r : Reaction) : nat :=
  (if derives t r then 1 else 0) + (if adopts t r then 1 else 0).

Definition job_targets (t : nat) (j : Job) : nat :=
  match j with
  | JReaction r _ => targets t r
  | JThenable t' _ => if bool_decide (t' = t) then 1 else 0
  end.

Definition is_plain (st : State) (t : nat) : bool :=
  match promises st !! t with
  | Some {| pstate := _; pkind := Plain |} => true
  | _ => false
  end.

Definition stray (st : State) (r : Reaction) : bool := negb (is_plain st (derived r)).

(** Every promise with an owner exists; the derived promise of a reaction
    is an ordinary promise; an ordinary promise has at most one owner, and
    none once it is settled. *)
Definition owner_inv (st : State) : Prop :=
  (forall t, 0 < owners st t -> t < length (promises st)) /\
  count (stray st) (outstanding st) = 0 /\
  (forall t ps, promises st !! t = Some {| pstate := ps; pkind := Plain |} ->
     owners st t <= 1 /\ forall s, ps = Settled s -> owners st t = 0).

(** [t] may be settled now: no reaction or job is going to do it. *)
Definition free (st : State) (t : nat) : Prop :=
  t < length (promises st) /\
  forall ps, promises st !! t = Some {| pstate := ps; pkind := Plain |} ->
    owners st t = 0 /\ forall s, ps <> Settled s.





(** ** The module-level functions, and the cases of the test suite *)

(** The two factories of the cycle test: [A] requires [B], [B] requires
    [A]. *)
Definition tokenA : Token := {| tok_addr := 1; name := "A" |}.
Definition tokenB : Token := {| tok_addr := 2; name := "B" |}.
Definition factoryA : IFactory :=
  {| fid := 1; lifetime := None; requires := [tokenB];
     create := fun _ _ => CReturn (VStr "a") |}.
Definition factoryB : IFactory :=
  {| fid := 2; lifetime := None; requires := [tokenA];
     create := fun _ _ => CReturn (VStr "b") |}.

(** The container after [register(A, factoryA)]. *)
Definition registeredA : State :=
  set_registry (<[tok_addr tokenA := createResolver factoryA]> ∅) initial.

(** The tokens and factories of the test suite. *)
Definition IFoo : Token := {| tok_addr := 11; name := "my-package.IFoo" |}.
Definition IBar : Token := {| tok_addr := 12; name := "my-package.IBar" |}.
Definition IBaz : Token := {| tok_addr := 13; name := "my-package.IBaz" |}.

Definition barFactory : IFactory :=
  {| fid := 12; lifetime := None; requires := [];
     create := fun n _ => CReturn (VObj n) |}.

Definition Foo : IFactory :=
  {| fid := 11; lifetime := Some Transient; requires := [IBar];
     create := fun _ args => CReturn (VArr (VStr "foo" :: args)) |}.

Definition bazFactory : IFactory :=
  {| fid := 13; lifetime := None; requires := [IBaz];
     create := fun _ _ => CReturn (VStr "baz") |}.

(** [IFoo] and [IBar] registered, then [resolve(IBar)] called: the creation
    of the singleton is in flight. *)
Definition barInFlight : State :=
  default initial
    (run 3 [CallRegister IFoo Foo; CallRegister IBar barFactory;
            CallResolve (inl IBar)] initial).

(** The same after the microtasks have run: the singleton is resolved. *)
Definition barResolved : State :=
  default initial
    (run 3 [CallRegister IFoo Foo; CallRegister IBar barFactory;
            CallResolve (inl IBar); Microtask; Microtask] initial).




(** [IFoo] resolved twice, all microtasks run. *)
Definition fooTwice : State :=
  default initial
    (run 3 ([CallRegister IFoo Foo; CallRegister IBar barFactory;
             CallResolve (inl IFoo)] ++ replicate 6 Microtask ++
            [CallResolve (inl IFoo)] ++ replicate 6 Microtask) initial).

(** A factory that declares the singleton lifetime, resolved directly. *)
Definition adhocFactory : IFactory :=
  {| fid := 21; lifetime := Some Singleton; requires := [IBar; IFoo];
     create := fun n args => CReturn (VArr (VNum (Z.of_nat n) :: args)) |}.

(** [IFoo] and [IBar] registered, [adhocFactory] resolved directly twice,
    all microtasks run. *)
Definition adhocTwice : State :=
  default initial
    (run 3 ([CallRegister IFoo Foo; CallRegister IBar barFactory;
             CallResolve (inr adhocFactory)] ++ replicate 12 Microtask ++
            [CallResolve (inr adhocFactory)] ++ replicate 12 Microtask) initial).

(** A call a program can make, or an event of the runtime, and what the
    caller gets back. *)
Inductive Request :=
  | AskRegistered (token : Token)
  | DoRegister (token : Token) (f : IFactory)
  | DoResolve (value : Token + IFactory)
  | RunMicrotask
  | DoSettle (p : nat) (s : Settlement).

Inductive Reply :=
  | RBool (b : bool)
  | RVoid
  | RPromise (p : nat).

(** The request served by the methods of one [Container], as [index.ts]
    defines them. *)
Definition container_call (fuel : nat) (r : Request) : M Reply :=
  match r with
  | AskRegistered token => fun st => Some (RBool (isRegistered token st), st)
  | DoRegister token f =>
      fun st => (fun st' => (RVoid, st')) <$> register fuel token f st
  | DoResolve value => let* p := Container_resolve fuel value in ret (RPromise p)
  | RunMicrotask => let* _ := tick in ret RVoid
  | DoSettle p s => let* _ := settleExternal p s in ret RVoid
  end.

Fixpoint container_run (fuel : nat) (rs : list Request) : M (list Reply) :=
  match rs with
  | [] => ret []
  | r :: rest =>
      let* x := container_call fuel r in
      let* xs := container_run fuel rest in
      ret (x :: xs)
  end.

(** Modelled from the spec: the process in which the module is loaded.
    The default container and the module-scope functions are not part of
    [src/index.ts]; the spec says that there is one default [Container] for
    the process, created once at first use and never torn down.
    [defaultContainer] is the variable that holds it ([None] before the
    first use, then the registry of the instance), [constructed] counts the
    calls of [new Container()] made for it; the other fields are the
    runtime. *)
Record Process := {
  defaultContainer : option Registry;
  constructed : nat;
  heap : list PromiseCell;
  jobs : list Job;
  counter : nat;
  console : list Event;
}.

(** Modelled from the spec: the process before the module is used. *)
Definition process_start : Process :=
  {| defaultContainer := None; constructed := 0; heap := []; jobs := [];
     counter := 0; console := [] |}.

(** Modelled from the spec: a container with registry [reg] in the runtime
    of the process, and the process after the container and the runtime
    have moved to [st]. *)
Definition in_process (reg : Registry) (p : Process) : State :=
  {| registry := reg; promises := heap p; queue := jobs p;
     serial := counter p; log := console p |}.

Definition moved_to (st : State) (p : Process) : Process :=
  {| defaultContainer := (fun _ => registry st) <$> defaultContainer p;
     constructed := constructed p; heap := promises st; jobs := queue st;
     counter := serial st; console := log st |}.

(** Modelled from the spec: the default instance, "created once at first
    use". *)
Definition the_default (p : Process) : Process :=
  match defaultContainer p with
  | Some _ => p
  | None =>
      {| defaultContainer := Some createRegistry;
         constructed := S (constructed p); heap := heap p; jobs := jobs p;
         counter := counter p; console := console p |}
  end.

(** Modelled from the spec: "forward 1:1 to one process-wide default
    Container instance": the method runs on the default instance, and its
    result is the result of the call. *)
Definition forward {A} (method : M A) (p : Process) : option (A * Process) :=
  let p := the_default p in
  match method (in_process (default createRegistry (defaultContainer p)) p) with
  | Some (a, st) => Some (a, moved_to st p)
  | None => None
  end.

(** Modelled from the spec: the module-scope [isRegistered], [register]
    and [resolve]. *)
Definition module_isRegistered (token : Token) : Process -> option (bool * Process) :=
  forward (fun st => Some (isRegistered token st, st)).

Definition module_register (fuel : nat) (token : Token) (f : IFactory)
  : Process -> option (unit * Process) :=
  forward (fun st => (fun st' => (tt, st')) <$> register fuel token f st).

Definition module_resolve (fuel : nat) (value : Token + IFactory)
  : Process -> option (nat * Process) :=
  forward (Container_resolve fuel value).

(** Modelled from the spec: the runtime of the process runs a microtask, or
    the caller settles a promise; neither uses the module. *)
Definition in_runtime {A} (m : M A) (p : Process) : option (A * Process) :=
  match m (in_process (default createRegistry (defaultContainer p)) p) with
  | Some (a, st) => Some (a, moved_to st p)
  | None => None
  end.

(** Modelled from the spec: the request served by the functions of the
    module. *)
Definition module_call (fuel : nat) (r : Request) (p : Process)
  : option (Reply * Process) :=
  match r with
  | AskRegistered token => prod_map RBool id <$> module_isRegistered token p
  | DoRegister token f => prod_map (fun _ => RVoid) id <$> module_register fuel token f p
  | DoResolve value => prod_map RPromise id <$> module_resolve fuel value p
  | RunMicrotask => prod_map (fun _ => RVoid) id <$> in_runtime tick p
  | DoSettle q s => prod_map (fun _ => RVoid) id <$> in_runtime (settleExternal q s) p
  end.

Fixpoint module_run (fuel : nat) (rs : list Request) (p : Process)
  : option (list Reply * Process) :=
  match rs with
  | [] => Some ([], p)
  | r :: rest =>
      match module_call fuel r p with
      | Some (x, p') => prod_map (cons x) id <$> module_run fuel rest p'
      | None => None
      end
  end.

(** Whether a request is a call of one of the three functions. *)
Definition uses_module (r : Request) : bool :=
  match r with
  | AskRegistered _ | DoRegister _ _ | DoResolve _ => true
  | RunMicrotask | DoSettle _ _ => false
  end.

(** What a container in the place of the default instance would be. *)
Definition shared_container (p : Process) : State :=
  in_process (default createRegistry (defaultContainer p)) p.

(** The default instance is made by the first call that uses the module,
    and kept. *)
Definition made_by (rs : list Request) (p : Process) : nat :=
  match defaultContainer p with
  | Some _ => 0
  | None => if existsb uses_module rs then 1 else 0
  end.


(** ** Notions for the remaining functions of [index.ts] *)

(** The events that [console.error] leaves. *)
Definition console_error (e : Event) : bool :=
  match e with
  | EConsoleError _ => true
  | _ => false
  end.

(** The calls of [Container.register] among the actions. *)
Definition is_register (a : Action) : bool :=
  match a with
  | CallRegister _ _ => true
  | _ => false
  end.

(** What [SingletonResolver.resolve] returns without starting a creation:
    the cached value, or the promise of the creation in flight. *)
Definition held_value (r : IResolver) : option Value :=
  match r with
  | SingletonResolver _ v true _ => Some v
  | SingletonResolver _ _ false (Some p) => Some (VPromise p)
  | _ => None
  end.

(** Nothing is written to the console between [st] and [st']. *)
Definition silent (st st' : State) : Prop :=
  count console_error (log st') = count console_error (log st).

(** [IBaz] registered with a factory that requires [IBaz], then [IFoo] and
    [IBar], [IBar] a second time, and [IFoo] resolved. *)
Definition busyActions : list Action :=
  [CallRegister IBaz bazFactory; CallRegister IFoo Foo;
   CallRegister IBar barFactory; CallRegister IBar barFactory;
   CallResolve (inl IFoo)] ++ replicate 6 Microtask.

Definition busy : State := default initial (run 3 busyActions initial).

(** Between [st] and [st'] resolutions were only started: the log gained
    nothing but notes of attempts, microtasks were only added at the end of
    the queue, and [create] was not called. *)
Definition schedules (st st' : State) : Prop :=
  (exists l, log st' = log st ++ l /\
             Forall (fun e => is_Some (attempt_via e)) l) /\
  (exists js, queue st' = queue st ++ js) /\
  serial st' = serial st.

(** [IFoo] and [IBar] registered, nothing resolved yet. *)
Definition fooBarRegistered : State :=
  default initial
    (run 3 [CallRegister IFoo Foo; CallRegister IBar barFactory] initial).

(** The dependencies collected for a factory that requires [IBar] twice,
    and for one that requires [IFoo] twice. *)
Definition barTwice : option (list Value * State) :=
  mapM (resolveToken 3) [IBar; IBar] fooBarRegistered.

Definition fooTwiceDeps : option (list Value * State) :=
  mapM (resolveToken 3) [IFoo; IFoo] fooBarRegistered.

(** The cell of [Promise.all([])], which is fulfilled at once, and the cell
    of a promise that [then] has just made. *)
Definition emptyAllCell : PromiseCell :=
  {| pstate := Settled (Fulfill (VArr [])); pkind := All [] [] 0 |}.

Definition freshCell : PromiseCell := {| pstate := Pending []; pkind := Plain |}.

(** A factory whose [create] throws when it is called for the first time
    and returns an object afterwards, and a token for it. *)
Definition IFlaky : Token := {| tok_addr := 31; name := "my-package.IFlaky" |}.

Definition flakyFactory : IFactory :=
  {| fid := 31; lifetime := None; requires := [];
     create := fun n _ => match n with
                          | 0 => CThrow (VError "not yet")
                          | _ => CReturn (VObj n)
                          end |}.

Definition flakyRegistered : State :=
  set_registry (<[tok_addr IFlaky := createResolver flakyFactory]> ∅) initial.

(** A factory whose [create] returns a promise of its own. *)
Definition laterFactory : IFactory :=
  {| fid := 32; lifetime := Some Transient; requires := [];
     create := fun _ _ => CAsync |}.


(** ** The cycle search *)

Section visit_facts.
Variable reg : Registry.
Variable token : Token.

Lemma walk_nil_reqs path : walk reg token [] path = None.
Proof. by destruct path as [|i rest]. Qed.

Lemma walk_cons_S other reqs i rest :
  walk reg token (other :: reqs) (S i :: rest) = walk reg token reqs (i :: rest).
Proof. reflexivity. Qed.

Lemma walk_nonempty reqs path p : walk reg token reqs path = Some p -> p <> [].
Proof.
  destruct path as [|i rest]; simpl; [done|].
  destruct (reqs !! i) as [other|]; [|done].
  destruct (token_eqb other token).
  - destruct rest; [|done]. by intros [= <-].
  - destruct (reg !! tok_addr other); [|done].
    destruct (walk _ _ _ rest); simpl; [|done]. by intros [= <-].
Qed.

(** Index paths and token paths describe the same cycles. *)
Lemma walk_cycle_path path : forall reqs p,
  walk reg token reqs path = Some p -> cycle_path reg token reqs p.
Proof.
  induction path as [|i rest IH]; intros reqs p; simpl; [done|].
  destruct (reqs !! i) as [other|] eqn:Hi; [|done].
  assert (other ∈ reqs) by (apply list_elem_of_lookup; eauto).
  destruct (token_eqb other token) eqn:Heq.
  - destruct rest; [|done]. intros [= <-]. by constructor.
  - destruct (reg !! tok_addr other) as [resolver|] eqn:Hr; [|done].
    destruct (walk _ _ _ rest) as [q|] eqn:Hw; simpl; [|done].
    intros [= <-]. econstructor; eauto.
Qed.

Lemma cycle_path_walk reqs p :
  cycle_path reg token reqs p -> exists path, walk reg token reqs path = Some p.
Proof.
  induction 1 as [reqs other Hin Heq|reqs other resolver p Hin Heq Hr _ [path IH]].
  - apply list_elem_of_lookup in Hin as [i Hi]. exists [i]. simpl.
    by rewrite Hi, Heq.
  - apply list_elem_of_lookup in Hin as [i Hi]. exists (i :: path). simpl.
    by rewrite Hi, Heq, Hr, IH.
Qed.

(** A cycle path ends at the candidate token and meets it nowhere before. *)
Lemma cycle_path_last reqs p :
  cycle_path reg token reqs p ->
  exists q t, p = q ++ [t] /\ token_eqb t token = true /\
              Forall (fun u => token_eqb u token = false) q.
Proof.
  induction 1 as [reqs other Hin Heq|reqs other resolver p Hin Heq Hr _ IH].
  - exists [], other. by repeat split.
  - destruct IH as (q & t & -> & Ht & Hq). exists (other :: q), t.
    repeat split; auto.
Qed.

Lemma first_cycle_nonempty reqs p path :
  walk reg token reqs path = Some p ->
  (forall path' trace', walk reg token reqs path' = Some trace' ->
                        lex_leb path path' = true) ->
  first_cycle reg token reqs p.
Proof.
  intros Hw Hmin. pose proof (walk_nonempty _ _ _ Hw).
  unfold first_cycle. destruct p; [done|]. eauto.
Qed.

Lemma first_cycle_inv reqs p :
  p <> [] -> first_cycle reg token reqs p ->
  exists path, walk reg token reqs path = Some p /\
    forall path' trace', walk reg token reqs path' = Some trace' ->
                         lex_leb path path' = true.
Proof. destruct p; [done|]. auto. Qed.

Lemma visit_loop_ok V :
  visitor_ok reg token V -> visitor_ok reg token (visit_loop reg token V).
Proof.
  intros HV reqs. induction reqs as [|other rest IH]; intros tr b tr'; simpl.
  - intros [= <- <-]. split; [done|]. apply walk_nil_reqs.
  - destruct (token_eqb other token) eqn:Heq.
    { intros [= <- <-]. exists [other]. repeat split; [done|].
      apply (first_cycle_nonempty _ _ [0]); simpl; [by rewrite Heq|].
      intros [|[|j] r] ? ?; simpl; done. }
    assert (Hskip : (forall path, walk reg token
                       (match reg !! tok_addr other with
                        | Some resolver => requires (factory resolver)
                        | None => [] end) path = None) ->
              visit_loop reg token V rest tr = Some (b, tr') ->
              if b then exists p, tr' = tr ++ p /\ p <> [] /\
                                  first_cycle reg token (other :: rest) p
              else tr' = tr /\
                   forall path, walk reg token (other :: rest) path = None).
    { intros Hnone Hrest. specialize (IH _ _ _ Hrest).
      assert (Hzero : forall r, walk reg token (other :: rest) (0 :: r) = None).
      { intros r. simpl. rewrite Heq. destruct (reg !! tok_addr other); [|done].
        by rewrite Hnone. }
      destruct b.
      - destruct IH as (p & -> & Hp & Hfirst). exists p. repeat split; [done|].
        apply first_cycle_inv in Hfirst as (path & Hw & Hmin); [|done].
        destruct path as [|i r]; [done|].
        apply (first_cycle_nonempty _ _ (S i :: r)); [done|].
        intros [|[|j] r'] q Hq; [done| |].
        + by rewrite Hzero in Hq.
        + rewrite walk_cons_S in Hq. apply Hmin in Hq. exact Hq.
      - destruct IH as [-> IH]. split; [done|].
        intros [|[|j] r]; [done|apply Hzero|]. rewrite walk_cons_S. apply IH. }
    destruct (reg !! tok_addr other) as [resolver|] eqn:Hr.
    + destruct (V (requires (factory resolver)) (tr ++ [other]))
        as [[[] tr1]|] eqn:Hrec; [| |done].
      * intros [= <- <-]. apply HV in Hrec as (p & -> & Hp & Hfirst).
        exists (other :: p). split; [by rewrite <- app_assoc|]. split; [done|].
        apply first_cycle_inv in Hfirst as (path & Hw & Hmin); [|done].
        apply (first_cycle_nonempty _ _ (0 :: path)).
        { simpl. by rewrite Heq, Hr, Hw. }
        intros [|[|j] r'] q Hq; [done| |done].
        simpl in Hq. rewrite Heq, Hr in Hq.
        destruct (walk _ _ _ r') eqn:Hw'; [|done].
        apply Hmin in Hw'. simpl. exact Hw'.
      * apply HV in Hrec as [-> Hnone]. rewrite removelast_last.
        by apply Hskip.
    + rewrite removelast_last. apply Hskip. apply walk_nil_reqs.
Qed.

Lemma visit_ok fuel : visitor_ok reg token (visit reg token fuel).
Proof.
  induction fuel as [|k IH]; [by intros ????|]. simpl. by apply visit_loop_ok.
Qed.

(** More fuel never changes a result. *)
Lemma visit_loop_mono
  (V1 V2 : list Token -> list Token -> option (bool * list Token)) :
  (forall reqs tr r, V1 reqs tr = Some r -> V2 reqs tr = Some r) ->
  forall reqs tr r, visit_loop reg token V1 reqs tr = Some r ->
                    visit_loop reg token V2 reqs tr = Some r.
Proof.
  intros HV reqs. induction reqs as [|other rest IH]; intros tr r; simpl; [done|].
  destruct (token_eqb other token); [done|].
  destruct (reg !! tok_addr other) as [resolver|]; [|apply IH].
  destruct (V1 _ _) as [[[] tr1]|] eqn:H1; [| |done].
  - by rewrite (HV _ _ _ H1).
  - rewrite (HV _ _ _ H1). apply IH.
Qed.

Lemma visit_mono n m reqs tr r :
  n <= m -> visit reg token n reqs tr = Some r ->
  visit reg token m reqs tr = Some r.
Proof.
  revert m reqs tr r. induction n as [|n IH]; intros m reqs tr r Hle; [done|].
  destruct m as [|m]; [lia|]. simpl. apply visit_loop_mono.
  intros ???. apply IH. lia.
Qed.

(** The loop returns when the recursive calls it makes return. *)
Lemma visit_loop_total
  (V : list Token -> list Token -> option (bool * list Token)) reqs :
  (forall t resolver, t ∈ reqs -> reg !! tok_addr t = Some resolver ->
     forall tr, is_Some (V (requires (factory resolver)) tr)) ->
  forall tr, is_Some (visit_loop reg token V reqs tr).
Proof.
  induction reqs as [|other rest IH]; intros HV tr; simpl; [eauto|].
  assert (forall tr, is_Some (visit_loop reg token V rest tr)) as Hrest.
  { apply IH. intros t resolver Ht. apply HV. by right. }
  destruct (token_eqb other token); [eauto|].
  destruct (reg !! tok_addr other) as [resolver|] eqn:Hr; [|apply Hrest].
  destruct (HV other resolver (list_elem_of_here _ _) Hr (tr ++ [other]))
    as [[[] tr1] ->]; [eauto|apply Hrest].
Qed.

Lemma fuel_for_all (reqs : list Token) (Q : Token -> nat -> Prop) :
  (forall t n m, n <= m -> Q t n -> Q t m) ->
  (forall t, t ∈ reqs -> exists n, Q t n) ->
  exists n, forall t, t ∈ reqs -> Q t n.
Proof.
  intros Hmono. induction reqs as [|t rest IH]; intros HQ.
  - exists 0. intros t Ht. by apply elem_of_nil in Ht.
  - destruct (HQ t (list_elem_of_here _ _)) as [n Hn].
    destruct IH as [m Hm]. { intros u Hu. apply HQ. by right. }
    exists (n `max` m). intros u Hu. apply elem_of_cons in Hu as [->|Hu].
    + apply (Hmono t n); [lia|done].
    + apply (Hmono u m); [lia|auto].
Qed.

Lemma grounded_fuel a :
  grounded reg a ->
  exists n, forall resolver, reg !! a = Some resolver ->
    forall tr, is_Some (visit reg token n (requires (factory resolver)) tr).
Proof.
  induction 1 as [a Hnone|a resolver Hr _ IH].
  - exists 0. intros resolver Hr. congruence.
  - destruct (fuel_for_all (requires (factory resolver))
      (fun t n => forall resolver', reg !! tok_addr t = Some resolver' ->
         forall tr, is_Some (visit reg token n (requires (factory resolver')) tr)))
      as [n Hn].
    + intros t n m Hle HQ resolver' Hr' tr.
      destruct (HQ resolver' Hr' tr) as [r Hv]. exists r.
      by apply (visit_mono n m).
    + exact IH.
    + exists (S n). intros resolver' Hr'. assert (resolver' = resolver) as ->
        by congruence. intros tr. simpl. apply visit_loop_total.
      intros t res Ht Hres. by apply (Hn t).
Qed.

Lemma visit_terminates reqs :
  (forall t, t ∈ reqs -> grounded reg (tok_addr t)) ->
  exists n, forall m tr, n <= m -> is_Some (visit reg token m reqs tr).
Proof.
  intros Hg.
  destruct (fuel_for_all reqs
    (fun t n => forall resolver', reg !! tok_addr t = Some resolver' ->
       forall tr, is_Some (visit reg token n (requires (factory resolver')) tr)))
    as [n Hn].
  - intros t n m Hle HQ resolver' Hr' tr.
    destruct (HQ resolver' Hr' tr) as [r Hv]. exists r.
    by apply (visit_mono n m).
  - intros t Ht. apply grounded_fuel. by apply Hg.
  - exists (S n). intros m tr Hle.
    assert (is_Some (visit reg token (S n) reqs tr)) as [r Hv].
    { simpl. apply visit_loop_total. intros t res Ht Hres. by apply (Hn t). }
    exists r. by apply (visit_mono (S n) m).
Qed.

End visit_facts.


(** ** Reasoning about computations *)

Lemma bind_inv {A B} (m : M A) (k : A -> M B) st b st' :
  (let* a := m in k a) st = Some (b, st') ->
  exists a st1, m st = Some (a, st1) /\ k a st1 = Some (b, st').
Proof.
  unfold bind. destruct (m st) as [[a st1]|]; [|done]. eauto.
Qed.

Lemma ret_inv {A} (a b : A) st st' : ret a st = Some (b, st') -> b = a /\ st' = st.
Proof. by intros [= -> ->]. Qed.

Lemma modify_inv f st u st' : modify f st = Some (u, st') -> st' = f st.
Proof. unfold modify. intros ?. by simplify_eq. Qed.

Ltac minv :=
  repeat match goal with
    | H : bind _ _ _ = Some _ |- _ =>
        let a := fresh "a" in let st := fresh "st" in let H1 := fresh "H" in
        apply bind_inv in H as (a & st & H1 & H)
    | H : ret _ _ = Some _ |- _ => apply ret_inv in H as [? ?]; subst
    | H : modify _ _ = Some _ |- _ => apply modify_inv in H; subst
    end.

Section frame.
Context {R : State -> State -> Prop} {okR : Reaction -> Prop}
  {okE : Event -> Prop} {okK : positive -> Prop}.
Context (F : Frame R okR okE okK).

Lemma rel_ret {A} (a : A) : rel R (ret a).
Proof. intros st b st' [-> ->]%ret_inv. apply (fr_refl F). Qed.

Lemma rel_bind {A B} (m : M A) (k : A -> M B) :
  rel R m -> (forall a, rel R (k a)) -> rel R (let* a := m in k a).
Proof.
  intros Hm Hk st b st' H. minv. eapply (fr_trans F); eauto.
  eapply Hk; eauto.
Qed.

Lemma rel_alloc c : fresh_cell c -> rel R (alloc c).
Proof.
  intros Hc st a st' H. unfold alloc in H. simplify_eq. by apply (fr_alloc F).
Qed.

Lemma rel_settle p s : rel R (settle p s).
Proof.
  intros st a st'. unfold settle.
  destruct (promises st !! p) as [[[rs|s0] k]|] eqn:Hp; intros ?; simplify_eq;
    try apply (fr_refl F). by eapply (fr_settle F).
Qed.

Lemma rel_resolvePromise p x : rel R (resolvePromise p x).
Proof.
  destruct x; simpl; try apply rel_settle.
  case_decide; [apply rel_settle|]. intros st a st' ->%modify_inv.
  apply (fr_thenable F).
Qed.

Lemma rel_attach p r : okR r -> rel R (attach p r).
Proof.
  intros Hr st a st'. unfold attach.
  destruct (promises st !! p) as [[[rs|s0] k]|] eqn:Hp; unfold enqueue, modify;
    intros ?; simplify_eq.
  - by eapply (fr_attach_pending F).
  - by eapply (fr_attach_settled F).
  - apply (fr_refl F).
Qed.

Lemma rel_then p h : (forall d, okR (react h d)) -> rel R (then_ p h).
Proof.
  intros Hh. apply rel_bind; [by apply rel_alloc|]. intros d.
  apply rel_bind; [apply rel_attach, Hh|]. intros _. apply rel_ret.
Qed.

Lemma rel_Promise_resolve x : rel R (Promise_resolve x).
Proof. destruct x; simpl; try (by apply rel_alloc). apply rel_ret. Qed.

Lemma rel_Promise_reject e : rel R (Promise_reject e).
Proof. by apply rel_alloc. Qed.

Lemma rel_all_loop p xs : forall i, rel R (all_loop p i xs).
Proof.
  induction xs as [|x xs IH]; intros i; simpl; [apply rel_ret|].
  apply rel_bind; [apply rel_Promise_resolve|]. intros q.
  apply rel_bind; [apply rel_then, (fr_all F)|]. intros _. apply IH.
Qed.

Lemma rel_Promise_all xs : rel R (Promise_all xs).
Proof.
  apply rel_bind; [by apply rel_alloc|]. intros p.
  apply rel_bind; [apply rel_all_loop|]. intros _.
  apply rel_bind; [|intros _; apply rel_ret].
  case_bool_decide; [apply rel_settle|apply rel_ret].
Qed.

Lemma rel_allElement p i v : rel R (allElement p i v).
Proof.
  intros st a st'. unfold allElement.
  destruct (promises st !! p) as [[ps [| |els vals rem]]|] eqn:Hp;
    try (intros ?; simplify_eq; apply (fr_refl F)).
  case_bool_decide.
  - intros Hx. eapply (fr_trans F); [|eapply rel_resolvePromise, Hx].
    by eapply (fr_kind F).
  - intros ?; simplify_eq. by eapply (fr_kind F).
Qed.

Lemma rel_modify_emit e : okE e -> rel R (modify (emit e)).
Proof. intros He st a st' ->%modify_inv. by apply (fr_emit F). Qed.

Lemma rel_update key g : okK key -> resolver_update g -> rel R (update_resolver key g).
Proof. intros Hk Hg st a st' ->%modify_inv. by apply (fr_update F). Qed.

Lemma rel_callCreate owner f d deps :
  okR (react (HCreate owner f) d) -> rel R (callCreate owner f d deps).
Proof.
  intros Hh. apply rel_bind.
  { intros st a st' H. unfold next_serial in H. simplify_eq. apply (fr_serial F). }
  intros n. apply rel_bind.
  { apply rel_modify_emit. by apply (fr_create F). }
  intros _. destruct (create f n deps).
  - apply rel_resolvePromise.
  - apply rel_settle.
  - apply rel_bind; [by apply rel_alloc|]. intros p. apply rel_resolvePromise.
Qed.

Lemma rel_runReaction r s : okR r -> rel R (runReaction r s).
Proof.
  unfold runReaction. destruct r as [[owner f|key|p i|t] d];
    cbn [handler derived]; intros Hh.
  - destruct s as [v|e].
    + destruct (apply_args v); [by apply rel_callCreate|].
      apply rel_bind; [|intros _; apply rel_settle].
      apply rel_modify_emit. by apply (fr_depfail F).
    + apply rel_bind; [|intros _; apply rel_settle].
      apply rel_modify_emit. by apply (fr_depfail F).
  - destruct s as [v|e].
    + apply rel_bind; [|intros _; apply rel_resolvePromise].
      apply rel_bind; [|intros _; apply rel_modify_emit].
      * apply rel_update; [by apply (fr_key F key d)|constructor].
      * by apply (fr_done F key d).
    + apply rel_bind; [|intros _; apply rel_settle].
      apply rel_bind; [|intros _; apply rel_modify_emit].
      * apply rel_update; [by apply (fr_key F key d)|constructor].
      * by apply (fr_done F key d).
  - destruct s as [v|e].
    + apply rel_bind; [apply rel_allElement|intros _; apply rel_resolvePromise].
    + apply rel_bind; [apply rel_settle|intros _; apply rel_resolvePromise].
  - destruct s as [v|e].
    + apply rel_bind; [apply rel_resolvePromise|intros _; apply rel_resolvePromise].
    + apply rel_bind; [apply rel_settle|intros _; apply rel_resolvePromise].
Qed.

Lemma rel_runJob j : job_ok okR j -> rel R (runJob j).
Proof.
  destruct j as [r s|t q]; simpl; intros Hj; [by apply rel_runReaction|].
  apply rel_bind; [apply rel_then, (fr_adopt F)|intros _; apply rel_ret].
Qed.

Lemma rel_settleExternal p s : rel R (settleExternal p s).
Proof.
  intros st a st'. unfold settleExternal.
  destruct (promises st !! p) as [[ps [| |]]|];
    try (intros ?; simplify_eq; apply (fr_refl F)).
  destruct s; [apply rel_resolvePromise|apply rel_settle].
Qed.

Lemma rel_mapM {A B} (f : A -> M B) (l : list A) :
  (forall a, a ∈ l -> rel R (f a)) -> rel R (mapM f l).
Proof.
  induction l as [|a l IH]; intros Hf; simpl; [apply rel_ret|].
  apply rel_bind; [apply Hf; by left|]. intros b.
  apply rel_bind; [|intros bs; apply rel_ret].
  apply IH. intros a' Ha'. apply Hf. by right.
Qed.

Lemma rel_createWhenResolved owner f deps :
  (forall d, okR (react (HCreate owner f) d)) ->
  (forall d, okE (EAttempt owner (fid f) d deps)) ->
  rel R (createWhenResolved owner f deps).
Proof.
  intros Hh He.
  apply rel_bind; [apply rel_Promise_all|]. intros p.
  apply rel_bind; [by apply rel_then|]. intros d.
  apply rel_bind; [by apply rel_modify_emit|]. intros _. apply rel_ret.
Qed.

Lemma rel_resolveFactory_with rec owner f :
  (forall t, t ∈ requires f -> rel R (rec t)) ->
  (forall d, okR (react (HCreate owner f) d)) ->
  (forall d deps, okE (EAttempt owner (fid f) d deps)) ->
  rel R (resolveFactory_with rec owner f).
Proof.
  intros Hrec Hh He. apply rel_bind; [by apply rel_mapM|]. intros deps.
  by apply rel_createWhenResolved.
Qed.

Lemma rel_resolver_resolve_with rec key r :
  rel R (resolveFactory_with rec (Some key) (factory r)) ->
  (forall d, okR (react (HSingleton key) d)) ->
  rel R (resolver_resolve_with rec key r).
Proof.
  intros Hrec Hs. destruct r as [f|f v [] [p|]]; simpl in *;
    try apply rel_ret.
  - apply rel_bind; [done|]. intros d. apply rel_ret.
  - apply rel_bind; [done|]. intros x.
    apply rel_bind; [by apply rel_then|]. intros d.
    apply rel_bind; [|intros _; apply rel_ret].
    apply rel_update; [by apply (fr_key F key d)|constructor].
Qed.

Section everything.
Hypothesis allH : forall r, okR r.
Hypothesis allE : forall e, okE e.

Lemma rel_resolveToken fuel : forall token, rel R (resolveToken fuel token).
Proof.
  induction fuel as [|k IH]; intros token st a st'; simpl; [done|].
  destruct (registry st !! tok_addr token) as [resolver|] eqn:Hr.
  - apply rel_resolver_resolve_with; auto.
    apply rel_resolveFactory_with; auto.
  - apply rel_bind; [apply rel_Promise_reject|intros p; apply rel_ret].
Qed.

Lemma rel_Container_resolve fuel value : rel R (Container_resolve fuel value).
Proof.
  apply rel_bind; [|intros x; apply rel_Promise_resolve].
  destruct value as [token|f]; [apply rel_resolveToken|].
  apply rel_bind; [|intros d; apply rel_ret].
  apply rel_resolveFactory_with; auto. intros t _. apply rel_resolveToken.
Qed.

End everything.

Lemma rel_tick st a st' :
  (forall j q, queue st = j :: q -> job_ok okR j) ->
  tick st = Some (a, st') -> R st st'.
Proof.
  unfold tick. destruct (queue st) as [|j q] eqn:Hq; intros Hj.
  - intros ?; simplify_eq. apply (fr_refl F).
  - intros H. eapply (fr_trans F); [|eapply rel_runJob, H; eauto].
    apply (fr_dequeue F _ j); eauto.
Qed.

Lemma rel_step fuel a st st' :
  (forall r, okR r) -> (forall e, okE e) ->
  (forall token f, a <> CallRegister token f) ->
  step fuel a st = Some st' -> R st st'.
Proof.
  intros allH allE Ha. destruct a as [token f|value| |p s]; simpl.
  - by destruct (Ha token f).
  - destruct (Container_resolve fuel value st) as [[x st1]|] eqn:H; [|done].
    intros ?; simplify_eq/=. by eapply rel_Container_resolve.
  - destruct (tick st) as [[x st1]|] eqn:H; [|done].
    intros ?; simplify_eq/=. eapply rel_tick; [|done].
    intros [r s|t q] ? _; simpl; auto.
  - destruct (settleExternal p s st) as [[x st1]|] eqn:H; [|done].
    intros ?; simplify_eq/=. by eapply rel_settleExternal.
Qed.
End frame.

(** Frames combine, and may carry a precondition that they preserve. *)
Lemma frame_conj R1 R2 okR1 okR2 okE1 okE2 okK1 okK2 :
  Frame R1 okR1 okE1 okK1 -> Frame R2 okR2 okE2 okK2 ->
  Frame (fun st st' => R1 st st' /\ R2 st st')
        (fun r => okR1 r /\ okR2 r) (fun e => okE1 e /\ okE2 e)
        (fun k => okK1 k /\ okK2 k).
Proof.
  intros F1 F2. split.
  - split; [apply (fr_refl F1)|apply (fr_refl F2)].
  - intros a b c [] []. split;
      [by apply (fr_trans F1 a b c)|by apply (fr_trans F2 a b c)].
  - split; [by apply (fr_alloc F1)|by apply (fr_alloc F2)].
  - split; [by apply (fr_thenable F1)|by apply (fr_thenable F2)].
  - split; [by apply (fr_settle F1)|by apply (fr_settle F2)].
  - intros st p rs k r [] ?.
    split; [by apply (fr_attach_pending F1)|by apply (fr_attach_pending F2)].
  - intros st p s k r [] ?. split;
      [by apply (fr_attach_settled F1 st p s k)
      |by apply (fr_attach_settled F2 st p s k)].
  - intros st p ps els vals rem vals' rem' ?. split;
      [by apply (fr_kind F1 st p ps els vals rem)
      |by apply (fr_kind F2 st p ps els vals rem)].
  - intros st e []. split; [by apply (fr_emit F1)|by apply (fr_emit F2)].
  - split; [by apply (fr_serial F1)|by apply (fr_serial F2)].
  - intros st key g [] ?.
    split; [by apply (fr_update F1)|by apply (fr_update F2)].
  - intros st j q Hq Hj. split.
    + apply (fr_dequeue F1 st j q Hq). destruct j; simpl in *; tauto.
    + apply (fr_dequeue F2 st j q Hq). destruct j; simpl in *; tauto.
  - split; [apply (fr_all F1)|apply (fr_all F2)].
  - split; [apply (fr_adopt F1)|apply (fr_adopt F2)].
  - intros owner f d n deps []. split;
      [by apply (fr_create F1)|by apply (fr_create F2)].
  - intros owner f d []. split;
      [by apply (fr_depfail F1)|by apply (fr_depfail F2)].
  - intros key d []. split; [by apply (fr_key F1 key d)|by apply (fr_key F2 key d)].
  - intros key d b [].
    split; [by apply (fr_done F1 key d)|by apply (fr_done F2 key d)].
Qed.

Lemma frame_guard R okR okE okK (P : State -> Prop) :
  Frame R okR okE okK ->
  (forall st st', R st st' -> P st -> P st') ->
  Frame (fun st st' => P st -> R st st' /\ P st') okR okE okK.
Proof.
  intros F HP.
  assert (forall st st', R st st' -> P st -> R st st' /\ P st') as Hlift
    by (intros; split; eauto).
  split.
  - intros st. apply Hlift, (fr_refl F).
  - intros a b c Hab Hbc Ha. destruct (Hab Ha) as [? Hb].
    destruct (Hbc Hb) as [? ?]. split; [|done]. by apply (fr_trans F a b c).
  - intros st c ?. by apply Hlift, (fr_alloc F).
  - intros st t q. apply Hlift, (fr_thenable F).
  - intros st p rs k s ?. by apply Hlift, (fr_settle F).
  - intros st p rs k r ? ?. by apply Hlift, (fr_attach_pending F).
  - intros st p s k r ? ?. by apply Hlift, (fr_attach_settled F st p s k).
  - intros st p ps els vals rem vals' rem' ?.
    by apply Hlift, (fr_kind F st p ps els vals rem).
  - intros st e ?. by apply Hlift, (fr_emit F).
  - intros st. apply Hlift, (fr_serial F).
  - intros st key g ? ?. by apply Hlift, (fr_update F).
  - intros st j q ? ?. by apply Hlift, (fr_dequeue F st j q).
  - apply (fr_all F).
  - apply (fr_adopt F).
  - apply (fr_create F).
  - apply (fr_depfail F).
  - apply (fr_key F).
  - apply (fr_done F).
Qed.

Lemma frame_weaken R R' okR okE okK :
  Frame R okR okE okK ->
  (forall st st', R st st' -> R' st st') ->
  (forall a b c, R' a b -> R' b c -> R' a c) ->
  Frame R' okR okE okK.
Proof.
  intros F Hsub Htrans. split.
  - intros st. apply Hsub, (fr_refl F).
  - exact Htrans.
  - intros st c ?. by apply Hsub, (fr_alloc F).
  - intros st t q. apply Hsub, (fr_thenable F).
  - intros st p rs k s ?. by apply Hsub, (fr_settle F).
  - intros st p rs k r ? ?. by apply Hsub, (fr_attach_pending F).
  - intros st p s k r ? ?. by apply Hsub, (fr_attach_settled F st p s k).
  - intros st p ps els vals rem vals' rem' ?.
    by apply Hsub, (fr_kind F st p ps els vals rem).
  - intros st e ?. by apply Hsub, (fr_emit F).
  - intros st. apply Hsub, (fr_serial F).
  - intros st key g ? ?. by apply Hsub, (fr_update F).
  - intros st j q ? ?. by apply Hsub, (fr_dequeue F st j q).
  - apply (fr_all F).
  - apply (fr_adopt F).
  - apply (fr_create F).
  - apply (fr_depfail F).
  - apply (fr_key F).
  - apply (fr_done F).
Qed.

Lemma frame_restrict R okR okE okK (okR' : Reaction -> Prop)
  (okE' : Event -> Prop) (okK' : positive -> Prop) :
  Frame R okR okE okK ->
  (forall r, okR' r -> okR r) -> (forall e, okE' e -> okE e) ->
  (forall k, okK' k -> okK k) ->
  (forall p i d, okR' (react (HAllElement p i) d)) ->
  (forall t d, okR' (react (HAdopt t) d)) ->
  (forall owner f d n deps, okR' (react (HCreate owner f) d) ->
     okE' (ECreate owner (fid f) d n deps)) ->
  (forall owner f d, okR' (react (HCreate owner f) d) ->
     okE' (EDepFail owner (fid f) d)) ->
  (forall key d, okR' (react (HSingleton key) d) -> okK' key) ->
  (forall key d b, okR' (react (HSingleton key) d) ->
     okE' (ESingletonDone key b)) ->
  Frame R okR' okE' okK'.
Proof.
  intros F HR HE HK. split; try done.
  - apply (fr_refl F).
  - apply (fr_trans F).
  - apply (fr_alloc F).
  - apply (fr_thenable F).
  - apply (fr_settle F).
  - intros st p rs k r ? ?. apply (fr_attach_pending F); auto.
  - intros st p s k r ? ?. apply (fr_attach_settled F st p s k); auto.
  - apply (fr_kind F).
  - intros st e ?. apply (fr_emit F); auto.
  - apply (fr_serial F).
  - intros st key g ? ?. apply (fr_update F); auto.
  - intros st j q ? Hj. apply (fr_dequeue F st j q); [done|].
    destruct j; simpl in *; auto.
Qed.

(** Relations that are only reflexive and transitive still compose. *)
Section preorder.
Context (R : State -> State -> Prop).
Hypothesis R_refl : forall st, R st st.
Hypothesis R_trans : forall a b c, R a b -> R b c -> R a c.

Lemma pre_ret {A} (a : A) : rel R (ret a).
Proof. intros st b st' [-> ->]%ret_inv. apply R_refl. Qed.

Lemma pre_bind {A B} (m : M A) (k : A -> M B) :
  rel R m -> (forall a, rel R (k a)) -> rel R (let* a := m in k a).
Proof.
  intros Hm Hk st b st' H. apply bind_inv in H as (a & st1 & H1 & H2).
  eapply R_trans; [by eapply Hm|by eapply Hk].
Qed.

Lemma pre_mapM {A B} (f : A -> M B) (l : list A) :
  (forall a, a ∈ l -> rel R (f a)) -> rel R (mapM f l).
Proof.
  induction l as [|a l IH]; intros Hf; simpl; [apply pre_ret|].
  apply pre_bind; [apply Hf; by left|]. intros b.
  apply pre_bind; [|intros bs; apply pre_ret].
  apply IH. intros a' Ha'. apply Hf. by right.
Qed.
End preorder.


(** ** The registry only grows, and stays acyclic *)

Lemma resolver_update_binding g r : resolver_update g -> binding (g r) = binding r.
Proof. by intros []; destruct r. Qed.

Lemma binding_factory r : (binding r).1 = factory r.
Proof. by destruct r. Qed.

Lemma same_factories_frame :
  Frame same_factories (fun _ => True) (fun _ => True) (fun _ => True).
Proof.
  split; try done.
  - intros a b c Hab Hbc k. by rewrite Hbc, Hab.
  - intros st key g _ Hg a. simpl. rewrite lookup_alter. case_decide; [|done].
    subst. destruct (registry st !! a); simpl; [|done].
    by rewrite resolver_update_binding.
Qed.

Lemma step_same_factories fuel a st st' :
  (forall token f, a <> CallRegister token f) ->
  step fuel a st = Some st' -> same_factories st st'.
Proof. intros. by eapply (rel_step same_factories_frame). Qed.

Lemma grounded_same_factories (reg reg' : Registry) a :
  (forall k, binding <$> reg' !! k = binding <$> reg !! k) ->
  grounded reg a -> grounded reg' a.
Proof.
  intros Hsame. induction 1 as [a Hnone|a resolver Hr _ IH].
  - apply grounded_unregistered. specialize (Hsame a). rewrite Hnone in Hsame.
    by destruct (reg' !! a).
  - specialize (Hsame a). rewrite Hr in Hsame.
    destruct (reg' !! a) as [resolver'|] eqn:Hr'; [|done].
    simpl in Hsame. injection Hsame as Hf.
    apply (grounded_registered _ _ resolver'); [done|].
    by rewrite <- binding_factory, Hf, binding_factory.
Qed.

(** A token from which [token] cannot be reached stays grounded when
    [token] is registered. *)
Lemma grounded_insert_avoiding (reg : Registry) token resolver a :
  grounded reg a ->
  tok_addr token <> a ->
  (forall res, reg !! a = Some res ->
     forall path, walk reg token (requires (factory res)) path = None) ->
  grounded (<[tok_addr token := resolver]> reg) a.
Proof.
  induction 1 as [a Hnone|a res Hr _ IH]; intros Hne Hnopath.
  - apply grounded_unregistered. by rewrite lookup_insert_ne.
  - apply (grounded_registered _ _ res); [by rewrite lookup_insert_ne|].
    intros t Ht. apply list_elem_of_lookup in Ht as [i Hi].
    assert (token_eqb t token = false) as Heq.
    { destruct (token_eqb t token) eqn:Heq; [|done].
      specialize (Hnopath res Hr [i]). simpl in Hnopath.
      by rewrite Hi, Heq in Hnopath. }
    apply IH.
    + apply list_elem_of_lookup. eauto.
    + unfold token_eqb in Heq. apply bool_decide_eq_false in Heq. congruence.
    + intros res' Hr' path. specialize (Hnopath res Hr (i :: path)).
      simpl in Hnopath. rewrite Hi, Heq, Hr' in Hnopath.
      by destruct (walk _ _ _ path).
Qed.

Lemma acyclic_insert (reg : Registry) token f :
  acyclic reg ->
  reg !! tok_addr token = None ->
  (forall path, walk reg token (requires f) path = None) ->
  acyclic (<[tok_addr token := createResolver f]> reg).
Proof.
  intros Hacyc Hfresh Hnopath.
  assert (factory (createResolver f) = f) as Hfac.
  { unfold createResolver. by destruct (lifetime f) as [[]|]. }
  assert (grounded (<[tok_addr token := createResolver f]> reg) (tok_addr token))
    as Hnew.
  { apply (grounded_registered _ _ (createResolver f));
      [by rewrite lookup_insert_eq|].
    rewrite Hfac. intros t Ht. apply list_elem_of_lookup in Ht as [i Hi].
    assert (token_eqb t token = false) as Heq.
    { destruct (token_eqb t token) eqn:Heq; [|done].
      specialize (Hnopath [i]). simpl in Hnopath. by rewrite Hi, Heq in Hnopath. }
    apply grounded_insert_avoiding; [apply Hacyc| |].
    - unfold token_eqb in Heq. apply bool_decide_eq_false in Heq. congruence.
    - intros res' Hr' path. specialize (Hnopath (i :: path)).
      simpl in Hnopath. rewrite Hi, Heq, Hr' in Hnopath.
      by destruct (walk _ _ _ path). }
  intros a. induction (Hacyc a) as [a Hnone|a res Hr _ IH].
  - destruct (decide (tok_addr token = a)) as [<-|Hne]; [done|].
    apply grounded_unregistered. by rewrite lookup_insert_ne.
  - destruct (decide (tok_addr token = a)) as [<-|Hne]; [done|].
    apply (grounded_registered _ _ res); [by rewrite lookup_insert_ne|]. done.
Qed.

Lemma findCycle_sound (reg : Registry) token fuel f trace :
  findCycle reg token fuel f = Some trace ->
  first_cycle reg token (requires f) trace.
Proof.
  unfold findCycle.
  destruct (visit reg token fuel (requires f) []) as [[b tr]|] eqn:Hv; [|done].
  intros [= <-]. apply visit_ok in Hv. destruct b.
  - by destruct Hv as (p & -> & _ & Hp).
  - by destruct Hv as [-> Hnone].
Qed.

Lemma findCycle_mono (reg : Registry) token n m f trace :
  n <= m -> findCycle reg token n f = Some trace ->
  findCycle reg token m f = Some trace.
Proof.
  unfold findCycle. intros Hle.
  destruct (visit reg token n (requires f) []) as [[b tr]|] eqn:Hv; [|done].
  by rewrite (visit_mono _ _ _ _ _ _ _ Hle Hv).
Qed.

Lemma findCycle_terminates (reg : Registry) token f :
  acyclic reg ->
  exists n trace, forall m, n <= m -> findCycle reg token m f = Some trace.
Proof.
  intros Hacyc.
  destruct (visit_terminates reg token (requires f)) as [n Hn].
  { intros t _. apply Hacyc. }
  destruct (Hn n [] (le_n _)) as [[b tr] Hv]. exists n, tr. intros m Hle.
  apply (findCycle_mono _ _ n); [done|]. unfold findCycle. by rewrite Hv.
Qed.

Lemma register_acyclic fuel token f st st' :
  acyclic (registry st) -> register fuel token f st = Some st' ->
  acyclic (registry st').
Proof.
  unfold register. intros Hacyc. case_bool_decide as Hreg.
  { by intros [= <-]. }
  destruct (findCycle _ _ _ _) as [cycle|] eqn:Hfc; [|done].
  case_bool_decide as Hlen; intros [= <-]; [done|]. simpl.
  apply findCycle_sound in Hfc. destruct cycle; [|simpl in Hlen; lia].
  apply acyclic_insert; [done| |done].
  by apply eq_None_not_Some.
Qed.

Lemma reachable_acyclic st : reachable st -> acyclic (registry st).
Proof.
  induction 1 as [|st fuel a st' _ IH Hstep].
  - intros a. by apply grounded_unregistered.
  - destruct a as [token f|value| |p s].
    + by eapply register_acyclic.
    + intros a. eapply grounded_same_factories; [|apply IH].
      eapply step_same_factories; [|exact Hstep]; by intros ??.
    + intros a. eapply grounded_same_factories; [|apply IH].
      eapply step_same_factories; [|exact Hstep]; by intros ??.
    + intros a. eapply grounded_same_factories; [|apply IH].
      eapply step_same_factories; [|exact Hstep]; by intros ??.
Qed.


(** ** The log is write-only *)

Lemma erase_idemp st : erase (erase st) = erase st.
Proof. reflexivity. Qed.

Lemma blind_erase_eq {A} (m : M A) st1 st2 :
  log_blind m -> erase st1 = erase st2 -> observe (m st1) = observe (m st2).
Proof. intros Hm Heq. by rewrite (Hm st1), (Hm st2), Heq. Qed.

Lemma blind_ret {A} (a : A) : log_blind (ret a).
Proof. by intros st. Qed.

Lemma blind_bind {A B} (m : M A) (k : A -> M B) :
  log_blind m -> (forall a, log_blind (k a)) -> log_blind (let* a := m in k a).
Proof.
  intros Hm Hk st. unfold bind. specialize (Hm st). unfold observe in Hm.
  destruct (m st) as [[a s1]|], (m (erase st)) as [[a' s1']|];
    simpl in Hm; try done.
  assert (a = a' /\ erase s1 = erase s1') as [-> Heq] by (split; congruence).
  by apply blind_erase_eq.
Qed.

Ltac blind_prim :=
  let st := fresh "st" in
  intros st; cbv [observe]; simpl; repeat case_match; simplify_eq/=; reflexivity.

Lemma blind_modify f :
  (forall st, erase (f st) = erase (f (erase st))) -> log_blind (modify f).
Proof. intros Hf st. unfold observe, modify. simpl. by rewrite Hf. Qed.

Lemma blind_alloc c : log_blind (alloc c).
Proof. by intros st. Qed.

Lemma blind_settle p s : log_blind (settle p s).
Proof. unfold settle. blind_prim. Qed.

Lemma blind_resolvePromise p x : log_blind (resolvePromise p x).
Proof.
  destruct x; simpl; try apply blind_settle.
  case_decide; [apply blind_settle|by apply blind_modify].
Qed.

Lemma blind_attach p r : log_blind (attach p r).
Proof. unfold attach, enqueue, modify. blind_prim. Qed.

Lemma blind_then p h : log_blind (then_ p h).
Proof.
  apply blind_bind; [apply blind_alloc|]. intros d.
  apply blind_bind; [apply blind_attach|]. intros _. apply blind_ret.
Qed.

Lemma blind_Promise_resolve x : log_blind (Promise_resolve x).
Proof. destruct x; simpl; try apply blind_alloc. apply blind_ret. Qed.

Lemma blind_all_loop p xs : forall i, log_blind (all_loop p i xs).
Proof.
  induction xs as [|x xs IH]; intros i; simpl; [apply blind_ret|].
  apply blind_bind; [apply blind_Promise_resolve|]. intros q.
  apply blind_bind; [apply blind_then|]. intros _. apply IH.
Qed.

Lemma blind_Promise_all xs : log_blind (Promise_all xs).
Proof.
  apply blind_bind; [apply blind_alloc|]. intros p.
  apply blind_bind; [apply blind_all_loop|]. intros _.
  apply blind_bind; [|intros _; apply blind_ret].
  case_bool_decide; [apply blind_settle|apply blind_ret].
Qed.

Lemma blind_allElement p i v : log_blind (allElement p i v).
Proof.
  intros st. unfold allElement.
  change (promises (erase st)) with (promises st).
  destruct (promises st !! p) as [[ps [| |els vals rem]]|]; try done.
  case_bool_decide; [|done].
  by apply (blind_erase_eq _ _ _ (blind_resolvePromise _ _)).
Qed.

Lemma blind_emit e : log_blind (modify (emit e)).
Proof. by apply blind_modify. Qed.

Lemma blind_update key g : log_blind (update_resolver key g).
Proof. by apply blind_modify. Qed.

Lemma blind_callCreate owner f d deps : log_blind (callCreate owner f d deps).
Proof.
  apply blind_bind; [by intros st|]. intros n.
  apply blind_bind; [apply blind_emit|]. intros _.
  destruct (create f n deps).
  - apply blind_resolvePromise.
  - apply blind_settle.
  - apply blind_bind; [apply blind_alloc|]. intros p. apply blind_resolvePromise.
Qed.

Lemma blind_runReaction r s : log_blind (runReaction r s).
Proof.
  unfold runReaction, singletonFulfilled, singletonRejected.
  destruct (handler r), s; try destruct (apply_args _);
    repeat first
      [ apply blind_callCreate | apply blind_settle | apply blind_resolvePromise
      | apply blind_emit | apply blind_update | apply blind_allElement
      | apply blind_bind | intros _ ].
Qed.

Lemma blind_runJob j : log_blind (runJob j).
Proof.
  destruct j; simpl; [apply blind_runReaction|].
  apply blind_bind; [apply blind_then|intros _; apply blind_ret].
Qed.

Lemma blind_tick : log_blind tick.
Proof.
  intros st. unfold tick. change (queue (erase st)) with (queue st).
  destruct (queue st) as [|j q]; [done|].
  by apply (blind_erase_eq _ _ _ (blind_runJob _)).
Qed.

Lemma blind_settleExternal p s : log_blind (settleExternal p s).
Proof.
  intros st. unfold settleExternal.
  change (promises (erase st)) with (promises st).
  destruct (promises st !! p) as [[ps [| |]]|]; try done.
  destruct s; [apply blind_resolvePromise|apply blind_settle].
Qed.

Lemma blind_mapM {A B} (f : A -> M B) l :
  (forall a, log_blind (f a)) -> log_blind (mapM f l).
Proof.
  intros Hf. induction l as [|a l IH]; simpl; [apply blind_ret|].
  apply blind_bind; [apply Hf|]. intros b.
  apply blind_bind; [apply IH|intros bs; apply blind_ret].
Qed.

Lemma blind_resolveFactory_with rec owner f :
  (forall t, log_blind (rec t)) -> log_blind (resolveFactory_with rec owner f).
Proof.
  intros Hrec.
  apply blind_bind; [by apply blind_mapM|]. intros deps.
  unfold createWhenResolved.
  apply blind_bind; [apply blind_Promise_all|]. intros p.
  apply blind_bind; [apply blind_then|]. intros d.
  apply blind_bind; [apply blind_emit|intros _; apply blind_ret].
Qed.

Lemma blind_resolver_resolve_with rec key r :
  (forall t, log_blind (rec t)) -> log_blind (resolver_resolve_with rec key r).
Proof.
  intros Hrec. destruct r as [f|f v [] [p|]]; simpl; try apply blind_ret.
  - apply blind_bind; [by apply blind_resolveFactory_with|].
    intros d. apply blind_ret.
  - apply blind_bind; [by apply blind_resolveFactory_with|]. intros x.
    apply blind_bind; [apply blind_then|]. intros d.
    apply blind_bind; [apply blind_update|intros _; apply blind_ret].
Qed.

Lemma blind_resolveToken fuel : forall token, log_blind (resolveToken fuel token).
Proof.
  induction fuel as [|k IH]; intros token st; [done|].
  cbn [resolveToken]. change (registry (erase st)) with (registry st).
  destruct (registry st !! tok_addr token) as [resolver|].
  - by apply blind_resolver_resolve_with.
  - done.
Qed.

Lemma blind_Container_resolve fuel value : log_blind (Container_resolve fuel value).
Proof.
  apply blind_bind; [|intros x; apply blind_Promise_resolve].
  destruct value as [token|f]; [apply blind_resolveToken|].
  apply blind_bind; [|intros d; apply blind_ret].
  apply blind_resolveFactory_with, blind_resolveToken.
Qed.

Lemma observe_snd {A} (r1 r2 : option (A * State)) :
  observe r1 = observe r2 -> erase <$> (snd <$> r1) = erase <$> (snd <$> r2).
Proof.
  unfold observe. destruct r1 as [[a1 s1]|], r2 as [[a2 s2]|]; simpl; congruence.
Qed.

Lemma step_erase fuel a st :
  erase <$> step fuel a st = erase <$> step fuel a (erase st).
Proof.
  destruct a as [token f|value| |p s]; simpl.
  - unfold register. simpl. case_bool_decide; [done|].
    destruct (findCycle _ _ _ _); [|done]. by case_bool_decide.
  - apply observe_snd, blind_Container_resolve.
  - apply observe_snd, blind_tick.
  - apply observe_snd, blind_settleExternal.
Qed.

Lemma run_erase fuel acts : forall st1 st2,
  erase st1 = erase st2 ->
  erase <$> run fuel acts st1 = erase <$> run fuel acts st2.
Proof.
  induction acts as [|a acts IH]; intros st1 st2 Heq; simpl; [by rewrite Heq|].
  pose proof (step_erase fuel a st1) as H1.
  pose proof (step_erase fuel a st2) as H2. rewrite Heq, <- H2 in H1.
  destruct (step fuel a st1) as [s1|], (step fuel a st2) as [s2|];
    simpl in H1; try done.
  apply IH. congruence.
Qed.


(** ** Counting outstanding reactions *)

Section count.
Context {A : Type} (P : A -> bool).

Lemma count_app l1 l2 : count P (l1 ++ l2) = count P l1 + count P l2.
Proof. induction l1 as [|x l1 IH]; simpl; [done|]. rewrite IH. lia. Qed.

Lemma count_zero l : (forall x, x ∈ l -> P x = false) -> count P l = 0.
Proof.
  induction l as [|x l IH]; intros H; simpl; [done|].
  rewrite (H x (list_elem_of_here _ _)), IH; [done|].
  intros y Hy. apply H. by right.
Qed.

Lemma count_zero_inv l x : count P l = 0 -> x ∈ l -> P x = false.
Proof.
  induction l as [|y l IH]; simpl; intros Hc Hx; [by apply elem_of_nil in Hx|].
  apply elem_of_cons in Hx as [->|Hx].
  - destruct (P y); [lia|done].
  - apply IH; [|done]. destruct (P y); lia.
Qed.

Lemma count_pos l : 0 < count P l -> exists x, x ∈ l /\ P x = true.
Proof.
  induction l as [|y l IH]; simpl; [lia|]. destruct (P y) eqn:Hy.
  - intros _. exists y. split; [by left|done].
  - intros H. destruct IH as (x & ? & ?); [lia|]. exists x. split; [by right|done].
Qed.

Lemma count_concat_insert {B} (f : B -> list A) (l : list B) p c c' :
  l !! p = Some c ->
  count P (concat (map f (<[p := c']> l))) + count P (f c) =
  count P (concat (map f l)) + count P (f c').
Proof.
  revert p. induction l as [|x l IH]; intros [|p]; simpl; try done.
  - intros [= ->]. rewrite !count_app. lia.
  - intros Hp. rewrite !count_app. specialize (IH p Hp). lia.
Qed.

Lemma count_concat_snoc {B} (f : B -> list A) (l : list B) c :
  count P (concat (map f (l ++ [c]))) = count P (concat (map f l)) + count P (f c).
Proof.
  rewrite map_app, concat_app, count_app. simpl. by rewrite app_nil_r.
Qed.
End count.

Lemma count_snoc {A} (P : A -> bool) l x :
  count P (l ++ [x]) = count P l + (if P x then 1 else 0).
Proof. rewrite count_app. simpl. lia. Qed.

Lemma out_emit e st : outstanding (emit e st) = outstanding st.
Proof. reflexivity. Qed.

Lemma log_emit e st : log (emit e st) = log st ++ [e].
Proof. reflexivity. Qed.

Lemma count_ext {A} (P Q : A -> bool) l :
  (forall x, P x = Q x) -> count P l = count Q l.
Proof. intros H. induction l as [|x l IH]; simpl; [done|]. by rewrite H, IH. Qed.

Lemma count_le_length {A} (P : A -> bool) l : count P l <= length l.
Proof. induction l as [|x l IH]; simpl; [done|]. destruct (P x); lia. Qed.

Section outstanding.
Context (P : Reaction -> bool).

Lemma out_alloc st c :
  fresh_cell c ->
  count P (outstanding (set_promises (promises st ++ [c]) st)) =
  count P (outstanding st).
Proof.
  intros Hc. unfold outstanding. simpl. rewrite !count_app, count_concat_snoc.
  unfold fresh_cell in Hc. unfold cell_reactions.
  destruct (pstate c) as [rs|s]; [subst|]; simpl; lia.
Qed.

Lemma out_thenable st t q :
  count P (outstanding (set_queue (queue st ++ [JThenable t q]) st)) =
  count P (outstanding st).
Proof.
  unfold outstanding. simpl. rewrite !count_app, count_concat_snoc. simpl. lia.
Qed.

Lemma concat_job_reactions (rs : list Reaction) s :
  concat (map job_reactions (map (fun r => JReaction r s) rs)) = rs.
Proof. induction rs as [|r rs IH]; simpl; [done|]. by rewrite IH. Qed.

Lemma out_settle st p rs k s :
  promises st !! p = Some {| pstate := Pending rs; pkind := k |} ->
  count P (outstanding
             (set_queue (queue st ++ map (fun r => JReaction r s) rs)
                (set_promises (<[p := {| pstate := Settled s; pkind := k |}]>
                                 (promises st)) st))) =
  count P (outstanding st).
Proof.
  intros Hp. unfold outstanding. simpl.
  rewrite !count_app, map_app, concat_app, count_app, concat_job_reactions.
  pose proof (count_concat_insert P cell_reactions _ _ _
                {| pstate := Settled s; pkind := k |} Hp) as H.
  unfold cell_reactions at 2 4 in H. simpl in H. lia.
Qed.

Lemma out_attach_pending st p rs k r :
  promises st !! p = Some {| pstate := Pending rs; pkind := k |} ->
  count P (outstanding
             (set_promises (<[p := {| pstate := Pending (rs ++ [r]); pkind := k |}]>
                              (promises st)) st)) =
  count P (outstanding st) + (if P r then 1 else 0).
Proof.
  intros Hp. unfold outstanding. simpl. rewrite !count_app.
  pose proof (count_concat_insert P cell_reactions _ _ _
                {| pstate := Pending (rs ++ [r]); pkind := k |} Hp) as H.
  unfold cell_reactions at 2 4 in H. simpl in H. rewrite count_app in H.
  simpl in H. lia.
Qed.

Lemma out_attach_settled st r s :
  count P (outstanding (set_queue (queue st ++ [JReaction r s]) st)) =
  count P (outstanding st) + (if P r then 1 else 0).
Proof.
  unfold outstanding. simpl. rewrite !count_app, count_concat_snoc. simpl. lia.
Qed.

Lemma out_kind st p ps k k' :
  promises st !! p = Some {| pstate := ps; pkind := k |} ->
  count P (outstanding
             (set_promises (<[p := {| pstate := ps; pkind := k' |}]>
                              (promises st)) st)) =
  count P (outstanding st).
Proof.
  intros Hp. unfold outstanding. simpl. rewrite !count_app.
  pose proof (count_concat_insert P cell_reactions _ _ _
                {| pstate := ps; pkind := k' |} Hp) as H.
  unfold cell_reactions at 2 4 in H. simpl in H. lia.
Qed.

Lemma out_dequeue st j q :
  queue st = j :: q ->
  count P (outstanding st) =
  count P (job_reactions j) + count P (outstanding (set_queue q st)).
Proof.
  intros Hq. unfold outstanding. simpl. rewrite Hq. simpl.
  rewrite !count_app. lia.
Qed.

(** [attach] to a promise that exists registers exactly one reaction. *)
Lemma out_attach st p r st' :
  p < length (promises st) ->
  attach p r st = Some (tt, st') ->
  count P (outstanding st') = count P (outstanding st) + (if P r then 1 else 0).
Proof.
  intros Hp. unfold attach. apply lookup_lt_is_Some in Hp as [[[rs|s] k] Hc];
    rewrite Hc; unfold enqueue, modify; intros ?; simplify_eq.
  - by apply out_attach_pending.
  - apply out_attach_settled.
Qed.
End outstanding.

(** ** Changes that leave a class of reactions and events alone *)

Lemma unselected_reaction (HP P : Reaction -> bool) r :
  HP r = false -> (forall r, P r = true -> HP r = true) -> P r = false.
Proof.
  intros Hr HP'. destruct (P r) eqn:HPr; [|done]. apply HP' in HPr. congruence.
Qed.

Lemma neutral_frame HP EP :
  (forall p i d, HP (react (HAllElement p i) d) = false) ->
  (forall t d, HP (react (HAdopt t) d) = false) ->
  (forall owner f d n deps, HP (react (HCreate owner f) d) = false ->
     EP (ECreate owner (fid f) d n deps) = false) ->
  (forall owner f d, HP (react (HCreate owner f) d) = false ->
     EP (EDepFail owner (fid f) d) = false) ->
  (forall key d b, HP (react (HSingleton key) d) = false ->
     EP (ESingletonDone key b) = false) ->
  Frame (neutral HP EP) (fun r => HP r = false) (fun e => EP e = false)
        (fun _ => True).
Proof.
  intros Hall Hadopt Hcreate Hdepfail Hdone. split; try done.
  - intros a b c [H1 H2] [H3 H4]. split; intros P HP'.
    + by rewrite H3, H1.
    + by rewrite H4, H2.
  - intros st c Hc. split; [|done]. intros P _. by apply out_alloc.
  - intros st t q. split; [|done]. intros P _. apply out_thenable.
  - intros st p rs k s Hp. split; [|done]. intros P _. by apply out_settle.
  - intros st p rs k r Hr Hp. split; [|done]. intros P HP'.
    rewrite (out_attach_pending P st p rs k r Hp).
    rewrite (unselected_reaction HP P r); [lia|done..].
  - intros st p s k r Hr Hp. split; [|done]. intros P HP'.
    rewrite out_attach_settled.
    rewrite (unselected_reaction HP P r); [lia|done..].
  - intros st p ps els vals rem vals' rem' Hp. split; [|done]. intros P _.
    by eapply out_kind.
  - intros st e He. split; [done|]. intros P HP'. simpl. rewrite count_app.
    simpl. destruct (P e) eqn:HPe; [|lia]. apply HP' in HPe. congruence.
  - intros st j q Hq Hj. split; [|done]. intros P HP'.
    rewrite (out_dequeue P st j q Hq). destruct j as [r s|]; simpl; [|done].
    simpl in Hj. by rewrite (unselected_reaction HP P r).
Qed.

Lemma same_resolver_frame key :
  Frame (same_resolver key) (fun r => handler r <> HSingleton key)
        (fun _ => True) (fun k => k <> key).
Proof.
  split; try done.
  - intros a b c Hab Hbc. unfold same_resolver in *. congruence.
  - intros st k g Hk _. unfold same_resolver. simpl. by rewrite lookup_alter_ne.
  - intros k d Hk. intro Heq. by subst.
Qed.

Lemma heap_grows_insert st p c c' :
  promises st !! p = Some c ->
  (forall s, pstate c = Settled s -> pstate c' = Settled s) ->
  heap_grows st (set_promises (<[p := c']> (promises st)) st).
Proof.
  intros Hp Hc. split; simpl; [by rewrite length_insert|].
  intros q d Hq. destruct (decide (q = p)) as [->|Hne].
  - exists c'. rewrite list_lookup_insert_eq; [|by eapply lookup_lt_Some].
    split; [done|]. intros s Hs. apply Hc. congruence.
  - exists d. by rewrite list_lookup_insert_ne.
Qed.

Lemma heap_grows_same st st' : promises st' = promises st -> heap_grows st st'.
Proof. intros H. split; rewrite H; [done|]. eauto. Qed.

Lemma heap_grows_frame :
  Frame heap_grows (fun _ => True) (fun _ => True) (fun _ => True).
Proof.
  split; try done; try (intros; by apply heap_grows_same).
  - intros a b c [L1 H1] [L2 H2]. split; [lia|]. intros p x Hx.
    destruct (H1 p x Hx) as (y & Hy & Hxy). destruct (H2 p y Hy) as (z & Hz & Hyz).
    exists z. split; [done|]. auto.
  - intros st c _. split; simpl; [rewrite length_app; lia|]. intros p x Hx.
    exists x. split; [|done]. by apply lookup_app_l_Some.
  - intros st p rs k s Hp.
    apply (heap_grows_insert (set_queue _ st) p _ _ Hp). done.
  - intros st p rs k r _ Hp. apply (heap_grows_insert st p _ _ Hp). done.
  - intros st p ps els vals rem vals' rem' Hp.
    apply (heap_grows_insert st p _ _ Hp). done.
Qed.

Lemma quiet_frame : Frame quiet plumbing (fun _ => False) (fun _ => False).
Proof.
  split; try done; try (intros; exact I).
  intros a b c [? ?] [? ?]. split; congruence.
Qed.


(** ** Every attempt calls [create] at most once *)

Lemma alloc_inv c st p st' :
  alloc c st = Some (p, st') ->
  p = length (promises st) /\ st' = set_promises (promises st ++ [c]) st.
Proof. unfold alloc. intros ?. by simplify_eq. Qed.

Lemma then_inv p h st d st' :
  then_ p h st = Some (d, st') ->
  d = length (promises st) /\
  attach p {| handler := h; derived := d |}
    (set_promises (promises st ++ [{| pstate := Pending []; pkind := Plain |}]) st)
  = Some (tt, st').
Proof.
  unfold then_. intros H.
  apply bind_inv in H as (d0 & st1 & Ha & H).
  apply bind_inv in H as ([] & st2 & Hb & H).
  apply ret_inv in H as [-> ->]. by apply alloc_inv in Ha as [-> ->].
Qed.

Lemma attach_same p r st u st' :
  attach p r st = Some (u, st') ->
  log st' = log st /\ registry st' = registry st /\ serial st' = serial st.
Proof.
  unfold attach, enqueue, modify.
  destruct (promises st !! p) as [[[rs|s] k]|]; intros ?; by simplify_eq.
Qed.

Lemma then_same p h st d st' :
  then_ p h st = Some (d, st') ->
  log st' = log st /\ registry st' = registry st /\ serial st' = serial st.
Proof. intros [_ H]%then_inv. by apply attach_same in H. Qed.

Lemma attach_grows p r : rel heap_grows (attach p r).
Proof. by apply (rel_attach heap_grows_frame). Qed.

Lemma then_valid p h st d st' :
  then_ p h st = Some (d, st') -> d < length (promises st').
Proof.
  intros [-> H]%then_inv. apply attach_grows in H as [H _]. simpl in H.
  rewrite length_app in H. simpl in H. lia.
Qed.

Lemma Promise_all_valid xs st p st' :
  Promise_all xs st = Some (p, st') -> p < length (promises st').
Proof.
  unfold Promise_all. intros H.
  apply bind_inv in H as (p0 & st1 & Ha & H).
  apply bind_inv in H as ([] & st2 & Hb & H).
  apply bind_inv in H as ([] & st3 & Hc & H).
  apply ret_inv in H as [-> ->]. apply alloc_inv in Ha as [-> ->].
  apply (rel_all_loop heap_grows_frame) in Hb as [L1 _].
  assert (heap_grows st2 st3) as [L2 _].
  { revert Hc. case_bool_decide; [apply (rel_settle heap_grows_frame)|].
    intros [_ ->]%ret_inv. by apply heap_grows_same. }
  simpl in L1. rewrite length_app in L1. simpl in L1. lia.
Qed.

(** [then_] on a promise that exists registers exactly one reaction. *)
Lemma out_then P p h st d st' :
  p < length (promises st) ->
  then_ p h st = Some (d, st') ->
  count P (outstanding st') =
  count P (outstanding st) + (if P {| handler := h; derived := d |} then 1 else 0).
Proof.
  intros Hp [-> H]%then_inv. apply (out_attach P) in H.
  - by rewrite H, out_alloc.
  - simpl. rewrite length_app. lia.
Qed.

Section conserve.
Variable sel : Selector.

Lemma keeps_accounted st st' : keeps sel st st' -> accounted sel st -> accounted sel st'.
Proof. unfold keeps, accounted. lia. Qed.

Lemma keeps_trans a b c : keeps sel a b -> keeps sel b c -> keeps sel a c.
Proof. unfold keeps. lia. Qed.

Lemma keeps_refl a : keeps sel a a.
Proof. unfold keeps. lia. Qed.

Lemma keeps_same st st' :
  log st' = log st -> outstanding st' = outstanding st -> keeps sel st st'.
Proof. unfold keeps, settled_attempts. intros -> ->. lia. Qed.

Lemma neutral_keeps st st' :
  neutral (pending_create sel) (selected_event sel) st st' -> keeps sel st st'.
Proof.
  intros [H1 H2]. unfold keeps, settled_attempts.
  rewrite (H1 (pending_create sel)); [|done].
  rewrite (H2 (created sel)), (H2 (skipped sel)), (H2 (attempted sel)); [lia|..];
    intros e He; unfold selected_event; rewrite He; by rewrite ?orb_true_r.
Qed.

Lemma neutral_sel_frame :
  Frame (neutral (pending_create sel) (selected_event sel))
        (fun r => pending_create sel r = false)
        (fun e => selected_event sel e = false) (fun _ => True).
Proof.
  apply neutral_frame; try done.
  intros owner f d n deps H. unfold pending_create in H. simpl in H.
  unfold selected_event. simpl. by rewrite H.
Qed.

Lemma keeps_frame :
  Frame (keeps sel) (fun r => pending_create sel r = false)
        (fun e => selected_event sel e = false) (fun _ => True).
Proof.
  eapply frame_weaken; [apply neutral_sel_frame|apply neutral_keeps|].
  apply keeps_trans.
Qed.

Lemma keeps_createWhenResolved owner f deps :
  rel (keeps sel) (createWhenResolved owner f deps).
Proof.
  intros st d st' H. unfold createWhenResolved in H.
  apply bind_inv in H as (p & st2 & Hb & H).
  apply bind_inv in H as (d0 & st3 & Hc & H).
  apply bind_inv in H as ([] & st4 & Hd & H).
  apply ret_inv in H as [-> ->]. apply modify_inv in Hd as ->.
  pose proof (Promise_all_valid _ _ _ _ Hb) as Hvalid.
  apply (rel_Promise_all keeps_frame) in Hb.
  pose proof (then_same _ _ _ _ _ Hc) as (Hlog & _ & _).
  apply (out_then (pending_create sel)) in Hc; [|done].
  eapply keeps_trans; [exact Hb|].
  unfold keeps, settled_attempts in *.
  rewrite out_emit, log_emit, !count_snoc, Hc, Hlog.
  cbn [created skipped attempted pending_create handler derived].
  destruct (sel owner (fid f) d0); lia.
Qed.

Lemma keeps_resolveFactory_with rec owner f :
  (forall t, t ∈ requires f -> rel (keeps sel) (rec t)) ->
  rel (keeps sel) (resolveFactory_with rec owner f).
Proof.
  intros Hrec. apply (rel_bind keeps_frame);
    [by apply (rel_mapM keeps_frame)|].
  intros deps. apply keeps_createWhenResolved.
Qed.

Lemma keeps_runReaction r s q st st' :
  queue st = JReaction r s :: q ->
  runReaction r s (set_queue q st) = Some (tt, st') ->
  keeps sel st st'.
Proof.
  intros Hq H. destruct (pending_create sel r) eqn:Hsel.
  2:{ eapply keeps_trans; [|eapply (rel_runReaction keeps_frame), H; done].
      by apply (fr_dequeue keeps_frame st _ q Hq). }
  pose proof (out_dequeue (pending_create sel) st _ q Hq) as Hout.
  simpl in Hout. rewrite Hsel in Hout.
  destruct r as [[owner f|key|p i|t] d]; try done.
  unfold pending_create in Hsel. simpl in Hsel.
  assert (forall e st0 u st2 (m : M unit),
            (if created sel e then 1 else 0) + (if skipped sel e then 1 else 0) = 1 ->
            attempted sel e = false ->
            rel (keeps sel) m -> log st0 = log st ->
            outstanding st0 = outstanding (set_queue q st) ->
            m (emit e st0) = Some (u, st2) -> keeps sel st st2) as Hgo.
  { intros e st0 u st2 m He Ha Hm Hlog Hst0 Hrun. apply Hm in Hrun.
    unfold keeps, settled_attempts in *.
    rewrite out_emit, log_emit, !count_snoc, Ha, Hlog, Hst0 in Hrun.
    lia. }
  unfold runReaction in H. cbn [handler derived] in H.
  destruct s as [v|e].
  - destruct (apply_args v) as [deps|].
    + unfold callCreate in H.
      apply bind_inv in H as (n & st1 & Ha & H).
      apply bind_inv in H as ([] & st2 & Hb & H).
      apply modify_inv in Hb as ->. unfold next_serial in Ha.
      injection Ha as <- <-.
      eapply (Hgo (ECreate owner (fid f) d (serial st) deps)); [| | | | |exact H];
        try done.
      * simpl. by rewrite Hsel.
      * destruct (create f _ deps).
        -- apply (rel_resolvePromise keeps_frame).
        -- apply (rel_settle keeps_frame).
        -- apply (rel_bind keeps_frame); [by apply (rel_alloc keeps_frame)|].
           intros p. apply (rel_resolvePromise keeps_frame).
    + apply bind_inv in H as ([] & st1 & Ha & H). apply modify_inv in Ha as ->.
      eapply (Hgo (EDepFail owner (fid f) d)); [| | | | |exact H]; try done.
      * simpl. by rewrite Hsel.
      * apply (rel_settle keeps_frame).
  - apply bind_inv in H as ([] & st1 & Ha & H). apply modify_inv in Ha as ->.
    eapply (Hgo (EDepFail owner (fid f) d)); [| | | | |exact H]; try done.
    + simpl. by rewrite Hsel.
    + apply (rel_settle keeps_frame).
Qed.

Lemma keeps_tick : rel (keeps sel) tick.
Proof.
  intros st u st'. unfold tick. destruct (queue st) as [|j q] eqn:Hq.
  - intros ?; simplify_eq. apply keeps_refl.
  - destruct j as [r s|t p]; simpl; intros H.
    + destruct u. by eapply keeps_runReaction.
    + eapply keeps_trans; [|eapply (rel_runJob keeps_frame (JThenable t p)), H; done].
      by apply (fr_dequeue keeps_frame st _ q Hq).
Qed.

Lemma keeps_resolveToken fuel : forall token, rel (keeps sel) (resolveToken fuel token).
Proof.
  induction fuel as [|k IH]; intros token st a st'; simpl; [done|].
  destruct (registry st !! tok_addr token) as [resolver|] eqn:Hr.
  - apply (rel_resolver_resolve_with keeps_frame); [|done].
    apply keeps_resolveFactory_with. auto.
  - apply (rel_bind keeps_frame);
      [apply (rel_Promise_reject keeps_frame)|intros p; apply (rel_ret keeps_frame)].
Qed.

Lemma keeps_step fuel a st st' : step fuel a st = Some st' -> keeps sel st st'.
Proof.
  destruct a as [token f|value| |p s]; simpl.
  - unfold register. case_bool_decide.
    { intros ?; simplify_eq. by apply (fr_emit keeps_frame). }
    destruct (findCycle _ _ _ _); [|done]. case_bool_decide; intros ?; simplify_eq.
    + by apply (fr_emit keeps_frame).
    + by apply keeps_same.
  - destruct (Container_resolve fuel value st) as [[x st1]|] eqn:H; [|done].
    intros ?; simplify_eq/=. revert H.
    apply (rel_bind keeps_frame); [|intros y; apply (rel_Promise_resolve keeps_frame)].
    destruct value as [token|f]; [apply keeps_resolveToken|].
    apply (rel_bind keeps_frame); [|intros d; apply (rel_ret keeps_frame)].
    apply keeps_resolveFactory_with. intros t _. apply keeps_resolveToken.
  - destruct (tick st) as [[x st1]|] eqn:H; [|done].
    intros ?; simplify_eq/=. by eapply keeps_tick.
  - destruct (settleExternal p s st) as [[x st1]|] eqn:H; [|done].
    intros ?; simplify_eq/=. by eapply (rel_settleExternal keeps_frame).
Qed.

Lemma reachable_accounted st : reachable st -> accounted sel st.
Proof.
  induction 1 as [|st fuel a st' _ IH Hstep]; [done|].
  eapply keeps_accounted; [|exact IH]. by eapply keeps_step.
Qed.
End conserve.


(** ** Resolution never re-enters a resolver *)

Lemma reaches_trans (reg : Registry) a b c :
  reaches reg a b -> reaches reg b c -> reaches reg a c.
Proof.
  induction 1 as [a|a resolver t b Hr Ht _ IH]; [done|].
  intros Hbc. eapply reaches_step; eauto.
Qed.

(** In an acyclic registry no token is among its own dependencies. *)
Lemma grounded_no_cycle (reg : Registry) a :
  grounded reg a ->
  forall resolver t, reg !! a = Some resolver -> t ∈ requires (factory resolver) ->
                     ~ reaches reg (tok_addr t) a.
Proof.
  induction 1 as [a Hnone|a res Hr _ IH]; intros resolver t Hr' Ht Hreach;
    [congruence|].
  assert (resolver = res) as -> by congruence.
  inversion Hreach as [b|b res2 t2 c Hr2 Ht2 Hreach2]; subst.
  - (* the dependency is the token itself *)
    by apply (IH t Ht res t).
  - apply (IH t Ht res2 t2 Hr2 Ht2).
    eapply reaches_trans; [exact Hreach2|].
    eapply reaches_step; [exact Hr|exact Ht|]. apply reaches_here.
Qed.

Lemma reaches_same_factories (reg reg' : Registry) a b :
  (forall k, binding <$> reg' !! k = binding <$> reg !! k) ->
  reaches reg a b -> reaches reg' a b.
Proof.
  intros Hsame. induction 1 as [a|a resolver t b Hr Ht _ IH]; [constructor|].
  specialize (Hsame a). rewrite Hr in Hsame.
  destruct (reg' !! a) as [resolver'|] eqn:Hr'; [|done].
  simpl in Hsame. injection Hsame as Hf.
  apply (reaches_step _ _ resolver' t); [done| |done].
  by rewrite <- binding_factory, Hf, binding_factory.
Qed.

Lemma same_factories_sym st st' : same_factories st st' -> same_factories st' st.
Proof. intros H a. by rewrite H. Qed.

(** ** Changes that leave a resolver alone *)

Lemma singleton_of_react key k d :
  singleton_of key (react (HSingleton k) d) = bool_decide (k = key).
Proof. reflexivity. Qed.

Lemma apart_frame EP key :
  (forall owner f d n deps, EP (ECreate owner f d n deps) = false) ->
  (forall owner f d, EP (EDepFail owner f d) = false) ->
  (forall k b, k <> key -> EP (ESingletonDone k b) = false) ->
  Frame (apart EP key) (fun r => singleton_of key r = false)
        (fun e => EP e = false) (fun k => k <> key).
Proof.
  intros Hcreate Hdepfail Hdone.
  eapply frame_restrict.
  - apply frame_conj; [apply frame_conj|].
    + apply (neutral_frame (singleton_of key) EP); try done.
      intros k d b Hk. apply Hdone. rewrite singleton_of_react in Hk.
      by apply bool_decide_eq_false in Hk.
    + apply (same_resolver_frame key).
    + apply same_factories_frame.
  - intros [h d] Hr. simpl. repeat split; [done|]. intros ->.
    unfold singleton_of in Hr. simpl in Hr. by rewrite bool_decide_eq_true_2 in Hr.
  - intros e He. done.
  - intros k Hk. done.
  - done.
  - done.
  - intros. apply Hcreate.
  - intros. apply Hdepfail.
  - intros k d Hk. rewrite singleton_of_react in Hk.
    by apply bool_decide_eq_false in Hk.
  - intros k d b Hk. apply Hdone. rewrite singleton_of_react in Hk.
    by apply bool_decide_eq_false in Hk.
Qed.

Lemma resolver_event_frame key :
  Frame (apart (resolver_event key) key) (fun r => singleton_of key r = false)
        (fun e => resolver_event key e = false) (fun k => k <> key).
Proof.
  apply apart_frame; try done.
  intros k b Hk. unfold resolver_event, outcome_event. simpl.
  by rewrite (bool_decide_eq_false_2 _ Hk).
Qed.

Lemma outcome_event_frame key :
  Frame (apart (outcome_event key) key) (fun r => singleton_of key r = false)
        (fun e => outcome_event key e = false) (fun k => k <> key).
Proof.
  apply apart_frame; try done.
  intros k b Hk. unfold outcome_event. simpl.
  by rewrite (bool_decide_eq_false_2 _ Hk).
Qed.

Lemma apart_refl EP key st : apart EP key st st.
Proof. repeat split. Qed.

Lemma apart_trans EP key a b c :
  apart EP key a b -> apart EP key b c -> apart EP key a c.
Proof.
  intros [[[H1 H2] H3] H4] [[[H5 H6] H7] H8]. repeat split.
  - intros P HP. by rewrite H5, H1.
  - intros P HP. by rewrite H6, H2.
  - unfold same_resolver in *. congruence.
  - intros k. by rewrite H8, H4.
Qed.

(** Resolving a token from which [key] cannot be reached leaves the
    resolver under [key] alone. *)
Lemma resolveToken_apart key fuel : forall token st v st',
  ~ reaches (registry st) (tok_addr token) key ->
  resolveToken fuel token st = Some (v, st') ->
  apart (resolver_event key) key st st'.
Proof.
  induction fuel as [|n IH]; intros token st v st' Hfar; simpl; [done|].
  assert (tok_addr token <> key) as Hne.
  { intros <-. apply Hfar. constructor. }
  destruct (registry st !! tok_addr token) as [resolver|] eqn:Hr.
  2:{ apply (rel_bind (resolver_event_frame key));
        [apply (rel_Promise_reject (resolver_event_frame key))
        |intros p; apply (rel_ret (resolver_event_frame key))]. }
  set (P := fun st0 : State =>
              forall t, t ∈ requires (factory resolver) ->
                        ~ reaches (registry st0) (tok_addr t) key).
  assert (P st) as HP.
  { intros t Ht Hreach. apply Hfar. by eapply reaches_step. }
  pose proof (frame_guard _ _ _ _ P (resolver_event_frame key)) as G.
  assert (forall st0 st1, apart (resolver_event key) key st0 st1 -> P st0 -> P st1)
    as Hkeep.
  { intros st0 st1 [_ Hsame] HP0 t Ht Hreach. apply (HP0 t Ht).
    eapply reaches_same_factories; [|exact Hreach].
    intros k. by rewrite Hsame. }
  specialize (G Hkeep).
  assert (rel (fun st0 st1 => P st0 -> apart (resolver_event key) key st0 st1 /\ P st1)
              (resolver_resolve_with (resolveToken n) (tok_addr token) resolver))
    as Hrel.
  { apply (rel_resolver_resolve_with G).
    - apply (rel_resolveFactory_with G).
      + intros t Ht st0 x st1 Hrun HP0. split; [|apply (Hkeep st0)]; try done;
          eapply IH; eauto.
      + done.
      + intros d deps. unfold resolver_event, outcome_event. simpl.
        unfold owned. by rewrite bool_decide_eq_false_2 by congruence.
    - intros d. rewrite singleton_of_react. by apply bool_decide_eq_false_2. }
  intros Hrun. by apply Hrel in Hrun as [? _].
Qed.

(** ** The invariant of the singleton resolvers *)

Lemma waiting_on_singleton key d r :
  waiting_on key d r = true -> singleton_of key r = true.
Proof. unfold waiting_on. by intros [? _]%andb_true_iff. Qed.

Lemma done_outcome key b e : done_of key b e = true -> outcome_event key e = true.
Proof. unfold outcome_event. destruct b; intros ->; by rewrite ?orb_true_r. Qed.

Lemma outcome_resolver key e :
  outcome_event key e = true -> resolver_event key e = true.
Proof. unfold resolver_event. by intros ->. Qed.

Lemma done_resolver key b e : done_of key b e = true -> resolver_event key e = true.
Proof. intros. by apply outcome_resolver, (done_outcome key b). Qed.

Lemma attempted_resolver key e :
  attempted (owned key) e = true -> resolver_event key e = true.
Proof. unfold resolver_event. intros ->. by rewrite orb_true_r. Qed.

Lemma count_le_implied {A} (P Q : A -> bool) l :
  (forall x, P x = true -> Q x = true) -> count P l <= count Q l.
Proof.
  intros H. induction l as [|x l IH]; simpl; [done|].
  destruct (P x) eqn:HP; [rewrite (H x HP)|]; destruct (Q x); lia.
Qed.

Lemma apart_same_view EP key st st' :
  (forall e, outcome_event key e = true -> EP e = true) ->
  apart EP key st st' -> same_view key st st'.
Proof.
  intros HEP [[[Hout Hlog] Hres] _]. split; [done|..].
  - by apply Hout.
  - intros d. apply Hout, waiting_on_singleton.
  - intros b. apply Hlog. intros e He. by apply HEP, (done_outcome key b).
  - by apply Hlog.
Qed.

Lemma single_inv_apart key st st' :
  apart (resolver_event key) key st st' -> single_inv key st -> single_inv key st'.
Proof.
  intros Hap. pose proof (apart_same_view _ _ _ _ (outcome_resolver key) Hap) as V.
  destruct Hap as [[[Hout Hlog] Hres] _].
  unfold single_inv. rewrite (sv_resolver _ _ _ V).
  destruct (registry st !! key) as [[f|f v resolved promise]|].
  - by rewrite (sv_singleton _ _ _ V), (sv_outcome _ _ _ V).
  - rewrite (sv_singleton _ _ _ V), !(sv_done _ _ _ V).
    rewrite (Hlog (attempted (owned key)) (attempted_resolver key)).
    intros (? & Hw & ? & ? & ?). repeat split; try done.
    intros d Hd. rewrite (sv_waiting _ _ _ V). by apply Hw.
  - rewrite (sv_singleton _ _ _ V). by rewrite (Hlog (resolver_event key)).
Qed.

Lemma single_inv_transient key f st st' :
  apart (outcome_event key) key st st' ->
  registry st !! key = Some (TransientResolver f) ->
  single_inv key st -> single_inv key st'.
Proof.
  intros Hap Hr. pose proof (apart_same_view _ _ _ _ (fun e H => H) Hap) as V.
  unfold single_inv. rewrite (sv_resolver _ _ _ V), Hr.
  by rewrite (sv_singleton _ _ _ V), (sv_outcome _ _ _ V).
Qed.

Lemma container_inv_apart st st' :
  (forall key, apart (resolver_event key) key st st') ->
  container_inv st -> container_inv st'.
Proof.
  intros Hap [Hacyc Hinv]. split.
  - intros a. eapply grounded_same_factories; [|apply Hacyc].
    intros k. destruct (Hap 1%positive) as [_ Hsame]. apply Hsame.
  - intros key. by eapply single_inv_apart.
Qed.

Lemma keeps_inv_refl st : keeps_inv st st.
Proof. by intros ?. Qed.

Lemma keeps_inv_trans a b c : keeps_inv a b -> keeps_inv b c -> keeps_inv a c.
Proof. unfold keeps_inv. auto. Qed.

Lemma apart_keeps_inv {A} (m : M A) :
  (forall key, rel (apart (resolver_event key) key) m) -> rel keeps_inv m.
Proof.
  intros Hm st a st' Hrun. unfold keeps_inv. apply container_inv_apart.
  intros key. by eapply Hm.
Qed.

(** The dependencies of a registered token do not lead back to it. *)
Lemma mapM_apart key fuel reqs : forall st deps st',
  (forall t, t ∈ reqs -> ~ reaches (registry st) (tok_addr t) key) ->
  mapM (resolveToken fuel) reqs st = Some (deps, st') ->
  apart (resolver_event key) key st st'.
Proof.
  induction reqs as [|t reqs IH]; intros st deps st' Hfar; simpl.
  - intros [_ ->]%ret_inv. apply apart_refl.
  - intros H. apply bind_inv in H as (v & st1 & Ha & H).
    apply bind_inv in H as (vs & st2 & Hb & H). apply ret_inv in H as [_ ->].
    apply (resolveToken_apart key) in Ha; [|apply Hfar; by left].
    eapply apart_trans; [exact Ha|]. eapply IH; [|exact Hb].
    intros u Hu Hreach. apply (Hfar u); [by right|].
    eapply reaches_same_factories; [|exact Hreach].
    intros k. destruct Ha as [_ Hsame]. by rewrite Hsame.
Qed.

Lemma createWhenResolved_apart key owner f deps :
  owner <> Some key ->
  rel (apart (resolver_event key) key) (createWhenResolved owner f deps).
Proof.
  intros Hne. apply (rel_createWhenResolved (resolver_event_frame key)); [done|].
  intros d. unfold resolver_event, outcome_event. simpl.
  unfold owned. by rewrite bool_decide_eq_false_2.
Qed.

Lemma createWhenResolved_outcome key owner f deps :
  rel (apart (outcome_event key) key) (createWhenResolved owner f deps).
Proof. by apply (rel_createWhenResolved (outcome_event_frame key)). Qed.

(** What [createWhenResolved] does to the log and the registry. *)
Lemma createWhenResolved_log owner f deps st d st' :
  createWhenResolved owner f deps st = Some (d, st') ->
  log st' = log st ++ [EAttempt owner (fid f) d deps] /\
  d < length (promises st').
Proof.
  unfold createWhenResolved. intros H.
  apply bind_inv in H as (p & st2 & Hb & H).
  apply bind_inv in H as (d0 & st3 & Hc & H).
  apply bind_inv in H as ([] & st4 & Hd & H).
  apply ret_inv in H as [-> ->]. apply modify_inv in Hd as ->.
  apply (rel_Promise_all quiet_frame) in Hb as (Hlog & _).
  pose proof (then_valid _ _ _ _ _ Hc).
  apply then_same in Hc as (Hlog' & _ & _).
  split; [|done]. rewrite log_emit. congruence.
Qed.

Lemma createWhenResolved_registry owner f deps st d st' :
  createWhenResolved owner f deps st = Some (d, st') ->
  registry st' = registry st /\ length (promises st) < d.
Proof.
  unfold createWhenResolved. intros H.
  apply bind_inv in H as (p & st2 & Hb & H).
  apply bind_inv in H as (d0 & st3 & Hc & H).
  apply bind_inv in H as ([] & st4 & Hd & H).
  apply ret_inv in H as [-> ->]. apply modify_inv in Hd as ->.
  pose proof (Promise_all_valid _ _ _ _ Hb) as Hp.
  pose proof (rel_Promise_all heap_grows_frame _ _ _ _ Hb) as [L _].
  assert (length (promises st) < length (promises st2)) as L2.
  { unfold Promise_all in Hb. apply bind_inv in Hb as (p0 & s1 & Ha & Hb).
    apply alloc_inv in Ha as [-> ->].
    apply bind_inv in Hb as ([] & s2 & Hl & Hb).
    apply bind_inv in Hb as ([] & s3 & Hs & Hb). apply ret_inv in Hb as [_ ->].
    apply (rel_all_loop heap_grows_frame) in Hl as [L1 _].
    assert (heap_grows s2 s3) as [L3 _].
    { revert Hs. case_bool_decide; [apply (rel_settle heap_grows_frame)|].
      intros [_ ->]%ret_inv. by apply heap_grows_same. }
    simpl in L1. rewrite length_app in L1. simpl in L1. lia. }
  apply (rel_Promise_all quiet_frame) in Hb as (_ & Hreg).
  pose proof (then_same _ _ _ _ _ Hc) as (_ & Hreg' & _).
  apply then_inv in Hc as [-> _]. split; [|lia]. simpl. congruence.
Qed.

Lemma resolveToken_same_factories fuel token :
  rel same_factories (resolveToken fuel token).
Proof. by apply (rel_resolveToken same_factories_frame). Qed.

Lemma mapM_keeps_inv fuel reqs :
  (forall token, rel keeps_inv (resolveToken fuel token)) ->
  rel keeps_inv (mapM (resolveToken fuel) reqs).
Proof.
  intros IH. apply (pre_mapM keeps_inv keeps_inv_refl keeps_inv_trans).
  intros t _. apply IH.
Qed.

Lemma same_factories_transient st st' a f :
  same_factories st st' -> registry st !! a = Some (TransientResolver f) ->
  registry st' !! a = Some (TransientResolver f).
Proof.
  intros Hsame Hr. specialize (Hsame a). rewrite Hr in Hsame.
  destruct (registry st' !! a) as [[g|g ? ? ?]|]; by simplify_eq/=.
Qed.

(** Starting a creation restores the invariant of the resolver. *)
Lemma singleton_start_inv a f val deps st1 x st5 d st6 :
  registry st1 !! a = Some (SingletonResolver f val false None) ->
  single_inv a st1 ->
  createWhenResolved (Some a) f deps st1 = Some (x, st5) ->
  then_ x (HSingleton a) st5 = Some (d, st6) ->
  single_inv a (set_registry (alter (set_promise d) a (registry st6)) st6).
Proof.
  intros Hr1 Hinv Htail Hthen.
  pose proof (apart_same_view _ _ _ _ (fun e H => H)
                (createWhenResolved_outcome a _ _ _ _ _ _ Htail)) as V.
  apply createWhenResolved_log in Htail as [Hlog5 Hx].
  pose proof (then_same _ _ _ _ _ Hthen) as (Hlog6 & Hreg6 & _).
  unfold single_inv in *. rewrite Hr1 in Hinv. simpl in Hinv.
  destruct Hinv as (Hc0 & _ & _ & Hd0 & Hatt).
  cbn [registry set_registry]. rewrite lookup_alter_eq, Hreg6, (sv_resolver _ _ _ V), Hr1.
  cbn [set_promise fmap option_fmap option_map in_flight is_resolved].
  change (outstanding (set_registry _ st6)) with (outstanding st6).
  change (log (set_registry _ st6)) with (log st6).
  rewrite !(out_then _ _ _ _ _ _ Hx Hthen), Hlog6, Hlog5.
  rewrite (sv_singleton _ _ _ V), Hc0.
  assert (forall b, count (done_of a b) (log st1 ++ [EAttempt (Some a) (fid f) x deps])
                    = count (done_of a b) (log st1)) as Hdone.
  { intros b. rewrite count_snoc. simpl. lia. }
  rewrite !Hdone, count_snoc, Hd0.
  cbn [attempted owned singleton_of react handler].
  unfold owned in *. rewrite !bool_decide_eq_true_2 by done. rewrite Hd0 in Hatt.
  repeat split; try done; [|lia].
  intros d' [= <-]. rewrite (out_then _ _ _ _ _ _ Hx Hthen), (sv_waiting _ _ _ V).
  pose proof (count_le_implied (waiting_on a d) (singleton_of a) (outstanding st1)
                (waiting_on_singleton a d)) as Hle.
  unfold waiting_on at 2. cbn [singleton_of react handler derived].
  rewrite !bool_decide_eq_true_2 by done. simpl. lia.
Qed.

Lemma resolveToken_inv fuel : forall token, rel keeps_inv (resolveToken fuel token).
Proof.
  induction fuel as [|n IH]; intros token st v st' Hrun Hinv; [done|].
  pose proof (resolveToken_same_factories _ _ _ _ _ Hrun) as Hsame.
  assert (acyclic (registry st')) as Hacyc'.
  { intros k. eapply grounded_same_factories; [apply Hsame|apply Hinv]. }
  simpl in Hrun. set (a := tok_addr token) in *.
  destruct (registry st !! a) as [resolver|] eqn:Hr.
  2:{ eapply container_inv_apart; [|exact Hinv]. intros key. revert Hrun.
      apply (rel_bind (resolver_event_frame key));
        [apply (rel_Promise_reject (resolver_event_frame key))
        |intros p; apply (rel_ret (resolver_event_frame key))]. }
  destruct resolver as [f|f val [] [p|]]; simpl in Hrun.
  - (* transient *)
    apply bind_inv in Hrun as (d & st4 & Hf & Hret). apply ret_inv in Hret as [-> ->].
    unfold resolveFactory_with in Hf.
    apply bind_inv in Hf as (deps & st1 & Hmap & Htail).
    pose proof (mapM_keeps_inv n _ IH _ _ _ Hmap Hinv) as [Hacyc1 Hsingle1].
    assert (registry st1 !! a = Some (TransientResolver f)) as Hr1.
    { eapply same_factories_transient; [|exact Hr].
      eapply (rel_mapM same_factories_frame); [|exact Hmap].
      intros t _. apply resolveToken_same_factories. }
    split; [done|]. intros key. destruct (decide (key = a)) as [->|Hne].
    + eapply single_inv_transient; [|exact Hr1|apply Hsingle1].
      by eapply createWhenResolved_outcome.
    + eapply single_inv_apart; [|apply Hsingle1].
      eapply createWhenResolved_apart; [|exact Htail]. congruence.
  - by apply ret_inv in Hrun as [_ ->].
  - by apply ret_inv in Hrun as [_ ->].
  - by apply ret_inv in Hrun as [_ ->].
  - (* a singleton resolver starts a creation *)
    apply bind_inv in Hrun as (x & st5 & Hf & Hrun).
    apply bind_inv in Hrun as (d & st6 & Hthen & Hrun).
    apply bind_inv in Hrun as ([] & st7 & Hupd & Hret).
    apply ret_inv in Hret as [-> ->]. apply modify_inv in Hupd as ->.
    unfold resolveFactory_with in Hf.
    apply bind_inv in Hf as (deps & st1 & Hmap & Htail).
    pose proof (mapM_keeps_inv n _ IH _ _ _ Hmap Hinv) as [Hacyc1 Hsingle1].
    assert (apart (resolver_event a) a st st1) as Hap.
    { eapply mapM_apart; [|exact Hmap]. intros t Ht.
      destruct Hinv as [Hacyc _].
      by apply (grounded_no_cycle _ _ (Hacyc a) _ t Hr). }
    assert (registry st1 !! a = Some (SingletonResolver f val false None)) as Hr1.
    { destruct Hap as [[_ Hres] _]. unfold same_resolver in Hres. congruence. }
    split; [done|]. intros key. destruct (decide (key = a)) as [->|Hne].
    + by eapply singleton_start_inv.
    + eapply single_inv_apart; [|apply Hsingle1].
      eapply apart_trans;
        [eapply createWhenResolved_apart; [|exact Htail]; congruence|].
      eapply apart_trans.
      * eapply (rel_then (resolver_event_frame key)); [|exact Hthen].
        intros d'. rewrite singleton_of_react. by apply bool_decide_eq_false_2.
      * apply (fr_update (resolver_event_frame key)); [done|constructor].
Qed.

Lemma Container_resolve_inv fuel value : rel keeps_inv (Container_resolve fuel value).
Proof.
  intros st p st' Hrun. unfold Container_resolve in Hrun.
  apply bind_inv in Hrun as (x & st1 & Hres & Hwrap).
  eapply keeps_inv_trans.
  - destruct value as [token|f]; [by eapply resolveToken_inv|].
    apply bind_inv in Hres as (d & st2 & Hf & Hret).
    apply ret_inv in Hret as [-> ->]. unfold resolveFactory, resolveFactory_with in Hf.
    apply bind_inv in Hf as (deps & st3 & Hmap & Htail).
    eapply keeps_inv_trans.
    + eapply mapM_keeps_inv; [|exact Hmap]. apply resolveToken_inv.
    + eapply apart_keeps_inv; [|exact Htail]. intros key.
      by apply createWhenResolved_apart.
  - eapply apart_keeps_inv; [|exact Hwrap]. intros key.
    apply (rel_Promise_resolve (resolver_event_frame key)).
Qed.

Lemma settleExternal_inv p s : rel keeps_inv (settleExternal p s).
Proof.
  apply apart_keeps_inv. intros key.
  apply (rel_settleExternal (resolver_event_frame key)).
Qed.

Lemma register_inv fuel token f st st' :
  register fuel token f st = Some st' -> keeps_inv st st'.
Proof.
  intros Hreg Hinv. pose proof (register_acyclic _ _ _ _ _ (proj1 Hinv) Hreg) as Hacyc.
  split; [done|]. destruct Hinv as [_ Hinv]. revert Hreg. unfold register.
  assert (forall msg key, single_inv key (emit (EConsoleError msg) st)) as Hemit.
  { intros msg key. eapply single_inv_apart; [|apply Hinv].
    by apply (fr_emit (resolver_event_frame key)). }
  case_bool_decide as Hreg; [intros [= <-]; apply Hemit|].
  destruct (findCycle _ _ _ _) as [cycle|]; [|done].
  case_bool_decide; intros [= <-]; [apply Hemit|].
  intros key. specialize (Hinv key). unfold single_inv in *.
  cbn [registry set_registry].
  change (outstanding (set_registry _ st)) with (outstanding st).
  change (log (set_registry _ st)) with (log st).
  destruct (decide (key = tok_addr token)) as [->|Hne];
    [|by rewrite lookup_insert_ne].
  rewrite lookup_insert_eq.
  apply eq_None_not_Some in Hreg. rewrite Hreg in Hinv. destruct Hinv as [Hc He].
  assert (forall P, (forall e, P e = true -> resolver_event (tok_addr token) e = true) ->
                    count P (log st) = 0) as Hzero.
  { intros P HP. pose proof (count_le_implied P _ (log st) HP). lia. }
  unfold createResolver. destruct (lifetime f) as [[]|]; simpl.
  - rewrite !(Hzero _ (done_resolver _ _)), (Hzero _ (attempted_resolver _)).
    by repeat split.
  - split; [done|]. apply Hzero, outcome_resolver.
  - rewrite !(Hzero _ (done_resolver _ _)), (Hzero _ (attempted_resolver _)).
    by repeat split.
Qed.

(** The two callbacks of a singleton resolver end the creation in
    flight. *)
Lemma singleton_job_inv a d s q st st' :
  queue st = JReaction (react (HSingleton a) d) s :: q ->
  single_inv a st ->
  runReaction (react (HSingleton a) d) s (set_queue q st) = Some (tt, st') ->
  single_inv a st'.
Proof.
  intros Hq Hinv Hrun.
  pose proof (out_dequeue (singleton_of a) st _ q Hq) as Hout.
  simpl in Hout. rewrite singleton_of_react, bool_decide_eq_true_2 in Hout by done.
  unfold single_inv in Hinv.
  destruct (registry st !! a) as [[f|f val resolved [p|]]|] eqn:Hr;
    simpl in Hinv; try (destruct Hinv as [Hc _]; lia).
  destruct Hinv as (Hc & _ & Hres & Hok & Hatt).
  assert (resolved = false) as ->
    by (destruct resolved; [by specialize (Hres eq_refl)|done]).
  simpl in *.
  assert (count (singleton_of a) (outstanding (set_queue q st)) = 0) as Hc0 by lia.
  unfold runReaction in Hrun. cbn [react handler derived] in Hrun.
  assert (forall (b : bool) g st2,
            g (SingletonResolver f val false (Some p)) =
              SingletonResolver f (if b then match s with Fulfill v => v | _ => val end
                                   else val) b None ->
            st2 = emit (ESingletonDone a b)
                    (set_registry (alter g a (registry st)) (set_queue q st)) ->
            apart (resolver_event a) a st2 st' ->
            single_inv a st') as Hgo.
  { intros b g st2 Hg -> Hap. eapply single_inv_apart; [exact Hap|].
    unfold single_inv. cbn [registry emit set_registry set_queue].
    rewrite lookup_alter_eq, Hr. cbn [fmap option_fmap option_map]. rewrite Hg.
    rewrite out_emit, log_emit.
    change (outstanding (set_registry _ (set_queue q st)))
      with (outstanding (set_queue q st)).
    change (log (set_registry _ (set_queue q st))) with (log st).
    rewrite !count_snoc, Hc0. simpl. rewrite !bool_decide_eq_true_2 by done.
    destruct b; simpl; repeat split; try done; lia. }
  destruct s as [v|e].
  - apply bind_inv in Hrun as ([] & st2 & Hdone & Hrun).
    unfold singletonFulfilled in Hdone.
    apply bind_inv in Hdone as ([] & st3 & Hupd & Hemit).
    apply modify_inv in Hupd as ->. apply modify_inv in Hemit as ->.
    eapply (Hgo true (on_fulfilled v)); [done|reflexivity|].
    eapply (rel_resolvePromise (resolver_event_frame a)), Hrun.
  - apply bind_inv in Hrun as ([] & st2 & Hdone & Hrun).
    unfold singletonRejected in Hdone.
    apply bind_inv in Hdone as ([] & st3 & Hupd & Hemit).
    apply modify_inv in Hupd as ->. apply modify_inv in Hemit as ->.
    eapply (Hgo false on_rejected); [done|reflexivity|].
    eapply (rel_settle (resolver_event_frame a)), Hrun.
Qed.

Lemma tick_inv : rel keeps_inv tick.
Proof.
  intros st u st' Hrun Hinv.
  assert (acyclic (registry st')) as Hacyc.
  { intros k. eapply grounded_same_factories; [|apply Hinv].
    eapply (rel_tick same_factories_frame); [|exact Hrun].
    intros [] ? _; simpl; auto. }
  split; [done|]. intros key. destruct Hinv as [_ Hinv].
  unfold tick in Hrun. destruct (queue st) as [|j q] eqn:Hq.
  { simplify_eq. apply Hinv. }
  assert (job_ok (fun r => singleton_of key r = false) j ->
          single_inv key st') as Hother.
  { intros Hj. eapply single_inv_apart; [|apply Hinv].
    eapply apart_trans;
      [apply (fr_dequeue (resolver_event_frame key) st j q Hq Hj)|].
    eapply (rel_runJob (resolver_event_frame key)); [exact Hj|exact Hrun]. }
  destruct j as [[h d] s|]; [|by apply Hother].
  destruct h as [| k | |]; try by apply Hother.
  destruct (decide (k = key)) as [->|Hne].
  - destruct u. by eapply singleton_job_inv.
  - apply Hother. simpl. unfold singleton_of. simpl.
    by apply bool_decide_eq_false_2.
Qed.

Lemma step_inv fuel a st st' : step fuel a st = Some st' -> keeps_inv st st'.
Proof.
  destruct a as [token f|value| |p s]; simpl.
  - apply register_inv.
  - destruct (Container_resolve fuel value st) as [[x st1]|] eqn:H; [|done].
    intros ?; simplify_eq/=. by eapply Container_resolve_inv.
  - destruct (tick st) as [[x st1]|] eqn:H; [|done].
    intros ?; simplify_eq/=. by eapply tick_inv.
  - destruct (settleExternal p s st) as [[x st1]|] eqn:H; [|done].
    intros ?; simplify_eq/=. by eapply settleExternal_inv.
Qed.

Lemma initial_inv : container_inv initial.
Proof.
  split.
  - intros a. by apply grounded_unregistered.
  - intros key. by unfold single_inv.
Qed.

Lemma reachable_inv st : reachable st -> container_inv st.
Proof.
  induction 1 as [|st fuel a st' _ IH Hstep]; [apply initial_inv|].
  by eapply step_inv.
Qed.


(** ** Resolution returns *)

Lemma total_ret {A} (a : A) : total (ret a).
Proof. intros st. by eexists. Qed.

Lemma total_bind {A B} (m : M A) (k : A -> M B) :
  total m -> (forall a, total (k a)) -> total (let* a := m in k a).
Proof.
  intros Hm Hk st. unfold bind. destruct (Hm st) as [[a st1] ->]. apply Hk.
Qed.

Lemma total_modify f : total (modify f).
Proof. intros st. by eexists. Qed.

Lemma total_alloc c : total (alloc c).
Proof. intros st. by eexists. Qed.

Lemma total_settle p s : total (settle p s).
Proof.
  intros st. unfold settle. destruct (promises st !! p) as [[[rs|s0] k]|]; by eexists.
Qed.

Lemma total_resolvePromise p x : total (resolvePromise p x).
Proof.
  destruct x; simpl; try apply total_settle.
  case_decide; [apply total_settle|apply total_modify].
Qed.

Lemma total_attach p r : total (attach p r).
Proof.
  intros st. unfold attach. destruct (promises st !! p) as [[[rs|s0] k]|];
    by eexists.
Qed.

Lemma total_then p h : total (then_ p h).
Proof.
  apply total_bind; [apply total_alloc|]. intros d.
  apply total_bind; [apply total_attach|]. intros _. apply total_ret.
Qed.

Lemma total_Promise_resolve x : total (Promise_resolve x).
Proof. destruct x; simpl; try apply total_alloc. apply total_ret. Qed.

Lemma total_all_loop p xs : forall i, total (all_loop p i xs).
Proof.
  induction xs as [|x xs IH]; intros i; simpl; [apply total_ret|].
  apply total_bind; [apply total_Promise_resolve|]. intros q.
  apply total_bind; [apply total_then|]. intros _. apply IH.
Qed.

Lemma total_Promise_all xs : total (Promise_all xs).
Proof.
  apply total_bind; [apply total_alloc|]. intros p.
  apply total_bind; [apply total_all_loop|]. intros _.
  apply total_bind; [|intros _; apply total_ret].
  case_bool_decide; [apply total_settle|apply total_ret].
Qed.

Lemma total_createWhenResolved owner f deps : total (createWhenResolved owner f deps).
Proof.
  apply total_bind; [apply total_Promise_all|]. intros p.
  apply total_bind; [apply total_then|]. intros d.
  apply total_bind; [apply total_modify|]. intros _. apply total_ret.
Qed.

Lemma total_allElement p i v : total (allElement p i v).
Proof.
  intros st. unfold allElement.
  destruct (promises st !! p) as [[ps [| |els vals rem]]|]; try by eexists.
  case_bool_decide; [apply total_resolvePromise|by eexists].
Qed.

Lemma total_callCreate owner f d deps : total (callCreate owner f d deps).
Proof.
  apply total_bind; [by intros st; eexists|]. intros n.
  apply total_bind; [apply total_modify|]. intros _.
  destruct (create f n deps).
  - apply total_resolvePromise.
  - apply total_settle.
  - apply total_bind; [apply total_alloc|]. intros p. apply total_resolvePromise.
Qed.

(** Microtasks and the settling of promises always complete. *)
Lemma total_runReaction r s : total (runReaction r s).
Proof.
  unfold runReaction, singletonFulfilled, singletonRejected, update_resolver.
  destruct (handler r), s; try destruct (apply_args _);
    repeat first
      [ apply total_callCreate | apply total_settle | apply total_resolvePromise
      | apply total_modify | apply total_allElement
      | apply total_bind | intros _ ].
Qed.

Lemma total_tick : total tick.
Proof.
  intros st. unfold tick. destruct (queue st) as [|[r s|t q] rest]; [by eexists|..].
  - apply total_runReaction.
  - apply total_bind; [apply total_then|intros _; apply total_ret].
Qed.

Lemma total_settleExternal p s : total (settleExternal p s).
Proof.
  intros st. unfold settleExternal.
  destruct (promises st !! p) as [[ps [| |]]|]; try by eexists.
  destruct s; [apply total_resolvePromise|apply total_settle].
Qed.

Lemma mapM_returns (reg : Registry) (rec : Token -> M Value) reqs :
  (forall t, t ∈ reqs -> returns_in reg (rec t)) ->
  (forall t, rel same_factories (rec t)) ->
  returns_in reg (mapM rec reqs).
Proof.
  intros Hret Hsame. induction reqs as [|t reqs IH]; intros st Hst; simpl;
    [by eexists|].
  unfold bind. destruct (Hret t (list_elem_of_here _ _) st Hst) as [[v st1] Hv].
  rewrite Hv. apply Hsame in Hv.
  destruct (IH (fun u Hu => Hret u (list_elem_of_further _ _ _ Hu)) st1)
    as [[vs st2] ->]; [|by eexists].
  intros k. by rewrite Hv.
Qed.

Lemma grounded_resolve_fuel (reg : Registry) a :
  grounded reg a ->
  exists n, forall m token, n <= m -> tok_addr token = a ->
    returns_in reg (resolveToken m token).
Proof.
  induction 1 as [a Hnone|a res Hr _ IH].
  - exists 1. intros [|m] token Hle <- st Hst; [lia|]. simpl.
    specialize (Hst (tok_addr token)). rewrite Hnone in Hst.
    destruct (registry st !! tok_addr token); [done|]. by eexists.
  - destruct (fuel_for_all (requires (factory res))
      (fun t n => forall m token, n <= m -> tok_addr token = tok_addr t ->
                    returns_in reg (resolveToken m token))) as [n Hn].
    { intros t n m Hle HQ m' token Hle' Ht. apply HQ; [lia|done]. }
    { exact IH. }
    exists (S n). intros [|m] token Hle <- st Hst; [lia|]. simpl.
    pose proof (Hst (tok_addr token)) as Hb. rewrite Hr in Hb.
    destruct (registry st !! tok_addr token) as [res'|]; [|done].
    simpl in Hb. injection Hb as Hb.
    assert (factory res' = factory res) as Hf
      by (by rewrite <- !binding_factory, Hb).
    assert (forall owner, is_Some (resolveFactory_with (resolveToken m) owner
                                     (factory res') st)) as Hfac.
    { intros owner. unfold resolveFactory_with, bind.
      destruct (mapM_returns reg (resolveToken m) (requires (factory res')))
        with (st := st) as [[deps st1] ->]; [| |done|].
      - rewrite Hf. intros t Ht. apply (Hn t Ht); [lia|done].
      - intros t. by apply (rel_resolveToken same_factories_frame).
      - apply total_createWhenResolved. }
    destruct res' as [f|f v [] [p|]]; simpl in *; try by eexists.
    + unfold bind. destruct (Hfac (Some (tok_addr token))) as [[d st1] ->].
      by eexists.
    + unfold bind at 1. destruct (Hfac (Some (tok_addr token))) as [[d st1] ->].
      apply total_bind; [apply total_then|]. intros d'.
      apply total_bind; [apply total_modify|]. intros _. apply total_ret.
Qed.

Lemma resolveToken_returns st token :
  acyclic (registry st) ->
  exists n, forall m, n <= m -> is_Some (resolveToken m token st).
Proof.
  intros Hacyc.
  destruct (grounded_resolve_fuel _ _ (Hacyc (tok_addr token))) as [n Hn].
  exists n. intros m Hle. by apply (Hn m token).
Qed.

Lemma Container_resolve_returns st value :
  acyclic (registry st) ->
  exists n, forall m, n <= m -> is_Some (Container_resolve m value st).
Proof.
  intros Hacyc. destruct value as [token|f].
  - destruct (resolveToken_returns st token Hacyc) as [n Hn]. exists n.
    intros m Hle. unfold Container_resolve, bind.
    destruct (Hn m Hle) as [[v st1] ->]. apply total_Promise_resolve.
  - destruct (fuel_for_all (requires f)
      (fun t n => forall m token, n <= m -> tok_addr token = tok_addr t ->
                    returns_in (registry st) (resolveToken m token))) as [n Hn].
    { intros t n m Hle HQ m' token Hle' Ht. apply HQ; [lia|done]. }
    { intros t _. apply grounded_resolve_fuel, Hacyc. }
    exists n. intros m Hle.
    unfold Container_resolve, resolveFactory, resolveFactory_with, bind.
    destruct (mapM_returns (registry st) (resolveToken m) (requires f))
      with (st := st) as [[deps st1] ->]; [| |done|].
    + intros t Ht. by apply (Hn t Ht).
    + intros t. by apply (rel_resolveToken same_factories_frame).
    + destruct (total_createWhenResolved None f deps st1) as [[d st2] ->].
      apply total_Promise_resolve.
Qed.

(** Every action completes in the state of a container. *)
Lemma step_returns st a :
  acyclic (registry st) ->
  exists n, forall m, n <= m -> is_Some (step m a st).
Proof.
  intros Hacyc. destruct a as [token f|value| |p s]; simpl.
  - destruct (findCycle_terminates (registry st) token f Hacyc)
      as (n & trace & Hn).
    exists n. intros m Hle. unfold register. rewrite (Hn m Hle).
    case_bool_decide; [eauto|]. case_bool_decide; eauto.
  - destruct (Container_resolve_returns st value Hacyc) as [n Hn]. exists n.
    intros m Hle. destruct (Hn m Hle) as [[x st1] ->]. by eexists.
  - exists 0. intros m _. destruct (total_tick st) as [[x st1] ->]. by eexists.
  - exists 0. intros m _. destruct (total_settleExternal p s st) as [[x st1] ->].
    by eexists.
Qed.

Lemma run_reachable fuel acts : forall st st',
  reachable st -> run fuel acts st = Some st' -> reachable st'.
Proof.
  induction acts as [|a acts IH]; intros st st' Hst; simpl.
  - by intros [= <-].
  - destruct (step fuel a st) as [st1|] eqn:Hstep; [|done].
    apply IH. by eapply reachable_step.
Qed.

Lemma run_reachable_default fuel acts :
  reachable (default initial (run fuel acts initial)).
Proof.
  destruct (run fuel acts initial) as [st|] eqn:Hrun; simpl.
  - eapply run_reachable; [|exact Hrun]. constructor.
  - constructor.
Qed.

(** ** An unregistered dependency *)




(** ** How a resolver changes *)

Lemma resolve_moves_refl st : resolve_moves st st.
Proof.
  intros Hinv. split; [done|]. split; [by apply heap_grows_same|].
  intros key. by left.
Qed.

Lemma resolve_moves_trans a b c :
  resolve_moves a b -> resolve_moves b c -> resolve_moves a c.
Proof.
  intros Hab Hbc Ha. destruct (Hab Ha) as (Hb & Hg1 & H1).
  destruct (Hbc Hb) as (Hc & Hg2 & H2). split; [done|]. split.
  { by apply (fr_trans heap_grows_frame a b c). }
  intros key. destruct (H1 key) as [E1|(f & v & d & Ha1 & Hb1 & Hd)].
  - destruct (H2 key) as [E2|(f & v & d & Ha2 & Hb2 & Hd)].
    + left. congruence.
    + right. exists f, v, d. split; [congruence|]. split; [done|].
      destruct Hg1 as [Hlen _]. lia.
  - destruct (H2 key) as [E2|(f' & v' & d' & Ha2 & Hb2 & Hd')].
    + right. exists f, v, d. split; [done|]. split; [congruence|done].
    + congruence.
Qed.

Lemma same_registry_moves st st' :
  container_inv st' -> heap_grows st st' ->
  (forall key, registry st' !! key = registry st !! key) ->
  resolve_moves st st'.
Proof.
  intros ? ? H _. split; [done|]. split; [done|]. intros key. left. apply H.
Qed.

Lemma createWhenResolved_grows owner f deps :
  rel heap_grows (createWhenResolved owner f deps).
Proof. by apply (rel_createWhenResolved heap_grows_frame). Qed.

Lemma resolveToken_grows fuel token : rel heap_grows (resolveToken fuel token).
Proof. by apply (rel_resolveToken heap_grows_frame). Qed.

Lemma resolveToken_moves fuel : forall token, rel resolve_moves (resolveToken fuel token).
Proof.
  induction fuel as [|n IH]; intros token st v st' Hrun Hinv; [done|].
  pose proof (resolveToken_inv _ _ _ _ _ Hrun Hinv) as Hinv'.
  pose proof (resolveToken_grows _ _ _ _ _ Hrun) as Hgrow.
  split; [done|]. split; [done|].
  simpl in Hrun. set (a := tok_addr token) in *.
  destruct (registry st !! a) as [resolver|] eqn:Hr.
  2:{ intros key. left. revert Hrun.
      apply (rel_bind (same_resolver_frame key));
        [apply (rel_Promise_reject (same_resolver_frame key))
        |intros p; apply (rel_ret (same_resolver_frame key))]. }
  assert (forall deps st1,
            mapM (resolveToken n) (requires (factory resolver)) st = Some (deps, st1) ->
            container_inv st1 /\ heap_grows st st1 /\
            forall key, unchanged_or_started key st st1) as Hmap.
  { intros deps st1 Hmap.
    eapply (pre_mapM resolve_moves resolve_moves_refl resolve_moves_trans);
      [|exact Hmap|exact Hinv].
    intros t _. apply IH. }
  assert (forall key st1 st2,
            unchanged_or_started key st st1 ->
            registry st2 !! key = registry st1 !! key ->
            unchanged_or_started key st st2) as Hsame.
  { intros key st1 st2 [E|(f & v0 & d & ? & ? & ?)] E2; [left; congruence|].
    right. exists f, v0, d. split; [done|]. split; [congruence|done]. }
  destruct resolver as [f|f val [] [p|]]; simpl in Hrun, Hmap;
    try (apply ret_inv in Hrun as [_ ->]; intros key; by left).
  - apply bind_inv in Hrun as (d & st4 & Hf & Hret). apply ret_inv in Hret as [-> ->].
    unfold resolveFactory_with in Hf.
    apply bind_inv in Hf as (deps & st1 & Hm & Htail).
    destruct (Hmap _ _ Hm) as (_ & _ & Hkeys). intros key.
    apply (Hsame key st1); [done|].
    by destruct (createWhenResolved_outcome key _ _ _ _ _ _ Htail) as [[_ ?] _].
  - apply bind_inv in Hrun as (x & st5 & Hf & Hrun).
    apply bind_inv in Hrun as (d & st6 & Hthen & Hrun).
    apply bind_inv in Hrun as ([] & st7 & Hupd & Hret).
    apply ret_inv in Hret as [-> ->]. apply modify_inv in Hupd as ->.
    unfold resolveFactory_with in Hf.
    apply bind_inv in Hf as (deps & st1 & Hm & Htail).
    destruct (Hmap _ _ Hm) as (_ & Hg1 & Hkeys).
    pose proof (then_same _ _ _ _ _ Hthen) as (_ & Hreg6 & _).
    assert (forall key, registry st5 !! key = registry st1 !! key) as Hreg5.
    { intros key.
      by destruct (createWhenResolved_outcome key _ _ _ _ _ _ Htail) as [[_ ?] _]. }
    intros key. destruct (decide (key = a)) as [->|Hne].
    + right. exists f, val, d.
      assert (registry st1 !! a = Some (SingletonResolver f val false None)) as Hr1.
      { assert (apart (resolver_event a) a st st1) as [[_ Hres] _];
          [|unfold same_resolver in Hres; congruence].
        eapply mapM_apart; [|exact Hm]. intros t Ht. destruct Hinv as [Hacyc _].
        by apply (grounded_no_cycle _ _ (Hacyc a) _ t Hr). }
      split; [done|]. split.
      * cbn [registry set_registry].
        by rewrite lookup_alter_eq, Hreg6, Hreg5, Hr1.
      * apply then_inv in Hthen as [-> _].
        apply createWhenResolved_grows in Htail as [L5 _].
        destruct Hg1 as [L1 _]. lia.
    + apply (Hsame key st1); [done|]. cbn [registry set_registry].
      by rewrite lookup_alter_ne, Hreg6, Hreg5.
Qed.

Lemma Container_resolve_moves fuel value :
  rel resolve_moves (Container_resolve fuel value).
Proof.
  intros st p st' Hrun. unfold Container_resolve in Hrun.
  apply bind_inv in Hrun as (x & st1 & Hres & Hwrap).
  assert (forall {A} (m : M A) s1 y s2,
            (forall key, rel (apart (resolver_event key) key) m) ->
            rel heap_grows m -> m s1 = Some (y, s2) -> resolve_moves s1 s2)
    as Hquiet.
  { intros A m s1 y s2 Hap Hg Hm Hi. split; [by eapply apart_keeps_inv|].
    split; [by eapply Hg|]. intros key. left.
    by destruct (Hap key _ _ _ Hm) as [[_ ?] _]. }
  eapply resolve_moves_trans.
  - destruct value as [token|f]; [by eapply resolveToken_moves|].
    apply bind_inv in Hres as (d & st2 & Hf & Hret).
    apply ret_inv in Hret as [-> ->]. unfold resolveFactory, resolveFactory_with in Hf.
    apply bind_inv in Hf as (deps & st3 & Hmap & Htail).
    eapply resolve_moves_trans.
    + eapply (pre_mapM resolve_moves resolve_moves_refl resolve_moves_trans);
        [|exact Hmap].
      intros t _. apply resolveToken_moves.
    + eapply Hquiet; [| |exact Htail].
      * intros key. by apply createWhenResolved_apart.
      * apply createWhenResolved_grows.
  - eapply Hquiet; [| |exact Hwrap].
    + intros key. apply (rel_Promise_resolve (resolver_event_frame key)).
    + apply (rel_Promise_resolve heap_grows_frame).
Qed.



(** A resolver that resolves its own factory starts exactly one attempt,
    and is not touched by the resolution of its dependencies. *)
Lemma resolveFactory_own n key r st d st' :
  container_inv st -> registry st !! key = Some r ->
  resolveFactory_with (resolveToken n) (Some key) (factory r) st = Some (d, st') ->
  registry st' !! key = Some r /\
  count (attempted (owned key)) (log st') =
    S (count (attempted (owned key)) (log st)) /\
  length (promises st) <= d < length (promises st').
Proof.
  intros [Hacyc _] Hr Hf. unfold resolveFactory_with in Hf.
  apply bind_inv in Hf as (deps & st1 & Hm & Htail).
  assert (apart (resolver_event key) key st st1) as [[[_ Hlog] Hres] _].
  { eapply mapM_apart; [|exact Hm]. intros t Ht.
    by apply (grounded_no_cycle _ _ (Hacyc key) _ t Hr). }
  assert (heap_grows st st1) as [L1 _].
  { eapply (rel_mapM heap_grows_frame); [|exact Hm].
    intros t _. apply resolveToken_grows. }
  destruct (createWhenResolved_outcome key _ _ _ _ _ _ Htail) as [[_ Hres5] _].
  unfold same_resolver in *.
  assert (length (promises st1) <= d) as Ld.
  { unfold createWhenResolved in Htail.
    apply bind_inv in Htail as (p & st2 & Hb & Htail).
    apply bind_inv in Htail as (d0 & st3 & Hc & Htail).
    apply bind_inv in Htail as ([] & st4 & Hd & Htail).
    apply ret_inv in Htail as [-> _].
    apply (rel_Promise_all heap_grows_frame) in Hb as [L2 _].
    apply then_inv in Hc as [-> _]. lia. }
  apply createWhenResolved_log in Htail as [Hlog5 Hd].
  split; [congruence|]. split; [|lia].
  rewrite Hlog5, count_snoc, (Hlog (attempted (owned key)) (attempted_resolver key)).
  simpl. unfold owned. rewrite bool_decide_eq_true_2 by done. lia.
Qed.

Lemma transient_call n token f st x st' :
  container_inv st ->
  registry st !! tok_addr token = Some (TransientResolver f) ->
  resolveToken n token st = Some (x, st') ->
  exists d, x = VPromise d /\
    registry st' !! tok_addr token = Some (TransientResolver f) /\
    count (attempted (owned (tok_addr token))) (log st') =
      S (count (attempted (owned (tok_addr token))) (log st)) /\
    length (promises st) <= d < length (promises st').
Proof.
  intros Hinv Hr Hrun. destruct n as [|n]; [done|]. simpl in Hrun.
  rewrite Hr in Hrun. simpl in Hrun.
  apply bind_inv in Hrun as (d & st4 & Hf & Hret). apply ret_inv in Hret as [-> ->].
  exists d. split; [done|].
  by apply (resolveFactory_own n _ (TransientResolver f)).
Qed.

Lemma singleton_restart n token f v st x st' :
  container_inv st ->
  registry st !! tok_addr token = Some (SingletonResolver f v false None) ->
  resolveToken n token st = Some (x, st') ->
  exists d, x = VPromise d /\
    registry st' !! tok_addr token = Some (SingletonResolver f v false (Some d)) /\
    count (attempted (owned (tok_addr token))) (log st') =
      S (count (attempted (owned (tok_addr token))) (log st)) /\
    length (promises st) <= d < length (promises st').
Proof.
  intros Hinv Hr Hrun. destruct n as [|n]; [done|]. simpl in Hrun.
  rewrite Hr in Hrun. simpl in Hrun.
  apply bind_inv in Hrun as (y & st5 & Hf & Hrun).
  apply bind_inv in Hrun as (d & st6 & Hthen & Hrun).
  apply bind_inv in Hrun as ([] & st7 & Hupd & Hret).
  apply ret_inv in Hret as [-> ->]. apply modify_inv in Hupd as ->.
  exists d. split; [done|].
  apply (resolveFactory_own n _ (SingletonResolver f v false None)) in Hf
    as (Hr5 & Hatt & Ly); [|done..].
  pose proof (then_same _ _ _ _ _ Hthen) as (Hlog6 & Hreg6 & _).
  pose proof (then_valid _ _ _ _ _ Hthen) as Ld.
  apply then_inv in Hthen as [-> _].
  cbn [registry log promises set_registry].
  rewrite lookup_alter_eq, Hreg6, Hr5, Hlog6. repeat split; try done; lia.
Qed.

(** What the microtask of a failed creation does. *)
Lemma tick_singleton_rejected key d e q st :
  queue st = JReaction (react (HSingleton key) d) (Reject e) :: q ->
  tick st =
  settle d (Reject e)
    (emit (ESingletonDone key false)
       (set_registry (alter on_rejected key (registry st)) (set_queue q st))).
Proof. intros Hq. unfold tick. by rewrite Hq. Qed.

Lemma register_registry fuel token f st st' key :
  register fuel token f st = Some st' -> is_Some (registry st !! key) ->
  registry st' !! key = registry st !! key.
Proof.
  unfold register. case_bool_decide as Hreg; [by intros [= <-]|].
  destruct (findCycle _ _ _ _); [|done]. case_bool_decide; intros [= <-]; [done|].
  intros Hkey. simpl. rewrite lookup_insert_ne; [done|]. by intros <-.
Qed.





(** ** What [Promise.all] hands to [create] *)

Lemma same_elements_refl k : same_elements k k.
Proof. destruct k; simpl; eauto. Qed.

Lemma same_elements_trans k1 k2 k3 :
  same_elements k1 k2 -> same_elements k2 k3 -> same_elements k1 k3.
Proof.
  destruct k1; simpl; try (by intros ->).
  intros (vals & rem & ->). simpl. eauto.
Qed.

Lemma extends_refl st : extends st st.
Proof.
  split; [|exists []; by rewrite app_nil_r]. intros p c Hc. exists c.
  split_and!; [done..|apply same_elements_refl].
Qed.

Lemma extends_trans a b c : extends a b -> extends b c -> extends a c.
Proof.
  intros [H1 [l1 L1]] [H2 [l2 L2]]. split.
  - intros p x Hx. destruct (H1 p x Hx) as (y & Hy & Hs1 & Hk1).
    destruct (H2 p y Hy) as (z & Hz & Hs2 & Hk2). exists z.
    split_and!; [done|auto|by eapply same_elements_trans].
  - exists (l1 ++ l2). by rewrite L2, L1, app_assoc.
Qed.

Lemma extends_heap st st' :
  log st' = log st -> promises st' = promises st -> extends st st'.
Proof.
  intros Hl Hp. split; [|exists []; by rewrite app_nil_r].
  intros p c Hc. exists c. rewrite Hp. split_and!; [done..|apply same_elements_refl].
Qed.

Lemma extends_insert st p c c' :
  promises st !! p = Some c ->
  (forall s, pstate c = Settled s -> pstate c' = Settled s) ->
  same_elements (pkind c) (pkind c') ->
  extends st (set_promises (<[p := c']> (promises st)) st).
Proof.
  intros Hp Hs Hk. split; [|exists []; simpl; by rewrite app_nil_r].
  intros q d Hq. simpl. destruct (decide (q = p)) as [->|Hne].
  - exists c'. rewrite list_lookup_insert_eq; [|by eapply lookup_lt_Some].
    simplify_eq. done.
  - exists d. rewrite list_lookup_insert_ne by done.
    split_and!; [done..|apply same_elements_refl].
Qed.

Lemma extends_frame :
  Frame extends (fun _ => True) (fun _ => True) (fun _ => True).
Proof.
  split; try done.
  - apply extends_refl.
  - apply extends_trans.
  - intros st c _. split; [|exists []; simpl; by rewrite app_nil_r].
    intros p x Hx. exists x. simpl.
    split_and!; [by apply lookup_app_l_Some|done|apply same_elements_refl].
  - intros. by apply extends_heap.
  - intros st p rs k s Hp.
    apply (extends_insert (set_queue _ st) p _ _ Hp); [done|apply same_elements_refl].
  - intros st p rs k r _ Hp.
    apply (extends_insert st p _ _ Hp); [done|apply same_elements_refl].
  - intros. by apply extends_heap.
  - intros st p ps els vals rem vals' rem' Hp.
    apply (extends_insert st p _ _ Hp); [done|]. simpl. eauto.
  - intros st e _. split; [|by exists [e]]. intros p c Hc. exists c.
    split_and!; [done..|apply same_elements_refl].
  - intros. by apply extends_heap.
  - intros. by apply extends_heap.
  - intros. by apply extends_heap.
Qed.

Section mono.
Context {st st' : State} (Hext : extends st st').

Lemma settlement_mono x s : settlement st x = Some s -> settlement st' x = Some s.
Proof.
  destruct x as [| | | | | | |q]; try done. simpl.
  destruct (promises st !! q) as [[[rs|s0] k]|] eqn:Hq; try done.
  intros [= ->]. destruct Hext as [Hheap _].
  destruct (Hheap q _ Hq) as ([ps' k'] & -> & Hs & _).
  simpl in Hs. by rewrite (Hs s eq_refl).
Qed.

Lemma resolved_to_mono x v : resolved_to st x v -> resolved_to st' x v.
Proof. apply settlement_mono. Qed.

Lemma target_ok_mono t : target_ok st t -> target_ok st' t.
Proof.
  intros (c & Hc & Hk). destruct Hext as [Hheap _].
  destruct (Hheap t c Hc) as (c' & Hc' & _ & Hk'). exists c'. split; [done|].
  destruct (pkind c); simpl in *; by rewrite ?Hk'.
Qed.

Lemma all_of_mono R els : all_of st R els -> all_of st' R els.
Proof.
  intros (c & vals & rem & Hc & Hk). destruct Hext as [Hheap _].
  destruct (Hheap R c Hc) as (c' & Hc' & _ & Hk'). rewrite Hk in Hk'.
  destruct Hk' as (vals' & rem' & Hk'). by exists c', vals', rem'.
Qed.

Lemma logged_mono e : e ∈ log st -> e ∈ log st'.
Proof. destruct Hext as [_ [l ->]]. intros H. apply elem_of_app. by left. Qed.

Lemma heap_length_mono d : d < length (promises st) -> d < length (promises st').
Proof.
  intros [c Hc]%lookup_lt_is_Some. destruct Hext as [Hheap _].
  destruct (Hheap d c Hc) as (c' & Hc' & _). by eapply lookup_lt_Some.
Qed.

Lemma waiting_ok_mono q r : waiting_ok st q r -> waiting_ok st' q r.
Proof.
  intros [Ht Hh]. split; [by apply target_ok_mono|].
  destruct (handler r) as [o f|key|R i|t]; [| done | |by apply target_ok_mono].
  - destruct Hh as (els & Hall & Hlog). exists els.
    split; [by apply all_of_mono|by apply logged_mono].
  - destruct Hh as (els & Hall & Hi). exists els. split; [by apply all_of_mono|done].
Qed.

Lemma queued_ok_mono r s : queued_ok st r s -> queued_ok st' r s.
Proof.
  intros [Ht Hh]. split; [by apply target_ok_mono|].
  destruct (handler r) as [o f|key|R i|t]; [| done | |by apply target_ok_mono].
  - destruct Hh as (R & c & els & vals & rem & Hc & Hs & Hk & Hlog).
    destruct Hext as [Hheap _].
    destruct (Hheap R c Hc) as (c' & Hc' & Hs' & Hk'). rewrite Hk in Hk'.
    destruct Hk' as (vals' & rem' & Hk'). exists R, c', els, vals', rem'.
    split_and!; [done| |done|by apply logged_mono].
    unfold settled_as in *. destruct (pstate c) as [|s0]; [done|].
    simplify_eq. by rewrite (Hs' s eq_refl).
  - destruct Hh as (els & x & Hall & Hi & Hx). exists els, x.
    split_and!; [by apply all_of_mono|done|by apply settlement_mono].
Qed.

Lemma job_okk_mono j : job_okk st j -> job_okk st' j.
Proof.
  destruct j; [|apply target_ok_mono]. intros [H ?]. split; [|done].
  by apply queued_ok_mono.
Qed.

Lemma event_ok_mono e : event_ok st e -> event_ok st' e.
Proof.
  destruct e as [msg|o g d n args|o g d deps|o g d|key b]; try done; simpl.
  - intros (deps & Hlog & Hargs). exists deps. split; [by apply logged_mono|].
    eapply Forall2_impl; [exact Hargs|]. apply resolved_to_mono.
  - intros (deps & x & err & Hlog & Hx & Hs). exists deps, x, err.
    split_and!; [by apply logged_mono|done|by apply settlement_mono].
Qed.
End mono.

Lemma element_of_elements R i r : element_of R i r = true -> elements_of R r = true.
Proof.
  unfold element_of, elements_of. destruct (handler r); try done.
  by intros [? _]%andb_true_iff.
Qed.

Lemma all_ok_mono st st' q c c' :
  extends st st' -> pkind c' = pkind c -> settled_as c' = settled_as c ->
  counts_same q st st' -> all_ok st q c -> all_ok st' q c'.
Proof.
  intros Hext Hk Hs Hcount. unfold all_ok. rewrite Hk, Hs.
  destruct (pkind c) as [| |els vals rem]; [done..|].
  rewrite (Hcount (elements_of q)) by done.
  intros (Hlen & Hrem & Hdone & Hend). split_and!; [done..| |].
  - intros i x Hi Hc. rewrite (Hcount (element_of q i)) in Hc
      by apply element_of_elements.
    destruct (Hdone i x Hi Hc) as (s & Hx & Hv). exists s.
    split; [by eapply settlement_mono|done].
  - destruct (settled_as c) as [[w|e]|]; [done| |done].
    destruct Hend as (x & Hx & Hsx). exists x.
    split; [done|by eapply settlement_mono].
Qed.

(** The invariant carries over to a later state, where it is shown for
    what is new: the promises that changed, the reactions registered, the
    jobs queued and the events logged. *)
Lemma inv_transfer ex st st' l :
  promise_inv ex st -> extends st st' -> log st' = log st ++ l ->
  (forall q c', ex <> Some q -> promises st' !! q = Some c' ->
     (exists c, promises st !! q = Some c /\ pkind c' = pkind c /\
                settled_as c' = settled_as c /\ counts_same q st st') \/
     all_ok st' q c') ->
  (forall q c' rs' r, promises st' !! q = Some c' -> pstate c' = Pending rs' ->
     r ∈ rs' ->
     (exists c rs, promises st !! q = Some c /\ pstate c = Pending rs /\ r ∈ rs) \/
     waiting_ok st' q r) ->
  (forall q c' s, promises st' !! q = Some c' -> settled_as c' = Some s ->
     (exists c, promises st !! q = Some c /\ settled_as c = Some s) \/
     settlement_ok s) ->
  (forall j, j ∈ queue st' -> j ∈ queue st \/ job_okk st' j) ->
  Forall (event_ok st') l ->
  NoDup (omap attempt_via l) ->
  (forall d, d ∈ omap attempt_via l ->
             length (promises st) <= d < length (promises st')) ->
  promise_inv ex st'.
Proof.
  intros (Hcells & Hqueue & Hnodup & Hvia & Hlog) Hext Hl HA HW HV HQ HE Hnew Hfresh.
  unfold promise_inv, log_ok. split_and!.
  - intros q c' Hc'. split_and!.
    + intros Hex. destruct (HA q c' Hex Hc') as [(c & Hc & Hk & Hs & Hn)|]; [|done].
      eapply all_ok_mono; [done..|]. by apply (Hcells q c Hc).
    + intros rs' Hrs'. apply Forall_forall. intros r Hr.
      destruct (HW q c' rs' r Hc' Hrs' Hr) as [(c & rs & Hc & Hrs & Hin)|]; [|done].
      apply (waiting_ok_mono Hext).
      destruct (Hcells q c Hc) as (_ & Hw & _). specialize (Hw rs Hrs).
      rewrite Forall_forall in Hw. by apply Hw.
    + intros s Hs. destruct (HV q c' s Hc' Hs) as [(c & Hc & Hsc)|]; [|done].
      by apply (Hcells q c Hc).
  - apply Forall_forall. intros j Hj. destruct (HQ j Hj) as [Hold|]; [|done].
    apply (job_okk_mono Hext). rewrite Forall_forall in Hqueue. by apply Hqueue.
  - rewrite Hl, omap_app. apply NoDup_app. split_and!; [done| |done].
    intros d Hd Hd'. apply Hvia in Hd. apply Hfresh in Hd'. lia.
  - intros d. rewrite Hl, omap_app, elem_of_app. intros [Hd|Hd].
    + apply (heap_length_mono Hext), Hvia, Hd.
    + by apply Hfresh.
  - rewrite Hl. apply Forall_app. split; [|done].
    eapply Forall_impl; [exact Hlog|]. intros e. apply (event_ok_mono Hext).
Qed.

(** The same, where nothing is logged. *)
Lemma inv_transfer_quiet ex st st' :
  promise_inv ex st -> extends st st' -> log st' = log st ->
  (forall q c', ex <> Some q -> promises st' !! q = Some c' ->
     (exists c, promises st !! q = Some c /\ pkind c' = pkind c /\
                settled_as c' = settled_as c /\ counts_same q st st') \/
     all_ok st' q c') ->
  (forall q c' rs' r, promises st' !! q = Some c' -> pstate c' = Pending rs' ->
     r ∈ rs' ->
     (exists c rs, promises st !! q = Some c /\ pstate c = Pending rs /\ r ∈ rs) \/
     waiting_ok st' q r) ->
  (forall q c' s, promises st' !! q = Some c' -> settled_as c' = Some s ->
     (exists c, promises st !! q = Some c /\ settled_as c = Some s) \/
     settlement_ok s) ->
  (forall j, j ∈ queue st' -> j ∈ queue st \/ job_okk st' j) ->
  promise_inv ex st'.
Proof.
  intros Hinv Hext Hl HA HW HV HQ.
  apply (inv_transfer ex st st' [] Hinv Hext); try done.
  - by rewrite app_nil_r.
  - constructor.
  - intros d Hd. by apply elem_of_nil in Hd.
Qed.

(** The invariant does not look at the registry or at the serial
    numbers. *)
Lemma inv_registry ex reg st : promise_inv ex st -> promise_inv ex (set_registry reg st).
Proof. done. Qed.

Lemma inv_serial ex n st : promise_inv ex st -> promise_inv ex (set_serial n st).
Proof. done. Qed.

Lemma inv_open R st : promise_inv None st -> promise_inv (Some R) st.
Proof.
  intros (Hcells & Hrest). split; [|done]. intros q c Hc.
  destruct (Hcells q c Hc) as [Ha Hw]. split; [|done]. intros _. by apply Ha.
Qed.

Lemma inv_close R st :
  promise_inv (Some R) st ->
  (forall c, promises st !! R = Some c -> all_ok st R c) ->
  promise_inv None st.
Proof.
  intros (Hcells & Hrest) HR. split; [|done]. intros q c Hc.
  destruct (Hcells q c Hc) as [Ha Hw]. split; [|done]. intros _.
  destruct (decide (q = R)) as [->|Hne]; [by apply HR|]. apply Ha. congruence.
Qed.

(** *** The elementary changes *)

Lemma counts_same_eq q st st' :
  (forall P, count P (outstanding st') = count P (outstanding st)) ->
  counts_same q st st'.
Proof. intros H P _. apply H. Qed.

Lemma all_ok_plain st p c : is_all (pkind c) = false -> all_ok st p c.
Proof. unfold all_ok. by destruct (pkind c). Qed.

Lemma inv_alloc ex st c :
  fresh_cell c ->
  ex = Some (length (promises st)) \/ is_all (pkind c) = false ->
  (forall s, settled_as c = Some s -> settlement_ok s) ->
  promise_inv ex st -> promise_inv ex (set_promises (promises st ++ [c]) st).
Proof.
  intros Hc Hk Hs Hinv.
  apply (inv_transfer_quiet ex st _ Hinv); [by apply (fr_alloc extends_frame)|done|..].
  - intros q c' Hex [Hq|[Hlen Hq]]%lookup_app_Some.
    + left. exists c'. split_and!; [done..|].
      apply counts_same_eq. intros P. by apply out_alloc.
    + right. apply list_lookup_singleton_Some in Hq as [Hq <-].
      apply all_ok_plain. destruct Hk as [->|Hk]; [|done].
      destruct Hex. f_equal. lia.
  - intros q c' rs' r [Hq|[Hlen Hq]]%lookup_app_Some Hrs Hr.
    + left. by exists c', rs'.
    + apply list_lookup_singleton_Some in Hq as [_ <-].
      unfold fresh_cell in Hc. rewrite Hrs in Hc. subst. by apply elem_of_nil in Hr.
  - intros q c' s [Hq|[Hlen Hq]]%lookup_app_Some Hcs.
    + left. by exists c'.
    + right. apply list_lookup_singleton_Some in Hq as [_ <-]. by apply Hs.
  - intros j Hj. by left.
Qed.

Lemma waiting_settled st st' p c' r s :
  extends st st' -> waiting_ok st p r ->
  promises st' !! p = Some c' -> settled_as c' = Some s ->
  queued_ok st' r s.
Proof.
  intros Hext [Ht Hh] Hp Hs. split; [by apply (target_ok_mono Hext)|].
  destruct (handler r) as [o f|key|R i|t]; [|done| |by apply (target_ok_mono Hext)].
  - destruct Hh as (els & Hall & Hlog).
    apply (all_of_mono Hext) in Hall as (c & vals & rem & Hc & Hk).
    exists p, c', els, vals, rem. simplify_eq.
    split_and!; [done..|by apply (logged_mono Hext)].
  - destruct Hh as (els & Hall & Hi). exists els, (VPromise p).
    split_and!; [by apply (all_of_mono Hext)|done|]. simpl. rewrite Hp.
    unfold settled_as in Hs. destruct c' as [[rs|s0] k]; by simplify_eq/=.
Qed.

(** A pending promise is settled; if it is a [Promise.all], its invariant
    is shown for the new state. *)
Lemma inv_settled ex st p rs k s :
  promises st !! p = Some {| pstate := Pending rs; pkind := k |} ->
  let st' := set_queue (queue st ++ map (fun r => JReaction r s) rs)
               (set_promises (<[p := {| pstate := Settled s; pkind := k |}]>
                                (promises st)) st) in
  settlement_ok s ->
  (ex <> Some p -> all_ok st' p {| pstate := Settled s; pkind := k |}) ->
  promise_inv ex st -> promise_inv ex st'.
Proof.
  intros Hp st' Hs Hall Hinv.
  assert (extends st st') as Hext by by apply (fr_settle extends_frame).
  assert (promises st' !! p = Some {| pstate := Settled s; pkind := k |}) as Hp'.
  { simpl. apply list_lookup_insert_eq. by eapply lookup_lt_Some. }
  apply (inv_transfer_quiet ex st _ Hinv Hext); [done|..].
  - intros q c' Hex Hq. destruct (decide (q = p)) as [->|Hne].
    + right. rewrite Hp' in Hq. simplify_eq. by apply Hall.
    + left. exists c'. simpl in Hq. rewrite list_lookup_insert_ne in Hq by done.
      split_and!; [done..|]. apply counts_same_eq. intros P. by apply out_settle.
  - intros q c' rs' r Hq Hrs Hr. destruct (decide (q = p)) as [->|Hne].
    + rewrite Hp' in Hq. by simplify_eq.
    + left. exists c', rs'. simpl in Hq. by rewrite list_lookup_insert_ne in Hq.
  - intros q c' s' Hq Hcs. destruct (decide (q = p)) as [->|Hne].
    + right. rewrite Hp' in Hq. simplify_eq. by injection Hcs as <-.
    + left. exists c'. simpl in Hq. by rewrite list_lookup_insert_ne in Hq.
  - intros j [Hj|Hj]%elem_of_app; [by left|right].
    apply list_elem_of_fmap in Hj as (r & -> & Hr). simpl. split; [|done].
    eapply waiting_settled; [exact Hext| |exact Hp'|done].
    destruct Hinv as (Hcells & _). destruct (Hcells p _ Hp) as (_ & Hw & _).
    specialize (Hw rs eq_refl). rewrite Forall_forall in Hw. by apply Hw.
Qed.

Lemma inv_settle ex p s st u st' :
  target_ok st p -> settlement_ok s -> settle p s st = Some (u, st') ->
  promise_inv ex st -> promise_inv ex st'.
Proof.
  intros (c & Hc & Hk) Hs. unfold settle. rewrite Hc.
  destruct c as [[rs|s0] k]; intros ?; simplify_eq; [|done].
  intros Hinv. apply (inv_settled ex st p rs k s Hc); [done| |done].
  intros _. by apply all_ok_plain.
Qed.

Lemma inv_thenable ex st t q :
  target_ok st t -> promise_inv ex st ->
  promise_inv ex (set_queue (queue st ++ [JThenable t q]) st).
Proof.
  intros Ht Hinv.
  assert (extends st (set_queue (queue st ++ [JThenable t q]) st)) as Hext
    by apply (fr_thenable extends_frame).
  apply (inv_transfer_quiet ex st _ Hinv Hext); [done|..].
  - intros p c' _ Hp. left. exists c'. split_and!; [done..|].
    apply counts_same_eq. intros P. apply out_thenable.
  - intros p c' rs' r Hp Hrs Hr. left. by exists c', rs'.
  - intros p c' s Hp Hs. left. by exists c'.
  - intros j [Hj|Hj]%elem_of_app; [by left|right].
    apply list_elem_of_singleton in Hj as ->. simpl. by apply (target_ok_mono Hext).
Qed.

Lemma inv_resolvePromise ex p x st u st' :
  target_ok st p -> resolvePromise p x st = Some (u, st') ->
  promise_inv ex st -> promise_inv ex st'.
Proof.
  intros Hp. unfold resolvePromise.
  destruct x as [| | | | | | |q]; try by apply inv_settle.
  case_decide; [by apply inv_settle|].
  unfold enqueue. intros ->%modify_inv. by apply inv_thenable.
Qed.

(** A reaction is registered with [p]: it waits there, or is queued at
    once. *)
Lemma inv_attach ex p r st u st' :
  attach p r st = Some (u, st') ->
  (forall q, ex <> Some q -> elements_of q r = false) ->
  (forall c, promises st !! p = Some c ->
     match pstate c with
     | Pending _ => waiting_ok st p r
     | Settled s => queued_ok st r s
     end) ->
  promise_inv ex st -> promise_inv ex st'.
Proof.
  intros Hrun Hex Hr Hinv.
  pose proof (rel_attach extends_frame p r I _ _ _ Hrun) as Hext.
  assert (forall q, ex <> Some q -> forall P,
            (forall r, P r = true -> elements_of q r = true) -> P r = false) as Hsel.
  { intros q Hq P HP. destruct (P r) eqn:HPr; [|done].
    apply HP in HPr. by rewrite Hex in HPr. }
  unfold attach in Hrun.
  destruct (promises st !! p) as [[[rs|s] k]|] eqn:Hp; [| |by simplify_eq].
  - simplify_eq. specialize (Hr _ eq_refl). simpl in Hr.
    apply (inv_transfer_quiet ex st _ Hinv Hext); [done|..].
    + intros q c' Hq Hc'. left. simpl in Hc'.
      destruct (decide (q = p)) as [->|Hne].
      * rewrite list_lookup_insert_eq in Hc' by by eapply lookup_lt_Some.
        simplify_eq. eexists. split_and!; [done..|]. intros P HP.
        rewrite (out_attach_pending P st p rs k r Hp), (Hsel p Hq P HP). lia.
      * rewrite list_lookup_insert_ne in Hc' by done. exists c'.
        split_and!; [done..|]. intros P HP.
        rewrite (out_attach_pending P st p rs k r Hp), (Hsel q Hq P HP). lia.
    + intros q c' rs' r' Hc' Hrs' Hr'. simpl in Hc'.
      destruct (decide (q = p)) as [->|Hne].
      * rewrite list_lookup_insert_eq in Hc' by by eapply lookup_lt_Some.
        simplify_eq/=. apply elem_of_app in Hr' as [Hr'|Hr'].
        -- left. by eexists _, rs.
        -- right. apply list_elem_of_singleton in Hr' as ->.
           by apply (waiting_ok_mono Hext).
      * rewrite list_lookup_insert_ne in Hc' by done. left. by exists c', rs'.
    + intros q c' s Hc' Hs. simpl in Hc'. destruct (decide (q = p)) as [->|Hne].
      * rewrite list_lookup_insert_eq in Hc' by by eapply lookup_lt_Some.
        by simplify_eq.
      * rewrite list_lookup_insert_ne in Hc' by done. left. by exists c'.
    + intros j Hj. by left.
  - unfold enqueue in Hrun. apply modify_inv in Hrun as ->.
    specialize (Hr _ eq_refl). simpl in Hr.
    apply (inv_transfer_quiet ex st _ Hinv Hext); [done|..].
    + intros q c' Hq Hc'. left. exists c'. split_and!; [done..|]. intros P HP.
      rewrite out_attach_settled, (Hsel q Hq P HP). lia.
    + intros q c' rs' r' Hc' Hrs' Hr'. left. by exists c', rs'.
    + intros q c' s' Hc' Hs. left. by exists c'.
    + intros j [Hj|Hj]%elem_of_app; [by left|right].
      apply list_elem_of_singleton in Hj as ->. split.
      * by apply (queued_ok_mono Hext).
      * destruct Hinv as (Hcells & _). by apply (Hcells p _ Hp).
Qed.

Lemma target_ok_alloc st c :
  is_all (pkind c) = false ->
  target_ok (set_promises (promises st ++ [c]) st) (length (promises st)).
Proof.
  intros Hk. exists c. split; [|done]. simpl.
  by rewrite lookup_app_r, Nat.sub_diag.
Qed.

(** [then] with a callback that needs nothing of the promise it is
    registered with. *)
Lemma inv_then ex p h st d st' :
  then_ p h st = Some (d, st') ->
  match h with
  | HSingleton _ => True
  | HAdopt t => target_ok st t
  | _ => False
  end ->
  promise_inv ex st -> promise_inv ex st'.
Proof.
  intros [-> Hrun]%then_inv Hh Hinv.
  set (st1 := set_promises (promises st ++ [_]) st) in Hrun.
  assert (extends st st1) as Hext by by apply (fr_alloc extends_frame).
  assert (target_ok st1 (length (promises st))) as Hd by by apply target_ok_alloc.
  eapply inv_attach; [exact Hrun| | |apply inv_alloc; try done; by right].
  - intros q _. unfold elements_of. simpl. by destruct h.
  - intros c _. assert (waiting_ok st1 p (react h (length (promises st))) /\
                        forall s, queued_ok st1 (react h (length (promises st))) s)
      as [Hw Hq].
    { unfold waiting_ok, queued_ok. simpl. destruct h as [o f|key|R i|t]; try done.
      apply (target_ok_mono Hext) in Hh. by split; [|intros s]. }
    destruct (pstate c); [exact Hw|apply Hq].
Qed.

Lemma inv_Promise_resolve ex x st p st' :
  Promise_resolve x st = Some (p, st') ->
  promise_inv ex st -> promise_inv ex st'.
Proof.
  destruct x; cbn [Promise_resolve];
    try (intros [-> ->]%alloc_inv; apply inv_alloc;
         [done|by right|by intros s0 Hs0; injection Hs0 as <-]).
  by intros [-> ->]%ret_inv.
Qed.

Lemma inv_Promise_reject ex e st p st' :
  Promise_reject e st = Some (p, st') ->
  promise_inv ex st -> promise_inv ex st'.
Proof.
  intros [-> ->]%alloc_inv. apply inv_alloc; [done|by right|by intros s0 Hs0; injection Hs0 as <-].
Qed.

(** An event that is not the start of an attempt. *)
Lemma inv_emit ex e st :
  attempt_via e = None -> event_ok (emit e st) e ->
  promise_inv ex st -> promise_inv ex (emit e st).
Proof.
  intros Hvia He Hinv.
  assert (extends st (emit e st)) as Hext by by apply (fr_emit extends_frame).
  apply (inv_transfer ex st _ [e] Hinv Hext); [done|..].
  - intros q c' _ Hc'. left. exists c'. split_and!; [done..|].
    by apply counts_same_eq.
  - intros q c' rs' r Hc' Hrs Hr. left. by exists c', rs'.
  - intros q c' s Hc' Hs. left. by exists c'.
  - intros j Hj. by left.
  - by constructor.
  - simpl. rewrite Hvia. constructor.
  - simpl. rewrite Hvia. intros d Hd. by apply elem_of_nil in Hd.
Qed.

(** *** [Promise.all] *)

Lemma attach_lookup_ne p r st u st' q :
  attach p r st = Some (u, st') -> q <> p ->
  promises st' !! q = promises st !! q.
Proof.
  unfold attach, enqueue, modify.
  destruct (promises st !! p) as [[[rs|s] k]|]; intros ? Hne; simplify_eq/=;
    try done. by rewrite list_lookup_insert_ne.
Qed.

(** One round of the loop of [Promise.all]. *)
Lemma inv_all_element R els vals rem i x st q st1 d st2 :
  Promise_resolve x st = Some (q, st1) ->
  then_ q (HAllElement R i) st1 = Some (d, st2) ->
  promises st !! R = Some {| pstate := Pending []; pkind := All els vals rem |} ->
  els !! i = Some x -> valid_below R x ->
  promise_inv (Some R) st ->
  promise_inv (Some R) st2 /\
  promises st2 !! R = Some {| pstate := Pending []; pkind := All els vals rem |} /\
  forall P, count P (outstanding st2) =
            count P (outstanding st) + (if P (react (HAllElement R i) d) then 1 else 0).
Proof.
  intros Hres Hthen HR Hi Hx Hinv.
  pose proof (lookup_lt_Some _ _ _ HR) as HltR.
  pose proof (inv_Promise_resolve _ _ _ _ _ Hres Hinv) as Hinv1.
  assert (q <> R /\ promises st1 !! R = promises st !! R /\
          (forall P, count P (outstanding st1) = count P (outstanding st)) /\
          exists c, promises st1 !! q = Some c /\
            (forall s, settled_as c = Some s -> settlement st1 x = Some s) /\
            (forall rs, pstate c = Pending rs -> x = VPromise q))
    as (Hne & HR1 & Hcount1 & c & Hq & Hsettled & Hpending).
  { destruct x; cbn [Promise_resolve] in Hres;
      try (apply alloc_inv in Hres as [-> ->]; split; [lia|]; split;
           [simpl; by rewrite lookup_app_l|]; split;
           [intros P; by apply out_alloc|]; eexists; split;
           [simpl; by rewrite lookup_app_r, Nat.sub_diag|]; split;
           [by intros s0 Hs0; injection Hs0 as <-|done]).
    apply ret_inv in Hres as [-> ->]. simpl in Hx. split; [lia|].
    split; [done|]. split; [done|].
    destruct (lookup_lt_is_Some_2 (promises st) p) as [c Hc]; [lia|].
    exists c. split; [done|]. split; [|done]. intros s Hs. simpl. rewrite Hc.
    unfold settled_as in Hs. destruct c as [[rs|s0] k]; by simplify_eq/=. }
  apply then_inv in Hthen as [-> Hatt].
  set (st1' := set_promises (promises st1 ++ [_]) st1) in Hatt.
  assert (extends st1 st1') as Hext by by apply (fr_alloc extends_frame).
  assert (promises st1' !! q = Some c) as Hq'.
  { simpl. by apply lookup_app_l_Some. }
  assert (promises st1' !! R = Some {| pstate := Pending []; pkind := All els vals rem |})
    as HR1'.
  { simpl. apply lookup_app_l_Some. by rewrite HR1. }
  split_and!.
  - eapply inv_attach; [exact Hatt| | |apply inv_alloc; try done; by right].
    + intros q' Hq'R. unfold elements_of. simpl. apply bool_decide_eq_false_2.
      congruence.
    + intros c' Hc'. rewrite Hq' in Hc'. simplify_eq.
      assert (target_ok st1' (length (promises st1))) as Hd by by apply target_ok_alloc.
      assert (all_of st1' R els) as Hall by by eexists _, vals, rem.
      destruct (pstate c') as [rs|s] eqn:Hps.
      * split; [done|]. simpl. exists els. split; [done|].
        by rewrite <- (Hpending rs eq_refl).
      * split; [done|]. simpl. exists els, x. split_and!; [done..|].
        apply (settlement_mono Hext), Hsettled. unfold settled_as. by rewrite Hps.
  - by rewrite (attach_lookup_ne _ _ _ _ _ _ Hatt).
  - intros P. rewrite (out_attach P st1' q _ st2 (lookup_lt_Some _ _ _ Hq') Hatt).
    unfold st1'. by rewrite out_alloc, Hcount1.
Qed.

Lemma element_of_react R i R' i' d :
  element_of R i (react (HAllElement R' i') d) =
  bool_decide (R' = R) && bool_decide (i' = i).
Proof. done. Qed.

Lemma elements_of_react R R' i' d :
  elements_of R (react (HAllElement R' i') d) = bool_decide (R' = R).
Proof. done. Qed.

Lemma inv_all_loop R els vals rem : forall xs i st st',
  all_loop R i xs st = Some (tt, st') ->
  promises st !! R = Some {| pstate := Pending []; pkind := All els vals rem |} ->
  (forall j x, xs !! j = Some x -> els !! (i + j) = Some x) ->
  Forall (valid_below R) xs ->
  promise_inv (Some R) st ->
  promise_inv (Some R) st' /\
  promises st' !! R = Some {| pstate := Pending []; pkind := All els vals rem |} /\
  count (elements_of R) (outstanding st') =
    count (elements_of R) (outstanding st) + length xs /\
  (forall j, count (element_of R j) (outstanding st) <=
             count (element_of R j) (outstanding st')) /\
  (forall j, i <= j < i + length xs ->
             0 < count (element_of R j) (outstanding st')).
Proof.
  induction xs as [|x xs IH]; intros i st st' Hrun HR Hels Hvalid Hinv.
  - apply ret_inv in Hrun as [_ ->]. simpl. split_and!; [done..|lia|done|lia].
  - simpl in Hrun. apply bind_inv in Hrun as (q & st1 & Hres & Hrun).
    apply bind_inv in Hrun as (d & st2 & Hthen & Hrun).
    apply Forall_cons in Hvalid as [Hx Hvalid].
    assert (els !! i = Some x) as Hi.
    { specialize (Hels 0 x eq_refl). by rewrite Nat.add_0_r in Hels. }
    destruct (inv_all_element R els vals rem i x st q st1 d st2 Hres Hthen HR Hi Hx Hinv)
      as (Hinv2 & HR2 & Hcount).
    destruct (IH (S i) st2 st' Hrun HR2) as (Hinv' & HR' & Hn & Hmono & Hpos);
      [|done..|].
    { intros j y Hj. specialize (Hels (S j) y Hj). by rewrite Nat.add_succ_r in Hels. }
    split_and!; [done..| | |].
    + rewrite Hn, Hcount, elements_of_react, bool_decide_eq_true_2 by done.
      simpl. lia.
    + intros j. specialize (Hmono j). rewrite Hcount in Hmono. lia.
    + intros j Hj. destruct (decide (j = i)) as [->|Hne].
      * specialize (Hmono i). rewrite Hcount, element_of_react in Hmono.
        rewrite !bool_decide_eq_true_2 in Hmono by done. simpl in Hmono. lia.
      * apply Hpos. simpl in Hj. lia.
Qed.

Lemma outstanding_inv st r :
  r ∈ outstanding st ->
  (exists q c rs, promises st !! q = Some c /\ pstate c = Pending rs /\ r ∈ rs) \/
  (exists s, JReaction r s ∈ queue st).
Proof.
  unfold outstanding. intros [H|H]%elem_of_app.
  - left. apply list_elem_of_In, in_concat in H as (rs & Hrs & Hr).
    apply in_map_iff in Hrs as (c & <- & Hc).
    apply list_elem_of_In, list_elem_of_lookup in Hc as [q Hq].
    unfold cell_reactions in Hr. destruct (pstate c) as [rs|] eqn:Hps; [|done].
    exists q, c, rs. by rewrite list_elem_of_In.
  - right. apply list_elem_of_In, in_concat in H as (rs & Hrs & Hr).
    apply in_map_iff in Hrs as (j & <- & Hj). destruct j as [r' s|]; [|done].
    simpl in Hr. destruct Hr as [->|[]]. exists s. by apply list_elem_of_In.
Qed.

(** The resolve-element functions still to run belong to a [Promise.all]
    that exists. *)
Lemma outstanding_element ex st r R i :
  promise_inv ex st -> r ∈ outstanding st -> handler r = HAllElement R i ->
  exists els, all_of st R els.
Proof.
  intros (Hcells & Hqueue & _) Hr Hh.
  apply outstanding_inv in Hr as [(q & c & rs & Hq & Hps & Hr)|[s Hr]].
  - destruct (Hcells q c Hq) as (_ & Hw & _). specialize (Hw rs Hps).
    rewrite Forall_forall in Hw. destruct (Hw r Hr) as [_ H]. rewrite Hh in H.
    destruct H as (els & ? & _). by exists els.
  - rewrite Forall_forall in Hqueue. destruct (Hqueue _ Hr) as [[_ H] _].
    rewrite Hh in H. destruct H as (els & x & ? & _). by exists els.
Qed.

Lemma no_elements_yet ex st R :
  promise_inv ex st -> length (promises st) <= R ->
  count (elements_of R) (outstanding st) = 0.
Proof.
  intros Hinv HR. apply count_zero. intros r Hr. unfold elements_of.
  destruct (handler r) as [| |R' i|] eqn:Hh; try done.
  apply bool_decide_eq_false_2. intros ->.
  destruct (outstanding_element _ _ _ _ _ Hinv Hr Hh) as (els & c & ? & ? & Hc & _).
  apply lookup_lt_Some in Hc. lia.
Qed.

(** [Promise.all] of values that exist makes a promise that keeps the
    invariant. *)
Lemma inv_Promise_all xs st R st' :
  Promise_all xs st = Some (R, st') ->
  Forall (valid_below (length (promises st))) xs ->
  promise_inv None st ->
  promise_inv None st' /\ R = length (promises st) /\
  exists c vals rem, promises st' !! R = Some c /\ pkind c = All xs vals rem.
Proof.
  unfold Promise_all. intros Hrun Hvalid Hinv.
  apply bind_inv in Hrun as (R0 & st1 & Halloc & Hrun).
  apply bind_inv in Hrun as ([] & st2 & Hloop & Hrun).
  apply bind_inv in Hrun as ([] & st3 & Hend & Hret).
  apply ret_inv in Hret as [-> ->]. apply alloc_inv in Halloc as [-> ->].
  set (R := length (promises st)) in *.
  set (vals := replicate (length xs) VUndefined) in *.
  set (cR := {| pstate := Pending []; pkind := All xs vals (length xs) |}) in *.
  assert (promises (set_promises (promises st ++ [cR]) st) !! R = Some cR) as HR1.
  { simpl. by rewrite lookup_app_r, Nat.sub_diag. }
  assert (promise_inv (Some R) (set_promises (promises st ++ [cR]) st)) as Hinv1.
  { apply inv_alloc; [done|by left|done|by apply inv_open]. }
  destruct (inv_all_loop R xs vals (length xs) xs 0 _ _ Hloop HR1)
    as (Hinv2 & HR2 & Hn & _ & Hpos); [done..|].
  rewrite out_alloc, (no_elements_yet None st R Hinv) in Hn by done.
  split; [|split; [done|]].
  - revert Hend. case_bool_decide as Hlen.
    + apply nil_length_inv in Hlen. unfold settle. rewrite HR2. unfold cR.
      intros [= <-]. eapply inv_close.
      * apply (inv_settled (Some R) st2 R [] _ _ HR2); [done| |done]. by intros [].
      * intros c Hc.
        assert (c = {| pstate := Settled (Fulfill (VArr []));
                       pkind := All xs vals (length xs) |}) as ->.
        { cbn [promises set_queue set_promises] in Hc.
          rewrite list_lookup_insert_eq in Hc by by eapply lookup_lt_Some.
          by simplify_eq. }
        unfold all_ok. cbn [pkind settled_as pstate].
        rewrite (out_settle (elements_of R) st2 R [] _ _ HR2), Hn.
        subst xs. split_and!; [done|simpl; lia| |done|simpl; lia].
        intros i x Hi. by rewrite lookup_nil in Hi.
    + intros [_ ->]%ret_inv. eapply inv_close; [exact Hinv2|].
      intros c. rewrite HR2. intros [= <-]. unfold all_ok. cbn [pkind settled_as pstate].
      split_and!; [by apply length_replicate|lia| |done].
      intros i x Hi Hc. apply lookup_lt_Some in Hi. specialize (Hpos i). lia.
  - revert Hend. case_bool_decide as Hlen.
    + unfold settle. rewrite HR2. unfold cR. intros [= <-]. simpl.
      rewrite list_lookup_insert_eq by by eapply lookup_lt_Some. by eexists _, _, _.
    + intros [_ ->]%ret_inv. by eexists _, _, _.
Qed.

(** *** [resolveFactory] *)

Lemma attach_emit p r e st u st' :
  attach p r st = Some (u, st') -> attach p r (emit e st) = Some (u, emit e st').
Proof.
  unfold attach, enqueue, modify. simpl.
  destruct (promises st !! p) as [[[rs|s] k]|]; intros ?; by simplify_eq.
Qed.

(** The derived promise of an attempt is made and the attempt noted. *)
Lemma inv_attempt st o g deps :
  promise_inv None st ->
  promise_inv None
    (emit (EAttempt o g (length (promises st)) deps)
       (set_promises (promises st ++ [{| pstate := Pending []; pkind := Plain |}]) st)).
Proof.
  intros Hinv. set (c := {| pstate := Pending []; pkind := Plain |}).
  set (st1 := set_promises (promises st ++ [c]) st).
  assert (extends st (emit (EAttempt o g (length (promises st)) deps) st1)) as Hext.
  { eapply extends_trans; [by apply (fr_alloc extends_frame st c)|].
    by apply (fr_emit extends_frame). }
  apply (inv_transfer None st _ [EAttempt o g (length (promises st)) deps] Hinv Hext);
    [done|..].
  - intros q c' _ [Hq|[Hlen Hq]]%lookup_app_Some.
    + left. exists c'. split_and!; [done..|].
      apply counts_same_eq. intros P. by apply (out_alloc P st c).
    + right. apply list_lookup_singleton_Some in Hq as [Hq <-]. by apply all_ok_plain.
  - intros q c' rs' r [Hq|[Hlen Hq]]%lookup_app_Some Hrs Hr.
    + left. by exists c', rs'.
    + apply list_lookup_singleton_Some in Hq as [_ <-]. simpl in Hrs.
      simplify_eq. by apply elem_of_nil in Hr.
  - intros q c' s [Hq|[Hlen Hq]]%lookup_app_Some Hcs.
    + left. by exists c'.
    + by apply list_lookup_singleton_Some in Hq as [_ <-].
  - intros j Hj. by left.
  - by constructor.
  - simpl. apply NoDup_singleton.
  - simpl. intros d ->%list_elem_of_singleton. rewrite length_app. simpl. lia.
Qed.

Lemma inv_createWhenResolved o f deps st d st' :
  createWhenResolved o f deps st = Some (d, st') ->
  Forall (valid_below (length (promises st))) deps ->
  promise_inv None st -> promise_inv None st'.
Proof.
  unfold createWhenResolved. intros Hrun Hvalid Hinv.
  apply bind_inv in Hrun as (R & st2 & Hall & Hrun).
  apply bind_inv in Hrun as (d0 & st3 & Hthen & Hrun).
  apply bind_inv in Hrun as ([] & st4 & Hemit & Hret).
  apply ret_inv in Hret as [-> ->]. apply modify_inv in Hemit as ->.
  destruct (inv_Promise_all _ _ _ _ Hall Hvalid Hinv)
    as (Hinv2 & -> & c & vals & rem & Hc & Hk).
  apply then_inv in Hthen as [-> Hatt].
  apply (attach_emit _ _ (EAttempt o (fid f) (length (promises st2)) deps)) in Hatt.
  pose proof (inv_attempt st2 o (fid f) deps Hinv2) as Hinv3.
  set (st3' := emit _ (set_promises _ st2)) in *.
  assert (target_ok st3' (length (promises st2))) as Hd.
  { by apply (target_ok_alloc st2 {| pstate := Pending []; pkind := Plain |}). }
  assert (promises st3' !! length (promises st) = Some c) as Hc'.
  { simpl. by apply lookup_app_l_Some. }
  assert (EAttempt o (fid f) (length (promises st2)) deps ∈ log st3') as Hlog.
  { simpl. apply elem_of_app. right. by apply list_elem_of_singleton. }
  eapply inv_attach; [exact Hatt|done| |exact Hinv3].
  intros c0 Hc0. rewrite Hc' in Hc0. simplify_eq.
  destruct (pstate c0) as [rs|s] eqn:Hps.
  - split; [done|]. simpl. exists deps. split; [by exists c0, vals, rem|done].
  - split; [done|]. simpl. exists (length (promises st)), c0, deps, vals, rem.
    split_and!; try done. unfold settled_as. by rewrite Hps.
Qed.

(** *** The resolvers *)

Lemma valid_below_le n m x : n <= m -> valid_below n x -> valid_below m x.
Proof. destruct x; simpl; try done. lia. Qed.

Lemma resolver_fine_heap st st' r :
  length (promises st) <= length (promises st') ->
  resolver_fine st r -> resolver_fine st' r.
Proof.
  intros Hlen. destruct r as [f|f v b p]; [done|]. intros [Hv Hp]. split; [done|].
  intros d Hd. specialize (Hp d Hd). lia.
Qed.

Lemma registry_ok_heap st st' :
  registry st' = registry st -> length (promises st) <= length (promises st') ->
  registry_ok st -> registry_ok st'.
Proof.
  intros Hreg Hlen Hok key r Hr. rewrite Hreg in Hr.
  eapply resolver_fine_heap; [done|]. by eapply Hok.
Qed.

Lemma registry_ok_update st key g :
  (forall r, resolver_fine st r -> resolver_fine st (g r)) ->
  registry_ok st -> registry_ok (set_registry (alter g key (registry st)) st).
Proof.
  intros Hg Hok k r. cbn [registry set_registry].
  destruct (decide (k = key)) as [->|Hne]; [|rewrite lookup_alter_ne by done; apply Hok].
  rewrite lookup_alter_eq. destruct (registry st !! key) as [r0|] eqn:Hr; [|done].
  intros [= <-]. apply (Hg r0), (Hok key r0 Hr).
Qed.

Lemma deps_createWhenResolved o f deps st d st' :
  createWhenResolved o f deps st = Some (d, st') ->
  Forall (valid_below (length (promises st))) deps ->
  deps_inv st -> deps_inv st' /\ d < length (promises st').
Proof.
  intros Hrun Hvalid [Hinv Hreg].
  pose proof (createWhenResolved_registry _ _ _ _ _ _ Hrun) as [Hsame Hlt].
  pose proof (createWhenResolved_log _ _ _ _ _ _ Hrun) as [_ Hd].
  split; [split|done].
  - by eapply inv_createWhenResolved.
  - apply (registry_ok_heap st); [done| |done]. lia.
Qed.

Lemma deps_mapM fuel reqs :
  (forall token st x st', resolveToken fuel token st = Some (x, st') ->
     deps_inv st -> deps_inv st' /\ valid_below (length (promises st')) x) ->
  forall st deps st', mapM (resolveToken fuel) reqs st = Some (deps, st') ->
    deps_inv st ->
    deps_inv st' /\ Forall (valid_below (length (promises st'))) deps.
Proof.
  intros IH. induction reqs as [|t reqs IHreqs]; intros st deps st' Hrun Hinv.
  - apply ret_inv in Hrun as [-> ->]. by split.
  - simpl in Hrun. apply bind_inv in Hrun as (x & st1 & Hx & Hrun).
    apply bind_inv in Hrun as (xs & st2 & Hxs & Hret).
    apply ret_inv in Hret as [-> ->].
    destruct (IH _ _ _ _ Hx Hinv) as [Hinv1 Hvx].
    destruct (IHreqs _ _ _ Hxs Hinv1) as [Hinv2 Hvxs]. split; [done|].
    constructor; [|done]. eapply valid_below_le; [|exact Hvx].
    eapply (rel_mapM heap_grows_frame); [|exact Hxs].
    intros t' _. by apply (rel_resolveToken heap_grows_frame).
Qed.

Lemma deps_resolveToken fuel : forall token st x st',
  resolveToken fuel token st = Some (x, st') ->
  deps_inv st -> deps_inv st' /\ valid_below (length (promises st')) x.
Proof.
  induction fuel as [|n IH]; intros token st x st' Hrun Hinv; [done|].
  simpl in Hrun. destruct (registry st !! tok_addr token) as [resolver|] eqn:Hr.
  2:{ apply bind_inv in Hrun as (p & st1 & Hp & Hret). apply ret_inv in Hret as [-> ->].
      pose proof Hp as Hp'. apply alloc_inv in Hp' as [-> ->].
      split; [|simpl; rewrite length_app; simpl; lia]. destruct Hinv as [Hinv Hreg].
      split; [by eapply inv_Promise_reject|].
      apply (registry_ok_heap st); [done| |done]. simpl. rewrite length_app. lia. }
  assert (forall f st1 d st2,
            resolveFactory_with (resolveToken n) (Some (tok_addr token)) f st1
              = Some (d, st2) ->
            deps_inv st1 -> deps_inv st2 /\ d < length (promises st2)) as Hfactory.
  { intros f st1 d st2 Hf Hinv1. unfold resolveFactory_with in Hf.
    apply bind_inv in Hf as (deps & st3 & Hmap & Htail).
    destruct (deps_mapM n _ IH _ _ _ Hmap Hinv1) as [Hinv3 Hvalid].
    by eapply deps_createWhenResolved. }
  destruct resolver as [f|f val [] [p|]]; simpl in Hrun.
  - apply bind_inv in Hrun as (d & st4 & Hf & Hret). apply ret_inv in Hret as [-> ->].
    by eapply Hfactory.
  - apply ret_inv in Hrun as [-> ->]. split; [done|].
    destruct Hinv as [_ Hreg]. destruct (Hreg _ _ Hr) as [Hv _].
    eapply valid_below_le; [|exact Hv]. lia.
  - apply ret_inv in Hrun as [-> ->]. split; [done|].
    destruct Hinv as [_ Hreg]. destruct (Hreg _ _ Hr) as [Hv _].
    eapply valid_below_le; [|exact Hv]. lia.
  - apply ret_inv in Hrun as [-> ->]. split; [done|].
    destruct Hinv as [_ Hreg]. destruct (Hreg _ _ Hr) as [_ Hp]. by apply Hp.
  - apply bind_inv in Hrun as (y & st5 & Hf & Hrun).
    apply bind_inv in Hrun as (d & st6 & Hthen & Hrun).
    apply bind_inv in Hrun as ([] & st7 & Hupd & Hret).
    apply ret_inv in Hret as [-> ->]. apply modify_inv in Hupd as ->.
    destruct (Hfactory _ _ _ _ Hf Hinv) as [[Hinv5 Hreg5] Hy].
    pose proof (then_valid _ _ _ _ _ Hthen) as Hd.
    pose proof (then_same _ _ _ _ _ Hthen) as (_ & Hreg6 & _).
    split; [|done]. split.
    + apply inv_registry. by eapply inv_then.
    + apply registry_ok_update.
      { intros [g|g v b p]; [done|]. intros [Hv _]. split; [done|]. by intros ? [= <-]. }
      apply (registry_ok_heap st5); [done| |done].
      by apply (rel_then heap_grows_frame) in Hthen as [? _].
Qed.

Lemma deps_Container_resolve fuel value st p st' :
  Container_resolve fuel value st = Some (p, st') -> deps_inv st -> deps_inv st'.
Proof.
  unfold Container_resolve. intros Hrun Hinv.
  apply bind_inv in Hrun as (x & st1 & Hres & Hwrap).
  assert (deps_inv st1) as [Hinv1 Hreg1].
  { destruct value as [token|f]; [by eapply deps_resolveToken|].
    apply bind_inv in Hres as (d & st2 & Hf & Hret). apply ret_inv in Hret as [-> ->].
    unfold resolveFactory, resolveFactory_with in Hf.
    apply bind_inv in Hf as (deps & st3 & Hmap & Htail).
    destruct (deps_mapM fuel _ (deps_resolveToken fuel) _ _ _ Hmap Hinv) as [Hinv3 Hvalid].
    by eapply deps_createWhenResolved. }
  split; [by eapply inv_Promise_resolve|].
  apply (registry_ok_heap st1); [| |done].
  - by apply (rel_Promise_resolve quiet_frame) in Hwrap as [_ ?].
  - by apply (rel_Promise_resolve heap_grows_frame) in Hwrap as [? _].
Qed.

Lemma deps_settleExternal p s st u st' :
  settleExternal p s st = Some (u, st') -> deps_inv st -> deps_inv st'.
Proof.
  intros Hrun [Hinv Hreg]. split.
  - unfold settleExternal in Hrun.
    destruct (promises st !! p) as [[ps []]|] eqn:Hp; try by simplify_eq.
    assert (target_ok st p) as Ht by by eexists.
    destruct s as [v|e].
    + by apply (inv_resolvePromise None p v st u st' Ht Hrun).
    + by apply (inv_settle None p (Reject e) st u st' Ht I Hrun).
  - apply (registry_ok_heap st); [| |done].
    + by apply (rel_settleExternal quiet_frame) in Hrun as [_ ?].
    + by apply (rel_settleExternal heap_grows_frame) in Hrun as [? _].
Qed.

Lemma deps_register fuel token f st st' :
  register fuel token f st = Some st' -> deps_inv st -> deps_inv st'.
Proof.
  unfold register. intros Hrun [Hinv Hreg].
  assert (forall msg, deps_inv (emit (EConsoleError msg) st)) as Hmsg.
  { intros msg. split; [by apply inv_emit|done]. }
  case_bool_decide; [by simplify_eq|].
  destruct (findCycle _ _ _ _); [|done]. case_bool_decide; simplify_eq; [done|].
  split; [by apply inv_registry|]. intros key r. cbn [registry set_registry].
  destruct (decide (key = tok_addr token)) as [->|Hne].
  - rewrite lookup_insert_eq. intros [= <-]. unfold createResolver.
    by destruct (lifetime f) as [[]|].
  - rewrite lookup_insert_ne by done. apply Hreg.
Qed.

(** *** The microtasks *)

Lemma inv_dequeue ex st j q :
  queue st = j :: q ->
  (forall q' r, ex <> Some q' -> r ∈ job_reactions j -> elements_of q' r = false) ->
  promise_inv ex st -> promise_inv ex (set_queue q st).
Proof.
  intros Hq Hj Hinv.
  apply (inv_transfer_quiet ex st _ Hinv); [by apply extends_heap|done|..].
  - intros p c' Hex Hp. left. exists c'. split_and!; [done..|]. intros P HP.
    rewrite (out_dequeue P st j q Hq).
    rewrite (count_zero P (job_reactions j)); [done|]. intros r Hr.
    destruct (P r) eqn:HPr; [|done]. apply HP in HPr. by rewrite (Hj p r) in HPr.
  - intros p c' rs' r Hp Hrs Hr. left. by exists c', rs'.
  - intros p c' s Hp Hs. left. by exists c'.
  - intros j' Hj'. left. rewrite Hq. by apply list_elem_of_further.
Qed.

(** A [Promise.all] that is fulfilled holds the values of its elements, in
    their order. *)
Lemma all_fulfilled st R c els vals rem w :
  all_ok st R c -> pkind c = All els vals rem ->
  settled_as c = Some (Fulfill w) ->
  w = VArr vals /\ Forall2 (resolved_to st) els vals.
Proof.
  unfold all_ok. intros Hok Hk Hs. rewrite Hk, Hs in Hok.
  destruct Hok as (Hlen & _ & Hdone & -> & Hzero). split; [done|].
  apply Forall2_same_length_lookup_2; [done|]. intros i x v Hx Hv.
  destruct (Hdone i x Hx) as (s & Hsx & Hsv).
  - assert (count (element_of R i) (outstanding st) <=
            count (elements_of R) (outstanding st)) as Hle
      by apply count_le_implied, element_of_elements.
    lia.
  - destruct s as [v'|e]; [|by destruct Hsv]. unfold resolved_to. congruence.
Qed.

Lemma all_rejected st R c els vals rem e :
  all_ok st R c -> pkind c = All els vals rem ->
  settled_as c = Some (Reject e) ->
  exists x, x ∈ els /\ settlement st x = Some (Reject e).
Proof. unfold all_ok. intros Hok Hk Hs. rewrite Hk, Hs in Hok. apply Hok. Qed.

(** Only the callbacks of a singleton resolver assign to the registry. *)
Lemma registry_kept_frame :
  Frame (fun st st' => registry st' = registry st)
        (fun r => forall key, handler r <> HSingleton key)
        (fun _ => True) (fun _ => False).
Proof.
  split; try done.
  - intros a b c Hab Hbc. congruence.
  - intros key d H. by apply (H key).
Qed.

Lemma inv_callCreate o f d deps st u st' :
  callCreate o f d deps st = Some (u, st') -> target_ok st d ->
  (exists els, EAttempt o (fid f) d els ∈ log st /\
               Forall2 (resolved_to st) els deps) ->
  promise_inv None st -> promise_inv None st'.
Proof.
  unfold callCreate. intros Hrun Hd Hdeps Hinv.
  apply bind_inv in Hrun as (n & st1 & Hn & Hrun).
  apply bind_inv in Hrun as ([] & st2 & Hemit & Hrun).
  unfold next_serial in Hn. apply modify_inv in Hemit as ->. simplify_eq.
  set (st2 := emit _ (set_serial _ st)) in Hrun.
  assert (promise_inv None st2) as Hinv2.
  { apply inv_emit; [done| |by apply inv_serial]. destruct Hdeps as (els & Hlog & Hargs).
    exists els. split; [|done]. simpl. apply elem_of_app. by left. }
  assert (target_ok st2 d) as Hd2 by done.
  destruct (create f (serial st) deps) as [v|e|].
  - by apply (inv_resolvePromise None d v st2 u st' Hd2 Hrun).
  - by apply (inv_settle None d (Reject e) st2 u st' Hd2 I Hrun).
  - apply bind_inv in Hrun as (p & st3 & Hp & Hrun). apply alloc_inv in Hp as [-> ->].
    eapply (inv_resolvePromise None d); [|exact Hrun|].
    + eapply (target_ok_mono (st := st2)); [|done]. by apply (fr_alloc extends_frame).
    + apply inv_alloc; [done|by right|done|done].
Qed.

Lemma inv_create_job o f d s st u st' :
  runReaction (react (HCreate o f) d) s st = Some (u, st') ->
  queued_ok st (react (HCreate o f) d) s ->
  promise_inv None st -> promise_inv None st'.
Proof.
  unfold runReaction. cbn [react handler derived].
  intros Hrun [Hd (R & c & els & vals & rem & Hc & Hs & Hk & Hlog)] Hinv.
  simpl in Hd, Hlog.
  assert (all_ok st R c) as Hok.
  { destruct Hinv as (Hcells & _). by apply (Hcells R c Hc). }
  destruct s as [v|e].
  - destruct (all_fulfilled st R c els vals rem v Hok Hk Hs) as [-> Hargs].
    simpl in Hrun. eapply inv_callCreate; [exact Hrun|done| |done]. by exists els.
  - apply bind_inv in Hrun as ([] & st1 & Hemit & Hrun). apply modify_inv in Hemit as ->.
    eapply (inv_settle None d (Reject e)); [|done|exact Hrun|].
    + done.
    + apply inv_emit; [done| |done].
      destruct (all_rejected st R c els vals rem e Hok Hk Hs) as (x & Hx & Hsx).
      exists els, x, e. split_and!; [|done..]. simpl. apply elem_of_app. by left.
Qed.

Lemma inv_adopt_job t d s st u st' :
  runReaction (react (HAdopt t) d) s st = Some (u, st') ->
  queued_ok st (react (HAdopt t) d) s -> settlement_ok s ->
  promise_inv None st -> promise_inv None st'.
Proof.
  unfold runReaction. cbn [react handler derived]. intros Hrun [Hd Ht] Hs Hinv.
  simpl in Hd, Ht. destruct s as [v|e].
  - apply bind_inv in Hrun as ([] & st1 & Hfirst & Hrun).
    eapply (inv_resolvePromise None d); [|exact Hrun|].
    + eapply target_ok_mono; [|exact Hd].
      by apply (rel_resolvePromise extends_frame) in Hfirst.
    + by apply (inv_resolvePromise None t v st () st1 Ht Hfirst).
  - apply bind_inv in Hrun as ([] & st1 & Hfirst & Hrun).
    eapply (inv_resolvePromise None d); [|exact Hrun|].
    + eapply target_ok_mono; [|exact Hd].
      by apply (rel_settle extends_frame) in Hfirst.
    + by apply (inv_settle None t (Reject e) st () st1 Ht I Hfirst).
Qed.

Lemma deps_singleton_job key d s st u st' :
  runReaction (react (HSingleton key) d) s st = Some (u, st') ->
  queued_ok st (react (HSingleton key) d) s -> settlement_ok s ->
  deps_inv st -> deps_inv st'.
Proof.
  unfold runReaction. cbn [react handler derived]. intros Hrun [Hd _] Hs [Hinv Hreg].
  simpl in Hd. destruct s as [v|e].
  - apply bind_inv in Hrun as ([] & st1 & Hdone & Hrun).
    unfold singletonFulfilled in Hdone.
    apply bind_inv in Hdone as ([] & st2 & Hupd & Hemit).
    apply modify_inv in Hupd as ->. apply modify_inv in Hemit as ->.
    set (st1 := emit _ (set_registry _ st)) in Hrun.
    assert (deps_inv st1) as [Hinv1 Hreg1].
    { split; [apply inv_emit; [done..|by apply inv_registry]|].
      apply (registry_ok_update st key (on_fulfilled v)); [|done].
      intros [g|g w b p]; [done|]. intros _. split; [|done]. by destruct v. }
    split.
    + by apply (inv_resolvePromise None d v st1 u st').
    + apply (registry_ok_heap st1); [| |done].
      * by apply (rel_resolvePromise registry_kept_frame) in Hrun.
      * by apply (rel_resolvePromise heap_grows_frame) in Hrun as [? _].
  - apply bind_inv in Hrun as ([] & st1 & Hdone & Hrun).
    unfold singletonRejected in Hdone.
    apply bind_inv in Hdone as ([] & st2 & Hupd & Hemit).
    apply modify_inv in Hupd as ->. apply modify_inv in Hemit as ->.
    set (st1 := emit _ (set_registry _ st)) in Hrun.
    assert (deps_inv st1) as [Hinv1 Hreg1].
    { split; [apply inv_emit; [done..|by apply inv_registry]|].
      apply (registry_ok_update st key on_rejected); [|done].
      intros [g|g w b p]; [done|]. by intros [? _]. }
    split.
    + by apply (inv_settle None d (Reject e) st1 u st').
    + apply (registry_ok_heap st1); [| |done].
      * by apply (rel_settle registry_kept_frame) in Hrun.
      * by apply (rel_settle heap_grows_frame) in Hrun as [? _].
Qed.

(** The array and the counter of a [Promise.all] under construction or
    being delivered to are assigned. *)
Lemma inv_kind R st ps els vals rem vals' rem' :
  promises st !! R = Some {| pstate := ps; pkind := All els vals rem |} ->
  promise_inv (Some R) st ->
  promise_inv (Some R)
    (set_promises (<[R := {| pstate := ps; pkind := All els vals' rem' |}]>
                     (promises st)) st).
Proof.
  intros HR Hinv. pose proof (lookup_lt_Some _ _ _ HR) as Hlt.
  apply (inv_transfer_quiet (Some R) st _ Hinv); [by eapply (fr_kind extends_frame)|done|..].
  - intros q c' Hex Hq. left. exists c'. simpl in Hq.
    rewrite list_lookup_insert_ne in Hq by congruence. split_and!; [done..|].
    apply counts_same_eq. intros P. by eapply out_kind.
  - intros q c' rs' r Hq Hrs Hr. left. simpl in Hq.
    destruct (decide (q = R)) as [->|Hne].
    + rewrite list_lookup_insert_eq in Hq by done. simplify_eq/=. by eexists _, rs'.
    + rewrite list_lookup_insert_ne in Hq by done. by exists c', rs'.
  - intros q c' s Hq Hs. left. simpl in Hq. destruct (decide (q = R)) as [->|Hne].
    + rewrite list_lookup_insert_eq in Hq by done. simplify_eq/=. by eexists.
    + rewrite list_lookup_insert_ne in Hq by done. by exists c'.
  - intros j Hj. by left.
Qed.

Section delivery.
Context (st st1 : State) (R i d : nat) (x : Value).
Context (ps : PromiseState) (els vals : list Value) (rem : nat).
Context (Hext : extends st st1).
Context (Hcount : forall P, count P (outstanding st) =
                    (if P (react (HAllElement R i) d) then 1 else 0) +
                    count P (outstanding st1)).
Context (Hok : all_ok st R {| pstate := ps; pkind := All els vals rem |}).
Context (Hx : els !! i = Some x).

Lemma delivery_elements :
  count (elements_of R) (outstanding st) =
  S (count (elements_of R) (outstanding st1)).
Proof. rewrite Hcount, elements_of_react. by rewrite bool_decide_eq_true_2. Qed.

Lemma delivery_other i' :
  i' <> i ->
  count (element_of R i') (outstanding st) =
  count (element_of R i') (outstanding st1).
Proof.
  intros Hne. rewrite Hcount, element_of_react.
  by rewrite (bool_decide_eq_false_2 (i = i')), andb_false_r by congruence.
Qed.

(** The element function number [i] has stored the value. *)
Lemma all_ok_delivered v :
  settlement st x = Some (Fulfill v) ->
  all_ok st1 R {| pstate := ps; pkind := All els (<[i := v]> vals) (rem - 1) |}.
Proof.
  intros Hv. unfold all_ok in *. cbn [pkind settled_as pstate] in *.
  destruct Hok as (Hlen & Hrem & Hdone & Hend). rewrite delivery_elements in Hrem.
  split_and!.
  - by rewrite length_insert.
  - lia.
  - intros i' x' Hx' Hc. destruct (decide (i' = i)) as [->|Hne].
    + simplify_eq. exists (Fulfill v). split; [by apply (settlement_mono Hext)|].
      apply list_lookup_insert_eq. rewrite Hlen. by eapply lookup_lt_Some.
    + rewrite <- (delivery_other i' Hne) in Hc.
      destruct (Hdone i' x' Hx' Hc) as (s & Hs & Hsv). exists s.
      split; [by apply (settlement_mono Hext)|]. destruct s; [|done].
      by rewrite list_lookup_insert_ne.
  - destruct ps as [rs|[w|e]]; [done| |].
    + destruct Hend as [_ Hzero]. rewrite delivery_elements in Hzero. lia.
    + destruct Hend as (y & Hy & Hsy). exists y.
      split; [done|by apply (settlement_mono Hext)].
Qed.

(** The element function number [i] has passed the error on. *)
Lemma all_ok_failed e :
  settlement st x = Some (Reject e) ->
  all_ok st1 R {| pstate := match ps with
                            | Pending _ => Settled (Reject e)
                            | Settled _ => ps
                            end;
                  pkind := All els vals rem |}.
Proof.
  intros Hv. unfold all_ok in *. cbn [pkind settled_as pstate] in *.
  destruct Hok as (Hlen & Hrem & Hdone & Hend). rewrite delivery_elements in Hrem.
  assert (exists e', match ps with
                     | Pending _ => Settled (Reject e)
                     | Settled _ => ps
                     end = Settled (Reject e')) as [e' He'].
  { destruct ps as [rs|[w|e0]]; [by eexists| |by eexists].
    destruct Hend as [_ Hzero]. rewrite delivery_elements in Hzero. lia. }
  rewrite He'. split_and!; [done|lia| |].
  - intros i' x' Hx' Hc. destruct (decide (i' = i)) as [->|Hne].
    + simplify_eq. exists (Reject e). split; [by apply (settlement_mono Hext)|].
      by exists e'.
    + rewrite <- (delivery_other i' Hne) in Hc.
      destruct (Hdone i' x' Hx' Hc) as (s & Hs & Hsv). exists s.
      split; [by apply (settlement_mono Hext)|]. destruct s; [done|]. by exists e'.
  - destruct ps as [rs|[w|e0]]; simplify_eq.
    + exists x. split; [by eapply list_elem_of_lookup_2|by apply (settlement_mono Hext)].
    + destruct Hend as (y & Hy & Hsy). exists y.
      split; [done|by apply (settlement_mono Hext)].
Qed.
End delivery.

(** The last element function fulfils the [Promise.all]. *)
Lemma all_ok_fulfil st st' R rs els vals rem :
  rem = 0 -> extends st st' ->
  (forall P, count P (outstanding st') = count P (outstanding st)) ->
  all_ok st R {| pstate := Pending rs; pkind := All els vals rem |} ->
  all_ok st' R {| pstate := Settled (Fulfill (VArr vals)); pkind := All els vals rem |}.
Proof.
  intros -> Hext Hcount. unfold all_ok. cbn [pkind settled_as pstate].
  rewrite !Hcount. intros (Hlen & Hrem & Hdone & _).
  split_and!; [done..| |done|lia].
  intros i x Hx Hc. rewrite Hcount in Hc.
  destruct (Hdone i x Hx Hc) as (s & Hs & Hsv). exists s.
  split; [by apply (settlement_mono Hext)|]. destruct s; [done|]. by destruct Hsv.
Qed.

Lemma inv_element_job R i d s q st u st' :
  queue st = JReaction (react (HAllElement R i) d) s :: q ->
  runReaction (react (HAllElement R i) d) s (set_queue q st) = Some (u, st') ->
  promise_inv None st -> promise_inv None st'.
Proof.
  intros Hq Hrun Hinv. set (r := react (HAllElement R i) d) in *.
  assert (job_okk st (JReaction r s)) as [[Hd (els & x & Hall & Hx & Hsx)] Hs].
  { destruct Hinv as (_ & Hqueue & _). rewrite Hq in Hqueue.
    by apply Forall_cons in Hqueue as [? _]. }
  simpl in Hd. destruct Hall as ([ps k] & vals & rem & HR & Hk). simpl in Hk. subst k.
  assert (all_ok st R {| pstate := ps; pkind := All els vals rem |}) as Hok.
  { destruct Hinv as (Hcells & _). by apply (Hcells R _ HR). }
  set (st0 := set_queue q st) in *.
  assert (promise_inv (Some R) st0) as Hinv0.
  { apply (inv_dequeue (Some R) st _ q Hq); [|by apply inv_open].
    intros q' r' Hne ->%list_elem_of_singleton. unfold r. rewrite elements_of_react.
    apply bool_decide_eq_false_2. congruence. }
  assert (forall P, count P (outstanding st) =
                    (if P r then 1 else 0) + count P (outstanding st0)) as Hcount.
  { intros P. rewrite (out_dequeue P st _ q Hq). simpl. fold st0. lia. }
  assert (extends st st0) as Hext0 by by apply extends_heap.
  pose proof (lookup_lt_Some _ _ _ HR) as HltR.
  unfold runReaction in Hrun. cbn [r react handler derived] in Hrun.
  assert (forall st2, extends st0 st2 -> promise_inv None st2 ->
            resolvePromise d VUndefined st2 = Some (u, st') ->
            promise_inv None st') as Hlast.
  { intros st2 Hext2 Hinv2 Hres.
    apply (inv_resolvePromise None d VUndefined st2 u st'); [|done..].
    apply (target_ok_mono Hext2), (target_ok_mono Hext0), Hd. }
  destruct s as [v|e].
  - apply bind_inv in Hrun as ([] & st2 & Hel & Hrun).
    apply (Hlast st2); [by apply (rel_allElement extends_frame) in Hel| |done].
    unfold allElement in Hel. change (promises st0) with (promises st) in Hel.
    rewrite HR in Hel.
    set (c1 := {| pstate := ps; pkind := All els (<[i := v]> vals) (rem - 1) |}) in Hel.
    set (st1 := set_promises (<[R := c1]> (promises st)) st0) in Hel.
    assert (promise_inv (Some R) st1) as Hinv1 by by apply (inv_kind R st0 ps els vals rem).
    assert (extends st st1) as Hext1.
    { eapply extends_trans; [exact Hext0|]. by eapply (fr_kind extends_frame st0). }
    assert (forall P, count P (outstanding st) =
                      (if P r then 1 else 0) + count P (outstanding st1)) as Hcount1.
    { intros P. rewrite Hcount. f_equal. symmetry. by eapply (out_kind P st0). }
    pose proof (all_ok_delivered st st1 R i d x ps els vals rem Hext1 Hcount1 Hok Hx v Hsx)
      as Hok1.
    assert (promises st1 !! R = Some c1) as HR1.
    { simpl. by apply list_lookup_insert_eq. }
    subst c1. revert Hel. case_bool_decide as Hrem; [|intros [= <-]].
    + simpl. unfold settle. rewrite HR1.
      destruct ps as [rs|s0]; intros [= <-].
      * eapply inv_close.
        -- apply (inv_settled (Some R) st1 R rs _ _ HR1); [done|by intros []|done].
        -- intros c Hc. cbn [promises set_queue set_promises] in Hc.
           rewrite list_lookup_insert_eq in Hc by by rewrite length_insert.
           simplify_eq.
           eapply all_ok_fulfil; [done| |intros P; by eapply out_settle|exact Hok1].
           by eapply (fr_settle extends_frame).
      * eapply inv_close; [exact Hinv1|]. intros c Hc. rewrite HR1 in Hc. by simplify_eq.
    + eapply inv_close; [exact Hinv1|]. intros c Hc. rewrite HR1 in Hc. by simplify_eq.
  - apply bind_inv in Hrun as ([] & st2 & Hset & Hrun).
    apply (Hlast st2); [by apply (rel_settle extends_frame) in Hset| |done].
    unfold settle in Hset. change (promises st0) with (promises st) in Hset.
    rewrite HR in Hset. destruct ps as [rs|s0]; injection Hset as <-.
    + assert (promises st0 !! R =
              Some {| pstate := Pending rs; pkind := All els vals rem |}) as HR0
        by exact HR.
      eapply inv_close.
      * apply (inv_settled (Some R) st0 R rs _ _ HR0); [done|by intros []|done].
      * intros c Hc. cbn [promises set_queue set_promises] in Hc.
        rewrite list_lookup_insert_eq in Hc by done. simplify_eq.
        apply (all_ok_failed st _ R i d x (Pending rs) els vals rem); try done.
        -- eapply extends_trans; [exact Hext0|].
           by eapply (fr_settle extends_frame st0).
        -- intros P. rewrite Hcount. f_equal. symmetry.
           by eapply (out_settle P st0).
    + eapply inv_close; [exact Hinv0|]. intros c Hc.
      change (promises st0) with (promises st) in Hc. rewrite HR in Hc. simplify_eq.
      by apply (all_ok_failed st st0 R i d x (Settled s0) els vals rem Hext0 Hcount Hok Hx e).
Qed.

Lemma deps_tick st u st' : tick st = Some (u, st') -> deps_inv st -> deps_inv st'.
Proof.
  unfold tick. destruct (queue st) as [|j q] eqn:Hq; [by intros [= _ <-]|].
  intros Hrun [Hinv Hreg].
  assert (job_okk st j) as Hj.
  { destruct Hinv as (_ & Hqueue & _). rewrite Hq in Hqueue.
    by apply Forall_cons in Hqueue as [? _]. }
  assert ((forall r, r ∈ job_reactions j -> forall R, elements_of R r = false) ->
          promise_inv None (set_queue q st)) as Hinv0.
  { intros Hplain. apply (inv_dequeue None st j q Hq); [|done].
    intros q' r _ Hr. by apply Hplain. }
  assert ((forall r, r ∈ job_reactions j -> forall key, handler r <> HSingleton key) ->
          promise_inv None st' -> deps_inv st') as Hkept.
  { intros Hplain Hinv'. split; [done|]. apply (registry_ok_heap st); [| |done].
    - apply (rel_runJob registry_kept_frame) in Hrun; [done|].
      destruct j as [r s|]; [|done]. simpl. apply Hplain, list_elem_of_singleton. done.
    - apply (rel_runJob heap_grows_frame) in Hrun as [? _]; [done|].
      by destruct j. }
  destruct j as [[[o f|key|R i|t] d] s|t p]; simpl in Hrun.
  - apply Hkept; [by intros r ->%list_elem_of_singleton|].
    destruct Hj as [Hj _]. eapply inv_create_job; [exact Hrun|exact Hj|].
    apply Hinv0. by intros r ->%list_elem_of_singleton.
  - destruct Hj as [Hj Hs]. eapply deps_singleton_job; [exact Hrun|exact Hj|done|].
    split; [|done]. apply Hinv0. by intros r ->%list_elem_of_singleton.
  - apply Hkept; [by intros r ->%list_elem_of_singleton|].
    by eapply inv_element_job.
  - apply Hkept; [by intros r ->%list_elem_of_singleton|].
    destruct Hj as [Hj Hs]. eapply inv_adopt_job; [exact Hrun|exact Hj|done|].
    apply Hinv0. by intros r ->%list_elem_of_singleton.
  - apply Hkept; [by intros r Hr%elem_of_nil|].
    apply bind_inv in Hrun as (d & st1 & Hthen & Hret). apply ret_inv in Hret as [_ ->].
    eapply (inv_then None p (HAdopt t)); [exact Hthen|exact Hj|].
    apply Hinv0. by intros r Hr%elem_of_nil.
Qed.

Lemma deps_step fuel a st st' : step fuel a st = Some st' -> deps_inv st -> deps_inv st'.
Proof.
  destruct a as [token f|value| |p s]; simpl.
  - apply deps_register.
  - destruct (Container_resolve fuel value st) as [[x st1]|] eqn:H; [|done].
    intros ?; simplify_eq/=. by eapply deps_Container_resolve.
  - destruct (tick st) as [[x st1]|] eqn:H; [|done].
    intros ?; simplify_eq/=. by eapply deps_tick.
  - destruct (settleExternal p s st) as [[x st1]|] eqn:H; [|done].
    intros ?; simplify_eq/=. by eapply deps_settleExternal.
Qed.

Lemma deps_initial : deps_inv initial.
Proof.
  split; [|done]. split_and!.
  - intros q c Hq. simpl in Hq. by rewrite lookup_nil in Hq.
  - constructor.
  - split_and!; [constructor| |constructor]. intros d Hd. by apply elem_of_nil in Hd.
Qed.

Lemma reachable_deps st : reachable st -> deps_inv st.
Proof.
  induction 1 as [|st fuel a st' _ IH Hstep]; [apply deps_initial|].
  by eapply deps_step.
Qed.

(** *** Attempts and their calls of [create] *)






(** ** Who settles a promise *)

Lemma owners_alloc st c t :
  fresh_cell c -> owners (set_promises (promises st ++ [c]) st) t = owners st t.
Proof. intros Hc. unfold owners. by rewrite !out_alloc. Qed.

Lemma owners_thenable st t0 q t :
  owners (set_queue (queue st ++ [JThenable t0 q]) st) t =
  owners st t + (if bool_decide (t0 = t) then 1 else 0).
Proof.
  unfold owners. rewrite !out_thenable. cbn [queue set_queue].
  rewrite count_snoc. simpl. lia.
Qed.

Lemma count_reaction_jobs (P : Job -> bool) (rs : list Reaction) s :
  (forall r, P (JReaction r s) = false) ->
  count P (map (fun r => JReaction r s) rs) = 0.
Proof.
  intros HP. apply count_zero. intros j (r & -> & _)%list_elem_of_fmap. apply HP.
Qed.

Lemma owners_settle st p rs k s t :
  promises st !! p = Some {| pstate := Pending rs; pkind := k |} ->
  owners (set_queue (queue st ++ map (fun r => JReaction r s) rs)
            (set_promises (<[p := {| pstate := Settled s; pkind := k |}]>
                             (promises st)) st)) t = owners st t.
Proof.
  intros Hp. unfold owners. rewrite !(out_settle _ st p rs k s Hp).
  cbn [queue set_queue]. rewrite count_app, count_reaction_jobs by done. lia.
Qed.

Lemma owners_attach_pending st p rs k r t :
  promises st !! p = Some {| pstate := Pending rs; pkind := k |} ->
  owners (set_promises (<[p := {| pstate := Pending (rs ++ [r]); pkind := k |}]>
                          (promises st)) st) t = owners st t + targets t r.
Proof.
  intros Hp. unfold owners, targets. rewrite !(out_attach_pending _ st p rs k r Hp).
  cbn [queue set_promises]. lia.
Qed.

Lemma owners_attach_settled st r s t :
  owners (set_queue (queue st ++ [JReaction r s]) st) t = owners st t + targets t r.
Proof.
  unfold owners, targets. rewrite !out_attach_settled. cbn [queue set_queue].
  rewrite count_snoc. simpl. lia.
Qed.

Lemma owners_kind st p ps k k' t :
  promises st !! p = Some {| pstate := ps; pkind := k |} ->
  owners (set_promises (<[p := {| pstate := ps; pkind := k' |}]> (promises st)) st) t =
  owners st t.
Proof. intros Hp. unfold owners. by rewrite !(out_kind _ st p ps k k' Hp). Qed.

Lemma owners_dequeue st j q t :
  queue st = j :: q -> owners st t = job_targets t j + owners (set_queue q st) t.
Proof.
  intros Hq. unfold owners. rewrite !(out_dequeue _ st j q Hq).
  cbn [queue set_queue]. rewrite Hq. destruct j as [r s|t' q']; simpl; unfold targets; lia.
Qed.

Lemma is_plain_mono st st' t :
  extends st st' -> is_plain st t = true -> is_plain st' t = true.
Proof.
  intros [Hheap _]. unfold is_plain.
  destruct (promises st !! t) as [[ps []]|] eqn:Ht; try done. intros _.
  destruct (Hheap t _ Ht) as ([ps' k'] & -> & _ & Hk). simpl in Hk. by subst.
Qed.

Lemma stray_old st st' :
  extends st st' -> count (stray st) (outstanding st) = 0 ->
  count (stray st') (outstanding st) = 0.
Proof.
  intros Hext Hzero.
  assert (count (stray st') (outstanding st) <= count (stray st) (outstanding st));
    [|lia].
  apply count_le_implied. intros r. unfold stray.
  destruct (is_plain st (derived r)) eqn:Hp; [|done].
  by rewrite (is_plain_mono st st' _ Hext Hp).
Qed.

Lemma plain_before st st' t ps' :
  extends st st' -> t < length (promises st) ->
  promises st' !! t = Some {| pstate := ps'; pkind := Plain |} ->
  exists ps, promises st !! t = Some {| pstate := ps; pkind := Plain |}.
Proof.
  intros [Hheap _] [[ps k] Hc]%lookup_lt_is_Some Hc'.
  destruct (Hheap t _ Hc) as (c' & Hc2 & _ & Hk). rewrite Hc' in Hc2.
  injection Hc2 as <-. simpl in Hk.
  destruct k as [| |els vals rem]; [by eexists|done|by destruct Hk as (? & ? & ?)].
Qed.

(** The invariant carries over to a state with [delta] more owners. *)
Lemma own_transfer st st' (delta : nat -> nat) :
  owner_inv st -> extends st st' ->
  (forall t, owners st' t <= owners st t + delta t) ->
  (forall t, 0 < delta t ->
     t < length (promises st') /\
     forall ps', promises st' !! t = Some {| pstate := ps'; pkind := Plain |} ->
       owners st t = 0 /\ delta t <= 1 /\ forall s, ps' <> Settled s) ->
  (forall t s, promises st' !! t = Some {| pstate := Settled s; pkind := Plain |} ->
     promises st !! t = Some {| pstate := Settled s; pkind := Plain |} \/
     owners st t = 0) ->
  count (stray st') (outstanding st') = 0 ->
  owner_inv st'.
Proof.
  intros (Hexist & Hstray & Hone) Hext Hle Hnew Hsettled Hstray'.
  assert (forall t, length (promises st) <= t -> owners st t = 0) as Hfresh.
  { intros t Ht. destruct (owners st t) eqn:Ho; [done|].
    specialize (Hexist t). lia. }
  assert (forall t ps', promises st' !! t = Some {| pstate := ps'; pkind := Plain |} ->
            owners st t <= 1) as Hold.
  { intros t ps' Hc'. destruct (decide (t < length (promises st))) as [Hlt|Hge].
    - destruct (plain_before st st' t ps' Hext Hlt Hc') as [ps Hc].
      by apply (Hone t ps Hc).
    - rewrite Hfresh; lia. }
  split_and!; [|done|].
  - intros t Ht. specialize (Hle t).
    destruct (decide (0 < delta t)) as [Hd|Hd]; [by apply Hnew|].
    apply (heap_length_mono Hext), Hexist. lia.
  - intros t ps' Hc'. specialize (Hle t). specialize (Hold t ps' Hc').
    destruct (decide (0 < delta t)) as [Hd|Hd].
    + destruct (Hnew t Hd) as [_ Hn]. destruct (Hn ps' Hc') as (Hz & Hd1 & Hps).
      split; [lia|]. intros s ->. by destruct (Hps s).
    + split; [lia|]. intros s ->.
      destruct (Hsettled t s Hc') as [Hc|Hz]; [|lia].
      destruct (Hone t _ Hc) as [_ Hz]. specialize (Hz s eq_refl). lia.
Qed.

Lemma owners_fresh st t : owner_inv st -> length (promises st) <= t -> owners st t = 0.
Proof.
  intros (Hexist & _) Ht. destruct (owners st t) eqn:Ho; [done|].
  specialize (Hexist t). lia.
Qed.

Lemma own_alloc st c :
  fresh_cell c -> owner_inv st -> owner_inv (set_promises (promises st ++ [c]) st).
Proof.
  intros Hc Hinv.
  assert (extends st (set_promises (promises st ++ [c]) st)) as Hext
    by by apply (fr_alloc extends_frame).
  apply (own_transfer st _ (fun _ => 0) Hinv Hext).
  - intros t. rewrite owners_alloc by done. lia.
  - intros t Ht. lia.
  - intros t s [Ht|[Hlen _]]%lookup_app_Some; [by left|right].
    by apply owners_fresh.
  - rewrite out_alloc by done. apply (stray_old st _ Hext), Hinv.
Qed.

Lemma own_settled st p rs k s :
  promises st !! p = Some {| pstate := Pending rs; pkind := k |} ->
  (k = Plain -> owners st p = 0) ->
  owner_inv st ->
  owner_inv (set_queue (queue st ++ map (fun r => JReaction r s) rs)
               (set_promises (<[p := {| pstate := Settled s; pkind := k |}]>
                                (promises st)) st)).
Proof.
  intros Hp Hfree Hinv.
  assert (extends st (set_queue (queue st ++ map (fun r => JReaction r s) rs)
               (set_promises (<[p := {| pstate := Settled s; pkind := k |}]>
                                (promises st)) st))) as Hext
    by by apply (fr_settle extends_frame).
  apply (own_transfer st _ (fun _ => 0) Hinv Hext).
  - intros t. rewrite (owners_settle st p rs k s t Hp). lia.
  - intros t Ht. lia.
  - intros t s' Ht. cbn [promises set_queue set_promises] in Ht.
    destruct (decide (t = p)) as [->|Hne].
    + rewrite list_lookup_insert_eq in Ht by by eapply lookup_lt_Some.
      right. apply Hfree. by simplify_eq.
    + left. by rewrite list_lookup_insert_ne in Ht.
  - rewrite (out_settle _ st p rs k s Hp). apply (stray_old st _ Hext), Hinv.
Qed.

Lemma own_settle p s st u st' :
  settle p s st = Some (u, st') ->
  (forall rs, promises st !! p = Some {| pstate := Pending rs; pkind := Plain |} ->
              owners st p = 0) ->
  owner_inv st -> owner_inv st'.
Proof.
  unfold settle. intros Hrun Hfree Hinv.
  destruct (promises st !! p) as [[[rs|s0] k]|] eqn:Hp; simplify_eq; try done.
  apply (own_settled st p rs k s Hp); [|done]. intros ->. by apply (Hfree rs).
Qed.

Lemma own_thenable st t0 q :
  free st t0 -> owner_inv st ->
  owner_inv (set_queue (queue st ++ [JThenable t0 q]) st).
Proof.
  intros [Hlt Hfree] Hinv.
  assert (extends st (set_queue (queue st ++ [JThenable t0 q]) st)) as Hext
    by apply (fr_thenable extends_frame).
  apply (own_transfer st _ (fun t => if bool_decide (t0 = t) then 1 else 0) Hinv Hext).
  - intros t. rewrite owners_thenable. lia.
  - intros t Ht. case_bool_decide; [subst t|lia]. split; [done|].
    intros ps' Hc. destruct (Hfree ps' Hc). split_and!; [done|lia|done].
  - intros t s Ht. by left.
  - rewrite out_thenable. apply (stray_old st _ Hext), Hinv.
Qed.

Lemma own_resolvePromise t x st u st' :
  resolvePromise t x st = Some (u, st') -> free st t ->
  owner_inv st -> owner_inv st'.
Proof.
  intros Hrun Hfree Hinv.
  assert (forall s, settle t s st = Some (u, st') -> owner_inv st') as Hsettle.
  { intros s Hs. eapply own_settle; [exact Hs| |done].
    intros rs Hc. by apply (proj2 Hfree _ Hc). }
  unfold resolvePromise in Hrun. destruct x; try by eapply Hsettle.
  case_decide; [by eapply Hsettle|]. unfold enqueue in Hrun.
  apply modify_inv in Hrun as ->. by apply own_thenable.
Qed.

Lemma targets_le t r :
  (forall t0, handler r = HAdopt t0 -> t0 <> derived r) -> targets t r <= 1.
Proof.
  intros Hne. unfold targets, derives, adopts.
  destruct (handler r) as [| | |t0] eqn:Hh; try (case_bool_decide; lia).
  repeat case_bool_decide; try lia. subst. by destruct (Hne _ eq_refl).
Qed.

Lemma targets_pos t r :
  0 < targets t r -> t = derived r \/ handler r = HAdopt t.
Proof.
  unfold targets, derives, adopts. case_bool_decide; [by left|].
  destruct (handler r) as [| | |t0]; try (simpl; lia).
  case_bool_decide; [subst; by right|simpl; lia].
Qed.

(** A reaction is registered: its derived promise is new, and what it
    adopts for has no other owner. *)
Lemma own_attach p r st u st' :
  attach p r st = Some (u, st') ->
  is_plain st (derived r) = true -> free st (derived r) ->
  (forall t0, handler r = HAdopt t0 -> t0 <> derived r /\ free st t0) ->
  owner_inv st -> owner_inv st'.
Proof.
  intros Hrun Hplain Hd Hadopt Hinv.
  pose proof (rel_attach extends_frame p r I _ _ _ Hrun) as Hext.
  assert (forall t, 0 < targets t r -> free st t) as Hfree.
  { intros t [->|Hh]%targets_pos; [done|]. by apply Hadopt. }
  assert (forall t ps', promises st' !! t = Some {| pstate := ps'; pkind := Plain |} ->
            exists ps, promises st !! t = Some {| pstate := ps; pkind := Plain |} /\
                       (forall s, ps' = Settled s -> ps = Settled s)) as Hback.
  { intros t ps' Ht. unfold attach, enqueue, modify in Hrun.
    destruct (promises st !! p) as [[[rs|s] k]|] eqn:Hp; simplify_eq;
      try by eexists.
    cbn [promises set_promises] in Ht. destruct (decide (t = p)) as [->|Hne].
    - rewrite list_lookup_insert_eq in Ht by by eapply lookup_lt_Some.
      simplify_eq. by eexists.
    - rewrite list_lookup_insert_ne in Ht by done. by eexists. }
  assert (forall P, count P (outstanding st') <=
                    count P (outstanding st) + (if P r then 1 else 0)) as Hout.
  { intros P. unfold attach, enqueue, modify in Hrun.
    destruct (promises st !! p) as [[[rs|s] k]|] eqn:Hp; simplify_eq.
    - by rewrite (out_attach_pending P st p rs k r Hp).
    - by rewrite out_attach_settled.
    - lia. }
  apply (own_transfer st _ (fun t => targets t r) Hinv Hext).
  - intros t. unfold attach, enqueue, modify in Hrun.
    destruct (promises st !! p) as [[[rs|s] k]|] eqn:Hp; simplify_eq.
    + by rewrite (owners_attach_pending st p rs k r t Hp).
    + by rewrite owners_attach_settled.
    + lia.
  - intros t Ht. destruct (Hfree t Ht) as [Hlt Hf].
    split; [by apply (heap_length_mono Hext)|]. intros ps' Hc'.
    destruct (Hback t ps' Hc') as (ps & Hc & Hps). destruct (Hf ps Hc) as [Hz Hpend].
    split_and!; [done| |].
    + apply targets_le. intros t0 Hh. by apply Hadopt.
    + intros s ->. by apply (Hpend s), Hps.
  - intros t s Ht. left. destruct (Hback t _ Ht) as (ps & Hc & Hps).
    by rewrite (Hps s eq_refl) in Hc.
  - specialize (Hout (stray st')). unfold stray at 3 in Hout.
    rewrite (is_plain_mono st st' _ Hext Hplain) in Hout. simpl in Hout.
    pose proof (stray_old st st' Hext (proj1 (proj2 Hinv))). lia.
Qed.

Lemma free_other st st' d :
  free st d -> promises st' !! d = promises st !! d ->
  owners st' d = owners st d -> free st' d.
Proof.
  intros [Hlt Hfree] Hsame Hown. split.
  - apply lookup_lt_is_Some. rewrite Hsame. by apply lookup_lt_is_Some.
  - intros ps Hc. rewrite Hsame in Hc. rewrite Hown. by apply Hfree.
Qed.

Lemma free_alloc st c d :
  fresh_cell c -> free st d -> free (set_promises (promises st ++ [c]) st) d.
Proof.
  intros Hc Hd. apply (free_other st); [done| |by apply owners_alloc].
  simpl. apply lookup_app_l. apply Hd.
Qed.

Lemma free_new st :
  owner_inv st ->
  free (set_promises (promises st ++ [{| pstate := Pending []; pkind := Plain |}]) st)
       (length (promises st)).
Proof.
  intros Hinv. split; [simpl; rewrite length_app; simpl; lia|].
  intros ps Hc. simpl in Hc. rewrite lookup_app_r, Nat.sub_diag in Hc by done.
  simplify_eq/=. split; [|done]. rewrite owners_alloc by done. by apply owners_fresh.
Qed.

Lemma free_settle p s d st u st' :
  settle p s st = Some (u, st') -> d <> p -> free st d -> free st' d.
Proof.
  unfold settle. intros Hrun Hne Hd.
  destruct (promises st !! p) as [[[rs|s0] k]|] eqn:Hp; simplify_eq; try done.
  apply (free_other st); [done| |by apply owners_settle].
  simpl. by rewrite list_lookup_insert_ne.
Qed.

Lemma free_resolvePromise t x d st u st' :
  resolvePromise t x st = Some (u, st') -> d <> t -> free st d -> free st' d.
Proof.
  intros Hrun Hne Hd. unfold resolvePromise in Hrun.
  destruct x; try by eapply free_settle.
  case_decide; [by eapply free_settle|]. unfold enqueue in Hrun.
  apply modify_inv in Hrun as ->. apply (free_other st); [done..|].
  rewrite owners_thenable. rewrite bool_decide_eq_false_2 by congruence. lia.
Qed.

(** [then] with a callback: the derived promise is new. *)
Lemma own_then p h st d st' :
  then_ p h st = Some (d, st') ->
  (forall t0, h = HAdopt t0 -> free st t0) ->
  owner_inv st -> owner_inv st'.
Proof.
  intros [-> Hrun]%then_inv Hadopt Hinv.
  eapply own_attach; [exact Hrun| | | |by apply own_alloc].
  - unfold is_plain. simpl. by rewrite lookup_app_r, Nat.sub_diag.
  - by apply free_new.
  - simpl. intros t0 ->. specialize (Hadopt t0 eq_refl). split.
    + destruct Hadopt as [? _]. lia.
    + by apply free_alloc.
Qed.

Lemma own_kind st p ps k k' :
  promises st !! p = Some {| pstate := ps; pkind := k |} -> k <> Plain -> k' <> Plain ->
  owner_inv st ->
  owner_inv (set_promises (<[p := {| pstate := ps; pkind := k' |}]> (promises st)) st).
Proof.
  intros Hp Hk Hk' Hinv.
  assert (forall t ps', <[p := {| pstate := ps; pkind := k' |}]> (promises st) !! t =
                          Some {| pstate := ps'; pkind := Plain |} ->
                        promises st !! t = Some {| pstate := ps'; pkind := Plain |})
    as Hback.
  { intros t ps' Ht. destruct (decide (t = p)) as [->|Hne].
    - rewrite list_lookup_insert_eq in Ht by by eapply lookup_lt_Some. by simplify_eq.
    - by rewrite list_lookup_insert_ne in Ht. }
  destruct Hinv as (Hexist & Hstray & Hone). split_and!.
  - intros t. rewrite (owners_kind st p ps k k' t Hp). simpl. rewrite length_insert.
    apply Hexist.
  - rewrite (out_kind _ st p ps k k' Hp).
    assert (count (stray (set_promises (<[p := {| pstate := ps; pkind := k' |}]>
                                          (promises st)) st)) (outstanding st) <=
            count (stray st) (outstanding st)); [|lia].
    apply count_le_implied. intros r. unfold stray, is_plain. simpl.
    destruct (decide (derived r = p)) as [->|Hne].
    + rewrite list_lookup_insert_eq by by eapply lookup_lt_Some. rewrite Hp.
      by destruct k, k'.
    + by rewrite list_lookup_insert_ne.
  - intros t ps' Ht. rewrite (owners_kind st p ps k k' t Hp). apply Hone.
    by apply Hback.
Qed.

Lemma own_dequeue st j q :
  queue st = j :: q -> owner_inv st ->
  owner_inv (set_queue q st) /\
  forall t, 0 < job_targets t j -> free (set_queue q st) t.
Proof.
  intros Hq Hinv. pose proof Hinv as (Hexist & Hstray & Hone). split.
  - split_and!.
    + intros t Ht. apply Hexist. rewrite (owners_dequeue st j q t Hq). lia.
    + rewrite (out_dequeue _ st j q Hq) in Hstray.
      change (stray (set_queue q st)) with (stray st). lia.
    + intros t ps Ht. pose proof (owners_dequeue st j q t Hq) as Hown.
      destruct (Hone t ps Ht) as [Hle Hset]. split; [lia|].
      intros s Hs. specialize (Hset s Hs). lia.
  - intros t Ht. pose proof (owners_dequeue st j q t Hq) as Hown. split.
    + apply Hexist. lia.
    + intros ps Hc. destruct (Hone t ps Hc) as [Hle Hset]. split; [lia|].
      intros s ->. specialize (Hset s eq_refl). lia.
Qed.

(** The invariant does not look at the registry, the serial numbers or the
    log. *)
Lemma own_registry reg st : owner_inv st -> owner_inv (set_registry reg st).
Proof. done. Qed.

Lemma own_serial n st : owner_inv st -> owner_inv (set_serial n st).
Proof. done. Qed.

Lemma own_emit e st : owner_inv st -> owner_inv (emit e st).
Proof. done. Qed.

Lemma own_Promise_resolve x st p st' :
  Promise_resolve x st = Some (p, st') -> owner_inv st -> owner_inv st'.
Proof.
  destruct x; cbn [Promise_resolve];
    try (intros [-> ->]%alloc_inv; by apply own_alloc).
  by intros [-> ->]%ret_inv.
Qed.

Lemma own_all_loop R xs : forall i st st',
  all_loop R i xs st = Some (tt, st') -> owner_inv st -> owner_inv st'.
Proof.
  induction xs as [|x xs IH]; intros i st st' Hrun Hinv.
  - by apply ret_inv in Hrun as [_ ->].
  - simpl in Hrun. apply bind_inv in Hrun as (q & st1 & Hres & Hrun).
    apply bind_inv in Hrun as (d & st2 & Hthen & Hrun).
    eapply IH; [exact Hrun|]. eapply own_then; [exact Hthen|done|].
    by eapply own_Promise_resolve.
Qed.

Lemma own_Promise_all xs st R st' :
  Promise_all xs st = Some (R, st') -> owner_inv st -> owner_inv st'.
Proof.
  unfold Promise_all. intros Hrun Hinv.
  apply bind_inv in Hrun as (R0 & st1 & Halloc & Hrun).
  apply bind_inv in Hrun as ([] & st2 & Hloop & Hrun).
  apply bind_inv in Hrun as ([] & st3 & Hend & Hret).
  apply ret_inv in Hret as [-> ->]. apply alloc_inv in Halloc as [-> ->].
  assert (owner_inv st2) as Hinv2.
  { eapply own_all_loop; [exact Hloop|]. by apply own_alloc. }
  revert Hend. case_bool_decide; [|by intros [_ ->]%ret_inv].
  intros Hend. eapply own_settle; [exact Hend| |done]. intros rs Hc.
  apply (rel_all_loop extends_frame) in Hloop as [Hheap _].
  destruct (Hheap (length (promises st))
              {| pstate := Pending [];
                 pkind := All xs (replicate (length xs) VUndefined) (length xs) |})
    as (c' & Hc' & _ & vals & rem & Hk).
  { simpl. by rewrite lookup_app_r, Nat.sub_diag. }
  rewrite Hc in Hc'. by simplify_eq.
Qed.

Lemma own_createWhenResolved o f deps st d st' :
  createWhenResolved o f deps st = Some (d, st') -> owner_inv st -> owner_inv st'.
Proof.
  unfold createWhenResolved. intros Hrun Hinv.
  apply bind_inv in Hrun as (R & st2 & Hall & Hrun).
  apply bind_inv in Hrun as (d0 & st3 & Hthen & Hrun).
  apply bind_inv in Hrun as ([] & st4 & Hemit & Hret).
  apply ret_inv in Hret as [-> ->]. apply modify_inv in Hemit as ->.
  apply own_emit. eapply own_then; [exact Hthen|done|]. by eapply own_Promise_all.
Qed.

Lemma own_mapM fuel reqs :
  (forall token st x st', resolveToken fuel token st = Some (x, st') ->
     owner_inv st -> owner_inv st') ->
  forall st deps st', mapM (resolveToken fuel) reqs st = Some (deps, st') ->
    owner_inv st -> owner_inv st'.
Proof.
  intros IH. induction reqs as [|t reqs IHreqs]; intros st deps st' Hrun Hinv.
  - by apply ret_inv in Hrun as [_ ->].
  - simpl in Hrun. apply bind_inv in Hrun as (x & st1 & Hx & Hrun).
    apply bind_inv in Hrun as (xs & st2 & Hxs & Hret).
    apply ret_inv in Hret as [_ ->]. eauto.
Qed.

Lemma own_resolveToken fuel : forall token st x st',
  resolveToken fuel token st = Some (x, st') -> owner_inv st -> owner_inv st'.
Proof.
  induction fuel as [|n IH]; intros token st x st' Hrun Hinv; [done|].
  simpl in Hrun. destruct (registry st !! tok_addr token) as [resolver|] eqn:Hr.
  2:{ apply bind_inv in Hrun as (p & st1 & Hp & Hret). apply ret_inv in Hret as [_ ->].
      apply alloc_inv in Hp as [_ ->]. by apply own_alloc. }
  assert (forall f st1 d st2,
            resolveFactory_with (resolveToken n) (Some (tok_addr token)) f st1
              = Some (d, st2) -> owner_inv st1 -> owner_inv st2) as Hfactory.
  { intros f st1 d st2 Hf Hinv1. unfold resolveFactory_with in Hf.
    apply bind_inv in Hf as (deps & st3 & Hmap & Htail).
    eapply own_createWhenResolved; [exact Htail|]. by eapply own_mapM. }
  destruct resolver as [f|f val [] [p|]]; simpl in Hrun.
  - apply bind_inv in Hrun as (d & st4 & Hf & Hret). apply ret_inv in Hret as [_ ->].
    by eapply Hfactory.
  - by apply ret_inv in Hrun as [_ ->].
  - by apply ret_inv in Hrun as [_ ->].
  - by apply ret_inv in Hrun as [_ ->].
  - apply bind_inv in Hrun as (y & st5 & Hf & Hrun).
    apply bind_inv in Hrun as (d & st6 & Hthen & Hrun).
    apply bind_inv in Hrun as ([] & st7 & Hupd & Hret).
    apply ret_inv in Hret as [_ ->]. apply modify_inv in Hupd as ->.
    apply own_registry. eapply own_then; [exact Hthen|done|]. by eapply Hfactory.
Qed.

Lemma own_Container_resolve fuel value st p st' :
  Container_resolve fuel value st = Some (p, st') -> owner_inv st -> owner_inv st'.
Proof.
  unfold Container_resolve. intros Hrun Hinv.
  apply bind_inv in Hrun as (x & st1 & Hres & Hwrap).
  eapply own_Promise_resolve; [exact Hwrap|].
  destruct value as [token|f]; [by eapply own_resolveToken|].
  apply bind_inv in Hres as (d & st2 & Hf & Hret). apply ret_inv in Hret as [_ ->].
  unfold resolveFactory, resolveFactory_with in Hf.
  apply bind_inv in Hf as (deps & st3 & Hmap & Htail).
  eapply own_createWhenResolved; [exact Htail|].
  eapply own_mapM; [|exact Hmap|done]. apply own_resolveToken.
Qed.

Lemma own_settleExternal p s st u st' :
  settleExternal p s st = Some (u, st') -> owner_inv st -> owner_inv st'.
Proof.
  unfold settleExternal. intros Hrun Hinv.
  destruct (promises st !! p) as [[ps []]|] eqn:Hp; try by simplify_eq.
  destruct s as [v|e].
  - eapply own_resolvePromise; [exact Hrun| |done]. split; [by eapply lookup_lt_Some|].
    intros ps' Hc. by simplify_eq.
  - eapply own_settle; [exact Hrun| |done]. intros rs Hc. by simplify_eq.
Qed.

Lemma own_register fuel token f st st' :
  register fuel token f st = Some st' -> owner_inv st -> owner_inv st'.
Proof.
  unfold register. intros Hrun Hinv. case_bool_decide; [by simplify_eq|].
  destruct (findCycle _ _ _ _); [|done]. by case_bool_decide; simplify_eq.
Qed.

(** *** The microtasks *)

Lemma own_callCreate o f d deps st u st' :
  callCreate o f d deps st = Some (u, st') -> free st d ->
  owner_inv st -> owner_inv st'.
Proof.
  unfold callCreate. intros Hrun Hd Hinv.
  apply bind_inv in Hrun as (n & st1 & Hn & Hrun).
  apply bind_inv in Hrun as ([] & st2 & Hemit & Hrun).
  unfold next_serial in Hn. apply modify_inv in Hemit as ->. simplify_eq.
  set (st2 := emit _ (set_serial _ st)) in Hrun.
  assert (owner_inv st2) as Hinv2 by done.
  assert (free st2 d) as Hd2 by done.
  destruct (create f (serial st) deps) as [v|e|].
  - by eapply own_resolvePromise.
  - eapply own_settle; [exact Hrun| |done]. intros rs Hc. by apply (proj2 Hd2 _ Hc).
  - apply bind_inv in Hrun as (p & st3 & Hp & Hrun). apply alloc_inv in Hp as [-> ->].
    eapply own_resolvePromise; [exact Hrun|by apply free_alloc|by apply own_alloc].
Qed.

Lemma own_settle_free p s st u st' :
  settle p s st = Some (u, st') -> free st p -> owner_inv st -> owner_inv st'.
Proof.
  intros Hrun Hp Hinv. eapply own_settle; [exact Hrun| |done].
  intros rs Hc. by apply (proj2 Hp _ Hc).
Qed.

Lemma head_plain st r s q :
  owner_inv st -> queue st = JReaction r s :: q -> is_plain st (derived r) = true.
Proof.
  intros (_ & Hstray & _) Hq. rewrite (out_dequeue _ st _ q Hq) in Hstray.
  simpl in Hstray. unfold stray in Hstray at 1.
  destruct (is_plain st (derived r)); [done|simpl in Hstray; lia].
Qed.

Lemma own_tick st u st' :
  tick st = Some (u, st') -> promise_inv None st -> owner_inv st -> owner_inv st'.
Proof.
  unfold tick. destruct (queue st) as [|j q] eqn:Hq; [by intros [= _ <-]|].
  intros Hrun Hprom Hinv.
  assert (job_okk st j) as Hj.
  { destruct Hprom as (_ & Hqueue & _). rewrite Hq in Hqueue.
    by apply Forall_cons in Hqueue as [? _]. }
  destruct (own_dequeue st j q Hq Hinv) as [Hinv0 Hfree].
  set (st0 := set_queue q st) in *.
  destruct j as [[h d] s|t p]; simpl in Hrun.
  2:{ apply bind_inv in Hrun as (d & st1 & Hthen & Hret). apply ret_inv in Hret as [_ ->].
      eapply own_then; [exact Hthen| |done]. intros t0 [= <-]. apply Hfree. simpl.
      rewrite bool_decide_eq_true_2 by done. lia. }
  pose proof (head_plain st _ s q Hinv Hq) as Hplain. simpl in Hplain.
  assert (free st0 d) as Hd.
  { apply Hfree. simpl. unfold targets, derives. simpl.
    rewrite bool_decide_eq_true_2 by done. lia. }
  unfold runReaction in Hrun. cbn [handler derived] in Hrun.
  destruct h as [o f|key|R i|t].
  - destruct s as [v|e]; [destruct (apply_args v)|].
    + by eapply own_callCreate.
    + apply bind_inv in Hrun as ([] & st1 & Hemit & Hrun). apply modify_inv in Hemit as ->.
      by eapply (own_settle_free d _ (emit _ st0)).
    + apply bind_inv in Hrun as ([] & st1 & Hemit & Hrun). apply modify_inv in Hemit as ->.
      by eapply (own_settle_free d _ (emit _ st0)).
  - destruct s as [v|e].
    + apply bind_inv in Hrun as ([] & st1 & Hdone & Hrun).
      unfold singletonFulfilled in Hdone.
      apply bind_inv in Hdone as ([] & st2 & Hupd & Hemit).
      apply modify_inv in Hupd as ->. apply modify_inv in Hemit as ->.
      by eapply (own_resolvePromise d v (emit _ (set_registry _ st0))).
    + apply bind_inv in Hrun as ([] & st1 & Hdone & Hrun).
      unfold singletonRejected in Hdone.
      apply bind_inv in Hdone as ([] & st2 & Hupd & Hemit).
      apply modify_inv in Hupd as ->. apply modify_inv in Hemit as ->.
      by eapply (own_settle_free d _ (emit _ (set_registry _ st0))).
  - destruct Hj as [[_ (els & x & ([ps k] & vals & rem & HR & Hk) & _)] _].
    simpl in Hk. subst k.
    assert (d <> R) as Hne.
    { intros ->. unfold is_plain in Hplain. by rewrite HR in Hplain. }
    destruct s as [v|e].
    + apply bind_inv in Hrun as ([] & st2 & Hel & Hrun).
      unfold allElement in Hel. change (promises st0) with (promises st) in Hel.
      rewrite HR in Hel.
      set (c1 := {| pstate := ps; pkind := All els (<[i := v]> vals) (rem - 1) |}) in Hel.
      set (st1 := set_promises (<[R := c1]> (promises st)) st0) in Hel.
      assert (owner_inv st1) as Hinv1 by by apply (own_kind st0 R ps (All els vals rem)).
      assert (free st1 d) as Hd1.
      { apply (free_other st0); [done| |by eapply (owners_kind st0)].
        simpl. by rewrite list_lookup_insert_ne. }
      assert (owner_inv st2 /\ free st2 d) as [Hinv2 Hd2].
      { revert Hel. case_bool_decide; [|by intros [= <-]]. simpl. intros Hel. split.
        - eapply own_settle; [exact Hel| |done]. intros rs Hc. simpl in Hc.
          rewrite list_lookup_insert_eq in Hc by by eapply lookup_lt_Some. done.
        - by eapply free_settle. }
      by eapply own_resolvePromise.
    + apply bind_inv in Hrun as ([] & st2 & Hset & Hrun).
      eapply own_resolvePromise; [exact Hrun|by eapply free_settle|].
      eapply own_settle; [exact Hset| |done]. intros rs Hc.
      change (promises st0) with (promises st) in Hc. rewrite HR in Hc. done.
  - assert (free st0 t) as Ht.
    { apply Hfree. simpl. unfold targets, adopts. simpl.
      rewrite (bool_decide_eq_true_2 (t = t)) by done. lia. }
    assert (d <> t) as Hne.
    { intros ->. destruct Hinv as (_ & _ & Hone). unfold is_plain in Hplain.
      destruct (promises st !! t) as [[ps []]|] eqn:Hc; try done.
      destruct (Hone t ps Hc) as [Hle _].
      rewrite (owners_dequeue st _ q t Hq) in Hle. simpl in Hle.
      unfold targets, derives, adopts in Hle. simpl in Hle.
      rewrite !bool_decide_eq_true_2 in Hle by done. lia. }
    destruct s as [v|e].
    + apply bind_inv in Hrun as ([] & st1 & Hfirst & Hrun).
      eapply own_resolvePromise; [exact Hrun|by eapply free_resolvePromise|].
      by eapply own_resolvePromise.
    + apply bind_inv in Hrun as ([] & st1 & Hfirst & Hrun).
      eapply own_resolvePromise; [exact Hrun|by eapply free_settle|].
      by eapply own_settle_free.
Qed.

Lemma own_step fuel a st st' :
  step fuel a st = Some st' -> promise_inv None st -> owner_inv st -> owner_inv st'.
Proof.
  destruct a as [token f|value| |p s]; simpl; intros Hstep Hprom.
  - by eapply own_register.
  - destruct (Container_resolve fuel value st) as [[x st1]|] eqn:H; [|done].
    simplify_eq/=. by eapply own_Container_resolve.
  - destruct (tick st) as [[x st1]|] eqn:H; [|done].
    simplify_eq/=. by eapply own_tick.
  - destruct (settleExternal p s st) as [[x st1]|] eqn:H; [|done].
    simplify_eq/=. by eapply own_settleExternal.
Qed.

Lemma reachable_own st : reachable st -> owner_inv st.
Proof.
  induction 1 as [|st fuel a st' Hst IH Hstep].
  - split_and!; [|done|].
    + intros t. unfold owners. simpl. lia.
    + intros t ps Ht. simpl in Ht. by rewrite lookup_nil in Ht.
  - eapply own_step; [exact Hstep| |done]. by apply reachable_deps.
Qed.


(** The promise held by a singleton resolver while it is in flight is an
    ordinary promise that is still pending. *)
Lemma in_flight_pending st key f v resolved p :
  reachable st ->
  registry st !! key = Some (SingletonResolver f v resolved (Some p)) ->
  resolved = false /\
  exists rs, promises st !! p = Some {| pstate := Pending rs; pkind := Plain |}.
Proof.
  intros Hst Hr.
  pose proof (proj2 (reachable_inv _ Hst) key) as Hs.
  destruct (reachable_own _ Hst) as (_ & Hstray & Hone).
  unfold single_inv in Hs. rewrite Hr in Hs.
  destruct Hs as (_ & Hw & Hres & _).
  split; [destruct resolved; [by specialize (Hres eq_refl)|done]|].
  specialize (Hw p eq_refl).
  destruct (count_pos (waiting_on key p) (outstanding st)) as (r & Hin & Hp); [lia|].
  unfold waiting_on in Hp. apply andb_prop in Hp as [_ Hd].
  apply bool_decide_eq_true_1 in Hd.
  pose proof (count_zero_inv _ _ _ Hstray Hin) as Hplain.
  unfold stray in Hplain. apply negb_false_iff in Hplain.
  unfold is_plain in Hplain. rewrite Hd in Hplain.
  destruct (promises st !! p) as [[ps []]|] eqn:Hp; try done.
  destruct (Hone p ps Hp) as [_ Hzero].
  destruct ps as [rs|s]; [by exists rs|].
  specialize (Hzero s eq_refl).
  assert (0 < count (derives p) (outstanding st)) as Hpos; [|unfold owners in Hzero; lia].
  destruct (Nat.eq_dec (count (derives p) (outstanding st)) 0) as [Hz|]; [|lia].
  pose proof (count_zero_inv _ _ _ Hz Hin) as Hno.
  unfold derives in Hno. by rewrite bool_decide_eq_true_2 in Hno.
Qed.

(** The microtask of a singleton's own reaction settles the promise the
    resolver holds with the outcome of the attempt, and queues the
    reactions of everything that waits for it. *)
Lemma tick_singleton_settles key d o q rs u st st' :
  reachable st ->
  queue st = JReaction (react (HSingleton key) d) o :: q ->
  promises st !! d = Some {| pstate := Pending rs; pkind := Plain |} ->
  tick st = Some (u, st') ->
  promises st' !! d = Some {| pstate := Settled o; pkind := Plain |} /\
  queue st' = q ++ map (fun w => JReaction w o) rs.
Proof.
  intros Hst Hq Hp Htick.
  destruct (reachable_deps _ Hst) as [(_ & Hqueue & _) _].
  rewrite Hq in Hqueue. apply Forall_cons in Hqueue as [[_ Hok] _].
  unfold tick in Htick. rewrite Hq in Htick. simpl in Htick.
  unfold runReaction in Htick. cbn [react handler derived] in Htick.
  assert (settle d o
            (emit (ESingletonDone key (match o with Fulfill _ => true | _ => false end))
               (set_registry
                  (alter (match o with
                          | Fulfill x => on_fulfilled x
                          | Reject _ => on_rejected
                          end) key (registry st)) (set_queue q st)))
          = Some (u, st')) as Hrun.
  { destruct o as [x|e]; [|exact Htick]. destruct x; try exact Htick. done. }
  unfold settle in Hrun. cbn [promises emit set_registry set_queue] in Hrun.
  rewrite Hp in Hrun. injection Hrun as _ <-.
  cbn [promises queue set_queue set_promises]. split; [|done].
  apply list_lookup_insert_eq. by eapply lookup_lt_Some.
Qed.

(** ** A failed dependency fails the attempt *)







(** The promise a queued reaction will settle is still pending. *)
Lemma queued_pending st r s q :
  reachable st -> queue st = JReaction r s :: q ->
  exists rs, promises st !! derived r = Some {| pstate := Pending rs; pkind := Plain |}.
Proof.
  intros Hst Hq. destruct (reachable_own _ Hst) as (_ & Hstray & Hone).
  assert (r ∈ outstanding st) as Hin.
  { unfold outstanding. rewrite Hq. simpl. apply elem_of_app. right.
    apply elem_of_cons. by left. }
  pose proof (count_zero_inv _ _ _ Hstray Hin) as Hplain.
  unfold stray in Hplain. apply negb_false_iff in Hplain. unfold is_plain in Hplain.
  destruct (promises st !! derived r) as [[ps []]|] eqn:Hp; try done.
  destruct (Hone _ ps Hp) as [_ Hzero].
  destruct ps as [rs|s0]; [by exists rs|].
  specialize (Hzero s0 eq_refl).
  assert (0 < count (derives (derived r)) (outstanding st)) as Hpos;
    [|unfold owners in Hzero; lia].
  destruct (Nat.eq_dec (count (derives (derived r)) (outstanding st)) 0) as [Hz|]; [|lia].
  pose proof (count_zero_inv _ _ _ Hz Hin) as Hno.
  unfold derives in Hno. by rewrite bool_decide_eq_true_2 in Hno.
Qed.


Lemma step_extends fuel a st st' : step fuel a st = Some st' -> extends st st'.
Proof.
  intros Hstep. destruct a as [token f|value| |p s];
    try by apply (rel_step extends_frame) in Hstep.
  simpl in Hstep. unfold register in Hstep.
  case_bool_decide.
  - simplify_eq. by apply (fr_emit extends_frame).
  - destruct (findCycle _ _ _ _); [|done]. case_bool_decide; simplify_eq.
    + by apply (fr_emit extends_frame).
    + by apply extends_heap.
Qed.






(** When the creation of a singleton succeeds with [x], the resolver keeps
    [x], and the promise it held, which every caller so far was given, is
    fulfilled with [x]. *)
Lemma singleton_fulfilled st key f v p x q u st' :
  reachable st ->
  registry st !! key = Some (SingletonResolver f v false (Some p)) ->
  queue st = JReaction (react (HSingleton key) p) (Fulfill x) :: q ->
  tick st = Some (u, st') ->
  registry st' !! key = Some (SingletonResolver f x true None) /\
  settlement st' (VPromise p) = Some (Fulfill x).
Proof.
  intros Hst Hr Hq Htick.
  destruct (in_flight_pending _ _ _ _ _ _ Hst Hr) as [_ [rs Hp]].
  destruct (tick_singleton_settles _ _ _ _ _ _ _ _ Hst Hq Hp Htick) as [Hp' _].
  split; [|simpl; by rewrite Hp'].
  unfold tick in Htick. rewrite Hq in Htick. simpl in Htick.
  unfold runReaction in Htick. cbn [react handler derived] in Htick.
  apply bind_inv in Htick as ([] & st2 & Hdone & Hrun).
  unfold singletonFulfilled in Hdone.
  apply bind_inv in Hdone as ([] & st3 & Hupd & Hemit).
  apply modify_inv in Hupd as ->. apply modify_inv in Hemit as ->.
  apply (rel_resolvePromise quiet_frame) in Hrun as [_ ->].
  cbn [registry emit set_registry set_queue]. by rewrite lookup_alter_eq, Hr.
Qed.



(** ** Registration: cycle search, rejected registrations *)

Lemma registeredA_reachable : reachable registeredA.
Proof.
  apply (reachable_step initial 1 (CallRegister tokenA factoryA));
    [apply reachable_initial|reflexivity].
Qed.

Example findCycle_A_B :
  findCycle (registry registeredA) tokenB 2 factoryB = Some [tokenA; tokenB].
Proof. reflexivity. Qed.

Example register_B_after_A :
  register 2 tokenB factoryB registeredA =
  Some (emit (EConsoleError "Cycle detected: 'B' -> 'A' -> 'B'.") registeredA).
Proof. reflexivity. Qed.

(** A registry no container can hold: [A] requires itself.  The search
    for another token never returns. *)
Example findCycle_needs_acyclic fuel :
  findCycle (<[tok_addr tokenA := TransientResolver
                 {| fid := 1; lifetime := Some Transient; requires := [tokenA];
                    create := fun _ _ => CReturn VNull |}]> ∅)
            tokenB fuel factoryB = None.
Proof.
  unfold findCycle. cut (forall trace,
    visit (<[tok_addr tokenA := TransientResolver
               {| fid := 1; lifetime := Some Transient; requires := [tokenA];
                  create := fun _ _ => CReturn VNull |}]> ∅)
          tokenB fuel [tokenA] trace = None).
  { intros H. change (requires factoryB) with [tokenA]. by rewrite H. }
  induction fuel as [|n IH]; intros trace; [done|]. simpl.
  change (token_eqb tokenA tokenB) with false. cbn match.
  rewrite lookup_insert_eq. simpl. by rewrite IH.
Qed.

(** C3: whenever [findCycle] returns, in any registry, what it returns is
    the result of the depth-first search in declaration order through
    registered tokens: the empty trace exactly when no path of [requires]
    edges leads to the candidate token, and otherwise the first such path
    in that order, which ends with the candidate token (and holds it
    nowhere else).  It returns in every acyclic registry, and the registry
    of a container is always acyclic. *)
Theorem findCycle_reports_first_cycle (reg : Registry) token f :
  (forall n trace, findCycle reg token n f = Some trace ->
     (forall m, n <= m -> findCycle reg token m f = Some trace) /\
     first_cycle reg token (requires f) trace /\
     (trace <> [] ->
        cycle_path reg token (requires f) trace /\
        exists q t, trace = q ++ [t] /\ token_eqb t token = true /\
                    Forall (fun u => token_eqb u token = false) q) /\
     ((exists p, cycle_path reg token (requires f) p) <-> trace <> [])) /\
  (acyclic reg ->
     exists n trace, forall m, n <= m -> findCycle reg token m f = Some trace) /\
  (forall st, reachable st -> registry st = reg -> acyclic reg).
Proof.
  split_and!.
  - intros n trace Hn. pose proof (findCycle_sound _ _ _ _ _ Hn) as Hfirst.
    assert (trace <> [] -> cycle_path reg token (requires f) trace) as Hpath.
    { intros Hne. apply first_cycle_inv in Hfirst as (path & Hw & _); [|done].
      by eapply walk_cycle_path. }
    split_and!.
    + intros m Hle. by eapply findCycle_mono.
    + done.
    + intros Hne. split; [auto|]. by eapply cycle_path_last, Hpath.
    + split; [|by eauto]. intros [p Hp] ->. apply cycle_path_walk in Hp as [path Hw].
      simpl in Hfirst. by rewrite Hfirst in Hw.
  - apply findCycle_terminates.
  - intros st Hst <-. by apply reachable_acyclic.
Qed.

(** C10: the registry of a container stays acyclic, because [register]
    rejects every factory that would close a cycle; hence the search of
    [findCycle], which keeps no visited set, returns for every candidate
    token and factory, and so does [register]. *)
Theorem findCycle_terminates_in_container st token f :
  reachable st ->
  acyclic (registry st) /\
  (exists n, forall m, n <= m ->
     is_Some (findCycle (registry st) token m f)) /\
  (exists n, forall m, n <= m -> is_Some (register m token f st)).
Proof.
  intros Hst. pose proof (reachable_acyclic _ Hst) as Hacyc.
  destruct (findCycle_terminates (registry st) token f Hacyc)
    as (n & trace & Hn).
  split; [done|]. split; exists n; intros m Hle.
  - rewrite (Hn m Hle). eauto.
  - unfold register. rewrite (Hn m Hle).
    case_bool_decide; [eauto|]. case_bool_decide; eauto.
Qed.

Lemma findCycle_terminates_in_container_witness :
  acyclic (registry registeredA) /\
  (exists n, forall m, n <= m ->
     is_Some (findCycle (registry registeredA) tokenB m factoryB)) /\
  (exists n, forall m, n <= m ->
     is_Some (register m tokenB factoryB registeredA)).
Proof.
  apply (findCycle_terminates_in_container registeredA tokenB factoryB).
  apply (reachable_step initial 1 (CallRegister tokenA factoryA));
    [apply reachable_initial|reflexivity].
Defined.

(** C4: when the factory would close a cycle of [requires] edges back to
    the token, [register] returns, changes nothing but the log, and a token
    that was not registered is still not registered afterwards; the
    diagnostic describes the token and the cycle found. *)
Theorem register_rejects_cycle st token f :
  reachable st ->
  (exists p, cycle_path (registry st) token (requires f) p) ->
  exists n, forall m, n <= m ->
    exists st', register m token f st = Some st' /\
      registry st' = registry st /\
      erase st' = erase st /\
      (isRegistered token st = false ->
         isRegistered token st' = false /\
         exists cycle,
           cycle_path (registry st) token (requires f) cycle /\
           log st' = log st ++ [EConsoleError (cycleErrorMessage token cycle)]).
Proof.
  intros Hst [p Hp].
  destruct (findCycle_terminates (registry st) token f (reachable_acyclic _ Hst))
    as (n & trace & Hn).
  pose proof (findCycle_sound _ _ _ _ _ (Hn n (le_n _))) as Hfirst.
  assert (trace <> []) as Hcycle.
  { intros ->. apply cycle_path_walk in Hp as [path Hw]. simpl in Hfirst.
    by rewrite Hfirst in Hw. }
  assert (cycle_path (registry st) token (requires f) trace) as Htrace.
  { apply first_cycle_inv in Hfirst as (path & Hw & _); [|done].
    by eapply walk_cycle_path. }
  exists n. intros m Hle. unfold register, isRegistered. rewrite (Hn m Hle).
  case_bool_decide as Hreg.
  - eexists. split; [done|]. by repeat split.
  - rewrite bool_decide_eq_true_2; [|destruct trace; [done|simpl; lia]].
    eexists. split; [done|]. repeat split; [|by eauto].
    simpl. by apply bool_decide_eq_false.
Qed.

Lemma register_rejects_cycle_witness :
  exists n, forall m, n <= m ->
    exists st', register m tokenB factoryB registeredA = Some st' /\
      registry st' = registry registeredA /\
      erase st' = erase registeredA /\
      (isRegistered tokenB registeredA = false ->
         isRegistered tokenB st' = false /\
         exists cycle,
           cycle_path (registry registeredA) tokenB (requires factoryB) cycle /\
           log st' = log registeredA ++
                     [EConsoleError (cycleErrorMessage tokenB cycle)]).
Proof.
  apply (register_rejects_cycle registeredA tokenB factoryB).
  - apply (reachable_step initial 1 (CallRegister tokenA factoryA));
      [apply reachable_initial|reflexivity].
  - exists [tokenA; tokenB].
    apply (cycle_step _ _ _ tokenA (createResolver factoryA));
      [apply list_elem_of_here|reflexivity|reflexivity|].
    apply cycle_here; [apply list_elem_of_here|reflexivity].
Defined.

(** C5: [register] for a token that already has a resolver returns without
    looking at the factory (no fuel is needed: the cycle search is not even
    started), logs that the token is already registered, and leaves the
    container as it was: every later call and microtask behaves as without
    the second registration. *)
Theorem register_twice_ignored st token f fuel :
  isRegistered token st = true ->
  exists st', register fuel token f st = Some st' /\
    registry st' = registry st /\
    log st' = log st ++
      [EConsoleError ("Token '" +:+ name token +:+ "' is already registered.")] /\
    erase st' = erase st /\
    (forall t, isRegistered t st' = isRegistered t st) /\
    (forall fuel' value,
       observe (Container_resolve fuel' value st') =
       observe (Container_resolve fuel' value st)) /\
    (forall fuel' acts,
       erase <$> run fuel' acts st' = erase <$> run fuel' acts st).
Proof.
  unfold isRegistered, register. intros ->. eexists. split; [done|].
  repeat split.
  - intros fuel' value.
    by apply blind_erase_eq; [apply blind_Container_resolve|].
  - intros fuel' acts. by apply run_erase.
Qed.

Lemma register_twice_ignored_witness :
  exists st', register 0 tokenA factoryB registeredA = Some st' /\
    registry st' = registry registeredA /\
    log st' = log registeredA ++
      [EConsoleError ("Token '" +:+ name tokenA +:+ "' is already registered.")] /\
    erase st' = erase registeredA /\
    (forall t, isRegistered t st' = isRegistered t registeredA) /\
    (forall fuel' value,
       observe (Container_resolve fuel' value st') =
       observe (Container_resolve fuel' value registeredA)) /\
    (forall fuel' acts,
       erase <$> run fuel' acts st' = erase <$> run fuel' acts registeredA).
Proof.
  apply (register_twice_ignored registeredA tokenA factoryB 0). reflexivity.
Defined.


(** ** Resolution: unregistered tokens, lifetimes *)

Example barInFlight_resolver :
  registry barInFlight !! tok_addr IBar =
  Some (SingletonResolver barFactory VNull false (Some 2)).
Proof. reflexivity. Qed.

Example barResolved_resolver :
  registry barResolved !! tok_addr IBar =
  Some (SingletonResolver barFactory (VObj 0) true None).
Proof. reflexivity. Qed.

(** The end-to-end test: resolving [IFoo] yields an instance built from the
    instance of [IBar]. *)
Example resolve_IFoo :
  (fun st => (promises st !! 5, count (created (owned (tok_addr IBar))) (log st)))
    <$> run 3 ([CallRegister IFoo Foo; CallRegister IBar barFactory;
                CallResolve (inl IFoo)] ++ replicate 6 Microtask) initial =
  Some (Some {| pstate := Settled (Fulfill (VArr [VStr "foo"; VObj 0]));
                pkind := Plain |}, 1).
Proof. reflexivity. Qed.

(** The end-to-end test: a factory resolved directly, whose dependency is
    not registered, fails with the error of that dependency. *)
Example resolve_bazFactory :
  (fun st => promises st !! 3)
    <$> run 3 ([CallResolve (inr bazFactory)] ++ replicate 3 Microtask) initial =
  Some (Some {| pstate := Settled (Reject (VError "Unregistered token: 'my-package.IBaz'."));
                pkind := Plain |}).
Proof. reflexivity. Qed.



(** C1: for a registered singleton resolver, [create] has been called at
    most once more than creations have failed, hence at most once while
    none has failed; while a creation is in flight every call of [resolve]
    returns the promise the resolver holds and changes nothing (no second
    creation is started, exactly one callback is outstanding), that
    promise is pending, and when the creation succeeds the promise is
    fulfilled with the value the resolver keeps; once
    resolved, exactly one creation has succeeded and every call returns the
    cached value and changes nothing. *)
Theorem singleton_created_once st key f v resolved promise :
  reachable st ->
  registry st !! key = Some (SingletonResolver f v resolved promise) ->
  count (created (owned key)) (log st) <=
    1 + count (done_of key false) (log st) /\
  (count (done_of key false) (log st) = 0 ->
   count (created (owned key)) (log st) <= 1) /\
  (forall token fuel p,
     tok_addr token = key -> resolved = false -> promise = Some p ->
     resolveToken (S fuel) token st = Some (VPromise p, st) /\
     Container_resolve (S fuel) (inl token) st = Some (p, st) /\
     count (singleton_of key) (outstanding st) = 1 /\
     (exists rs, promises st !! p =
                   Some {| pstate := Pending rs; pkind := Plain |}) /\
     (forall x q u st',
        queue st = JReaction {| handler := HSingleton key; derived := p |}
                     (Fulfill x) :: q ->
        tick st = Some (u, st') ->
        registry st' !! key = Some (SingletonResolver f x true None) /\
        settlement st' (VPromise p) = Some (Fulfill x))) /\
  (forall token fuel,
     tok_addr token = key -> resolved = true ->
     resolveToken (S fuel) token st = Some (v, st) /\
     Container_resolve (S fuel) (inl token) st = Promise_resolve v st /\
     promise = None /\
     count (done_of key true) (log st) = 1).
Proof.
  intros Hst Hr.
  pose proof (reachable_accounted (owned key) st Hst) as Hacc.
  destruct (reachable_inv st Hst) as [_ Hinv]. specialize (Hinv key).
  unfold single_inv in Hinv. rewrite Hr in Hinv.
  destruct Hinv as (Hc & _ & Hres & Hok & Hatt).
  unfold accounted, settled_attempts in Hacc.
  assert (count (created (owned key)) (log st) <=
          1 + count (done_of key false) (log st)) as Hle.
  { destruct resolved, promise as [p|]; simpl in *; try lia.
    by specialize (Hres eq_refl). }
  split; [done|]. split; [lia|]. split.
  - intros token fuel p <- -> ->. simpl. rewrite Hr. simpl.
    split; [done|]. split; [unfold Container_resolve, bind; simpl; by rewrite Hr|].
    split; [done|]. split; [by apply (in_flight_pending _ _ _ _ _ _ Hst Hr)|].
    intros x q u st' Hq Htick. by eapply singleton_fulfilled.
  - intros token fuel <- ->. simpl. rewrite Hr. simpl.
    repeat split; [|by apply Hres|done].
    unfold Container_resolve, bind. simpl. by rewrite Hr.
Qed.

Lemma singleton_created_once_witness :
  let st := barInFlight in
  let key := tok_addr IBar in
  count (created (owned key)) (log st) <=
    1 + count (done_of key false) (log st) /\
  (count (done_of key false) (log st) = 0 ->
   count (created (owned key)) (log st) <= 1) /\
  (forall token fuel p,
     tok_addr token = key -> false = false -> Some 2 = Some p ->
     resolveToken (S fuel) token st = Some (VPromise p, st) /\
     Container_resolve (S fuel) (inl token) st = Some (p, st) /\
     count (singleton_of key) (outstanding st) = 1 /\
     (exists rs, promises st !! p =
                   Some {| pstate := Pending rs; pkind := Plain |}) /\
     (forall x q u st',
        queue st = JReaction {| handler := HSingleton key; derived := p |}
                     (Fulfill x) :: q ->
        tick st = Some (u, st') ->
        registry st' !! key = Some (SingletonResolver barFactory x true None) /\
        settlement st' (VPromise p) = Some (Fulfill x))) /\
  (forall token fuel,
     tok_addr token = key -> false = true ->
     resolveToken (S fuel) token st = Some (VNull, st) /\
     Container_resolve (S fuel) (inl token) st = Promise_resolve VNull st /\
     Some 2 = None /\
     count (done_of key true) (log st) = 1).
Proof.
  apply (singleton_created_once barInFlight (tok_addr IBar) barFactory VNull
           false (Some 2)).
  - apply run_reachable_default.
  - reflexivity.
Defined.








Example fooTwice_creates :
  count (created (owned (tok_addr IFoo))) (log fooTwice) = 2 /\
  count (created (owned (tok_addr IBar))) (log fooTwice) = 1 /\
  queue fooTwice = [].
Proof. by vm_compute. Qed.



(** ** A factory resolved directly *)


Example adhocTwice_creates :
  filter (fun e => bool_decide (created (adhoc (fid adhocFactory)) e = true))
         (log adhocTwice) =
  [ECreate None 21 9 2 [VObj 0; VArr [VStr "foo"; VObj 0]];
   ECreate None 21 18 4 [VObj 0; VArr [VStr "foo"; VObj 0]]] /\
  count (created (owned (tok_addr IBar))) (log adhocTwice) = 1 /\
  registry adhocTwice !! 21%positive = None /\
  queue adhocTwice = [].
Proof. by vm_compute. Qed.

(** The first of the two attempts: its dependencies are promises, and
    [create] has received what they were fulfilled with. *)
Example adhocTwice_first_attempt :
  log adhocTwice !! 2 = Some (EAttempt None 21 9 [VPromise 2; VPromise 5]) /\
  settlement adhocTwice (VPromise 2) = Some (Fulfill (VObj 0)) /\
  settlement adhocTwice (VPromise 5) = Some (Fulfill (VArr [VStr "foo"; VObj 0])) /\
  log adhocTwice !! 6 =
    Some (ECreate None 21 9 2 [VObj 0; VArr [VStr "foo"; VObj 0]]).
Proof. by vm_compute. Qed.




(** ** The functions of the module and the default container *)

Lemma shared_the_default p : shared_container (the_default p) = shared_container p.
Proof.
  unfold shared_container, the_default, in_process.
  destruct (defaultContainer p) eqn:H; [by rewrite H|done].
Qed.

Lemma the_default_made p : is_Some (defaultContainer (the_default p)).
Proof.
  unfold the_default. destruct (defaultContainer p) eqn:H; [rewrite H|simpl]; eauto.
Qed.

Lemma shared_moved_to st p :
  is_Some (defaultContainer p) -> shared_container (moved_to st p) = st.
Proof. intros [reg H]. unfold shared_container, moved_to, in_process. rewrite H. by destruct st. Qed.

(** Without a container no step of the runtime makes a registry. *)
Lemma empty_registry_stays st st' :
  same_factories st st' -> registry st = ∅ -> registry st' = ∅.
Proof.
  intros Hsame Hreg. apply map_empty. intros k. specialize (Hsame k).
  rewrite Hreg, lookup_empty in Hsame. by destruct (registry st' !! k).
Qed.

Lemma shared_moved_runtime {A} (m : M A) a st p :
  rel same_factories m ->
  m (shared_container p) = Some (a, st) ->
  shared_container (moved_to st p) = st.
Proof.
  intros Hm Hrun. destruct (defaultContainer p) as [reg|] eqn:Hd.
  - apply shared_moved_to. by rewrite Hd.
  - apply Hm in Hrun. apply empty_registry_stays in Hrun.
    + unfold shared_container, moved_to, in_process. rewrite Hd. simpl.
      destruct st; simpl in *. by rewrite Hrun.
    + unfold shared_container. by rewrite Hd.
Qed.

Lemma forward_shared {A} (method : M A) p :
  prod_map id shared_container <$> forward method p = method (shared_container p).
Proof.
  unfold forward. fold (shared_container (the_default p)). rewrite shared_the_default.
  destruct (method (shared_container p)) as [[a st]|]; [|done]. simpl.
  by rewrite shared_moved_to by apply the_default_made.
Qed.

Lemma in_runtime_shared {A} (m : M A) p :
  rel same_factories m ->
  prod_map id shared_container <$> in_runtime m p = m (shared_container p).
Proof.
  intros Hm. unfold in_runtime. fold (shared_container p).
  destruct (m (shared_container p)) as [[a st]|] eqn:Hrun; [|done]. simpl.
  by rewrite (shared_moved_runtime m a st p Hm Hrun).
Qed.

Lemma tick_same_factories : rel same_factories tick.
Proof.
  intros st u st' Hrun. eapply (rel_tick same_factories_frame); [|exact Hrun].
  intros [] ? _; simpl; auto.
Qed.

Lemma settleExternal_same_factories q s : rel same_factories (settleExternal q s).
Proof. apply (rel_settleExternal same_factories_frame). Qed.

Lemma forward_reply {A} (g : A -> Reply) (method : M A) p :
  prod_map id shared_container <$> (prod_map g id <$> forward method p) =
  prod_map g id <$> method (shared_container p).
Proof.
  rewrite <- forward_shared. by destruct (forward method p) as [[? ?]|].
Qed.

Lemma in_runtime_reply {A} (g : A -> Reply) (m : M A) p :
  rel same_factories m ->
  prod_map id shared_container <$> (prod_map g id <$> in_runtime m p) =
  prod_map g id <$> m (shared_container p).
Proof.
  intros Hm. rewrite <- (in_runtime_shared m p Hm).
  by destruct (in_runtime m p) as [[? ?]|].
Qed.

Lemma module_call_shared fuel r p :
  prod_map id shared_container <$> module_call fuel r p =
  container_call fuel r (shared_container p).
Proof.
  destruct r as [token|token f|value| |q s]; cbn [module_call container_call].
  - unfold module_isRegistered. by rewrite forward_reply.
  - unfold module_register. rewrite forward_reply.
    by destruct (register fuel token f _).
  - unfold module_resolve, bind. rewrite forward_reply.
    by destruct (Container_resolve fuel value _) as [[? ?]|].
  - unfold bind. rewrite (in_runtime_reply _ _ _ tick_same_factories).
    by destruct (tick _) as [[[] ?]|].
  - unfold bind. rewrite (in_runtime_reply _ _ _ (settleExternal_same_factories q s)).
    by destruct (settleExternal q s _) as [[[] ?]|].
Qed.

Lemma module_run_shared fuel rs : forall p,
  prod_map id shared_container <$> module_run fuel rs p =
  container_run fuel rs (shared_container p).
Proof.
  induction rs as [|r rs IH]; intros p; [done|]. simpl. unfold bind.
  rewrite <- module_call_shared.
  destruct (module_call fuel r p) as [[x p']|]; [|done]. simpl.
  rewrite <- IH. by destruct (module_run fuel rs p') as [[xs p'']|].
Qed.

Lemma forward_made {A} (method : M A) p a p' :
  forward method p = Some (a, p') ->
  is_Some (defaultContainer p') /\
  constructed p' =
    constructed p + match defaultContainer p with Some _ => 0 | None => 1 end.
Proof.
  unfold forward. pose proof (the_default_made p) as [reg Hd].
  destruct (method _) as [[b st]|]; [|done]. intros [= <- <-].
  split; [simpl; rewrite Hd; eauto|]. simpl. unfold the_default.
  destruct (defaultContainer p); simpl; lia.
Qed.

Lemma in_runtime_made {A} (m : M A) p a p' :
  in_runtime m p = Some (a, p') ->
  (is_Some (defaultContainer p') <-> is_Some (defaultContainer p)) /\
  constructed p' = constructed p.
Proof.
  unfold in_runtime. destruct (m _) as [[b st]|]; [|done]. intros [= <- <-].
  split; [|done]. simpl. destruct (defaultContainer p); simpl; [by eauto|].
  split; by intros [? ?].
Qed.

Lemma module_call_made fuel r p x p' :
  module_call fuel r p = Some (x, p') ->
  (is_Some (defaultContainer p') <->
   is_Some (defaultContainer p) \/ uses_module r = true) /\
  constructed p' = constructed p + made_by [r] p.
Proof.
  assert (forall A (g : A -> Reply) (o : option (A * Process)),
            prod_map g id <$> o = Some (x, p') -> exists a, o = Some (a, p')) as Hg.
  { intros A g [[a q]|] [=]; simplify_eq/=. by eexists. }
  destruct r as [token|token f|value| |q s]; cbn [module_call uses_module];
    intros H; apply Hg in H as [a H].
  1-3: unfold module_isRegistered, module_register, module_resolve in H;
       apply forward_made in H as [Hd Hc]; (split; [by intuition|]);
       rewrite Hc; unfold made_by; by destruct (defaultContainer p).
  all: apply in_runtime_made in H as [Hd Hc]; (split; [rewrite Hd; intuition congruence|]);
       rewrite Hc; unfold made_by; simpl; destruct (defaultContainer p); lia.
Qed.

Lemma module_run_made fuel rs : forall p xs p',
  module_run fuel rs p = Some (xs, p') ->
  (is_Some (defaultContainer p') <->
   is_Some (defaultContainer p) \/ existsb uses_module rs = true) /\
  constructed p' = constructed p + made_by rs p.
Proof.
  induction rs as [|r rs IH]; intros p xs p'; simpl.
  - intros [= <- <-]. unfold made_by. simpl.
    split; [intuition congruence|destruct (defaultContainer p); lia].
  - destruct (module_call fuel r p) as [[x p1]|] eqn:Hcall; [|done].
    destruct (module_run fuel rs p1) as [[ys p2]|] eqn:Hrun; [|done].
    intros [= <- <-]. apply module_call_made in Hcall as [Hd1 Hc1].
    apply IH in Hrun as [Hd2 Hc2]. split.
    + rewrite Hd2, Hd1, orb_true_iff. tauto.
    + rewrite Hc2, Hc1. unfold made_by in *. simpl.
      destruct (defaultContainer p) as [reg|] eqn:Hp.
      * destruct (defaultContainer p1) eqn:Hp1; [lia|].
        destruct Hd1 as [_ Hd1]. destruct Hd1 as [? ?]; [eauto|done].
      * destruct (uses_module r) eqn:Hr; simpl.
        -- destruct (defaultContainer p1) eqn:Hp1; [lia|].
           destruct Hd1 as [_ Hd1]. destruct Hd1 as [? ?]; [eauto|done].
        -- destruct (defaultContainer p1) eqn:Hp1; [|lia].
           destruct Hd1 as [Hd1 _]. destruct Hd1 as [[? ?]|?]; [eauto|done..].
Qed.

(** The second test suite: the module-scope functions, used as the first
    suite uses the methods of a container. *)
Example module_resolve_IFoo :
  (fun '(xs, p) => (xs, heap p !! 5, constructed p))
    <$> module_run 3 ([AskRegistered IFoo; DoRegister IFoo Foo; DoRegister IBar barFactory;
                       AskRegistered IFoo; DoResolve (inl IFoo)] ++
                      replicate 6 RunMicrotask) process_start =
  Some ([RBool false; RVoid; RVoid; RBool true; RPromise 5] ++ replicate 6 RVoid,
        Some {| pstate := Settled (Fulfill (VArr [VStr "foo"; VObj 0]));
                pkind := Plain |}, 1).
Proof. reflexivity. Qed.

(** C9: the module-scope [isRegistered], [register] and [resolve] do what
    the methods of one container do.  Seen through the default instance,
    each of the three functions returns what the method returns and leaves
    the state the method leaves; so does any sequence of calls, interleaved
    with the steps of the runtime, and from the start of the process the
    sequence behaves as on [new Container()].  The default instance is
    constructed by the first call of one of the three functions and by no
    other; it is never dropped. *)
Theorem module_forwards_to_default fuel rs p :
  (forall token,
     prod_map id shared_container <$> module_isRegistered token p =
     Some (isRegistered token (shared_container p), shared_container p)) /\
  (forall token f,
     prod_map id shared_container <$> module_register fuel token f p =
     (fun st' => (tt, st')) <$> register fuel token f (shared_container p)) /\
  (forall value,
     prod_map id shared_container <$> module_resolve fuel value p =
     Container_resolve fuel value (shared_container p)) /\
  prod_map id shared_container <$> module_run fuel rs p =
    container_run fuel rs (shared_container p) /\
  shared_container process_start = initial /\
  (forall xs p', module_run fuel rs p = Some (xs, p') ->
     (is_Some (defaultContainer p') <->
      is_Some (defaultContainer p) \/ existsb uses_module rs = true) /\
     constructed p' = constructed p + made_by rs p).
Proof.
  split; [|split; [|split; [|split; [|split]]]].
  - intros token. apply forward_shared.
  - intros token f. apply forward_shared.
  - intros value. apply forward_shared.
  - apply module_run_shared.
  - reflexivity.
  - apply module_run_made.
Qed.


(** ** Further properties of [index.ts] *)

(** *** Registration *)

Lemma no_cycle_no_trace (reg : Registry) token f n trace :
  (forall p, ~ cycle_path reg token (requires f) p) ->
  findCycle reg token n f = Some trace -> trace = [].
Proof.
  intros Hnone Hfc. apply findCycle_sound in Hfc.
  destruct trace as [|t trace]; [done|].
  apply first_cycle_inv in Hfc as (path & Hw & _); [|done].
  apply walk_cycle_path in Hw. by destruct (Hnone _ Hw).
Qed.

(** X1: [register] for a token that is not registered, with a factory that
    closes no cycle, returns and binds the token to a new resolver for the
    factory: a transient resolver for [Lifetime.Transient], otherwise (the
    lifetime left out, or [Singleton]) a singleton resolver that has not
    resolved anything.  [isRegistered] is true for the token afterwards and
    as before for every other token; nothing is logged, no promise is made
    and no microtask queued. *)
Theorem register_binds_token st token f :
  reachable st ->
  isRegistered token st = false ->
  (forall p, ~ cycle_path (registry st) token (requires f) p) ->
  exists n, forall m, n <= m ->
    exists st',
      register m token f st = Some st' /\
      isRegistered token st' = true /\
      registry st' !! tok_addr token = Some (createResolver f) /\
      factory (createResolver f) = f /\
      singleton_state (createResolver f) =
        match lifetime f with Some Transient => None | _ => Some Unresolved end /\
      (forall t, tok_addr t <> tok_addr token ->
         registry st' !! tok_addr t = registry st !! tok_addr t /\
         isRegistered t st' = isRegistered t st) /\
      log st' = log st /\ promises st' = promises st /\ queue st' = queue st.
Proof.
  intros Hst Hreg Hnone. apply bool_decide_eq_false in Hreg.
  destruct (findCycle_terminates (registry st) token f (reachable_acyclic _ Hst))
    as (n & trace & Hn).
  assert (trace = []) as -> by (eapply no_cycle_no_trace; [done|by apply (Hn n)]).
  exists n. intros m Hle. eexists. split.
  { unfold register. rewrite bool_decide_eq_false_2 by done. rewrite (Hn m Hle).
    simpl. done. }
  unfold isRegistered. cbn [registry set_registry log promises queue].
  split_and!; try done.
  - apply bool_decide_eq_true. rewrite lookup_insert_eq. by eexists.
  - by rewrite lookup_insert_eq.
  - unfold createResolver. by destruct (lifetime f) as [[]|].
  - unfold createResolver. by destruct (lifetime f) as [[]|].
  - intros t Hne. rewrite lookup_insert_ne by done. done.
Qed.

Lemma register_binds_token_witness :
  exists n, forall m, n <= m ->
    exists st',
      register m tokenA factoryA initial = Some st' /\
      isRegistered tokenA st' = true /\
      registry st' !! tok_addr tokenA = Some (createResolver factoryA) /\
      factory (createResolver factoryA) = factoryA /\
      singleton_state (createResolver factoryA) =
        match lifetime factoryA with Some Transient => None | _ => Some Unresolved end /\
      (forall t, tok_addr t <> tok_addr tokenA ->
         registry st' !! tok_addr t = registry initial !! tok_addr t /\
         isRegistered t st' = isRegistered t initial) /\
      log st' = log initial /\ promises st' = promises initial /\
      queue st' = queue initial.
Proof.
  apply (register_binds_token initial tokenA factoryA).
  - apply reachable_initial.
  - reflexivity.
  - intros p Hp. inversion Hp as [reqs other Hin Heq|reqs other resolver q Hin Heq Hr];
      subst.
    + apply list_elem_of_singleton in Hin as ->. done.
    + done.
Defined.

Lemma step_keeps_binding fuel a st st' key r :
  step fuel a st = Some st' -> registry st !! key = Some r ->
  exists r', registry st' !! key = Some r' /\ binding r' = binding r.
Proof.
  intros Hstep Hr.
  destruct (decide (is_register a = true)) as [Ha|Ha].
  - destruct a as [token f| | |]; try done. simpl in Hstep. exists r.
    split; [|done]. rewrite <- Hr. eapply register_registry; [exact Hstep|].
    by rewrite Hr.
  - assert (same_factories st st') as Hsame.
    { eapply step_same_factories; [|exact Hstep]. intros token f ->. by apply Ha. }
    specialize (Hsame key). rewrite Hr in Hsame. simpl in Hsame.
    destruct (registry st' !! key) as [r'|]; [|done]. exists r'.
    split; [done|]. by simplify_eq/=.
Qed.

(** X2: a binding is permanent.  The container has no way of removing or
    replacing one: whatever is called afterwards, a token once registered
    stays registered, with the factory it was registered with and the same
    class of resolver. *)
Theorem binding_is_permanent fuel acts : forall st token r st',
  registry st !! tok_addr token = Some r ->
  run fuel acts st = Some st' ->
  isRegistered token st' = true /\
  exists r', registry st' !! tok_addr token = Some r' /\
             factory r' = factory r /\ binding r' = binding r.
Proof.
  induction acts as [|a acts IH]; intros st token r st' Hr; simpl.
  - intros [= <-]. split; [apply bool_decide_eq_true; by rewrite Hr|].
    by exists r.
  - destruct (step fuel a st) as [st1|] eqn:Hstep; [|done]. intros Hrun.
    destruct (step_keeps_binding _ _ _ _ _ _ Hstep Hr) as (r1 & Hr1 & Hb1).
    destruct (IH st1 token r1 st' Hr1 Hrun) as (Hreg & r' & Hr' & Hf & Hb).
    split; [done|]. exists r'. split; [done|].
    rewrite <- !binding_factory in *. split; congruence.
Qed.

Lemma binding_is_permanent_witness :
  isRegistered IBar barResolved = true /\
  exists r', registry barResolved !! tok_addr IBar = Some r' /\
             factory r' = factory (SingletonResolver barFactory VNull false (Some 2)) /\
             binding r' = binding (SingletonResolver barFactory VNull false (Some 2)).
Proof.
  apply (binding_is_permanent 3 [Microtask; Microtask] barInFlight IBar
           (SingletonResolver barFactory VNull false (Some 2)) barResolved).
  - reflexivity.
  - by vm_compute.
Defined.

Lemma other_step_same_keys fuel a st st' (t : Token) :
  is_register a = false -> step fuel a st = Some st' ->
  isRegistered t st' = isRegistered t st.
Proof.
  intros Ha Hstep.
  assert (same_factories st st') as Hsame.
  { eapply step_same_factories; [|exact Hstep]. by intros token f ->. }
  specialize (Hsame (tok_addr t)).
  apply bool_decide_ext. rewrite <- !fmap_is_Some with (f := binding).
  by rewrite Hsame.
Qed.

(** X3: only [register] changes what [isRegistered] answers, and only for
    the token it is called with (a token of the same name is another key):
    after any other call or microtask, and for any other token, the answer
    is as before; where it changes, it changes from false to true and the
    token is bound to a new resolver for the factory given. *)
Theorem only_register_registers fuel a st st' :
  step fuel a st = Some st' ->
  forall t,
    isRegistered t st' = isRegistered t st \/
    (exists token f,
       a = CallRegister token f /\ tok_addr token = tok_addr t /\
       isRegistered t st = false /\ isRegistered t st' = true /\
       registry st' !! tok_addr t = Some (createResolver f)).
Proof.
  intros Hstep t.
  destruct a as [token f|value| |p s];
    [|left; by eapply other_step_same_keys; [|exact Hstep]..].
  unfold isRegistered.
  simpl in Hstep. unfold register in Hstep. case_bool_decide as Hreg.
  { left. by simplify_eq. }
  destruct (findCycle _ _ _ _) as [cycle|]; [|done].
  case_bool_decide; simplify_eq; [by left|].
  cbn [registry set_registry].
  destruct (decide (tok_addr token = tok_addr t)) as [Heq|Hne].
  - right. exists token, f. rewrite <- Heq, lookup_insert_eq.
    split_and!; try done; try (by apply bool_decide_eq_false);
      try (apply bool_decide_eq_true; by eexists).
  - left. by rewrite lookup_insert_ne by done.
Qed.

Lemma only_register_registers_witness :
  isRegistered tokenA registeredA = isRegistered tokenA initial \/
  (exists token f,
     CallRegister tokenA factoryA = CallRegister token f /\
     tok_addr token = tok_addr tokenA /\
     isRegistered tokenA initial = false /\ isRegistered tokenA registeredA = true /\
     registry registeredA !! tok_addr tokenA = Some (createResolver f)).
Proof.
  apply (only_register_registers 1 (CallRegister tokenA factoryA) initial registeredA).
  reflexivity.
Defined.

Lemma removelast_snoc {A} (l : list A) x : removelast (l ++ [x]) = l.
Proof. by rewrite removelast_app, app_nil_r. Qed.

Lemma visit_loop_dead_ends (reg : Registry) token V reqs : forall trace,
  Forall (fun t => reg !! tok_addr t = None /\ token_eqb t token = false) reqs ->
  visit_loop reg token V reqs trace = Some (false, trace).
Proof.
  induction reqs as [|other rest IH]; intros trace Hall; simpl; [done|].
  apply Forall_cons in Hall as [[Hnone Hne] Hrest].
  rewrite Hne, Hnone, removelast_snoc. by apply IH.
Qed.

(** X4: a factory may be registered before the factories of its
    dependencies.  When none of the tokens it requires is registered (and
    none is the token itself; in particular when it requires nothing), the
    cycle search returns at once with an empty trace, in any container, and
    [register] binds the token without logging anything. *)
Theorem register_before_dependencies st token f m :
  isRegistered token st = false ->
  Forall (fun t => isRegistered t st = false /\ token_eqb t token = false)
         (requires f) ->
  findCycle (registry st) token (S m) f = Some [] /\
  register (S m) token f st =
    Some (set_registry (<[tok_addr token := createResolver f]> (registry st)) st).
Proof.
  intros Hreg Hall. apply bool_decide_eq_false in Hreg.
  assert (findCycle (registry st) token (S m) f = Some []) as Hfc.
  { unfold findCycle. simpl. rewrite visit_loop_dead_ends; [done|].
    eapply Forall_impl; [exact Hall|]. intros t [Ht Hne]. split; [|done].
    apply bool_decide_eq_false in Ht. by apply eq_None_not_Some. }
  split; [done|]. unfold register.
  by rewrite bool_decide_eq_false_2, Hfc by done.
Qed.

Lemma register_before_dependencies_witness :
  findCycle (registry initial) IFoo 1 Foo = Some [] /\
  register 1 IFoo Foo initial =
    Some (set_registry (<[tok_addr IFoo := createResolver Foo]> (registry initial))
            initial).
Proof.
  apply (register_before_dependencies initial IFoo Foo 0).
  - reflexivity.
  - repeat constructor.
Defined.

Lemma append_assoc (a b c : string) : (a +:+ b) +:+ c = a +:+ (b +:+ c).
Proof.
  induction a as [|x a IH]; [done|].
  change (String x ((a +:+ b) +:+ c) = String x (a +:+ (b +:+ c))). by f_equal.
Qed.

Lemma cycleErrorMessage_self token t :
  cycleErrorMessage token [t] =
  "Cycle detected: '" +:+ name token +:+ "' -> '" +:+ name t +:+ "'.".
Proof.
  unfold cycleErrorMessage. cbn [map join]. do 2 f_equal.
  rewrite !append_assoc. reflexivity.
Qed.

(** X5: a factory that requires the token it is registered for is always
    rejected: [register] returns, leaves the registry as it is and logs one
    error.  When the token is the first entry of [requires], the search
    stops there, in any container, and the message shows the token twice. *)
Theorem register_rejects_self_dependency st token f t :
  reachable st -> t ∈ requires f -> token_eqb t token = true ->
  (exists n, forall m, n <= m ->
     exists st' msg,
       register m token f st = Some st' /\ registry st' = registry st /\
       log st' = log st ++ [EConsoleError msg]) /\
  (isRegistered token st = false -> requires f !! 0 = Some t ->
   forall m,
     register (S m) token f st =
     Some (emit (EConsoleError
                   ("Cycle detected: '" +:+ name token +:+ "' -> '" +:+
                    name t +:+ "'.")) st)).
Proof.
  intros Hst Hin Heq. split.
  - destruct (findCycle_terminates (registry st) token f (reachable_acyclic _ Hst))
      as (n & trace & Hn).
    pose proof (findCycle_sound _ _ _ _ _ (Hn n (le_n _))) as Hfirst.
    assert (trace <> []) as Hcycle.
    { intros ->.
      assert (cycle_path (registry st) token (requires f) [t]) as Hp
        by by constructor.
      apply cycle_path_walk in Hp as [path Hw]. simpl in Hfirst.
      by rewrite Hfirst in Hw. }
    exists n. intros m Hle. unfold register. rewrite (Hn m Hle).
    case_bool_decide as Hreg; [by eexists _, _|].
    rewrite bool_decide_eq_true_2; [by eexists _, _|].
    destruct trace; [done|simpl; lia].
  - intros Hreg Hhead m. apply bool_decide_eq_false in Hreg.
    unfold register. rewrite bool_decide_eq_false_2 by done.
    destruct (requires f) as [|t' rest] eqn:Hreqs; [done|].
    injection Hhead as ->.
    rewrite <- cycleErrorMessage_self.
    unfold findCycle. rewrite Hreqs. simpl. by rewrite Heq.
Qed.

Lemma register_rejects_self_dependency_witness :
  (exists n, forall m, n <= m ->
     exists st' msg,
       register m IBaz bazFactory initial = Some st' /\
       registry st' = registry initial /\
       log st' = log initial ++ [EConsoleError msg]) /\
  (isRegistered IBaz initial = false -> requires bazFactory !! 0 = Some IBaz ->
   forall m,
     register (S m) IBaz bazFactory initial =
     Some (emit (EConsoleError
                   ("Cycle detected: '" +:+ name IBaz +:+ "' -> '" +:+
                    name IBaz +:+ "'.")) initial)).
Proof.
  apply (register_rejects_self_dependency initial IBaz bazFactory IBaz).
  - apply reachable_initial.
  - by apply list_elem_of_singleton.
  - reflexivity.
Defined.

(** *** What is written to the console *)

Lemma silent_frame :
  Frame silent (fun _ => True) (fun e => console_error e = false) (fun _ => True).
Proof.
  split; try done.
  - intros a b c Hab Hbc. unfold silent in *. congruence.
  - intros st e He. unfold silent. rewrite log_emit, count_app. simpl.
    rewrite He. lia.
Qed.

Lemma resolveToken_silent fuel : forall token, rel silent (resolveToken fuel token).
Proof.
  induction fuel as [|n IH]; intros token st v st'; simpl; [done|].
  destruct (registry st !! tok_addr token) as [resolver|].
  - apply (rel_resolver_resolve_with silent_frame); [|done].
    apply (rel_resolveFactory_with silent_frame); [auto|done..].
  - apply (rel_bind silent_frame);
      [apply (rel_Promise_reject silent_frame)
      |intros p; apply (rel_ret silent_frame)].
Qed.

Lemma step_silent fuel a st st' :
  is_register a = false -> step fuel a st = Some st' -> silent st st'.
Proof.
  intros Ha Hstep. destruct a as [token f|value| |p s]; [done|..]; simpl in Hstep.
  - destruct (Container_resolve fuel value st) as [[x st1]|] eqn:H; [|done].
    simplify_eq/=. revert H. apply (rel_bind silent_frame);
      [|intros y; apply (rel_Promise_resolve silent_frame)].
    destruct value as [token|f]; [apply resolveToken_silent|].
    apply (rel_bind silent_frame); [|intros d; apply (rel_ret silent_frame)].
    apply (rel_resolveFactory_with silent_frame); [|done..].
    intros t _. apply resolveToken_silent.
  - destruct (tick st) as [[x st1]|] eqn:H; [|done]. simplify_eq/=.
    eapply (rel_tick silent_frame); [|exact H]. by intros [r s|t q] ? _.
  - destruct (settleExternal p s st) as [[x st1]|] eqn:H; [|done]. simplify_eq/=.
    by apply (rel_settleExternal silent_frame) in H.
Qed.

Lemma step_same_size fuel a st st' :
  is_register a = false -> step fuel a st = Some st' ->
  size (registry st') = size (registry st).
Proof.
  intros Ha Hstep. rewrite <- !size_dom. f_equal. apply set_eq. intros k.
  rewrite !elem_of_dom.
  assert (same_factories st st') as Hsame.
  { eapply step_same_factories; [|exact Hstep]. by intros token f ->. }
  rewrite <- !fmap_is_Some with (f := binding). by rewrite (Hsame k).
Qed.

Lemma step_accounted fuel a st st' :
  step fuel a st = Some st' ->
  size (registry st') + count console_error (log st') =
  size (registry st) + count console_error (log st) +
  (if is_register a then 1 else 0).
Proof.
  intros Hstep. destruct (is_register a) eqn:Ha.
  - destruct a as [token f| | |]; try done. simpl in Hstep.
    unfold register in Hstep. case_bool_decide as Hreg.
    { simplify_eq. rewrite log_emit, count_app. simpl. lia. }
    destruct (findCycle _ _ _ _) as [cycle|]; [|done].
    case_bool_decide; simplify_eq.
    + rewrite log_emit, count_app. simpl. lia.
    + cbn [registry log set_registry].
      rewrite map_size_insert_None; [lia|]. by apply eq_None_not_Some.
  - rewrite (step_same_size _ _ _ _ Ha Hstep).
    pose proof (step_silent _ _ _ _ Ha Hstep) as Hs. unfold silent in Hs. lia.
Qed.

Lemma step_size_le fuel a st st' :
  step fuel a st = Some st' -> size (registry st) <= size (registry st').
Proof.
  intros Hstep. destruct (is_register a) eqn:Ha.
  - destruct a as [token f| | |]; try done. simpl in Hstep.
    unfold register in Hstep. case_bool_decide as Hreg.
    { by simplify_eq. }
    destruct (findCycle _ _ _ _) as [cycle|]; [|done].
    case_bool_decide; simplify_eq.
    + done.
    + cbn [registry set_registry].
      rewrite map_size_insert_None; [lia|]. by apply eq_None_not_Some.
  - by rewrite (step_same_size _ _ _ _ Ha Hstep).
Qed.

Lemma step_errors_le fuel a st st' :
  step fuel a st = Some st' ->
  count console_error (log st) <= count console_error (log st').
Proof.
  intros Hstep. destruct (step_extends _ _ _ _ Hstep) as [_ [l ->]].
  rewrite count_app. lia.
Qed.

(** X6: every call of [register] is accounted for, and nothing else writes
    to the console or to the registry: over any sequence of calls and
    microtasks, neither the number of bindings nor the number of console
    errors ever decreases, and together they grow by exactly the number of
    [register] calls made: each call either adds one binding or logs one
    error, never both, and [resolve] and the callbacks do neither. *)
Theorem register_calls_accounted fuel acts : forall st st',
  run fuel acts st = Some st' ->
  size (registry st) <= size (registry st') /\
  count console_error (log st) <= count console_error (log st') /\
  size (registry st') + count console_error (log st') =
  size (registry st) + count console_error (log st) + count is_register acts.
Proof.
  induction acts as [|a acts IH]; intros st st'; simpl.
  - intros [= <-]. lia.
  - destruct (step fuel a st) as [st1|] eqn:Hstep; [|done]. intros Hrun.
    destruct (IH st1 st' Hrun) as (Hsize & Herr & Hsum).
    pose proof (step_accounted _ _ _ _ Hstep) as Hone.
    pose proof (step_size_le _ _ _ _ Hstep) as Hs.
    pose proof (step_errors_le _ _ _ _ Hstep) as He.
    destruct (is_register a); lia.
Qed.

Lemma register_calls_accounted_witness :
  size (registry initial) <= size (registry busy) /\
  count console_error (log initial) <= count console_error (log busy) /\
  size (registry busy) + count console_error (log busy) =
  size (registry initial) + count console_error (log initial) +
  count is_register busyActions.
Proof.
  apply (register_calls_accounted 3 busyActions initial busy). by vm_compute.
Defined.

(** *** What a call of [resolve] does at once *)

Lemma schedules_refl st : schedules st st.
Proof. split_and!; [exists []|exists []|done]; by rewrite ?app_nil_r. Qed.

Lemma schedules_trans a b c : schedules a b -> schedules b c -> schedules a c.
Proof.
  intros ((l1 & L1 & F1) & (j1 & Q1) & S1) ((l2 & L2 & F2) & (j2 & Q2) & S2).
  split_and!.
  - exists (l1 ++ l2). split; [by rewrite L2, L1, app_assoc|by apply Forall_app].
  - exists (j1 ++ j2). by rewrite Q2, Q1, app_assoc.
  - congruence.
Qed.

Lemma schedules_queue st st' js :
  log st' = log st -> serial st' = serial st -> queue st' = queue st ++ js ->
  schedules st st'.
Proof.
  intros Hl Hs Hq. split_and!; [exists []|by exists js|done].
  by rewrite app_nil_r.
Qed.

Lemma alloc_schedules c : rel schedules (alloc c).
Proof.
  intros st p st' [-> ->]%alloc_inv. apply (schedules_queue _ _ []); try done.
  simpl. by rewrite app_nil_r.
Qed.

Lemma settle_schedules p s : rel schedules (settle p s).
Proof.
  intros st u st'. unfold settle.
  destruct (promises st !! p) as [[[rs|s0] k]|]; intros ?; simplify_eq;
    try apply schedules_refl.
  by eapply schedules_queue.
Qed.

Lemma attach_schedules p r : rel schedules (attach p r).
Proof.
  intros st u st'. unfold attach, enqueue, modify.
  destruct (promises st !! p) as [[[rs|s0] k]|]; intros ?; simplify_eq;
    try apply schedules_refl.
  - apply (schedules_queue _ _ []); try done. simpl. by rewrite app_nil_r.
  - by eapply schedules_queue.
Qed.

Lemma then_schedules p h : rel schedules (then_ p h).
Proof.
  apply (pre_bind _ schedules_trans); [apply alloc_schedules|]. intros d.
  apply (pre_bind _ schedules_trans); [apply attach_schedules|]. intros _.
  apply (pre_ret _ schedules_refl).
Qed.

Lemma Promise_resolve_schedules x : rel schedules (Promise_resolve x).
Proof.
  destruct x; try apply alloc_schedules. apply (pre_ret _ schedules_refl).
Qed.

Lemma all_loop_schedules R xs : forall i, rel schedules (all_loop R i xs).
Proof.
  induction xs as [|x xs IH]; intros i; simpl; [apply (pre_ret _ schedules_refl)|].
  apply (pre_bind _ schedules_trans); [apply Promise_resolve_schedules|]. intros q.
  apply (pre_bind _ schedules_trans); [apply then_schedules|]. intros _. apply IH.
Qed.

Lemma Promise_all_schedules xs : rel schedules (Promise_all xs).
Proof.
  apply (pre_bind _ schedules_trans); [apply alloc_schedules|]. intros R.
  apply (pre_bind _ schedules_trans); [apply all_loop_schedules|]. intros _.
  apply (pre_bind _ schedules_trans); [|intros _; apply (pre_ret _ schedules_refl)].
  case_bool_decide; [apply settle_schedules|apply (pre_ret _ schedules_refl)].
Qed.

Lemma createWhenResolved_schedules o f deps :
  rel schedules (createWhenResolved o f deps).
Proof.
  apply (pre_bind _ schedules_trans); [apply Promise_all_schedules|]. intros R.
  apply (pre_bind _ schedules_trans); [apply then_schedules|]. intros d.
  apply (pre_bind _ schedules_trans); [|intros _; apply (pre_ret _ schedules_refl)].
  intros st u st' ->%modify_inv. split_and!; [|by exists []; rewrite app_nil_r|done].
  eexists. split; [apply log_emit|]. constructor; [by eexists|constructor].
Qed.

Lemma resolveToken_schedules fuel : forall token,
  rel schedules (resolveToken fuel token).
Proof.
  induction fuel as [|n IH]; intros token st v st'; simpl; [done|].
  assert (forall o f, rel schedules (resolveFactory_with (resolveToken n) o f))
    as Hfac.
  { intros o f. apply (pre_bind _ schedules_trans);
      [apply (pre_mapM _ schedules_refl schedules_trans); auto|].
    intros deps. apply createWhenResolved_schedules. }
  destruct (registry st !! tok_addr token) as [[f|f val [] [p|]]|]; simpl.
  - apply (pre_bind _ schedules_trans); [apply Hfac|].
    intros d. apply (pre_ret _ schedules_refl).
  - apply (pre_ret _ schedules_refl).
  - apply (pre_ret _ schedules_refl).
  - apply (pre_ret _ schedules_refl).
  - apply (pre_bind _ schedules_trans); [apply Hfac|]. intros x.
    apply (pre_bind _ schedules_trans); [apply then_schedules|]. intros d.
    apply (pre_bind _ schedules_trans); [|intros _; apply (pre_ret _ schedules_refl)].
    intros st0 u st1 ->%modify_inv. apply (schedules_queue _ _ []); try done.
    simpl. by rewrite app_nil_r.
  - apply (pre_bind _ schedules_trans); [apply alloc_schedules|].
    intros p. apply (pre_ret _ schedules_refl).
Qed.

Lemma Container_resolve_schedules fuel value :
  rel schedules (Container_resolve fuel value).
Proof.
  apply (pre_bind _ schedules_trans); [|intros x; apply Promise_resolve_schedules].
  destruct value as [token|f]; [apply resolveToken_schedules|].
  apply (pre_bind _ schedules_trans); [|intros d; apply (pre_ret _ schedules_refl)].
  apply (pre_bind _ schedules_trans);
    [apply (pre_mapM _ schedules_refl schedules_trans); intros t _;
     apply resolveToken_schedules|].
  intros deps. apply createWhenResolved_schedules.
Qed.

(** More fuel does not change what a resolution returns. *)
Lemma mapM_more {A B} (f g : A -> M B) l :
  (forall a st r, f a st = Some r -> g a st = Some r) ->
  forall st r, mapM f l st = Some r -> mapM g l st = Some r.
Proof.
  intros Hfg. induction l as [|a l IH]; intros st [r st']; simpl; [done|].
  intros H. apply bind_inv in H as (b & st1 & Hb & H).
  apply bind_inv in H as (bs & st2 & Hbs & H).
  unfold bind. rewrite (Hfg _ _ _ Hb), (IH _ _ Hbs). exact H.
Qed.

Lemma resolveFactory_with_more (rec rec' : Token -> M Value) o f :
  (forall t st r, rec t st = Some r -> rec' t st = Some r) ->
  forall st r, resolveFactory_with rec o f st = Some r ->
               resolveFactory_with rec' o f st = Some r.
Proof.
  intros Hrec st [d st'] H. unfold resolveFactory_with in *.
  apply bind_inv in H as (deps & st1 & Hm & H).
  unfold bind. rewrite (mapM_more _ _ _ Hrec _ _ Hm). exact H.
Qed.

Lemma resolveToken_more n : forall m token st r,
  n <= m -> resolveToken n token st = Some r -> resolveToken m token st = Some r.
Proof.
  induction n as [|n IH]; intros m token st r Hle; [done|].
  destruct m as [|m]; [lia|]. simpl.
  assert (forall t st0 r0, resolveToken n t st0 = Some r0 ->
                           resolveToken m t st0 = Some r0) as Hrec.
  { intros t st0 r0. apply IH. lia. }
  destruct (registry st !! tok_addr token) as [[f|f val [] [p|]]|]; simpl; try done.
  - destruct r as [x st']. intros H. apply bind_inv in H as (d & st1 & Hf & H).
    unfold bind. rewrite (resolveFactory_with_more _ _ _ _ Hrec _ _ Hf). exact H.
  - destruct r as [x st']. intros H. apply bind_inv in H as (d & st1 & Hf & H).
    unfold bind at 1. rewrite (resolveFactory_with_more _ _ _ _ Hrec _ _ Hf).
    exact H.
Qed.

Lemma Container_resolve_more n m value st r :
  n <= m -> Container_resolve n value st = Some r ->
  Container_resolve m value st = Some r.
Proof.
  intros Hle. unfold Container_resolve. destruct r as [d st']. intros H.
  apply bind_inv in H as (x & st1 & Hx & H). unfold bind at 1.
  destruct value as [token|f].
  - rewrite (resolveToken_more n m _ _ _ Hle Hx). exact H.
  - apply bind_inv in Hx as (d0 & st2 & Hf & Hret). unfold bind at 1.
    unfold resolveFactory in *.
    rewrite (resolveFactory_with_more _ (resolveToken m) _ _
               (fun t st0 r0 => resolveToken_more n m t st0 r0 Hle) _ _ Hf).
    rewrite Hret. exact H.
Qed.

Lemma Container_resolve_valid fuel value st d st' :
  Container_resolve fuel value st = Some (d, st') -> deps_inv st ->
  d < length (promises st').
Proof.
  unfold Container_resolve. intros Hrun Hinv.
  apply bind_inv in Hrun as (x & st1 & Hres & Hwrap).
  assert (valid_below (length (promises st1)) x) as Hx.
  { destruct value as [token|f]; [by eapply deps_resolveToken|].
    apply bind_inv in Hres as (d0 & st2 & Hf & Hret). apply ret_inv in Hret as [-> ->].
    unfold resolveFactory, resolveFactory_with in Hf.
    apply bind_inv in Hf as (deps & st3 & Hmap & Htail).
    destruct (deps_mapM fuel _ (deps_resolveToken fuel) _ _ _ Hmap Hinv)
      as [Hinv3 Hvalid].
    by eapply deps_createWhenResolved. }
  destruct x; simpl in Hwrap;
    try (apply alloc_inv in Hwrap as [-> ->]; simpl; rewrite length_app; simpl; lia).
  apply ret_inv in Hwrap as [-> ->]. done.
Qed.

(** X7: [Container.resolve] returns, for a token or a factory, in every
    state of a container (the recursion through [requires] ends because the
    registry is acyclic), with a result that does not depend on the depth
    allowed.  It returns a promise that exists, loses no promise and no
    settlement, and only schedules: it calls no [create] and runs no
    callback itself (the log gains only the notes of the attempts started),
    and the microtasks that were queued stay queued in their order. *)
Theorem resolve_only_schedules st value :
  reachable st ->
  exists n d st',
    (forall m, n <= m -> Container_resolve m value st = Some (d, st')) /\
    d < length (promises st') /\
    (forall p c, promises st !! p = Some c ->
       exists c', promises st' !! p = Some c' /\
                  forall s, pstate c = Settled s -> pstate c' = Settled s) /\
    (exists l, log st' = log st ++ l /\
               Forall (fun e => is_Some (attempt_via e)) l) /\
    count (created (fun _ _ _ => true)) (log st') =
      count (created (fun _ _ _ => true)) (log st) /\
    (exists js, queue st' = queue st ++ js).
Proof.
  intros Hst.
  destruct (Container_resolve_returns st value (reachable_acyclic _ Hst)) as [n Hn].
  destruct (Hn n (le_n _)) as [[d st'] Hrun]. exists n, d, st'.
  split; [intros m Hle; by eapply Container_resolve_more|].
  split; [eapply Container_resolve_valid; [exact Hrun|by apply reachable_deps]|].
  pose proof (Container_resolve_schedules _ _ _ _ _ Hrun) as ((l & Hl & Hall) & Hq & _).
  split.
  { assert (heap_grows st st') as [_ Hheap]; [|exact Hheap].
    destruct (Container_resolve_moves _ _ _ _ _ Hrun (reachable_inv _ Hst))
      as (_ & Hg & _). exact Hg. }
  split; [by exists l|]. split; [|done].
  rewrite Hl, count_app. rewrite (count_zero _ l); [lia|].
  intros e He. rewrite Forall_forall in Hall. destruct (Hall e He) as [d0 Hd0].
  by destruct e.
Qed.

Lemma resolve_only_schedules_witness :
  exists n d st',
    (forall m, n <= m -> Container_resolve m (inl IFoo) barInFlight = Some (d, st')) /\
    d < length (promises st') /\
    (forall p c, promises barInFlight !! p = Some c ->
       exists c', promises st' !! p = Some c' /\
                  forall s, pstate c = Settled s -> pstate c' = Settled s) /\
    (exists l, log st' = log barInFlight ++ l /\
               Forall (fun e => is_Some (attempt_via e)) l) /\
    count (created (fun _ _ _ => true)) (log st') =
      count (created (fun _ _ _ => true)) (log barInFlight) /\
    (exists js, queue st' = queue barInFlight ++ js).
Proof.
  apply (resolve_only_schedules barInFlight (inl IFoo)).
  apply run_reachable_default.
Defined.

(** *** The callback of [resolveFactory] *)

(** What the microtask of the callback of [resolveFactory] does. *)
Lemma create_job_runs st o f d s q :
  reachable st ->
  queue st = JReaction (react (HCreate o f) d) s :: q ->
  exists st', tick st = Some (tt, st') /\
    match s with
    | Reject e =>
        log st' = log st ++ [EDepFail o (fid f) d] /\
        serial st' = serial st /\
        settlement st' (VPromise d) = Some (Reject e)
    | Fulfill v =>
        exists vs, v = VArr vs /\
          log st' = log st ++ [ECreate o (fid f) d (serial st) vs] /\
          serial st' = S (serial st) /\
          match create f (serial st) vs with
          | CReturn (VPromise p) =>
              p <> d ->
              settlement st' (VPromise d) = None /\
              queue st' = q ++ [JThenable d p]
          | CReturn x => settlement st' (VPromise d) = Some (Fulfill x)
          | CThrow e => settlement st' (VPromise d) = Some (Reject e)
          | CAsync =>
              settlement st' (VPromise d) = None /\
              promises st' !! length (promises st) =
                Some {| pstate := Pending []; pkind := External |} /\
              queue st' = q ++ [JThenable d (length (promises st))]
          end
    end.
Proof.
  intros Hst Hq.
  destruct (queued_pending st _ _ _ Hst Hq) as [rs Hp]. simpl in Hp.
  destruct (reachable_deps _ Hst) as [(Hcells & Hqueue & _) _].
  rewrite Hq in Hqueue. apply Forall_cons in Hqueue as [Hj _].
  destruct Hj as [[_ (R & c & els & vals & rem & Hc & Hs & Hk & Hlog)] _].
  assert (all_ok st R c) as Hok by by apply (Hcells R c Hc).
  pose proof (lookup_lt_Some _ _ _ Hp) as Hlt.
  unfold tick. rewrite Hq. simpl. unfold runReaction. cbn [react handler derived].
  destruct s as [v|e].
  - destruct (all_fulfilled st R c els vals rem v Hok Hk Hs) as [-> _].
    cbn [apply_args]. unfold callCreate, bind, next_serial, modify.
    change (serial (set_queue q st)) with (serial st).
    destruct (create f (serial st) vals) as [x|e|] eqn:Hcreate.
    + assert (forall y,
                exists st', settle d (Fulfill y)
                  (emit (ECreate o (fid f) d (serial st) vals)
                     (set_serial (S (serial st)) (set_queue q st))) = Some (tt, st') /\
                  log st' = log st ++ [ECreate o (fid f) d (serial st) vals] /\
                  serial st' = S (serial st) /\
                  settlement st' (VPromise d) = Some (Fulfill y)) as Hval.
      { intros y. unfold settle. cbn [promises emit set_serial set_queue].
        rewrite Hp. eexists. split; [done|]. split_and!; try done.
        cbn [settlement promises set_queue set_promises].
        by rewrite list_lookup_insert_eq. }
      destruct x as [| |z|str|a|msg|ws|p];
        try (cbn [resolvePromise]; edestruct Hval as (st' & Hrun & ? & ? & ?);
             exists st'; split; [exact Hrun|]; exists vals; rewrite Hcreate; by split_and!).
      cbn [resolvePromise]. destruct (decide (p = d)) as [->|Hne].
      * unfold settle. cbn [promises emit set_serial set_queue]. rewrite Hp.
        eexists. split; [done|]. exists vals. rewrite Hcreate. by split_and!.
      * unfold enqueue, modify. eexists. split; [done|]. exists vals. rewrite Hcreate.
        split_and!; try done. intros _. cbn [settlement promises emit set_serial set_queue].
        by rewrite Hp.
    + unfold settle. cbn [promises emit set_serial set_queue]. rewrite Hp.
      eexists. split; [done|]. exists vals. rewrite Hcreate. split_and!; try done.
      cbn [settlement promises set_queue set_promises].
      by rewrite list_lookup_insert_eq.
    + unfold alloc. cbn [resolvePromise promises emit set_serial set_queue].
      rewrite decide_False by lia. unfold enqueue, modify.
      eexists. split; [done|]. exists vals. rewrite Hcreate. split_and!; try done.
      * cbn [settlement promises emit set_serial set_queue set_promises].
        by rewrite lookup_app_l, Hp.
      * cbn [promises emit set_serial set_queue set_promises].
        by rewrite lookup_app_r, Nat.sub_diag.
  - unfold bind, modify, settle. cbn [promises emit set_queue]. rewrite Hp.
    eexists. split; [done|]. split_and!; try done.
    cbn [settlement promises set_queue set_promises].
    by rewrite list_lookup_insert_eq.
Qed.

(** X8: what the callback of [resolveFactory] does when its microtask
    runs.  If the [Promise.all] of the dependencies was rejected, [create]
    is not called and the promise of the resolution is rejected with the
    same error.  Otherwise [create] is called once, with the array of the
    dependency values as its arguments, and what it does decides the
    promise: a value returned fulfils it, an exception thrown rejects it
    (nothing escapes the callback), and a promise returned is adopted by a
    later microtask, the promise of the resolution staying pending. *)
Theorem create_result_settles st o f d s q :
  reachable st ->
  queue st = JReaction (react (HCreate o f) d) s :: q ->
  exists st', tick st = Some (tt, st') /\
    match s with
    | Reject e =>
        log st' = log st ++ [EDepFail o (fid f) d] /\
        serial st' = serial st /\
        settlement st' (VPromise d) = Some (Reject e)
    | Fulfill v =>
        exists vs, v = VArr vs /\
          log st' = log st ++ [ECreate o (fid f) d (serial st) vs] /\
          serial st' = S (serial st) /\
          match create f (serial st) vs with
          | CReturn (VPromise p) =>
              p <> d ->
              settlement st' (VPromise d) = None /\
              queue st' = q ++ [JThenable d p]
          | CReturn x => settlement st' (VPromise d) = Some (Fulfill x)
          | CThrow e => settlement st' (VPromise d) = Some (Reject e)
          | CAsync =>
              settlement st' (VPromise d) = None /\
              promises st' !! length (promises st) =
                Some {| pstate := Pending []; pkind := External |} /\
              queue st' = q ++ [JThenable d (length (promises st))]
          end
    end.
Proof. apply create_job_runs. Qed.

Lemma create_result_settles_witness :
  exists st', tick barInFlight = Some (tt, st') /\
    exists vs, VArr [] = VArr vs /\
      log st' = log barInFlight ++
                [ECreate (Some (tok_addr IBar)) (fid barFactory) 1
                   (serial barInFlight) vs] /\
      serial st' = S (serial barInFlight) /\
      match create barFactory (serial barInFlight) vs with
      | CReturn (VPromise p) =>
          p <> 1 ->
          settlement st' (VPromise 1) = None /\
          queue st' = [] ++ [JThenable 1 p]
      | CReturn x => settlement st' (VPromise 1) = Some (Fulfill x)
      | CThrow e => settlement st' (VPromise 1) = Some (Reject e)
      | CAsync =>
          settlement st' (VPromise 1) = None /\
          promises st' !! length (promises barInFlight) =
            Some {| pstate := Pending []; pkind := External |} /\
          queue st' = [] ++ [JThenable 1 (length (promises barInFlight))]
      end.
Proof.
  apply (create_result_settles barInFlight (Some (tok_addr IBar)) barFactory 1
           (Fulfill (VArr [])) []).
  - apply run_reachable_default.
  - reflexivity.
Defined.




(** *** One token several times among the dependencies *)

Lemma held_resolve fuel token r y st x st' :
  registry st !! tok_addr token = Some r -> held_value r = Some y ->
  resolveToken fuel token st = Some (x, st') -> x = y /\ st' = st.
Proof.
  intros Hr Hy. destruct fuel as [|n]; [done|]. simpl. rewrite Hr.
  destruct r as [f|f v [] [p|]]; simpl in *; try done;
    intros [-> ->]%ret_inv; by simplify_eq.
Qed.

Lemma held_stays fuel token key r y st x st' :
  container_inv st -> registry st !! key = Some r -> held_value r = Some y ->
  resolveToken fuel token st = Some (x, st') ->
  container_inv st' /\ registry st' !! key = Some r.
Proof.
  intros Hinv Hr Hy Hrun.
  destruct (resolveToken_moves _ _ _ _ _ Hrun Hinv) as (Hinv' & _ & Hmoves).
  split; [done|].
  destruct (Hmoves key) as [E|(f & v & d & Ha & _)]; [congruence|].
  rewrite Hr in Ha. by simplify_eq.
Qed.

Lemma singleton_hands_out fuel token r st x st' :
  container_inv st -> registry st !! tok_addr token = Some r ->
  is_Some (singleton_state r) ->
  resolveToken fuel token st = Some (x, st') ->
  container_inv st' /\
  exists r', registry st' !! tok_addr token = Some r' /\
             factory r' = factory r /\ is_Some (singleton_state r') /\
             held_value r' = Some x.
Proof.
  intros Hinv Hr Hs Hrun.
  pose proof (resolveToken_moves _ _ _ _ _ Hrun Hinv) as (Hinv' & _ & _).
  split; [done|].
  destruct r as [f|f v [] [p|]]; [by destruct Hs as [? [=]]|..].
  - destruct (held_resolve _ _ _ v _ _ _ Hr eq_refl Hrun) as [-> ->]. by eexists.
  - destruct (held_resolve _ _ _ v _ _ _ Hr eq_refl Hrun) as [-> ->]. by eexists.
  - destruct (held_resolve _ _ _ (VPromise p) _ _ _ Hr eq_refl Hrun) as [-> ->].
    by eexists.
  - destruct (singleton_restart _ _ _ _ _ _ _ Hinv Hr Hrun) as (d & -> & Hr' & _).
    by eexists.
Qed.

Lemma mapM_held fuel key r y reqs : forall st deps st1,
  container_inv st -> registry st !! key = Some r -> held_value r = Some y ->
  mapM (resolveToken fuel) reqs st = Some (deps, st1) ->
  container_inv st1 /\ registry st1 !! key = Some r /\
  forall i ti, reqs !! i = Some ti -> tok_addr ti = key -> deps !! i = Some y.
Proof.
  induction reqs as [|t reqs IH]; intros st deps st1 Hinv Hr Hy Hrun.
  - apply ret_inv in Hrun as [-> ->]. by split_and!.
  - simpl in Hrun. apply bind_inv in Hrun as (x & st0 & Hx & Hrun).
    apply bind_inv in Hrun as (xs & st2 & Hxs & Hret).
    apply ret_inv in Hret as [-> ->].
    destruct (held_stays _ _ _ _ _ _ _ _ Hinv Hr Hy Hx) as [Hinv0 Hr0].
    destruct (IH _ _ _ Hinv0 Hr0 Hy Hxs) as (Hinv1 & Hr1 & Hrest).
    split_and!; [done..|]. intros [|i] ti Hi Hkey; simpl in *; [|by eauto].
    injection Hi as ->. subst key.
    by destruct (held_resolve _ _ _ _ _ _ _ Hr Hy Hx) as [-> _].
Qed.

Lemma mapM_singleton_positions fuel key reqs : forall st r deps st1,
  container_inv st -> registry st !! key = Some r ->
  is_Some (singleton_state r) ->
  mapM (resolveToken fuel) reqs st = Some (deps, st1) ->
  exists r1, registry st1 !! key = Some r1 /\ factory r1 = factory r /\
    forall i ti, reqs !! i = Some ti -> tok_addr ti = key ->
                 exists x, deps !! i = Some x /\ held_value r1 = Some x.
Proof.
  induction reqs as [|t reqs IH]; intros st r deps st1 Hinv Hr Hs Hrun.
  - apply ret_inv in Hrun as [-> ->]. exists r. by split_and!.
  - simpl in Hrun. apply bind_inv in Hrun as (x & st0 & Hx & Hrun).
    apply bind_inv in Hrun as (xs & st2 & Hxs & Hret).
    apply ret_inv in Hret as [-> ->].
    destruct (decide (tok_addr t = key)) as [<-|Hne].
    + destruct (singleton_hands_out _ _ _ _ _ _ Hinv Hr Hs Hx)
        as (Hinv0 & r0 & Hr0 & Hf0 & Hs0 & Hy0).
      destruct (mapM_held _ _ _ _ _ _ _ _ Hinv0 Hr0 Hy0 Hxs) as (_ & Hr1 & Hrest).
      exists r0. split_and!; [done..|].
      intros [|i] ti Hi Hkey; simpl in *; [by exists x|]. exists x. eauto.
    + destruct (resolveToken_moves _ _ _ _ _ Hx Hinv) as (Hinv0 & _ & Hmoves).
      assert (exists r0, registry st0 !! key = Some r0 /\ factory r0 = factory r /\
                         is_Some (singleton_state r0)) as (r0 & Hr0 & Hf0 & Hs0).
      { destruct (Hmoves key) as [E|(f & v & d & Ha & Hb & _)].
        - exists r. by rewrite E.
        - rewrite Hr in Ha. injection Ha as ->. by eexists. }
      destruct (IH _ _ _ _ Hinv0 Hr0 Hs0 Hxs) as (r1 & Hr1 & Hf1 & Hrest).
      exists r1. split_and!; [done|congruence|].
      intros [|i] ti Hi Hkey; simpl in *; [by simplify_eq|by eauto].
Qed.

(** X10: a token bound to a singleton resolver that occurs several times
    among the dependencies collected by [resolveFactory] is resolved to the
    same value at every position: the cached value if the resolver had
    resolved, the promise of the creation in flight if there was one, and
    otherwise the promise of the one creation that the first occurrence (or
    a dependency before it) starts; it is what the resolver holds when all
    dependencies have been collected. *)
Theorem singleton_dependency_shared st key r fuel reqs deps st1 :
  reachable st -> registry st !! key = Some r ->
  is_Some (singleton_state r) ->
  mapM (resolveToken fuel) reqs st = Some (deps, st1) ->
  exists r1, registry st1 !! key = Some r1 /\ factory r1 = factory r /\
    (forall i ti, reqs !! i = Some ti -> tok_addr ti = key ->
       exists x, deps !! i = Some x /\ held_value r1 = Some x) /\
    (forall i j ti tj, reqs !! i = Some ti -> reqs !! j = Some tj ->
       tok_addr ti = key -> tok_addr tj = key -> deps !! i = deps !! j) /\
    (forall y, held_value r = Some y ->
       r1 = r /\
       forall i ti, reqs !! i = Some ti -> tok_addr ti = key ->
                    deps !! i = Some y).
Proof.
  intros Hst Hr Hs Hrun. pose proof (reachable_inv _ Hst) as Hinv.
  destruct (mapM_singleton_positions _ _ _ _ _ _ _ Hinv Hr Hs Hrun)
    as (r1 & Hr1 & Hf1 & Hpos).
  exists r1. split_and!; [done..| |].
  - intros i j ti tj Hi Hj Hki Hkj.
    destruct (Hpos i ti Hi Hki) as (x & -> & Hx).
    destruct (Hpos j tj Hj Hkj) as (x' & -> & Hx'). congruence.
  - intros y Hy.
    destruct (mapM_held _ _ _ _ _ _ _ _ Hinv Hr Hy Hrun) as (_ & Hr1' & Hall).
    split; [congruence|done].
Qed.

Lemma singleton_dependency_shared_witness :
  exists r1,
    registry (default ([], initial) barTwice).2 !! tok_addr IBar = Some r1 /\
    factory r1 = factory (SingletonResolver barFactory VNull false None) /\
    (forall i ti, [IBar; IBar] !! i = Some ti -> tok_addr ti = tok_addr IBar ->
       exists x, (default ([], initial) barTwice).1 !! i = Some x /\
                 held_value r1 = Some x) /\
    (forall i j ti tj, [IBar; IBar] !! i = Some ti -> [IBar; IBar] !! j = Some tj ->
       tok_addr ti = tok_addr IBar -> tok_addr tj = tok_addr IBar ->
       (default ([], initial) barTwice).1 !! i =
       (default ([], initial) barTwice).1 !! j) /\
    (forall y, held_value (SingletonResolver barFactory VNull false None) = Some y ->
       r1 = SingletonResolver barFactory VNull false None /\
       forall i ti, [IBar; IBar] !! i = Some ti -> tok_addr ti = tok_addr IBar ->
                    (default ([], initial) barTwice).1 !! i = Some y).
Proof.
  apply (singleton_dependency_shared fooBarRegistered (tok_addr IBar)
           (SingletonResolver barFactory VNull false None) 3 [IBar; IBar]).
  - apply run_reachable_default.
  - reflexivity.
  - by eexists.
  - by vm_compute.
Defined.

Lemma mapM_transient_positions fuel key f reqs : forall st deps st1,
  container_inv st -> registry st !! key = Some (TransientResolver f) ->
  mapM (resolveToken fuel) reqs st = Some (deps, st1) ->
  container_inv st1 /\ registry st1 !! key = Some (TransientResolver f) /\
  length (promises st) <= length (promises st1) /\
  (forall i ti, reqs !! i = Some ti -> tok_addr ti = key ->
     exists d, deps !! i = Some (VPromise d) /\
               length (promises st) <= d < length (promises st1)) /\
  (forall i j ti tj, i < j -> reqs !! i = Some ti -> reqs !! j = Some tj ->
     tok_addr ti = key -> tok_addr tj = key ->
     exists di dj, deps !! i = Some (VPromise di) /\
                   deps !! j = Some (VPromise dj) /\ di < dj).
Proof.
  induction reqs as [|t reqs IH]; intros st deps st1 Hinv Hr Hrun.
  - apply ret_inv in Hrun as [-> ->]. by split_and!.
  - simpl in Hrun. apply bind_inv in Hrun as (x & st0 & Hx & Hrun).
    apply bind_inv in Hrun as (xs & st2 & Hxs & Hret).
    apply ret_inv in Hret as [-> ->].
    destruct (resolveToken_moves _ _ _ _ _ Hx Hinv) as (Hinv0 & [Hlen0 _] & _).
    assert (registry st0 !! key = Some (TransientResolver f)) as Hr0.
    { eapply same_factories_transient; [|exact Hr].
      by eapply (rel_resolveToken same_factories_frame). }
    destruct (IH _ _ _ Hinv0 Hr0 Hxs) as (Hinv1 & Hr1 & Hlen1 & Hpos & Hord).
    assert (tok_addr t = key ->
            exists d, x = VPromise d /\
                      length (promises st) <= d < length (promises st0)) as Hhead.
    { intros <-.
      destruct (transient_call _ _ _ _ _ _ Hinv Hr Hx) as (d & -> & _ & _ & Hd).
      by exists d. }
    split_and!; [done|done|lia| |].
    + intros [|i] ti Hi Hkey; simpl in *.
      * injection Hi as ->. destruct (Hhead Hkey) as (d & -> & Hd).
        exists d. split; [done|lia].
      * destruct (Hpos i ti Hi Hkey) as (d & Hd & Hlt). exists d. split; [done|lia].
    + intros [|i] [|j] ti tj Hlt Hi Hj Hki Hkj; simpl in *; try lia.
      * injection Hi as ->. destruct (Hhead Hki) as (d & -> & Hd).
        destruct (Hpos j tj Hj Hkj) as (dj & Hdj & Hltj).
        exists d, dj. split_and!; [done..|lia].
      * apply (Hord i j ti tj); [lia|done..].
Qed.

(** X11: a token bound to a transient resolver that occurs several times
    among the dependencies collected by [resolveFactory] is resolved anew
    at every position: each receives a promise made for it, different from
    the promise of every other position and from every promise that
    existed before. *)
Theorem transient_dependency_fresh st key f fuel reqs deps st1 :
  reachable st -> registry st !! key = Some (TransientResolver f) ->
  mapM (resolveToken fuel) reqs st = Some (deps, st1) ->
  (forall i ti, reqs !! i = Some ti -> tok_addr ti = key ->
     exists d, deps !! i = Some (VPromise d) /\
               length (promises st) <= d < length (promises st1)) /\
  (forall i j ti tj, i <> j -> reqs !! i = Some ti -> reqs !! j = Some tj ->
     tok_addr ti = key -> tok_addr tj = key -> deps !! i <> deps !! j).
Proof.
  intros Hst Hr Hrun. pose proof (reachable_inv _ Hst) as Hinv.
  destruct (mapM_transient_positions _ _ _ _ _ _ _ Hinv Hr Hrun)
    as (_ & _ & _ & Hpos & Hord).
  split; [done|]. intros i j ti tj Hne Hi Hj Hki Hkj.
  destruct (decide (i < j)) as [Hlt|Hge].
  - destruct (Hord i j ti tj Hlt Hi Hj Hki Hkj) as (di & dj & -> & -> & Hd).
    intros [=]. lia.
  - destruct (Hord j i tj ti ltac:(lia) Hj Hi Hkj Hki) as (dj & di & -> & -> & Hd).
    intros [=]. lia.
Qed.

Lemma transient_dependency_fresh_witness :
  (forall i ti, [IFoo; IFoo] !! i = Some ti -> tok_addr ti = tok_addr IFoo ->
     exists d, (default ([], initial) fooTwiceDeps).1 !! i = Some (VPromise d) /\
               length (promises fooBarRegistered) <= d <
               length (promises (default ([], initial) fooTwiceDeps).2)) /\
  (forall i j ti tj, i <> j -> [IFoo; IFoo] !! i = Some ti ->
     [IFoo; IFoo] !! j = Some tj ->
     tok_addr ti = tok_addr IFoo -> tok_addr tj = tok_addr IFoo ->
     (default ([], initial) fooTwiceDeps).1 !! i <>
     (default ([], initial) fooTwiceDeps).1 !! j).
Proof.
  apply (transient_dependency_fresh fooBarRegistered (tok_addr IFoo) Foo 3
           [IFoo; IFoo]).
  - apply run_reachable_default.
  - reflexivity.
  - by vm_compute.
Defined.

(** *** What a resolution leaves alone *)

(** X12: a resolution touches only the resolvers it needs.  For a key that
    cannot be reached from the resolved token (from the tokens the factory
    requires) along [requires] edges through registered tokens, the call
    leaves the resolver with all its fields as it is, starts no attempt for
    it and registers no callback for it. *)
Theorem resolve_leaves_others_alone st fuel value d st' key :
  Container_resolve fuel value st = Some (d, st') ->
  match value with
  | inl token => ~ reaches (registry st) (tok_addr token) key
  | inr f => forall t, t ∈ requires f -> ~ reaches (registry st) (tok_addr t) key
  end ->
  registry st' !! key = registry st !! key /\
  count (attempted (owned key)) (log st') = count (attempted (owned key)) (log st) /\
  count (singleton_of key) (outstanding st') =
    count (singleton_of key) (outstanding st).
Proof.
  intros Hrun Hfar.
  assert (apart (resolver_event key) key st st') as [[[Hout Hlog] Hres] _].
  { unfold Container_resolve in Hrun.
    apply bind_inv in Hrun as (x & st1 & Hres & Hwrap).
    eapply apart_trans;
      [|by apply (rel_Promise_resolve (resolver_event_frame key)) in Hwrap].
    destruct value as [token|f]; [by eapply resolveToken_apart|].
    apply bind_inv in Hres as (d0 & st2 & Hf & Hret). apply ret_inv in Hret as [_ ->].
    unfold resolveFactory, resolveFactory_with in Hf.
    apply bind_inv in Hf as (deps & st3 & Hmap & Htail).
    eapply apart_trans; [by eapply mapM_apart|].
    eapply (createWhenResolved_apart key None f deps); [done|exact Htail]. }
  split_and!; [done| |by apply Hout].
  apply Hlog. apply attempted_resolver.
Qed.

Lemma resolve_leaves_others_alone_witness :
  registry (default (0, initial) (Container_resolve 3 (inl IBar) fooBarRegistered)).2
    !! tok_addr IFoo = registry fooBarRegistered !! tok_addr IFoo /\
  count (attempted (owned (tok_addr IFoo)))
    (log (default (0, initial) (Container_resolve 3 (inl IBar) fooBarRegistered)).2) =
  count (attempted (owned (tok_addr IFoo))) (log fooBarRegistered) /\
  count (singleton_of (tok_addr IFoo))
    (outstanding (default (0, initial)
                    (Container_resolve 3 (inl IBar) fooBarRegistered)).2) =
  count (singleton_of (tok_addr IFoo)) (outstanding fooBarRegistered).
Proof.
  apply (resolve_leaves_others_alone fooBarRegistered 3 (inl IBar)
           (default (0, initial) (Container_resolve 3 (inl IBar) fooBarRegistered)).1).
  - by vm_compute.
  - intros Hreach.
    inversion Hreach as [a|a resolver t b Hr Ht Hrest]; subst; try done.
    vm_compute in Hr. injection Hr as <-. by apply elem_of_nil in Ht.
Defined.

(** *** The shape of a reported cycle *)

Lemma cycle_path_reaches (reg : Registry) token reqs p u :
  cycle_path reg token reqs p -> u ∈ p ->
  exists t, t ∈ reqs /\ reaches reg (tok_addr t) (tok_addr u).
Proof.
  induction 1 as [reqs other Hin Heq|reqs other resolver p Hin Heq Hr Hp IH];
    intros Hu.
  - apply list_elem_of_singleton in Hu as ->. exists other. split; [done|].
    apply reaches_here.
  - apply elem_of_cons in Hu as [->|Hu].
    + exists other. split; [done|apply reaches_here].
    + destruct (IH Hu) as (t & Ht & Hreach). exists other. split; [done|].
      by eapply reaches_step.
Qed.

Lemma cycle_path_simple (reg : Registry) token reqs p :
  acyclic reg -> cycle_path reg token reqs p -> NoDup (tok_addr <$> p).
Proof.
  intros Hacyc.
  induction 1 as [reqs other Hin Heq|reqs other resolver p Hin Heq Hr Hp IH].
  - simpl. apply NoDup_singleton.
  - simpl. apply NoDup_cons. split; [|done].
    intros (u & Hu & Hin')%list_elem_of_fmap.
    destruct (cycle_path_reaches _ _ _ _ _ Hp Hin') as (t & Ht & Hreach).
    rewrite <- Hu in Hreach.
    by apply (grounded_no_cycle reg _ (Hacyc (tok_addr other)) resolver t Hr Ht).
Qed.

Lemma cycle_path_registered (reg : Registry) token reqs p :
  cycle_path reg token reqs p ->
  exists q t, p = q ++ [t] /\ token_eqb t token = true /\
    Forall (fun u => is_Some (reg !! tok_addr u) /\ token_eqb u token = false) q.
Proof.
  induction 1 as [reqs other Hin Heq|reqs other resolver p Hin Heq Hr Hp IH].
  - exists [], other. by split_and!.
  - destruct IH as (q & t & -> & Ht & Hq). exists (other :: q), t.
    split_and!; [done..|]. constructor; [|done]. split; [by eexists|done].
Qed.

(** X13: the cycle that [findCycle] reports in a container is a simple
    path: no token occurs twice in it, every token before the last has a
    resolver in the registry and is not the candidate token, the last is
    the candidate token; so the path is at most one longer than the number
    of registered tokens. *)
Theorem reported_cycle_is_simple st token f n trace :
  reachable st -> findCycle (registry st) token n f = Some trace ->
  trace <> [] ->
  NoDup (tok_addr <$> trace) /\
  (exists q t, trace = q ++ [t] /\ token_eqb t token = true /\
     Forall (fun u => isRegistered u st = true /\ token_eqb u token = false) q) /\
  length trace <= S (size (registry st)).
Proof.
  intros Hst Hfc Hne. apply findCycle_sound in Hfc.
  apply first_cycle_inv in Hfc as (path & Hw & _); [|done].
  apply walk_cycle_path in Hw.
  pose proof (cycle_path_simple _ _ _ _ (reachable_acyclic _ Hst) Hw) as Hnodup.
  destruct (cycle_path_registered _ _ _ _ Hw) as (q & t & -> & Ht & Hq).
  split; [done|]. split.
  - exists q, t. split_and!; [done..|]. eapply Forall_impl; [exact Hq|].
    intros u [Hu Hne']. split; [by apply bool_decide_eq_true|done].
  - rewrite length_app. simpl.
    assert (length q <= size (registry st)); [|lia].
    rewrite fmap_app in Hnodup. apply NoDup_app in Hnodup as (Hq' & _ & _).
    rewrite <- (length_fmap tok_addr), <- size_dom.
    rewrite <- (size_list_to_set (C := gset positive) (tok_addr <$> q)) by done.
    apply subseteq_size. intros a Ha. apply elem_of_list_to_set in Ha.
    apply list_elem_of_fmap in Ha as (u & -> & Hu). apply elem_of_dom.
    rewrite Forall_forall in Hq. by apply (Hq u Hu).
Qed.

Lemma reported_cycle_is_simple_witness :
  NoDup (tok_addr <$> [tokenA; tokenB]) /\
  (exists q t, [tokenA; tokenB] = q ++ [t] /\ token_eqb t tokenB = true /\
     Forall (fun u => isRegistered u registeredA = true /\
                      token_eqb u tokenB = false) q) /\
  length [tokenA; tokenB] <= S (size (registry registeredA)).
Proof.
  apply (reported_cycle_is_simple registeredA tokenB factoryB 2 [tokenA; tokenB]).
  - apply (reachable_step initial 1 (CallRegister tokenA factoryA));
      [apply reachable_initial|reflexivity].
  - reflexivity.
  - done.
Defined.

(** *** From [register] to the instance *)

Lemma resolvePromise_value d v :
  (forall p, v <> VPromise p) -> resolvePromise d v = settle d (Fulfill v).
Proof. intros Hv. destruct v; try done. by destruct (Hv p). Qed.

Lemma createWhenResolved_nil_state o f st :
  createWhenResolved o f [] st =
  Some (S (length (promises st)),
        emit (EAttempt o (fid f) (S (length (promises st))) [])
          (set_queue
             (queue st ++
              [JReaction (react (HCreate o f) (S (length (promises st))))
                 (Fulfill (VArr []))])
             (set_promises
                (promises st ++
                 [{| pstate := Settled (Fulfill (VArr [])); pkind := All [] [] 0 |};
                  {| pstate := Pending []; pkind := Plain |}]) st))).
Proof.
  unfold createWhenResolved, Promise_all, then_, bind, alloc, modify, ret.
  cbn -[lookup]. rewrite bool_decide_eq_true_2 by done. unfold settle.
  cbn -[lookup insert]. rewrite lookup_app_r, Nat.sub_diag by done.
  change ([{| pstate := Pending []; pkind := All [] [] 0 |}] !! 0)
    with (Some {| pstate := Pending []; pkind := All [] [] 0 |}).
  cbn -[lookup insert]. unfold attach. cbn -[lookup insert].
  rewrite insert_app_r_alt, Nat.sub_diag by done.
  change (<[0:={| pstate := Settled (Fulfill (VArr [])); pkind := All [] [] 0 |}]>
            [{| pstate := Pending []; pkind := All [] [] 0 |}])
    with [{| pstate := Settled (Fulfill (VArr [])); pkind := All [] [] 0 |}].
  rewrite lookup_app_l by (rewrite length_app; simpl; lia).
  rewrite lookup_app_r, Nat.sub_diag by done.
  change ([{| pstate := Settled (Fulfill (VArr [])); pkind := All [] [] 0 |}] !! 0)
    with (Some {| pstate := Settled (Fulfill (VArr [])); pkind := All [] [] 0 |}).
  unfold enqueue, modify. cbn -[lookup insert].
  rewrite length_app, Nat.add_1_r, app_nil_r, <- app_assoc. reflexivity.
Qed.

Lemma lookup_tail1 {A} (l cs : list A) : (l ++ cs) !! S (length l) = cs !! 1.
Proof. rewrite lookup_app_r by lia. f_equal. lia. Qed.

Lemma lookup_tail2 {A} (l cs : list A) : (l ++ cs) !! S (S (length l)) = cs !! 2.
Proof. rewrite lookup_app_r by lia. f_equal. lia. Qed.

Lemma insert_tail1 {A} (l cs : list A) x :
  <[S (length l) := x]> (l ++ cs) = l ++ <[1 := x]> cs.
Proof. rewrite <- insert_app_r. f_equal. lia. Qed.

Lemma insert_tail2 {A} (l cs : list A) x :
  <[S (S (length l)) := x]> (l ++ cs) = l ++ <[2 := x]> cs.
Proof. rewrite <- insert_app_r. f_equal. lia. Qed.

(** The first resolution of a singleton without dependencies, step by
    step. *)
Lemma singleton_round_trip st token f v0 v m :
  registry st !! tok_addr token = Some (SingletonResolver f v0 false None) ->
  requires f = [] -> queue st = [] ->
  create f (serial st) [] = CReturn v -> (forall p, v <> VPromise p) ->
  exists d st1 st2 st3,
    Container_resolve (S m) (inl token) st = Some (d, st1) /\
    tick st1 = Some (tt, st2) /\ tick st2 = Some (tt, st3) /\
    settlement st3 (VPromise d) = Some (Fulfill v) /\
    registry st3 !! tok_addr token = Some (SingletonResolver f v true None) /\
    queue st3 = [] /\
    log st3 = log st ++ [EAttempt (Some (tok_addr token)) (fid f) (S (length (promises st))) [];
                         ECreate (Some (tok_addr token)) (fid f) (S (length (promises st))) (serial st) [];
                         ESingletonDone (tok_addr token) true] /\
    d = S (S (length (promises st))) /\
    (forall p c, promises st !! p = Some c -> promises st3 !! p = Some c).
Proof.
  intros Hr Hreq Hq Hcreate Hv.
  set (n := length (promises st)).
  set (key := tok_addr token).
  set (rS := {| handler := HSingleton key; derived := S (S n) |}).
  set (st1 := {| registry := alter (set_promise (S (S n))) key (registry st);
                 promises := promises st ++
                   [emptyAllCell; {| pstate := Pending [rS]; pkind := Plain |}; freshCell];
                 queue := [JReaction (react (HCreate (Some key) f) (S n))
                             (Fulfill (VArr []))];
                 serial := serial st;
                 log := log st ++ [EAttempt (Some key) (fid f) (S n) []] |}).
  set (st2 := {| registry := registry st1;
                 promises := promises st ++
                   [emptyAllCell; {| pstate := Settled (Fulfill v); pkind := Plain |}; freshCell];
                 queue := [JReaction rS (Fulfill v)];
                 serial := S (serial st);
                 log := log st1 ++ [ECreate (Some key) (fid f) (S n) (serial st) []] |}).
  set (st3 := {| registry := alter (on_fulfilled v) key (registry st1);
                 promises := promises st ++
                   [emptyAllCell; {| pstate := Settled (Fulfill v); pkind := Plain |};
                    {| pstate := Settled (Fulfill v); pkind := Plain |}];
                 queue := [];
                 serial := S (serial st);
                 log := log st2 ++ [ESingletonDone key true] |}).
  assert (Container_resolve (S m) (inl token) st = Some (S (S n), st1)) as H1.
  { unfold Container_resolve. cbn [resolveToken]. unfold bind at 1.
    rewrite Hr. cbn [resolver_resolve_with]. unfold resolveFactory_with.
    rewrite Hreq. cbn [mapM]. cbv beta iota delta [bind ret].
    rewrite createWhenResolved_nil_state. fold n. cbv beta iota.
    unfold then_, update_resolver, alloc, attach, modify.
    cbv beta iota delta [bind ret]. cbn -[lookup insert alter]. rewrite Hq. fold n.
    rewrite <- app_assoc. cbn [app]. unfold n.
    rewrite lookup_tail1. cbn -[insert alter].
    rewrite length_app. cbn -[insert alter].
    rewrite insert_tail1. cbn -[alter].
    replace (length (promises st) + 2) with (S (S (length (promises st)))) by lia.
    reflexivity. }
  assert (tick st1 = Some (tt, st2)) as H2.
  { unfold tick. cbn [queue st1 runJob]. unfold runReaction.
    cbn [react handler derived apply_args]. unfold callCreate, next_serial, modify.
    cbv beta iota delta [bind]. cbn [serial set_queue st1]. rewrite Hcreate.
    rewrite (resolvePromise_value _ _ Hv). unfold settle.
    cbn [promises emit set_serial set_queue st1].
    unfold n. rewrite lookup_tail1. cbn -[insert]. rewrite insert_tail1.
    reflexivity. }
  assert (tick st2 = Some (tt, st3)) as H3.
  { unfold tick. cbn [queue st2 runJob]. unfold runReaction.
    cbn [rS handler derived]. unfold singletonFulfilled, update_resolver, modify.
    cbv beta iota delta [bind].
    rewrite (resolvePromise_value _ _ Hv). unfold settle.
    cbn [promises emit set_registry set_queue st2].
    unfold n. rewrite lookup_tail2. cbn -[insert alter]. rewrite insert_tail2.
    reflexivity. }
  exists (S (S n)), st1, st2, st3. split_and!; try done.
  - cbn [settlement promises st3].
    unfold n. by rewrite lookup_tail2.
  - cbn [registry st3 st1]. unfold key. by rewrite !lookup_alter_eq, Hr.
  - cbn [log st3 st2 st1]. by rewrite <- !app_assoc.
  - intros p c Hp. cbn [promises st3]. by apply lookup_app_l_Some.
Qed.

(** The resolution of a transient token without dependencies, step by
    step. *)
Lemma transient_round_trip st token f v m :
  registry st !! tok_addr token = Some (TransientResolver f) ->
  requires f = [] -> queue st = [] ->
  create f (serial st) [] = CReturn v -> (forall p, v <> VPromise p) ->
  exists d st1 st2,
    Container_resolve (S m) (inl token) st = Some (d, st1) /\
    tick st1 = Some (tt, st2) /\ tick st2 = Some (tt, st2) /\
    settlement st2 (VPromise d) = Some (Fulfill v) /\
    registry st2 !! tok_addr token = Some (TransientResolver f) /\
    queue st2 = [] /\
    log st2 = log st ++
      [EAttempt (Some (tok_addr token)) (fid f) (S (length (promises st))) [];
       ECreate (Some (tok_addr token)) (fid f) (S (length (promises st)))
         (serial st) []].
Proof.
  intros Hr Hreq Hq Hcreate Hv.
  set (key := tok_addr token).
  set (st1 := {| registry := registry st;
                 promises := promises st ++ [emptyAllCell; freshCell];
                 queue := [JReaction (react (HCreate (Some key) f)
                                        (S (length (promises st))))
                             (Fulfill (VArr []))];
                 serial := serial st;
                 log := log st ++
                   [EAttempt (Some key) (fid f) (S (length (promises st))) []] |}).
  set (st2 := {| registry := registry st;
                 promises := promises st ++
                   [emptyAllCell; {| pstate := Settled (Fulfill v); pkind := Plain |}];
                 queue := [];
                 serial := S (serial st);
                 log := log st1 ++
                   [ECreate (Some key) (fid f) (S (length (promises st)))
                      (serial st) []] |}).
  assert (Container_resolve (S m) (inl token) st =
          Some (S (length (promises st)), st1)) as H1.
  { unfold Container_resolve. cbn [resolveToken]. unfold bind at 1.
    rewrite Hr. cbn [resolver_resolve_with]. unfold resolveFactory_with.
    rewrite Hreq. cbn [mapM]. cbv beta iota delta [bind ret].
    rewrite createWhenResolved_nil_state. cbv beta iota.
    cbn [Promise_resolve]. unfold ret. by rewrite Hq. }
  assert (tick st1 = Some (tt, st2)) as H2.
  { unfold tick. cbn [queue st1 runJob]. unfold runReaction.
    cbn [react handler derived apply_args]. unfold callCreate, next_serial, modify.
    cbv beta iota delta [bind]. cbn [serial set_queue st1]. rewrite Hcreate.
    rewrite (resolvePromise_value _ _ Hv). unfold settle.
    cbn [promises emit set_serial set_queue st1].
    rewrite lookup_tail1. cbn -[insert]. rewrite insert_tail1. reflexivity. }
  exists (S (length (promises st))), st1, st2. split_and!; try done.
  - cbn [settlement promises st2]. by rewrite lookup_tail1.
  - cbn [log st2 st1]. by rewrite <- !app_assoc.
Qed.

(** X14: from [register] to the instance.  A factory without dependencies
    whose [create] returns a value, registered for a token that was not
    registered, in a container with no microtask waiting: [register] binds
    the token, [resolve] returns a promise, and after two microtasks the
    promise is fulfilled with the value [create] returned and no microtask
    is left.  [create] has been called once, with no arguments.  A
    transient resolver is as it was; a singleton resolver has cached the
    value, and resolves the token to it from then on without any effect. *)
Theorem register_resolve_round_trip st token f v m :
  isRegistered token st = false -> requires f = [] -> queue st = [] ->
  create f (serial st) [] = CReturn v -> (forall p, v <> VPromise p) ->
  exists st0 d st1 st2 st3,
    register (S m) token f st = Some st0 /\
    Container_resolve (S m) (inl token) st0 = Some (d, st1) /\
    tick st1 = Some (tt, st2) /\ tick st2 = Some (tt, st3) /\
    settlement st3 (VPromise d) = Some (Fulfill v) /\
    queue st3 = [] /\
    ECreate (Some (tok_addr token)) (fid f) (S (length (promises st)))
      (serial st) [] ∈ log st3 /\
    count (created (owned (tok_addr token))) (log st3) =
      S (count (created (owned (tok_addr token))) (log st)) /\
    match lifetime f with
    | Some Transient =>
        registry st3 !! tok_addr token = Some (TransientResolver f)
    | _ =>
        registry st3 !! tok_addr token = Some (SingletonResolver f v true None) /\
        forall m', resolveToken (S m') token st3 = Some (v, st3)
    end.
Proof.
  intros Hreg Hreq Hq Hcreate Hv. apply bool_decide_eq_false in Hreg.
  set (st0 := set_registry (<[tok_addr token := createResolver f]> (registry st)) st).
  assert (register (S m) token f st = Some st0) as H0.
  { unfold register. rewrite bool_decide_eq_false_2 by done.
    unfold findCycle. rewrite Hreq. done. }
  assert (registry st0 !! tok_addr token = Some (createResolver f)) as Hr0
    by apply lookup_insert_eq.
  unfold createResolver in Hr0. destruct (lifetime f) as [[]|] eqn:Hlife.
  - destruct (singleton_round_trip st0 token f VNull v m Hr0 Hreq Hq Hcreate Hv)
      as (d & st1 & st2 & st3 & H1 & H2 & H3 & Hd & Hr3 & Hq3 & Hl3 & _).
    exists st0, d, st1, st2, st3. split_and!; try done.
    + rewrite Hl3. apply elem_of_app. right. set_solver.
    + rewrite Hl3, count_app. cbn [log st0 set_registry count created].
      unfold owned. rewrite bool_decide_eq_true_2 by done. lia.
    + intros m'. cbn [resolveToken]. by rewrite Hr3.
  - destruct (transient_round_trip st0 token f v m Hr0 Hreq Hq Hcreate Hv)
      as (d & st1 & st2 & H1 & H2 & H3 & Hd & Hr3 & Hq3 & Hl3).
    exists st0, d, st1, st2, st2. split_and!; try done.
    + rewrite Hl3. apply elem_of_app. right. set_solver.
    + rewrite Hl3, count_app. cbn [log st0 set_registry count created].
      unfold owned. rewrite bool_decide_eq_true_2 by done. lia.
  - destruct (singleton_round_trip st0 token f VNull v m Hr0 Hreq Hq Hcreate Hv)
      as (d & st1 & st2 & st3 & H1 & H2 & H3 & Hd & Hr3 & Hq3 & Hl3 & _).
    exists st0, d, st1, st2, st3. split_and!; try done.
    + rewrite Hl3. apply elem_of_app. right. set_solver.
    + rewrite Hl3, count_app. cbn [log st0 set_registry count created].
      unfold owned. rewrite bool_decide_eq_true_2 by done. lia.
    + intros m'. cbn [resolveToken]. by rewrite Hr3.
Qed.

Lemma register_resolve_round_trip_witness :
  exists st0 d st1 st2 st3,
    register 1 IBar barFactory initial = Some st0 /\
    Container_resolve 1 (inl IBar) st0 = Some (d, st1) /\
    tick st1 = Some (tt, st2) /\ tick st2 = Some (tt, st3) /\
    settlement st3 (VPromise d) = Some (Fulfill (VObj 0)) /\
    queue st3 = [] /\
    ECreate (Some (tok_addr IBar)) (fid barFactory) (S (length (promises initial)))
      (serial initial) [] ∈ log st3 /\
    count (created (owned (tok_addr IBar))) (log st3) =
      S (count (created (owned (tok_addr IBar))) (log initial)) /\
    match lifetime barFactory with
    | Some Transient =>
        registry st3 !! tok_addr IBar = Some (TransientResolver barFactory)
    | _ =>
        registry st3 !! tok_addr IBar =
          Some (SingletonResolver barFactory (VObj 0) true None) /\
        forall m', resolveToken (S m') IBar st3 = Some (VObj 0, st3)
    end.
Proof.
  apply (register_resolve_round_trip initial IBar barFactory (VObj 0) 0);
    reflexivity || done.
Defined.

(** The first resolution of a singleton without dependencies whose
    [create] throws, step by step. *)
Lemma singleton_failed_trip st token f v0 e m :
  registry st !! tok_addr token = Some (SingletonResolver f v0 false None) ->
  requires f = [] -> queue st = [] ->
  create f (serial st) [] = CThrow e ->
  exists d st1 st2 st3,
    Container_resolve (S m) (inl token) st = Some (d, st1) /\
    tick st1 = Some (tt, st2) /\ tick st2 = Some (tt, st3) /\
    settlement st3 (VPromise d) = Some (Reject e) /\
    registry st3 !! tok_addr token = Some (SingletonResolver f v0 false None) /\
    queue st3 = [] /\ serial st3 = S (serial st) /\
    length (promises st3) = length (promises st) + 3 /\
    log st3 = log st ++
      [EAttempt (Some (tok_addr token)) (fid f) (S (length (promises st))) [];
       ECreate (Some (tok_addr token)) (fid f) (S (length (promises st)))
         (serial st) [];
       ESingletonDone (tok_addr token) false] /\
    d = S (S (length (promises st))).
Proof.
  intros Hr Hreq Hq Hcreate.
  set (n := length (promises st)).
  set (key := tok_addr token).
  set (rS := {| handler := HSingleton key; derived := S (S n) |}).
  set (st1 := {| registry := alter (set_promise (S (S n))) key (registry st);
                 promises := promises st ++
                   [emptyAllCell; {| pstate := Pending [rS]; pkind := Plain |};
                    freshCell];
                 queue := [JReaction (react (HCreate (Some key) f) (S n))
                             (Fulfill (VArr []))];
                 serial := serial st;
                 log := log st ++ [EAttempt (Some key) (fid f) (S n) []] |}).
  set (st2 := {| registry := registry st1;
                 promises := promises st ++
                   [emptyAllCell; {| pstate := Settled (Reject e); pkind := Plain |};
                    freshCell];
                 queue := [JReaction rS (Reject e)];
                 serial := S (serial st);
                 log := log st1 ++ [ECreate (Some key) (fid f) (S n) (serial st) []] |}).
  set (st3 := {| registry := alter on_rejected key (registry st1);
                 promises := promises st ++
                   [emptyAllCell; {| pstate := Settled (Reject e); pkind := Plain |};
                    {| pstate := Settled (Reject e); pkind := Plain |}];
                 queue := [];
                 serial := S (serial st);
                 log := log st2 ++ [ESingletonDone key false] |}).
  assert (Container_resolve (S m) (inl token) st = Some (S (S n), st1)) as H1.
  { unfold Container_resolve. cbn [resolveToken]. unfold bind at 1.
    rewrite Hr. cbn [resolver_resolve_with]. unfold resolveFactory_with.
    rewrite Hreq. cbn [mapM]. cbv beta iota delta [bind ret].
    rewrite createWhenResolved_nil_state. fold n. cbv beta iota.
    unfold then_, update_resolver, alloc, attach, modify.
    cbv beta iota delta [bind ret]. cbn -[lookup insert alter]. rewrite Hq. fold n.
    rewrite <- app_assoc. cbn [app]. unfold n.
    rewrite lookup_tail1. cbn -[insert alter].
    rewrite length_app. cbn -[insert alter].
    rewrite insert_tail1. cbn -[alter].
    replace (length (promises st) + 2) with (S (S (length (promises st)))) by lia.
    reflexivity. }
  assert (tick st1 = Some (tt, st2)) as H2.
  { unfold tick. cbn [queue st1 runJob]. unfold runReaction.
    cbn [react handler derived apply_args]. unfold callCreate, next_serial, modify.
    cbv beta iota delta [bind]. cbn [serial set_queue st1]. rewrite Hcreate.
    unfold settle. cbn [promises emit set_serial set_queue st1].
    unfold n. rewrite lookup_tail1. cbn -[insert]. rewrite insert_tail1.
    reflexivity. }
  assert (tick st2 = Some (tt, st3)) as H3.
  { unfold tick. cbn [queue st2 runJob]. unfold runReaction.
    cbn [rS handler derived]. unfold singletonRejected, update_resolver, modify.
    cbv beta iota delta [bind]. unfold settle.
    cbn [promises emit set_registry set_queue st2].
    unfold n. rewrite lookup_tail2. cbn -[insert alter]. rewrite insert_tail2.
    reflexivity. }
  exists (S (S n)), st1, st2, st3. split_and!; try done.
  - cbn [settlement promises st3]. unfold n. by rewrite lookup_tail2.
  - cbn [registry st3 st1]. unfold key. by rewrite !lookup_alter_eq, Hr.
  - cbn [promises st3]. by rewrite length_app.
  - cbn [log st3 st2 st1]. by rewrite <- !app_assoc.
Qed.

(** X15: a failure of a singleton is not cached.  A singleton resolver
    without dependencies that has resolved nothing, in a container with no
    microtask waiting, whose [create] throws at the first call and returns
    a value at the second: the promise of the first [resolve] is rejected
    with what was thrown and the resolver is as before the call; the second
    [resolve] calls [create] again, its promise is fulfilled with the value
    returned, and the resolver caches that value. *)
Theorem singleton_failure_can_be_retried st token f v0 e v m :
  registry st !! tok_addr token = Some (SingletonResolver f v0 false None) ->
  requires f = [] -> queue st = [] ->
  create f (serial st) [] = CThrow e ->
  create f (S (serial st)) [] = CReturn v -> (forall p, v <> VPromise p) ->
  exists d st1 st2 st3 d' st4 st5 st6,
    Container_resolve (S m) (inl token) st = Some (d, st1) /\
    tick st1 = Some (tt, st2) /\ tick st2 = Some (tt, st3) /\
    settlement st3 (VPromise d) = Some (Reject e) /\
    registry st3 !! tok_addr token = Some (SingletonResolver f v0 false None) /\
    Container_resolve (S m) (inl token) st3 = Some (d', st4) /\
    tick st4 = Some (tt, st5) /\ tick st5 = Some (tt, st6) /\
    d' <> d /\
    settlement st6 (VPromise d') = Some (Fulfill v) /\
    settlement st6 (VPromise d) = Some (Reject e) /\
    registry st6 !! tok_addr token = Some (SingletonResolver f v true None) /\
    count (created (owned (tok_addr token))) (log st6) =
      2 + count (created (owned (tok_addr token))) (log st).
Proof.
  intros Hr Hreq Hq Hthrow Hret Hv.
  destruct (singleton_failed_trip st token f v0 e m Hr Hreq Hq Hthrow)
    as (d & st1 & st2 & st3 & H1 & H2 & H3 & Hd & Hr3 & Hq3 & Hs3 & Hlen3 & Hl3 & ->).
  rewrite <- Hs3 in Hret.
  destruct (singleton_round_trip st3 token f v0 v m Hr3 Hreq Hq3 Hret Hv)
    as (d' & st4 & st5 & st6 & H4 & H5 & H6 & Hd' & Hr6 & Hq6 & Hl6 & -> & Hkeep).
  eexists _, st1, st2, st3, _, st4, st5, st6. split_and!; try done.
  - lia.
  - simpl in Hd. simpl.
    destruct (promises st3 !! S (S (length (promises st)))) as [c|] eqn:Hc; [|done].
    by rewrite (Hkeep _ _ Hc).
  - rewrite Hl6, Hl3, !count_app. cbn [count created]. unfold owned.
    rewrite !bool_decide_eq_true_2 by done. lia.
Qed.

Lemma singleton_failure_can_be_retried_witness :
  exists d st1 st2 st3 d' st4 st5 st6,
    Container_resolve 1 (inl IFlaky) flakyRegistered = Some (d, st1) /\
    tick st1 = Some (tt, st2) /\ tick st2 = Some (tt, st3) /\
    settlement st3 (VPromise d) = Some (Reject (VError "not yet")) /\
    registry st3 !! tok_addr IFlaky =
      Some (SingletonResolver flakyFactory VNull false None) /\
    Container_resolve 1 (inl IFlaky) st3 = Some (d', st4) /\
    tick st4 = Some (tt, st5) /\ tick st5 = Some (tt, st6) /\
    d' <> d /\
    settlement st6 (VPromise d') = Some (Fulfill (VObj 1)) /\
    settlement st6 (VPromise d) = Some (Reject (VError "not yet")) /\
    registry st6 !! tok_addr IFlaky =
      Some (SingletonResolver flakyFactory (VObj 1) true None) /\
    count (created (owned (tok_addr IFlaky))) (log st6) =
      2 + count (created (owned (tok_addr IFlaky))) (log flakyRegistered).
Proof.
  apply (singleton_failure_can_be_retried flakyRegistered IFlaky flakyFactory
           VNull (VError "not yet") (VObj 1) 0); reflexivity || done.
Defined.

(** *** A [create] that returns a promise *)

Lemma lookup_tail3 {A} (l cs : list A) :
  (l ++ cs) !! S (S (S (length l))) = cs !! 3.
Proof. rewrite lookup_app_r by lia. f_equal. lia. Qed.

Lemma insert_tail3 {A} (l cs : list A) x :
  <[S (S (S (length l))) := x]> (l ++ cs) = l ++ <[3 := x]> cs.
Proof. rewrite <- insert_app_r. f_equal. lia. Qed.

Lemma settle_as p s :
  settlement_ok s ->
  match s with
  | Fulfill v => resolvePromise p v
  | Reject e => settle p (Reject e)
  end = settle p s.
Proof. destruct s as [v|e]; [|done]. intros Hv. by destruct v. Qed.

(** X16: a promise returned by [create] is awaited.  For a factory without
    dependencies, resolved directly while no microtask is waiting, whose
    [create] returns a promise of its own: after the callback and the
    adoption have run, the promise of the resolution is still pending and
    nothing is queued; when the caller's code settles its promise, the next
    microtask settles the promise of the resolution in the same way, with
    the same value or the same error. *)
Theorem created_promise_is_awaited st f s m :
  requires f = [] -> queue st = [] -> create f (serial st) [] = CAsync ->
  settlement_ok s ->
  exists d p st1 st2 st3 st4 st5,
    Container_resolve m (inr f) st = Some (d, st1) /\
    tick st1 = Some (tt, st2) /\ tick st2 = Some (tt, st3) /\
    pkind <$> promises st3 !! p = Some External /\
    settlement st3 (VPromise p) = None /\
    settlement st3 (VPromise d) = None /\
    queue st3 = [] /\
    settleExternal p s st3 = Some (tt, st4) /\
    settlement st4 (VPromise p) = Some s /\
    tick st4 = Some (tt, st5) /\
    settlement st5 (VPromise d) = Some s /\
    queue st5 = [] /\
    log st5 = log st ++ [EAttempt None (fid f) d []; ECreate None (fid f) d (serial st) []].
Proof.
  intros Hreq Hq Hcreate Hs.
  set (n := length (promises st)).
  set (rA := {| handler := HAdopt (S n); derived := S (S (S n)) |}).
  set (external := fun ps => {| pstate := ps; pkind := External |}).
  set (plain := fun ps => {| pstate := ps; pkind := Plain |}).
  set (st1 := {| registry := registry st;
                 promises := promises st ++ [emptyAllCell; freshCell];
                 queue := [JReaction (react (HCreate None f) (S n)) (Fulfill (VArr []))];
                 serial := serial st;
                 log := log st ++ [EAttempt None (fid f) (S n) []] |}).
  set (st2 := {| registry := registry st;
                 promises := promises st ++
                   [emptyAllCell; freshCell; external (Pending [])];
                 queue := [JThenable (S n) (S (S n))];
                 serial := S (serial st);
                 log := log st1 ++ [ECreate None (fid f) (S n) (serial st) []] |}).
  set (st3 := {| registry := registry st;
                 promises := promises st ++
                   [emptyAllCell; freshCell; external (Pending [rA]); freshCell];
                 queue := [];
                 serial := S (serial st);
                 log := log st2 |}).
  set (st4 := {| registry := registry st;
                 promises := promises st ++
                   [emptyAllCell; freshCell; external (Settled s); freshCell];
                 queue := [JReaction rA s];
                 serial := S (serial st);
                 log := log st2 |}).
  set (st5 := {| registry := registry st;
                 promises := promises st ++
                   [emptyAllCell; plain (Settled s); external (Settled s);
                    plain (Settled (Fulfill VUndefined))];
                 queue := [];
                 serial := S (serial st);
                 log := log st2 |}).
  assert (Container_resolve m (inr f) st = Some (S n, st1)) as H1.
  { unfold Container_resolve, resolveFactory, resolveFactory_with.
    rewrite Hreq. cbn [mapM]. cbv beta iota delta [bind ret].
    rewrite createWhenResolved_nil_state. cbv beta iota.
    cbn [Promise_resolve]. unfold ret. by rewrite Hq. }
  assert (tick st1 = Some (tt, st2)) as H2.
  { unfold tick. cbn [queue st1 runJob]. unfold runReaction.
    cbn [react handler derived apply_args]. unfold callCreate, next_serial, modify.
    cbv beta iota delta [bind]. cbn [serial set_queue st1]. rewrite Hcreate.
    unfold alloc. cbv beta iota delta [bind].
    cbn [resolvePromise promises emit set_serial set_queue st1].
    rewrite length_app. cbn [length]. rewrite decide_False by (unfold n; lia).
    unfold enqueue, modify. cbn -[app]. rewrite <- app_assoc. cbn [app]. unfold n.
    replace (length (promises st) + 2) with (S (S (length (promises st)))) by lia.
    reflexivity. }
  assert (tick st2 = Some (tt, st3)) as H3.
  { unfold tick. cbn [queue st2 runJob]. unfold then_, alloc, attach.
    cbv beta iota delta [bind ret]. cbn [promises set_queue set_promises st2].
    rewrite length_app. cbn [length]. rewrite <- app_assoc. cbn [app]. unfold n.
    rewrite lookup_tail2. cbn -[insert]. rewrite insert_tail2. cbn [insert list_insert].
    replace (length (promises st) + 3) with (S (S (S (length (promises st))))) by lia.
    reflexivity. }
  assert (forall t, match s with
                    | Fulfill v => resolvePromise t v
                    | Reject e => settle t (Reject e)
                    end = settle t s) as Hsettle by (intros t; by apply settle_as).
  assert (settleExternal (S (S n)) s st3 = Some (tt, st4)) as H4.
  { unfold settleExternal. cbn [promises st3]. unfold n. rewrite lookup_tail2.
    cbn -[insert].
    transitivity (settle (S (S (length (promises st)))) s st3);
      [destruct s; [by rewrite <- (Hsettle _)|done]|].
    unfold settle. cbn [promises st3]. rewrite lookup_tail2. cbn -[insert].
    rewrite insert_tail2. reflexivity. }
  assert (tick st4 = Some (tt, st5)) as H5.
  { unfold tick. cbn [queue st4 runJob]. unfold runReaction. cbn [rA handler derived].
    transitivity ((let* _ := settle (S n) s in resolvePromise (S (S (S n))) VUndefined)
                    (set_queue [] st4));
      [destruct s; [by rewrite <- (Hsettle _)|done]|].
    unfold bind, settle. cbn [promises set_queue st4]. unfold n.
    rewrite lookup_tail1. cbn -[insert]. rewrite insert_tail1.
    cbn [resolvePromise insert list_insert]. unfold settle.
    cbn [promises set_queue set_promises]. rewrite lookup_tail3. cbn -[insert].
    rewrite insert_tail3. reflexivity. }
  exists (S n), (S (S n)), st1, st2, st3, st4, st5. split_and!; try done.
  - cbn [promises st3]. unfold n. by rewrite lookup_tail2.
  - cbn [settlement promises st3]. unfold n. by rewrite lookup_tail2.
  - cbn [settlement promises st3]. unfold n. by rewrite lookup_tail1.
  - cbn [settlement promises st4]. unfold n. by rewrite lookup_tail2.
  - cbn [settlement promises st5]. unfold n. by rewrite lookup_tail1.
  - cbn [log st5 st2 st1]. by rewrite <- !app_assoc.
Qed.

Lemma created_promise_is_awaited_witness :
  exists d p st1 st2 st3 st4 st5,
    Container_resolve 0 (inr laterFactory) initial = Some (d, st1) /\
    tick st1 = Some (tt, st2) /\ tick st2 = Some (tt, st3) /\
    pkind <$> promises st3 !! p = Some External /\
    settlement st3 (VPromise p) = None /\
    settlement st3 (VPromise d) = None /\
    queue st3 = [] /\
    settleExternal p (Fulfill (VStr "late")) st3 = Some (tt, st4) /\
    settlement st4 (VPromise p) = Some (Fulfill (VStr "late")) /\
    tick st4 = Some (tt, st5) /\
    settlement st5 (VPromise d) = Some (Fulfill (VStr "late")) /\
    queue st5 = [] /\
    log st5 = log initial ++ [EAttempt None (fid laterFactory) d [];
                              ECreate None (fid laterFactory) d (serial initial) []].
Proof.
  apply (created_promise_is_awaited initial laterFactory (Fulfill (VStr "late")) 0);
    reflexivity || done.
Defined.

